(** * COLIBRI: the Halofit operator of [colibri/nonlinear.py]

    A shallow embedding of the classes [halofit_operator] and [nonlinear_pk]
    and the properties of their constructors and of the tables they build.

    Numbers.  A Python/NumPy float is modelled as a real number: [+], [-],
    [*], [/] are the field operations of [R], [np.exp], [np.log], [np.sin],
    [np.cos], [np.tanh], [np.sqrt] are the functions of the same name.
    Rounding, overflow and underflow are outside the model.  The special
    values [inf] and [nan] are modelled only in module [IEEE], which is used
    to evaluate [u_NFW] at the one abscissa where the quotient is [0/0].

    Arrays.  A one-dimensional array is a [list R]; a table indexed by
    redshift and mass (or wavenumber) is a list of rows.  The input power
    spectrum is a two-dimensional array with its shape ([array2]).

    Exceptions.  A computation that may raise returns a [result]: the
    value it returns or the exception it raises.  The constructors are
    sequences of such computations, in the order of the statements of
    [__init__].  A division of Python floats by zero raises
    [ZeroDivisionError] and reading an attribute that an object lacks
    raises [AttributeError]; a NumPy division by zero warns, gives [inf]
    or [nan] and raises nothing.

    Collaborators.  The [cosmo] instance, [colibri.useful_functions] and
    the SciPy routines are parameters of the model ([cosmo], [library]). *)

From Stdlib Require Import String.
From Stdlib Require Import Reals Lra Lia List Bool Arith PeanoNat.
Import ListNotations.
Open Scope R_scope.

(* ================================================================== *)
(** ** Python exceptions *)
(* ================================================================== *)

Module Py.

Inductive exn : Set :=
| AssertionError
| IndexError
| ValueError
| NameError
| KeyError
| AttributeError
| ZeroDivisionError.

Inductive result (A : Type) : Type :=
| Return (a : A)
| Raise (e : exn).
Arguments Return {A} a.
Arguments Raise {A} e.

Definition bind {A B} (m : result A) (f : A -> result B) : result B :=
  match m with
  | Return a => f a
  | Raise e => Raise e
  end.

(** [assert c]: raises [AssertionError] when [c] is false (the
    interpreter is not run with [-O]). *)
Definition assert (c : bool) : result unit :=
  if c then Return tt else Raise AssertionError.

(** The callable of [scipy.interpolate.interp1d] raises [ValueError]
    outside the tabulated range; [None] stands for that exception. *)
Definition of_option {A} (o : option A) : result A :=
  match o with
  | Some a => Return a
  | None => Raise ValueError
  end.

(** [obj.name] for an attribute that [obj] may lack: [None] is the
    missing attribute, and reading it raises [AttributeError]. *)
Definition getattr {A} (o : option A) : result A :=
  match o with
  | Some a => Return a
  | None => Raise AttributeError
  end.

(** [x / y] on Python floats: [ZeroDivisionError] on a zero divisor.  (A
    NumPy float divided by zero is [inf] or [nan] with a warning, and
    raises nothing.) *)
Definition pydiv (x y : R) : result R :=
  if Req_dec_T y 0 then Raise ZeroDivisionError else Return (x / y).

Fixpoint mapM {A B} (f : A -> result B) (l : list A) : result (list B) :=
  match l with
  | [] => Return []
  | a :: l' =>
      bind (f a) (fun b => bind (mapM f l') (fun bs => Return (b :: bs)))
  end.

Fixpoint zipM {A B C} (f : A -> B -> result C) (a : list A) (b : list B)
  : result (list C) :=
  match a, b with
  | x :: a', y :: b' =>
      bind (f x y) (fun c => bind (zipM f a' b') (fun cs => Return (c :: cs)))
  | _, _ => Return []
  end.

End Py.
Import Py.

Declare Scope py_scope.
Delimit Scope py_scope with py.
Notation "x <- m ;; k" := (bind m (fun x => k))
  (at level 61, m at next level, right associativity) : py_scope.
Notation "m ;;; k" := (bind m (fun _ => k))
  (at level 61, right associativity) : py_scope.

(* ================================================================== *)
(** ** NumPy on lists of reals *)
(* ================================================================== *)

Module Np.

Definition Rltb (a b : R) : bool := if Rlt_dec a b then true else false.
Definition Rleb (a b : R) : bool := if Rle_dec a b then true else false.

(** [x ** y] for a float exponent: [exp (y * ln x)] on a positive base,
    [0 ** y] is [0] for [y > 0] and [1] for [y = 0]; a negative base with
    an exponent that is not an integer is [nan] in NumPy and outside the
    model.  The integer exponents [**2.], [**3.] and [**(-1)] of the
    source are written [^ 2], [^ 3] and [/ _]; [** 0.5] and [**.5] are
    [sqrt]. *)
Definition power (x y : R) : R :=
  if Req_dec_T x 0 then (if Req_dec_T y 0 then 1 else 0) else Rpower x y.

Definition log10 (x : R) : R := ln x / ln 10.

(** [a.max()] and [a.min()]: [ValueError] on an empty array. *)
Definition amax (a : list R) : result R :=
  match a with
  | [] => Raise ValueError
  | x :: a' => Return (fold_left Rmax a' x)
  end.

Definition amin (a : list R) : result R :=
  match a with
  | [] => Raise ValueError
  | x :: a' => Return (fold_left Rmin a' x)
  end.

(** Elementwise binary operation on two one-dimensional arrays with
    NumPy's broadcasting rule: equal lengths, or one of them of length 1;
    any other pair of lengths raises [ValueError]. *)
Definition broadcast {A} (f : A -> A -> result A) (a b : list A)
  : result (list A) :=
  if (length a =? length b)%nat then zipM f a b
  else match a, b with
       | [x], _ => mapM (f x) b
       | _, [y] => mapM (fun x => f x y) a
       | _, _ => Raise ValueError
       end.

Definition lift2 (f : R -> R -> R) (x y : R) : result R := Return (f x y).

Definition vadd := broadcast (lift2 Rplus).
Definition vsub := broadcast (lift2 Rminus).
Definition vmul := broadcast (lift2 Rmult).
Definition vdiv := broadcast (lift2 Rdiv).

(** The same rule one axis up, for tables given as lists of rows. *)
Definition madd := broadcast vadd.

Definition scale (s : R) (a : list R) : list R := map (Rmult s) a.
Definition mscale (s : R) (a : list (list R)) : list (list R) :=
  map (scale s) a.

(** [np.diff]. *)
Fixpoint diff (x : list R) : list R :=
  match x with
  | x0 :: ((x1 :: _) as x') => (x1 - x0) :: diff x'
  | _ => []
  end.

Definition sum (a : list R) : R := fold_right Rplus 0 a.

(** [np.trapz(y, x = x)] on arrays of one length: the sum of
    [(x[i+1] - x[i]) * (y[i+1] + y[i]) / 2]. *)
Fixpoint trapz (y x : list R) : R :=
  match y, x with
  | y0 :: ((y1 :: _) as y'), x0 :: ((x1 :: _) as x') =>
      (x1 - x0) * (y1 + y0) / 2 + trapz y' x'
  | _, _ => 0
  end.

(** [np.trapz(y, x = x)] as NumPy computes it,
    [(diff(x) * (y[1:] + y[:-1]) / 2.0).sum()], with the broadcasting of
    the two products; it raises when the lengths do not fit. *)
Definition trapz_x (y x : list R) : result R :=
  (s <- vadd (tl y) (removelast y) ;;
   p <- vmul (diff x) s ;;
   Return (sum (map (fun v => v / 2) p)))%py.

(** [np.trapz(y, dx = dx)]. *)
Fixpoint trapz_dx (y : list R) (dx : R) : R :=
  match y with
  | y0 :: ((y1 :: _) as y') => dx * (y1 + y0) / 2 + trapz_dx y' dx
  | _ => 0
  end.

(** [np.linspace(start, stop, num)] and [np.logspace(start, stop, num)]. *)
Definition linspace (start stop : R) (num : nat) : list R :=
  map (fun i => start + INR i * ((stop - start) / INR (num - 1)))
      (seq 0 num).

Definition logspace (start stop : R) (num : nat) : list R :=
  map (fun y => Rpower 10 y) (linspace start stop num).

Arguments linspace : simpl never.
Arguments logspace : simpl never.

(** [np.gradient(f, h, edge_order = 2)] on a uniform grid of step [h]:
    central differences inside, second-order one-sided differences at the
    two ends. *)
Definition gradient (f : list R) (h : R) : list R :=
  let n := length f in
  let at_ i := nth i f 0 in
  map (fun i =>
         if (i =? 0)%nat then
           (-(3/2) / h) * at_ 0%nat + (2 / h) * at_ 1%nat
           + (-(1/2) / h) * at_ 2%nat
         else if (i =? n - 1)%nat then
           ((1/2) / h) * at_ (n - 3)%nat + (-2 / h) * at_ (n - 2)%nat
           + ((3/2) / h) * at_ (n - 1)%nat
         else (at_ (i + 1)%nat - at_ (i - 1)%nat) / (2 * h))
      (seq 0 n).

(** A two-dimensional array: its rows and the length every row has. *)
Record array2 : Type := Array2 {
  rows : list (list R);
  ncols : nat;
  rect : Forall (fun r => length r = ncols) rows
}.

(** [np.shape(a)] *)
Definition shape (a : array2) : nat * nat := (length (rows a), ncols a).

(** [a[i]]: [IndexError] when [i] is not a row of [a]. *)
Definition getrow (a : array2) (i : nat) : result (list R) :=
  match nth_error (rows a) i with
  | Some r => Return r
  | None => Raise IndexError
  end.

(** [np.zeros_like(a)] *)
Definition zeros_like (a : array2) : array2 :=
  Array2 (map (fun _ => repeat 0 (ncols a)) (rows a)) (ncols a)
    ltac:(apply Forall_forall; intros r Hr; apply in_map_iff in Hr;
          destruct Hr as [x [<- _]]; apply repeat_length).

End Np.
Import Np.
Local Open Scope py_scope.

(** [for i in xrange(n)] filling the rows of a table. *)
Definition tabulate {A} (n : nat) (f : nat -> A) : list A := map f (seq 0 n).

Fixpoint zipWith {A B C} (f : A -> B -> C) (a : list A) (b : list B)
  : list C :=
  match a, b with
  | x :: a', y :: b' => f x y :: zipWith f a' b'
  | _, _ => []
  end.

(** [a[i]], [a[i, j]] and [a[i, j, l]] where the index is in range. *)
Definition at1 (a : list R) (i : nat) : R := nth i a 0.
Definition at2 (a : list (list R)) (i j : nat) : R := nth j (nth i a []) 0.
Definition at3 (a : list (list (list R))) (i j l : nat) : R :=
  nth l (nth j (nth i a []) []) 0.

(** A Python dictionary with string keys: [d[key]] raises [KeyError] on a
    missing key. *)
Definition dict : Type := list (string * array2).

Fixpoint dict_get (d : dict) (key : string) : result array2 :=
  match d with
  | [] => Raise KeyError
  | (k', v) :: d' => if String.eqb k' key then Return v else dict_get d' key
  end.

(** [x in l] for a list of strings. *)
Definition str_in (x : string) (l : list string) : bool :=
  existsb (String.eqb x) l.

(* ================================================================== *)
(** ** Collaborators *)
(* ================================================================== *)

Definition kwargs : Type := list (string * R).

(** The [cosmo] instance of [colibri/cosmology.py], as [nonlinear.py]
    reads it: the scalars fixed at construction and the methods called.
    Of the attributes that [halofit_operator.__init__] copies, every one
    is set by [cosmo.__init__] on every instance except [log10_As], which
    is set only when [As] is given: [None] is the instance without it. *)
Record cosmo : Type := {
  Omega_m : R;
  Omega_cb : R;
  f_nu_tot : R;
  f_cb : R;
  log10_As : option R;
  rho_crit : R -> R;
  Omega_m_z : R -> R;
  D_1 : R -> R;
  compute_sigma_8 : list R -> list R -> R;
  remove_bao : list R -> list R -> result (list R);
  (** [camb_XPk(k, z, nonlinear = False, var_1 = ['cb','nu'],
      var_2 = ['cb','nu'], **kwargs)[1]], and the same for CLASS *)
  camb_XPk : list R -> list R -> kwargs -> result dict;
  class_XPk : list R -> list R -> kwargs -> result dict;
  (** [EisensteinHu_Pk(k, z, **kwargs)[1]] *)
  EisensteinHu_Pk : list R -> list R -> kwargs -> result array2
}.

(** What [nonlinear.py] calls outside the repository's [cosmology.py]:
    [colibri.useful_functions] ([UF]) and SciPy. *)
Record library : Type := {
  (** [UF.extrapolate_log(x, y, xmin, xmax)] *)
  extrapolate_log : list R -> list R -> R -> R -> list R * list R;
  (** [UF.TopHat_window(x)] *)
  TopHat_window : R -> R;
  (** [si.interp1d(x, y, 'cubic')], once built, called at one abscissa:
      [None] is the [ValueError] of an abscissa outside the range of [x]. *)
  interp1d : list R -> list R -> R -> option R;
  (** [scipy.optimize.root(f, x0)['x'][0]]: [None] is the [ValueError]
      that [f] raised during the iteration. *)
  optimize_root : (R -> option R) -> R -> option R;
  (** [si.UnivariateSpline(x, y, k = 4, s = 0).derivative()] *)
  spline_derivative : list R -> list R -> R -> R;
  (** [scipy.special.sici(x)] at [x <> 0] *)
  Si : R -> R;
  Ci : R -> R;
  (** [scipy.special.gamma] *)
  gamma : R -> R
}.

(* ================================================================== *)
(** ** The class [halofit_operator] *)
(* ================================================================== *)

(** The attributes of an instance once [__init__] has returned. *)
Record halofit_operator : Type := {
  z : list R;
  k : list R;
  nz : nat;
  nk : nat;
  pk : list (list R);
  pk_nw : list (list R);
  pk_dw : list (list R);
  rho_field : R;
  mass : list R;
  lnmass : list R;
  dlnm : R;
  nm : nat;
  rr : list R;
  sig8 : list R;
  sig2 : list (list R);
  sigd100 : list R;
  sigd : list R;
  omz : list R;
  ocz : list R;
  Deltav : list R;
  deltac : list R;
  fdamp : list R;
  eta : list R;
  k_star : list R;
  nu : list (list R);
  zf : list (list R);
  n_eff : list R;
  conc : list (list R);
  rv : list (list R);
  alpha : list R;
  rs : list (list R);
  pk_1h : list (list R);
  pk_2h : list (list R);
  pk_nl : list (list R)
}.

(** The attributes [__init__] has set when it calls
    [compute_nonlinear_pk]. *)
Record grids : Type := {
  g_z : list R;
  g_k : list R;
  g_nz : nat;
  g_nk : nat;
  g_pk : list (list R);
  g_pk_nw : list (list R);
  g_pk_dw : list (list R);
  g_rho_field : R;
  g_mass : list R;
  g_lnmass : list R;
  g_dlnm : R;
  g_nm : nat;
  g_rr : list R
}.

Section Halofit.

Variable lib : library.
Variable cosmology : cosmo.

(** [self.A_bar]: minimum halo concentration by Mead et al. *)
Definition A_bar : R := 3.13.

(** [radius_of_mass]: [(3.*M/(4.*np.pi*self.rho_field))**(1./3.)] *)
Definition radius_of_mass (rho : R) (M : R) : R :=
  power (3 * M / (4 * PI * rho)) (1 / 3).

(** [sigma2(k, pk)]: mass variance in spheres of the radii [self.rr]. *)
Definition sigma2 (rr_ : list R) (k_ pk_ : list R) : list R :=
  let '(k_ext, pk_ext) := extrapolate_log lib k_ pk_ 1e-6 1e8 in
  let kappa := k_ext in
  let P_kappa := pk_ext in
  let dlnk := ln (at1 kappa 1 / at1 kappa 0) in
  map (fun r =>
         let integrand :=
           zipWith (fun kp P =>
                      kp ^ 3 * P / (2 * PI ^ 2)
                      * TopHat_window lib (kp * r) ^ 2)
                   kappa P_kappa in
         trapz_dx integrand dlnk)
      rr_.

(** [sigma_d(R)]: displacement with a window of size [R], per redshift. *)
Definition sigma_d (nz_ : nat) (k_ : list R) (pk_ : list (list R)) (R_ : R)
  : list R :=
  tabulate nz_ (fun i =>
    let '(k_ext, pk_ext) := extrapolate_log lib k_ (nth i pk_ []) 1e-6 1e8 in
    let dlnk := ln (at1 k_ext 1 / at1 k_ext 0) in
    let integrand :=
      zipWith (fun kp P =>
                 1 / 3 * kp ^ 3 * P / (2 * PI ^ 2) / kp ^ 2
                 * TopHat_window lib (kp * R_) ^ 2)
              k_ext pk_ext in
    sqrt (trapz_dx integrand dlnk)).

(** [delta_c(sig8, omm)] *)
Definition delta_c (sig8_ omm : R) : R :=
  (1.59 + 0.0314 * ln sig8_) * (1 + 0.0123 * log10 omm)
  * (1 + 0.262 * f_nu_tot cosmology).

(** [Delta_v(omm)] *)
Definition Delta_v (omm : R) : R :=
  418 * power omm (-0.352) * (1 + 0.916 * f_nu_tot cosmology).

(** [alp(neff)]: [3.24*1.85**neff] *)
Definition alp (neff : R) : R := 3.24 * power 1.85 neff.

(** [fd(sigd100)] *)
Definition fd (sigd100_ : R) : R := 0.0095 * power sigd100_ 1.37.

(** [eta_bloat(sig8)] *)
Definition eta_bloat (sig8_ : R) : R := 0.98 - 0.12 * A_bar - 0.3 * sig8_.

(** [k_s(sigd)]: [0.584*sigd**(-1)] *)
Definition k_s (sigd_ : R) : R := 0.584 * / sigd_.

(** [u_NFW(c, x)] at one abscissa [x]. *)
Definition u_NFW (c x : R) : R :=
  let Si_1 := Si lib x in
  let Ci_1 := Ci lib x in
  let Si_2 := Si lib ((1 + c) * x) in
  let Ci_2 := Ci lib ((1 + c) * x) in
  let den := ln (1 + c) - c * 1 / (1 + c) in
  let num1 := sin x * (Si_2 - Si_1) in
  let num2 := sin (c * x) in
  let num3 := cos x * (Ci_2 - Ci_1) in
  1 / den * (num1 + num3 - num2 * 1 / ((1 + c) * x)).

(** The body of the loop on [im] in [z_form]:
    [try: res = zf_D(rhs); if zf_D(rhs) < z: res = z]
    [except ValueError: res = z]. *)
Definition z_form_clamp (zf_D : R -> option R) (rhs z_ : R) : R :=
  match zf_D rhs with
  | Some v => if Rlt_dec v z_ then z_ else v
  | None => z_
  end.

(** [z_form()]: redshift of formation, a table over redshift and mass. *)
Definition z_form (nz_ : nat) (z_ mass_ : list R) (sig2_ : list (list R))
  (deltac_ : list R) : result (list (list R)) :=
  let frac := 0.01 in
  let fm := map (Rmult frac) mass_ in
  let z_tmp := linspace 0 30 1001 in
  let Dzf := map (D_1 cosmology) z_tmp in
  let zf_D := interp1d lib Dzf z_tmp in
  mapM (fun iz =>
          let '(m_ext, sig_ext) :=
            extrapolate_log lib mass_ (map sqrt (nth iz sig2_ []))
              (1e-1 * frac * at1 mass_ 0) (1e1 * last mass_ 0) in
          let sig_int := interp1d lib m_ext sig_ext in
          s_fmz <- mapM (fun m => of_option (sig_int m)) fm ;;
          let rhs :=
            map (fun s => D_1 cosmology (at1 z_ iz) * at1 deltac_ iz / s)
                s_fmz in
          Return (map (fun r => z_form_clamp zf_D r (at1 z_ iz)) rhs))
       (seq 0 nz_).

(** [c_bull(zf, z)] *)
Definition c_bull (zf_ z_ : R) : R := A_bar * (1 + zf_) / (1 + z_).

(** [ST_mass_fun(nu)] *)
Definition ST_mass_fun (nu_ : R) : R :=
  let a := 0.707 in
  let p := 0.3 in
  let n := nu_ ^ 2 in
  let A := 1 / (1 + power 2 (- p) * gamma lib (0.5 - p) / sqrt PI) in
  A * sqrt (2 * a * n / PI) * (1 + 1 / power (a * nu_ ^ 2) p)
  * exp (- a * nu_ ^ 2 / 2).

(** [dndM()]: the halo mass function on the mass grid, per redshift. *)
Definition dndM (nz_ : nat) (rho : R) (mass_ : list R) (dlnm_ : R)
  (nu_ : list (list R)) : list (list R) :=
  let m := mass_ in
  tabulate nz_ (fun i =>
    let nu_i := nth i nu_ [] in
    let log_der := zipWith Rdiv (gradient nu_i dlnm_) nu_i in
    let mass_fun := map ST_mass_fun nu_i in
    zipWith Rmult
      (zipWith (fun mj ld => rho / mj ^ 2 * ld) m log_der) mass_fun).

(** The mass at which [sigma(M) = delta_c]: the root of the cubic
    interpolant of [sig2 - deltac**2] over [log10(mass)], searched from
    the seed [13 - 1.75*(1+z)]; on [ValueError] the seed itself. *)
Definition M_1_of (mass_ sig2_i : list R) (deltac_i z_i : R) : R :=
  let sig_int_2 :=
    interp1d lib (map log10 mass_)
             (map (fun s => s - deltac_i ^ 2) sig2_i) in
  match optimize_root lib sig_int_2 (13 - 1.75 * (1 + z_i)) with
  | Some x => power 10 x
  | None => power 10 (13 - 1.75 * (1 + z_i))
  end.

(** [self.n_eff[i]]: from the derivative of the spline of [ln sig2] over
    [ln mass], taken at [ln M_1]. *)
Definition n_eff_of (mass_ lnmass_ sig2_i : list R) (deltac_i z_i : R) : R :=
  let M_1 := M_1_of mass_ sig2_i deltac_i z_i in
  let spl_logder := spline_derivative lib lnmass_ (map ln sig2_i) in
  let logder := spl_logder (ln M_1) in
  - 3 - 3 * logder.

(** [self.pk_1h[iz]]: for every [ik] the integral over the mass grid of
    [((self.mass/self.rho_field)**2.*hmf[iz]*u[iz,:,ik]**2.)*self.mass],
    then the damping
    [self.pk_1h[iz] *= (1. - np.exp(-self.k/self.k_star[iz])**2.)**3.] *)
Definition pk_1h_row (mass_ : list R) (rho : R) (hmf_iz : list R)
  (u_iz : list (list R)) (k_ : list R) (k_star_iz : R) : list R :=
  let row :=
    tabulate (length k_) (fun ik =>
      let integrand :=
        tabulate (length mass_) (fun j =>
          ((at1 mass_ j / rho) ^ 2 * at1 hmf_iz j * at2 u_iz j ik ^ 2)
          * at1 mass_ j) in
      trapz integrand (map ln mass_)) in
  zipWith (fun p kk => p * (1 - exp (- kk / k_star_iz) ^ 2) ^ 3) row k_.

(** [self.pk_2h[iz] = self.pk_dw[iz]*(1.-self.fdamp[iz]*tanh2[iz])] with
    [tanh2[iz] = np.tanh(self.k*self.sigd[iz]/np.sqrt(self.fdamp[iz]))**2.] *)
Definition pk_2h_row (pk_dw_iz k_ : list R) (sigd_iz fdamp_iz : R) : list R :=
  let tanh2 := map (fun kk => tanh (kk * sigd_iz / sqrt fdamp_iz) ^ 2) k_ in
  zipWith (fun p t => p * (1 - fdamp_iz * t)) pk_dw_iz tanh2.

(** [self.pk_nl[iz] = (self.pk_1h[iz]**self.alpha[iz]
                      + self.pk_2h[iz]**self.alpha[iz])**(1./self.alpha[iz])] *)
Definition pk_nl_row (pk_1h_iz pk_2h_iz : list R) (alpha_iz : R) : list R :=
  zipWith (fun p1 p2 =>
             power (power p1 alpha_iz + power p2 alpha_iz) (1 / alpha_iz))
          pk_1h_iz pk_2h_iz.

(** [R_bloat = self.nu**eta_tmp*self.rs], with [eta_tmp[i, j] = eta[i]]. *)
Definition R_bloat_table (nz_ : nat) (nu_ : list (list R)) (eta_ : list R)
  (rs_ : list (list R)) : list (list R) :=
  tabulate nz_ (fun i =>
    zipWith (fun nu_ij rs_ij => power nu_ij (at1 eta_ i) * rs_ij)
            (nth i nu_ []) (nth i rs_ [])).

(** [u[i,j] = self.u_NFW(self.conc[i,j], self.k*R_bloat[i,j])] *)
Definition u_table (nz_ nm_ : nat) (conc_ R_bloat : list (list R))
  (k_ : list R) : list (list (list R)) :=
  tabulate nz_ (fun i =>
    tabulate nm_ (fun j =>
      map (fun kk => u_NFW (at2 conc_ i j) (kk * at2 R_bloat i j)) k_)).

(** [compute_nonlinear_pk()] *)
Definition compute_nonlinear_pk (self : grids) : result halofit_operator :=
  let nz_ := g_nz self in
  let nm_ := g_nm self in
  let z_ := g_z self in
  let k_ := g_k self in
  let mass_ := g_mass self in
  let rho := g_rho_field self in
  (* sigma8 and sigma^2 *)
  let sig8_ :=
    tabulate nz_ (fun i =>
      compute_sigma_8 cosmology k_ (nth i (g_pk self) [])) in
  let sig2_ :=
    tabulate nz_ (fun i => sigma2 (g_rr self) k_ (nth i (g_pk self) [])) in
  (* sigma_d at R = 100 and R = 0 *)
  let sigd100_ := sigma_d nz_ k_ (g_pk self) 100 in
  let sigd_ := sigma_d nz_ k_ (g_pk self) 1e-3 in
  (* Omega_m(z) *)
  let omz_ := map (Omega_m_z cosmology) z_ in
  let ocz_ :=
    map (fun zi =>
           Omega_m_z cosmology zi * Omega_cb cosmology / Omega_m cosmology)
        z_ in
  (* parameters fitted by Mead et al. *)
  let Deltav_ := map Delta_v ocz_ in
  let deltac_ := zipWith delta_c sig8_ ocz_ in
  let fdamp_ := map fd sigd100_ in
  let eta_ := map eta_bloat sig8_ in
  let k_star_ := map k_s sigd_ in
  (* nu(z, M) *)
  let nu_ :=
    tabulate nz_ (fun i =>
      map (fun s2 => at1 deltac_ i / sqrt s2) (nth i sig2_ [])) in
  (* redshift of formation *)
  zf_ <- z_form nz_ z_ mass_ sig2_ deltac_ ;;
  (* n_eff(z), concentration, virial radius *)
  let n_eff_ :=
    tabulate nz_ (fun i =>
      n_eff_of mass_ (g_lnmass self) (nth i sig2_ []) (at1 deltac_ i)
               (at1 z_ i)) in
  let conc_ :=
    tabulate nz_ (fun i =>
      map (fun zf_ij => c_bull zf_ij (at1 z_ i)) (nth i zf_ [])) in
  let rv_ :=
    tabulate nz_ (fun i =>
      map (fun M => power (3 * M / (4 * PI * rho * at1 Deltav_ i)) (1 / 3))
          mass_) in
  (* quasi-linear softening *)
  let alpha_ := map alp n_eff_ in
  (* scale radius *)
  let rs_ := zipWith (zipWith Rdiv) rv_ conc_ in
  (* nfw profile, already normalized for bloating *)
  let R_bloat := R_bloat_table nz_ nu_ eta_ rs_ in
  let u := u_table nz_ nm_ conc_ R_bloat k_ in
  (* halo mass function *)
  let hmf := dndM nz_ rho mass_ (g_dlnm self) nu_ in
  (* power spectrum *)
  let pk_1h_ :=
    tabulate nz_ (fun iz =>
      pk_1h_row mass_ rho (nth iz hmf []) (nth iz u []) k_
                (at1 k_star_ iz)) in
  let pk_2h_ :=
    tabulate nz_ (fun iz =>
      pk_2h_row (nth iz (g_pk_dw self) []) k_ (at1 sigd_ iz)
                (at1 fdamp_ iz)) in
  let pk_nl_ :=
    tabulate nz_ (fun iz =>
      pk_nl_row (nth iz pk_1h_ []) (nth iz pk_2h_ []) (at1 alpha_ iz)) in
  Return {|
    z := z_; k := k_; nz := nz_; nk := g_nk self;
    pk := g_pk self; pk_nw := g_pk_nw self; pk_dw := g_pk_dw self;
    rho_field := rho; mass := mass_; lnmass := g_lnmass self;
    dlnm := g_dlnm self; nm := nm_; rr := g_rr self;
    sig8 := sig8_; sig2 := sig2_; sigd100 := sigd100_; sigd := sigd_;
    omz := omz_; ocz := ocz_; Deltav := Deltav_; deltac := deltac_;
    fdamp := fdamp_; eta := eta_; k_star := k_star_; nu := nu_; zf := zf_;
    n_eff := n_eff_; conc := conc_; rv := rv_; alpha := alpha_; rs := rs_;
    pk_1h := pk_1h_; pk_2h := pk_2h_; pk_nl := pk_nl_
  |}.

(** The three assertions on [k] that open both constructors. *)
Definition assert_k (k_ : list R) : result unit :=
  assert (100 <? length k_)%nat ;;;
  kmax <- amax k_ ;;
  assert (Rleb 10 kmax) ;;;
  kmin <- amin k_ ;;
  assert (Rleb kmin 0.001).

(** The branch [if BAO_smearing:] of both constructors: the no-wiggle
    spectra, the damping scales [sv2] and the de-wiggled spectra, three
    list comprehensions over [range(self.nz)]. *)
Definition bao_smearing (k_ : list R) (pk_ : array2) (nz_ : nat)
  : result (list (list R) * list (list R)) :=
  pk_nw_ <- mapM (fun i => r <- getrow pk_ i ;; remove_bao cosmology k_ r)
                 (seq 0 nz_) ;;
  sv2 <- mapM (fun i =>
                 r <- getrow pk_ i ;;
                 kp <- vmul k_ r ;;
                 t <- trapz_x kp (map ln k_) ;;
                 Return (1 / (6 * PI ^ 2) * t))
              (seq 0 nz_) ;;
  pk_dw_ <- mapM (fun i =>
                    r <- getrow pk_ i ;;
                    d <- vsub r (nth i pk_nw_ []) ;;
                    m <- vmul d (map (fun kk => exp (- kk ^ 2 * at1 sv2 i))
                                     k_) ;;
                    vadd m (nth i pk_nw_ []))
                 (seq 0 nz_) ;;
  Return (pk_nw_, pk_dw_).

(** The attributes of [self] when [__init__] calls
    [compute_nonlinear_pk]: the inputs, the smeared spectra, the density
    of the field and the mass grid [np.logspace(0., 18., 512)] with what
    is derived from it. *)
Definition init_grids (z_ k_ : list R) (pk_ pk_nw_ pk_dw_ : list (list R))
  (rho : R) : grids :=
  let mass_ := logspace 0 18 512 in
  {| g_z := z_; g_k := k_; g_nz := length z_; g_nk := length k_;
     g_pk := pk_; g_pk_nw := pk_nw_; g_pk_dw := pk_dw_;
     g_rho_field := rho;
     g_mass := mass_;
     g_lnmass := map ln mass_;
     g_dlnm := ln (at1 mass_ 1 / at1 mass_ 0);
     g_nm := length mass_;
     g_rr := map (radius_of_mass rho) mass_ |}.

(** [halofit_operator.__init__(z, k, pk, field, BAO_smearing, cosmology)] *)
Definition halofit_init (z_ k_ : list R) (pk_ : array2) (field : string)
  (BAO_smearing : bool) : result halofit_operator :=
  (* Assertion on k *)
  assert_k k_ ;;;
  (* Reading all cosmological parameters: [self.log10_As =
     cosmology.log10_As] is the one copy that can fail *)
  getattr (log10_As cosmology) ;;;
  (* Redshift and scales at which all must be computed *)
  let nz_ := length z_ in
  let nk_ := length k_ in
  (* Introduce smearing if required *)
  smear <- (if BAO_smearing then bao_smearing k_ pk_ nz_
            else Return (rows pk_, rows pk_)) ;;
  if negb ((fst (shape pk_) =? nz_)%nat && (snd (shape pk_) =? nk_)%nat)
  then Raise IndexError
  else
    (* cdm+b density *)
    rho <- (if String.eqb field "cb"
            then Return (rho_crit cosmology 0 * Omega_cb cosmology)
            else if String.eqb field "tot"
            then Return (rho_crit cosmology 0 * Omega_m cosmology)
            else Raise ValueError) ;;
    (* Initialize mass, then compute *)
    compute_nonlinear_pk
      (init_grids z_ k_ (rows pk_) (fst smear) (snd smear) rho).

(* ================================================================== *)
(** ** The class [nonlinear_pk] *)
(* ================================================================== *)

Record nonlinear_pk : Type := {
  t_z : list R;
  t_k : list R;
  t_pk_cbcb : array2;
  t_pk_cbnu : array2;
  t_pk_nunu : array2;
  t_pk_nw : list (list R);
  t_pk_dw : list (list R);
  t_HO : halofit_operator;
  t_pk_nl_cbcb : list (list R);
  t_pk_nw_cbcb : list (list R);
  t_pk_dw_cbcb : list (list R);
  t_pk_nl : list (list R)
}.

(** The linear auto- and cross-spectra from the Boltzmann solver chosen
    by [code]: [(pk_cbcb, pk_cbnu, pk_nunu)]. *)
Definition linear_spectra (z_ k_ : list R) (code : string)
  (kwargs_code : kwargs) : result (array2 * array2 * array2) :=
  if str_in code ["camb"; "Camb"; "CAMB"]%string then
    pk_l <- camb_XPk cosmology k_ z_ kwargs_code ;;
    cbcb <- dict_get pk_l "cb-cb" ;;
    cbnu <- dict_get pk_l "cb-nu" ;;
    nunu <- dict_get pk_l "nu-nu" ;;
    Return (cbcb, cbnu, nunu)
  else if str_in code ["class"; "Class"; "CLASS"]%string then
    pk_l <- class_XPk cosmology k_ z_ kwargs_code ;;
    cbcb <- dict_get pk_l "cb-cb" ;;
    cbnu <- dict_get pk_l "cb-nu" ;;
    nunu <- dict_get pk_l "nu-nu" ;;
    Return (cbcb, cbnu, nunu)
  else if str_in code ["EH"; "eh"; "EisensteinHu"; "Eisenstein-Hu"]%string
  then
    pk_l <- EisensteinHu_Pk cosmology k_ z_ kwargs_code ;;
    Return (pk_l, zeros_like pk_l, zeros_like pk_l)
  else Raise NameError.

(** [self.cosmology.f_cb**2.*self.pk_nl_cbcb
     + 2.*self.cosmology.f_nu_tot*self.cosmology.f_cb*self.pk_cbnu
     + self.cosmology.f_nu_tot**2.*self.pk_nunu] *)
Definition total_matter_pk (pk_nl_cbcb pk_cbnu pk_nunu : list (list R))
  : result (list (list R)) :=
  s <- madd (mscale (f_cb cosmology ^ 2) pk_nl_cbcb)
            (mscale (2 * f_nu_tot cosmology * f_cb cosmology) pk_cbnu) ;;
  madd s (mscale (f_nu_tot cosmology ^ 2) pk_nunu).

(** [nonlinear_pk.__init__(z, k, code, kwargs_code, BAO_smearing,
    cosmology)] *)
Definition nonlinear_pk_init (z_ k_ : list R) (code : string)
  (kwargs_code : kwargs) (BAO_smearing : bool) : result nonlinear_pk :=
  (* Assertion on k *)
  assert_k k_ ;;;
  let nz_ := length z_ in
  (* Compute linear auto- and cross-spectra *)
  spectra <- linear_spectra z_ k_ code kwargs_code ;;
  let '(pk_cbcb, pk_cbnu, pk_nunu) := spectra in
  (* Smooth BAO if required *)
  smear <- (if BAO_smearing then bao_smearing k_ pk_cbcb nz_
            else Return (rows pk_cbcb, rows pk_cbcb)) ;;
  (* Use halofit operator on P_{cb-cb}(k) *)
  HO <- halofit_init z_ k_ pk_cbcb "cb" BAO_smearing ;;
  (* Set nonlinear quantities, de-wiggled and no-wiggle power spectra *)
  pk_nl_ <- total_matter_pk (pk_nl HO) (rows pk_cbnu) (rows pk_nunu) ;;
  Return {|
    t_z := z_; t_k := k_;
    t_pk_cbcb := pk_cbcb; t_pk_cbnu := pk_cbnu; t_pk_nunu := pk_nunu;
    t_pk_nw := fst smear; t_pk_dw := snd smear;
    t_HO := HO;
    t_pk_nl_cbcb := pk_nl HO;
    t_pk_nw_cbcb := pk_nw HO;
    t_pk_dw_cbcb := pk_dw HO;
    t_pk_nl := pk_nl_
  |}.

End Halofit.

(* ================================================================== *)
(** ** A method of [halofit_operator] that [__init__] does not call *)
(* ================================================================== *)

Section Displacement.

Variable lib : library.

(** [sigma_d0()]: the displacement with a constant window function, per
    redshift. *)
Definition sigma_d0 (nz_ : nat) (k_ : list R) (pk_ : list (list R))
  : list R :=
  tabulate nz_ (fun i =>
    let '(k_ext, pk_ext) := extrapolate_log lib k_ (nth i pk_ []) 1e-6 1e8 in
    let dlnk := ln (at1 k_ext 1 / at1 k_ext 0) in
    let integrand :=
      zipWith (fun kp P => 1 / 3 * kp ^ 3 * P / (2 * PI ^ 2) / kp ^ 2)
              k_ext pk_ext in
    sqrt (trapz_dx integrand dlnk)).

End Displacement.

(* ================================================================== *)
(** ** Special values: [u_NFW] in float arithmetic *)
(* ================================================================== *)

(** NumPy floats with the special values of IEEE 754: a finite value is a
    real number (no rounding, no signed zero), and the operations produce
    [inf] and [nan] where the float operations do: [x/0], [inf - inf],
    [0 * inf], [0/0].  NumPy warns on these and raises nothing. *)
Module IEEE.

Inductive float : Type :=
| Fin (r : R)
| PInf
| NInf
| NaN.

Inductive sign : Set := Neg | Zero | Pos.

Definition sgn (r : R) : sign :=
  match total_order_T r 0 with
  | inleft (left _) => Neg
  | inleft (right _) => Zero
  | inright _ => Pos
  end.

Definition neg (a : float) : float :=
  match a with
  | Fin r => Fin (- r)
  | PInf => NInf
  | NInf => PInf
  | NaN => NaN
  end.

Definition add (a b : float) : float :=
  match a, b with
  | NaN, _ | _, NaN => NaN
  | Fin x, Fin y => Fin (x + y)
  | PInf, NInf | NInf, PInf => NaN
  | PInf, _ | _, PInf => PInf
  | NInf, _ | _, NInf => NInf
  end.

Definition sub (a b : float) : float := add a (neg b).

(** An infinity times a value of sign [s]. *)
Definition inf_times (positive : bool) (s : sign) : float :=
  match s with
  | Zero => NaN
  | Pos => if positive then PInf else NInf
  | Neg => if positive then NInf else PInf
  end.

Definition mul (a b : float) : float :=
  match a, b with
  | NaN, _ | _, NaN => NaN
  | Fin x, Fin y => Fin (x * y)
  | PInf, Fin y => inf_times true (sgn y)
  | NInf, Fin y => inf_times false (sgn y)
  | Fin x, PInf => inf_times true (sgn x)
  | Fin x, NInf => inf_times false (sgn x)
  | PInf, PInf | NInf, NInf => PInf
  | PInf, NInf | NInf, PInf => NInf
  end.

Definition div (a b : float) : float :=
  match a, b with
  | NaN, _ | _, NaN => NaN
  | Fin x, Fin y =>
      match sgn y with
      | Zero => match sgn x with
                | Zero => NaN
                | Pos => PInf
                | Neg => NInf
                end
      | _ => Fin (x / y)
      end
  | Fin _, _ => Fin 0
  | PInf, Fin y => match sgn y with Neg => NInf | _ => PInf end
  | NInf, Fin y => match sgn y with Neg => PInf | _ => NInf end
  | _, _ => NaN
  end.

(** [np.sin], [np.cos] and [np.log] *)
Definition fsin (a : float) : float :=
  match a with Fin r => Fin (sin r) | _ => NaN end.

Definition fcos (a : float) : float :=
  match a with Fin r => Fin (cos r) | _ => NaN end.

Definition flog (a : float) : float :=
  match a with
  | Fin r => match sgn r with
             | Pos => Fin (ln r)
             | Zero => NInf
             | Neg => NaN
             end
  | PInf => PInf
  | _ => NaN
  end.

Section Profile.

Variable lib : library.

(** [scipy.special.sici(x)]: [(0, -inf)] at [x = 0], [(pi/2, 0)] at
    [+inf], [(-pi/2, nan)] at [-inf]. *)
Definition sici (a : float) : float * float :=
  match a with
  | Fin r => match sgn r with
             | Zero => (Fin 0, NInf)
             | _ => (Fin (Si lib r), Fin (Ci lib r))
             end
  | PInf => (Fin (PI / 2), Fin 0)
  | NInf => (Fin (- (PI / 2)), NaN)
  | NaN => (NaN, NaN)
  end.

(** [u_NFW(c, x)], statement by statement, on floats. *)
Definition u_NFW (c x : float) : float :=
  let '(Si_1, Ci_1) := sici x in
  let '(Si_2, Ci_2) := sici (mul (add (Fin 1) c) x) in
  let den := sub (flog (add (Fin 1) c))
                 (div (mul c (Fin 1)) (add (Fin 1) c)) in
  let num1 := mul (fsin x) (sub Si_2 Si_1) in
  let num2 := fsin (mul c x) in
  let num3 := mul (fcos x) (sub Ci_2 Ci_1) in
  mul (div (Fin 1) den)
      (sub (add num1 num3)
           (div (mul num2 (Fin 1)) (mul (add (Fin 1) c) x))).

End Profile.

End IEEE.

(* ================================================================== *)
(** ** Conditions on the inputs *)
(* ================================================================== *)

(** The three assertions on [k], on the array itself: more than 100
    points, a maximum of at least 10 and a minimum of at most 0.001. *)
Definition sufficient (k_ : list R) : Prop :=
  (100 < length k_)%nat /\
  (exists x, In x k_ /\ 10 <= x) /\
  (exists x, In x k_ /\ x <= 0.001).

(** A [k] array that is not enough for convergence: at most 100 points,
    or every point below 10, or every point above 0.001. *)
Definition insufficient (k_ : list R) : Prop :=
  (length k_ <= 100)%nat \/
  (forall x, In x k_ -> x < 10) \/
  (forall x, In x k_ -> 0.001 < x).

(** [pk] has the shape [(len(z), len(k))]. *)
Definition well_shaped (z_ k_ : list R) (pk_ : array2) : Prop :=
  shape pk_ = (length z_, length k_).

(** A table with [n] rows of [m] entries. *)
Definition table_shape (n m : nat) (t : list (list R)) : Prop :=
  length t = n /\ Forall (fun r => length r = m) t.

(** The interpolant of [sigma] over the masses [ms], extrapolated as
    [z_form] does, is defined at [0.01 * M] for every mass [M] of [ms]:
    the abscissas are inside the extrapolated range. *)
Definition sig_int_defined (lib : library) (ms : list R) : Prop :=
  forall (sig : list R) (m : R),
    In m ms ->
    let ext := extrapolate_log lib ms sig (1e-1 * 0.01 * at1 ms 0)
                 (1e1 * last ms 0) in
    exists v, interp1d lib (fst ext) (snd ext) (0.01 * m) = Some v.

(** A computation that raises nothing but [ValueError]. *)
Definition only_ValueError {A} (r : result A) : Prop :=
  forall e, r = Raise e -> e = ValueError.

(** Limits of a real function, at [0] from the right and at infinity:
    [near_0 P] when [P] holds on some interval [(0, delta)], and
    [near_infinity P] when it holds beyond some [X]. *)
Definition near_0 (P : R -> Prop) : Prop :=
  exists delta, 0 < delta /\ forall x, 0 < x < delta -> P x.

Definition near_infinity (P : R -> Prop) : Prop :=
  exists X, 0 < X /\ forall x, X < x -> P x.

Definition tends (ev : (R -> Prop) -> Prop) (f : R -> R) (l : R) : Prop :=
  forall eps, 0 < eps -> ev (fun x => Rabs (f x - l) < eps).

(** What [u_NFW] needs of [scipy.special.sici]: the sine integral
    vanishes at [0] and tends to [pi/2] at infinity; the cosine integral
    is [gamma + ln x + o(1)] at [0], for a constant [gamma], and tends to
    [0] at infinity. *)
Definition sici_asymptotics (lib : library) : Prop :=
  tends near_0 (Si lib) 0 /\
  (exists gamma_E, tends near_0 (fun x => Ci lib x - ln x) gamma_E) /\
  tends near_infinity (Si lib) (PI / 2) /\
  tends near_infinity (Ci lib) 0.

(** What the search of [M_1] needs of SciPy.  The callable of
    [interp1d] raises [ValueError] at an abscissa below every node or
    above every node ([bounds_error] is left at its default).
    [scipy.optimize.root] evaluates the function at the starting point
    before anything else, so a [ValueError] raised there comes out of
    it. *)
Definition interp1d_bounds (lib : library) : Prop :=
  forall (xs ys : list R) (x : R),
    (forall a, In a xs -> x < a) \/ (forall a, In a xs -> a < x) ->
    interp1d lib xs ys x = None.

Definition root_starts_at_seed (lib : library) : Prop :=
  forall (f : R -> option R) (x0 : R),
    f x0 = None -> optimize_root lib f x0 = None.

(* ================================================================== *)
(** ** The class [cosmo] of [colibri/cosmology.py] *)
(* ================================================================== *)

(** The constructor of [cosmo] and its background methods: densities,
    Hubble function, growth factor, window functions, masses and radii,
    [sigma_8].  [colibri.constants] and the SciPy integrators are
    parameters.  A redshift, a radius or a mass is one float, and an
    array of shape [(1,)] is identified with its entry; [M_nu] is the
    array [np.atleast_1d(M_nu)].  Of the attributes that [__init__] sets,
    the record keeps those that the methods below read.  A division of
    Python floats by zero raises [ZeroDivisionError] ([pydiv]); a
    division that involves a NumPy value gives [inf] or [nan] with a
    warning, raises nothing and is outside the model of the numbers. *)
Module Cosmology.

(** [colibri.constants] ([const]), where [const.PI] is [PI]. *)
Record constants : Type := {
  c : R;
  kB : R;
  G : R;
  alpha_BB : R;
  Msun : R;
  Mpc_to_m : R;
  rhoch2 : R
}.

Record scipy : Type := {
  (** [sint.quad_vec(f, a, b)[0]] *)
  quad_vec : (R -> R) -> R -> R -> R;
  (** [sint.quad(f, a, np.inf)[0]] *)
  quad_inf : (R -> R) -> R -> R;
  (** [sint.simps(y, x = x, axis = 1)] on an array [y] of one row *)
  simps : list R -> list R -> R
}.

(** The attributes of an instance. *)
Record cosmo : Type := {
  Omega_m : R;
  Omega_b : R;
  Omega_K : R;
  N_nu : nat;
  M_nu : list R;
  N_eff : R;
  Gamma_nu : R;
  massive_nu : nat;
  massless_nu : R;
  As : option R;
  sigma_8 : option R;
  ns : R;
  w0 : R;
  wa : R;
  tau : R;
  T_cmb : R;
  T_nu : R;
  h : R;
  H0 : R;
  Omega_gamma : R;
  Omega_nu : list R;
  Omega_cdm : R;
  Omega_cb : R;
  Omega_lambda : R;
  f_nu : list R;
  f_nu_tot : R;
  f_cb : R;
  f_b : R;
  f_c : R
}.

Section Background.

Variable const : constants.
Variable sp : scipy.

(** [FermiDirac_integral(y)] *)
Definition FermiDirac_integral (y : R) : R :=
  quad_vec sp (fun x => x ^ 2 * sqrt (x ^ 2 + y ^ 2) / (exp x + 1)) 0 100.

(** [np.pad(np.atleast_1d(M_nu), (0, N_nu - len(np.atleast_1d(M_nu))),
    'constant')] *)
Definition pad (M_nu_ : list R) (N_nu_ : nat) : list R :=
  M_nu_ ++ repeat 0 (N_nu_ - length M_nu_).

(** [np.count_nonzero] *)
Definition count_nonzero (a : list R) : nat :=
  length (filter (fun m => if Req_dec_T m 0 then false else true) a).

(** [cosmo.__init__(Omega_m, Omega_b, Omega_K, N_nu, M_nu, N_eff, As, ns,
    sigma_8, h, w0, wa, tau, T_cmb)]; [None] is [None].  The arguments
    are Python numbers, as the defaults are, and [M_nu] is an array: a
    division of two of the arguments or constants is a division of
    Python floats ([pydiv]), and one that involves an array or a sum of
    an array ([np.sum]) is a NumPy division, which raises nothing. *)
Definition init (Omega_m_ Omega_b_ Omega_K_ : R) (N_nu_ : nat)
  (M_nu_ : list R) (N_eff_ : R) (As_ : option R) (ns_ : R)
  (sigma_8_ : option R) (h_ w0_ wa_ tau_ T_cmb_ : R) : result cosmo :=
  (* Check neutrinos *)
  assert (Rleb (INR N_nu_) N_eff_) ;;;
  assert (length M_nu_ <=? N_nu_)%nat ;;;
  (* Check that at least one between As and sigma_8 is given *)
  (match As_, sigma_8_ with
   | None, None => Raise AssertionError
   | _, _ => Return tt
   end) ;;;
  let M_nu' := pad M_nu_ N_nu_ in
  (* (4./11.)**(1./3.)*(N_eff/self.N_nu)**0.25 *)
  ratio <- pydiv N_eff_ (INR N_nu_) ;;
  let Gamma_nu_ := power (4 / 11) (1 / 3) * power ratio 0.25 in
  let massive_nu_ := count_nonzero M_nu' in
  let T_nu_ := T_cmb_ * Gamma_nu_ in
  (* self.K = -self.Omega_K*(self.H0/self.h/const.c)**2. *)
  H0_h <- pydiv (100 * h_) h_ ;;
  pydiv H0_h (c const) ;;;
  (* Other cosmological parameters *)
  g1 <- pydiv (alpha_BB const * T_cmb_ ^ 4) ((c const * 1e3) ^ 2) ;;
  g2 <- pydiv g1 (Msun const) ;;
  g3 <- pydiv (g2 * 1e3 * Mpc_to_m const ^ 3) (rhoch2 const) ;;
  Omega_gamma_ <- pydiv g3 (h_ ^ 2) ;;
  let Omega_nu_ :=
    map (fun x =>
           15 / PI ^ 4 * Gamma_nu_ ^ 4 * Omega_gamma_
           * FermiDirac_integral (x / (kB const * T_nu_)))
        M_nu' in
  let Omega_cdm_ := Omega_m_ - Omega_b_ - sum Omega_nu_ in
  let Omega_cb_ := Omega_cdm_ + Omega_b_ in
  let Omega_lambda_ :=
    1 - Omega_cb_ - sum Omega_nu_ - Omega_K_ - Omega_gamma_ in
  (* Density fractions *)
  let f_nu_ := map (fun o => o / Omega_m_) Omega_nu_ in
  f_b_ <- pydiv Omega_b_ Omega_m_ ;;
  Return {|
    Omega_m := Omega_m_; Omega_b := Omega_b_; Omega_K := Omega_K_;
    N_nu := N_nu_; M_nu := M_nu'; N_eff := N_eff_;
    Gamma_nu := Gamma_nu_; massive_nu := massive_nu_;
    massless_nu := N_eff_ - INR massive_nu_;
    As := As_; sigma_8 := sigma_8_; ns := ns_; w0 := w0_; wa := wa_;
    tau := tau_; T_cmb := T_cmb_; T_nu := T_nu_; h := h_; H0 := 100 * h_;
    Omega_gamma := Omega_gamma_; Omega_nu := Omega_nu_;
    Omega_cdm := Omega_cdm_; Omega_cb := Omega_cb_;
    Omega_lambda := Omega_lambda_;
    f_nu := f_nu_; f_nu_tot := sum f_nu_;
    f_cb := Omega_cb_ / Omega_m_; f_b := f_b_;
    f_c := Omega_cdm_ / Omega_m_
  |}.

Variable self : cosmo.

(** [scale_factor(z)] and [redshift(a)] *)
Definition scale_factor (z_ : R) : R := 1 / (1 + z_).
Definition redshift (a : R) : R := 1 / a - 1.

(** [w_DE(z)] *)
Definition w_DE (z_ : R) : R := w0 self + wa self * z_ / (1 + z_).

(** [H(z)]: Hubble function in km/s/Mpc. *)
Definition H (z_ : R) : R :=
  (* Dark energy parameter of state *)
  let wde := w0 self + wa self * (z_ / (1 + z_)) in
  (* Neutrino contribution *)
  let y := map (fun m => m / (kB const * T_nu self) * (1 / (1 + z_)))
               (M_nu self) in
  let F := map FermiDirac_integral y in
  let neutrino_contribution :=
    map (fun Fi =>
           15 / PI ^ 4 * Gamma_nu self ^ 4 * Omega_gamma self * Fi
           * (1 + z_) ^ 4) F in
  H0 self * sqrt (Omega_cb self * (1 + z_) ^ 3
                  + Omega_gamma self * (1 + z_) ^ 4
                  + Omega_lambda self * power (1 + z_) (3 * (1 + wde))
                  + Omega_K self * (1 + z_) ^ 2
                  + sum neutrino_contribution).

(** [H_massive(z)]: all neutrinos taken as pure matter. *)
Definition H_massive (z_ : R) : R :=
  H0 self * sqrt (Omega_cb self * (1 + z_) ^ 3
                  + sum (Omega_nu self) * (1 + z_) ^ 3
                  + Omega_lambda self
                    * power (1 + z_)
                        (3 * (1 + w0 self + wa self * (z_ / (1 + z_))))
                  + Omega_gamma self * (1 + z_) ^ 4
                  + Omega_K self * (1 + z_) ^ 2).

(** The density parameters as functions of redshift. *)
Definition Omega_cdm_z (z_ : R) : R :=
  Omega_cdm self * (1 + z_) ^ 3 * (H0 self / H z_) ^ 2.

Definition Omega_b_z (z_ : R) : R :=
  Omega_b self * (1 + z_) ^ 3 * (H0 self / H z_) ^ 2.

Definition Omega_cb_z (z_ : R) : R :=
  Omega_cb self * (1 + z_) ^ 3 * (H0 self / H z_) ^ 2.

(** [Omega_nu_z(z)]: one entry per neutrino. *)
Definition Omega_nu_z (z_ : R) : list R :=
  map (fun m =>
         let y := m / ((1 + z_) * kB const * T_nu self) in
         let F := FermiDirac_integral y in
         15 / PI ^ 4 * Omega_gamma self * F * Gamma_nu self ^ 4
         * (1 + z_) ^ 4 * H0 self ^ 2 / H z_ ^ 2)
      (M_nu self).

Definition Omega_m_z (z_ : R) : R :=
  Omega_cdm_z z_ + Omega_b_z z_ + sum (Omega_nu_z z_).

Definition Omega_lambda_z (z_ : R) : R :=
  let w_DE_ := w0 self + wa self * z_ / (1 + z_) in
  Omega_lambda self * power (1 + z_) (3 * (1 + w_DE_))
  * (H0 self / H z_) ^ 2.

Definition Omega_K_z (z_ : R) : R :=
  Omega_K self * (1 + z_) ^ 2 * (H0 self / H z_) ^ 2.

Definition Omega_gamma_z (z_ : R) : R :=
  Omega_gamma self * (1 + z_) ^ 4 * (H0 self / H z_) ^ 2.

(** [q_acc(z)] *)
Definition q_acc (z_ : R) : R :=
  Omega_gamma_z z_ + Omega_m_z z_ / 2 - Omega_lambda_z z_.

(** [rho_crit(z)] *)
Definition rho_crit (z_ : R) : R :=
  3 * H z_ ^ 2 / (8 * PI * G const) / h self ^ 2.

(** The window functions. *)
Definition TopHat_window (x : R) : R := 3 / x ^ 3 * (sin x - x * cos x).
Definition Gaussian_window (x : R) : R := exp (- x ^ 2 / 2).
Definition Sharp_k_window (x step : R) : R :=
  0.5 * (1 + 2 / PI * atan ((1 - x) / step)).
Definition Smooth_k_window (x beta : R) : R := 1 / (1 + power x beta).

(** The chain [if var == 'cb': omega = self.Omega_cb ... else: raise
    NameError] that opens [mass_in_radius] and [radius_of_mass]. *)
Definition omega_of (var : string) : result R :=
  if String.eqb var "cb" then Return (Omega_cb self)
  else if String.eqb var "cdm" then Return (Omega_cdm self)
  else if String.eqb var "b" then Return (Omega_b self)
  else if String.eqb var "nu" then Return (sum (Omega_nu self))
  else if String.eqb var "tot" then Return (Omega_m self)
  else Raise NameError.

(** The spellings of the three windows. *)
Definition tophat_names : list string :=
  ["TH"; "th"; "tophat"; "top-hat"]%string.
Definition gaussian_names : list string :=
  ["gauss"; "Gaussian"; "Gauss"; "gaussian"; "g"]%string.
Definition sharp_names : list string :=
  ["sharp"; "heaviside"; "s"; "smooth"; "smoothk"; "sm"]%string.

(** [mass_in_radius(R, var, window, prop_const)] *)
Definition mass_in_radius (R_ : R) (var window : string) (prop_const : R)
  : result R :=
  omega <- omega_of var ;;
  let rho_bg := rho_crit 0 * omega in
  (* Window function *)
  if str_in window tophat_names then
    Return (4 / 3 * PI * rho_bg * R_ ^ 3)
  else if str_in window gaussian_names then
    Return (rho_bg * power (2 * PI * R_ ^ 2) (3 / 2))
  else if str_in window sharp_names then
    Return (4 / 3 * PI * rho_bg * (prop_const * R_) ^ 3)
  else Raise NameError.

(** [radius_of_mass(M, var, window, prop_const)] *)
Definition radius_of_mass (M : R) (var window : string) (prop_const : R)
  : result R :=
  omega <- omega_of var ;;
  let rho_bg := rho_crit 0 * omega in
  (* Window function *)
  if str_in window tophat_names then
    Return (power (3 * M / (4 * PI * rho_bg)) (1 / 3))
  else if str_in window gaussian_names then
    Return (power (M / rho_bg) (1 / 3) / sqrt (2 * PI))
  else if str_in window sharp_names then
    Return (power (3 * M / (4 * PI * rho_bg)) (1 / 3) / prop_const)
  else Raise NameError.

(** [volume_of_radius(R, window, prop_const)] *)
Definition volume_of_radius (R_ : R) (window : string) (prop_const : R)
  : result R :=
  if str_in window tophat_names then
    Return (4 / 3 * PI * R_ ^ 3)
  else if str_in window gaussian_names then
    Return (power (2 * PI * R_ ^ 2) 1.5)
  else if str_in window sharp_names then
    Return (4 / 3 * PI * (prop_const * R_) ^ 3)
  else Raise NameError.

(** [volume_of_mass(M, var, window, prop_const)] *)
Definition volume_of_mass (M : R) (var window : string) (prop_const : R)
  : result R :=
  R_ <- radius_of_mass M var window prop_const ;;
  volume_of_radius R_ window prop_const.

(** [D_1(z)] on [np.atleast_1d(z)]: the growth factor, normalized to 1
    today.  This is the array that the call returns; [D_1_call] below is
    the call, with the exception of [d1 *= 1./LCDM0]. *)
Definition D_1 (z_ : list R) : list R :=
  let d1 :=
    map (fun zi =>
           let LCDM :=
             quad_inf sp (fun x => (1 + x) * (H0 self / H_massive x) ^ 3)
                      zi in
           LCDM * H_massive zi / H0 self)
        z_ in
  let LCDM0 :=
    quad_inf sp (fun x => (1 + x) * (H0 self / H_massive x) ^ 3) 0 in
  map (fun d => d * (1 / LCDM0)) d1.

(** [D_1(z)] as a call: [1./LCDM0] divides by the Python float that
    [sint.quad] returned and raises [ZeroDivisionError] when it is zero;
    the other divisions of [D_1] and of [H_massive] are NumPy's. *)
Definition D_1_call (z_ : list R) : result (list R) :=
  let LCDM0 :=
    quad_inf sp (fun x => (1 + x) * (H0 self / H_massive x) ^ 3) 0 in
  pydiv 1 LCDM0 ;;;
  Return (D_1 z_).

(** [compute_sigma_8(k, pk)] for a one-dimensional [pk]: the value held by
    the array of shape [(1,)] that the source returns ([k] is made 2D and
    integrated along its second axis).  [const.PI] is pi. *)
Definition compute_sigma_8 (k_ pk_ : list R) : result R :=
  (* Smoothing radius of 8 Mpc/h *)
  let R_ := 8 in
  (* Assertions on scales, lengths and intervals *)
  kmax <- amax k_ ;;
  assert (Rleb (PI / R_ * 2) kmax) ;;;
  kmin <- amin k_ ;;
  assert (Rleb kmin 0.001) ;;;
  assert (100 <=? length k_)%nat ;;;
  (* Top-hat window function *)
  let W_kR := map (fun kk => TopHat_window (kk * R_)) k_ in
  (* Integration in log-bins *)
  a <- vmul (map (fun kk => kk ^ 3) k_) pk_ ;;
  b <- vmul (map (fun v => v / (2 * PI ^ 2)) a)
            (map (fun w => w ^ 2) W_kR) ;;
  Return (sqrt (simps sp b (map ln k_))).

(** [normalize_Pk(k, pk, new_sigma8)] *)
Definition normalize_Pk (k_ pk_ : list R) (new_sigma8 : R)
  : result (list R) :=
  s8_in <- compute_sigma_8 k_ pk_ ;;
  Return (map (fun p => p * (new_sigma8 / s8_in) ^ 2) pk_).

(** [om_m] in [EisensteinHu_Pk]: [self.Omega_m], less the neutrinos when
    they are massive and less the curvature when there is some. *)
Definition EisensteinHu_om_m : R :=
  let om_m := Omega_m self in
  let om_m :=
    if Req_dec_T (sum (M_nu self)) 0 then om_m
    else om_m - sum (Omega_nu self) in
  if Req_dec_T (Omega_K self) 0 then om_m else om_m - Omega_K self.

(** The scalars of [EisensteinHu_Pk], computed before [k] is looked at.
    With massless neutrinos [om_m], [om_b] and [h] are Python floats:
    [(om_m*h*h)**(-0.419)] raises [ZeroDivisionError] on a zero base, and
    [6./re] on [re = 0], that is on [om_b*h*h = 0].  With massive
    neutrinos [om_m -= np.sum(self.Omega_nu)] has made [om_m] a NumPy
    float, every division and power of the scalars involves it, and
    nothing raises.  The model is for [om_m*h*h >= 0] and
    [0 <= om_b <= om_m], where no other divisor or base of a negative
    power of the scalars is zero; a negative base of a fractional power
    is a complex number in Python 3 and a [ValueError] in Python 2. *)
Definition EisensteinHu_scalars : result unit :=
  let om_m := EisensteinHu_om_m in
  let om_b := Omega_b self in
  let h_ := h self in
  if Req_dec_T (sum (M_nu self)) 0 then
    (* b1 = 0.313*(om_m*h*h)**(-0.419)*... *)
    (if Req_dec_T (om_m * h_ * h_) 0 then Raise ZeroDivisionError
     else Return tt) ;;;
    (* s = (2./3./rke)*np.sqrt(6./re)*... *)
    let thet := 2.728 / 2.7 in
    let ze := 2.50e4 * om_m * h_ * h_ / thet ^ 4 in
    let re := 31500 * om_b * h_ * h_ / thet ^ 4 / ze in
    pydiv 6 re ;;;
    Return tt
  else Return tt.

(** The transfer function [T] of [EisensteinHu_Pk] at one wavenumber
    [kk] of [k], once the scalars have raised nothing; the warnings are
    not modelled. *)
Definition EisensteinHu_T (kk : R) : R :=
  let om_m := Omega_m self in
  let om_b := Omega_b self in
  let h_ := h self in
  let om_m :=
    if Req_dec_T (sum (M_nu self)) 0 then om_m
    else om_m - sum (Omega_nu self) in
  let om_m :=
    if Req_dec_T (Omega_K self) 0 then om_m else om_m - Omega_K self in
  let rk := kk * h_ in
  let e := exp 1 in
  (* Recombination and equality *)
  let thet := 2.728 / 2.7 in
  let b1 := 0.313 * power (om_m * h_ * h_) (-0.419)
            * (1 + 0.607 * power (om_m * h_ * h_) 0.674) in
  let b2 := 0.238 * power (om_m * h_ * h_) 0.223 in
  let zd := 1291 * (1 + b1 * power (om_b * h_ * h_) b2)
            * power (om_m * h_ * h_) 0.251
            / (1 + 0.659 * power (om_m * h_ * h_) 0.828) in
  let ze := 2.50e4 * om_m * h_ * h_ / thet ^ 4 in
  let rd := 31500 * om_b * h_ * h_ / thet ^ 4 / zd in
  let re := 31500 * om_b * h_ * h_ / thet ^ 4 / ze in
  let rke := 7.46e-2 * om_m * h_ * h_ / thet ^ 2 in
  let s := (2 / 3 / rke) * sqrt (6 / re)
           * ln ((sqrt (1 + rd) + sqrt (rd + re)) / (1 + sqrt re)) in
  let rks := 1.6 * (power (om_b * h_ * h_) 0.52)
             * (power (om_m * h_ * h_) 0.73)
             * (1 + power (10.4 * om_m * h_ * h_) (-0.95)) in
  let q := rk / 13.41 / rke in
  let y := (1 + ze) / (1 + zd) in
  let g := y * (-6 * sqrt (1 + y)
                + (2 + 3 * y)
                  * ln ((sqrt (1 + y) + 1) / (sqrt (1 + y) - 1))) in
  (* Master function *)
  let ab := g * 2.07 * rke * s / power (1 + rd) 0.75 in
  let a1 := power (46.9 * om_m * h_ * h_) 0.670
            * (1 + power (32.1 * om_m * h_ * h_) (-0.532)) in
  let a2 := power (12.0 * om_m * h_ * h_) 0.424
            * (1 + power (45.0 * om_m * h_ * h_) (-0.582)) in
  let ac := (power a1 (- om_b / om_m))
            * (power a2 (- (om_b / om_m) ^ 3)) in
  let B1 := 0.944 / (1 + power (458 * om_m * h_ * h_) (-0.708)) in
  let B2 := power (0.395 * om_m * h_ * h_) (-0.0266) in
  let bc := 1 / (1 + B1 * (power (1 - om_b / om_m) B2 - 1)) in
  (* CDM transfer function *)
  let f := 1 / (1 + (rk * s / 5.4) ^ 4) in
  let c1 := 14.2 + 386 / (1 + 69.9 * power q 1.08) in
  let c2 := 14.2 / ac + 386 / (1 + 69.9 * power q 1.08) in
  let tc := f * ln (e + 1.8 * bc * q)
            / (ln (e + 1.8 * bc * q) + c1 * q * q)
            + (1 - f) * ln (e + 1.8 * bc * q)
              / (ln (e + 1.8 * bc * q) + c2 * q * q) in
  (* Baryon transfer function *)
  let bb := 0.5 + (om_b / om_m)
            + (3 - 2 * om_b / om_m)
              * sqrt ((17.2 * om_m * h_ * h_) ^ 2 + 1) in
  let bn := 8.41 * power (om_m * h_ * h_) 0.435 in
  let ss := s / power (1 + (bn / rk / s) ^ 3) (1 / 3) in
  let tb := ln (e + 1.8 * q) / (ln (e + 1.8 * q) + c1 * q * q)
            / (1 + (rk * s / 5.2) ^ 2) in
  let fac := exp (- power (rk / rks) 1.4) in
  let tb := (tb + ab * fac / (1 + (bb / rk / s) ^ 3))
            * sin (rk * ss) / rk / ss in
  (* Total transfer function *)
  (om_b / om_m) * tb + (1 - om_b / om_m) * tc.

(** [EisensteinHu_Pk(z, k, sigma_8)[1]], on [np.atleast_1d(z)]. *)
Definition EisensteinHu_Pk (z_ k_ : list R) (sigma_8_ : R)
  : result (list (list R)) :=
  EisensteinHu_scalars ;;;
  (* Power spectrum and normalization *)
  let power_tmp :=
    map (fun kk => power kk (ns self) * (2 * PI ^ 2) * EisensteinHu_T kk ^ 2)
        k_ in
  s8 <- compute_sigma_8 k_ power_tmp ;;
  let norm := sigma_8_ / s8 in
  let power_tmp := map (fun p => p * norm ^ 2) power_tmp in
  (* Different redshifts *)
  mapM (fun zi =>
          D_zi <- D_1_call [zi] ;;
          D_0 <- D_1_call [0] ;;
          Return (map (fun p => p * (at1 D_zi 0 / at1 D_0 0) ^ 2) power_tmp))
       z_.

End Background.

End Cosmology.

(** The radicand of [H(z)]: the sum of the five contributions under the
    square root. *)
Definition hubble_radicand (const : Cosmology.constants)
  (sp : Cosmology.scipy) (self : Cosmology.cosmo) (z_ : R) : R :=
  Cosmology.Omega_cb self * (1 + z_) ^ 3
  + Cosmology.Omega_gamma self * (1 + z_) ^ 4
  + Cosmology.Omega_lambda self
    * power (1 + z_)
        (3 * (1 + (Cosmology.w0 self + Cosmology.wa self * (z_ / (1 + z_)))))
  + Cosmology.Omega_K self * (1 + z_) ^ 2
  + sum (map (fun m =>
                15 / PI ^ 4 * Cosmology.Gamma_nu self ^ 4
                * Cosmology.Omega_gamma self
                * Cosmology.FermiDirac_integral sp
                    (m / (Cosmology.kB const * Cosmology.T_nu self)
                     * (1 / (1 + z_)))
                * (1 + z_) ^ 4)
             (Cosmology.M_nu self)).

(** The three assertions of [compute_sigma_8], on the array [k] itself:
    a maximum of at least [pi/8*2], a minimum of at most 0.001 and at
    least 100 points. *)
Definition sigma_8_accepts (k_ : list R) : Prop :=
  (exists x, In x k_ /\ PI / 8 * 2 <= x) /\
  (exists x, In x k_ /\ x <= 0.001) /\
  (100 <= length k_)%nat.

(** The three conditions that [__init__] checks. *)
Definition init_rejects (N_nu_ : nat) (M_nu_ : list R) (N_eff_ : R)
  (As_ sigma_8_ : option R) : Prop :=
  N_eff_ < INR N_nu_ \/ (N_nu_ < length M_nu_)%nat \/
  (As_ = None /\ sigma_8_ = None).

(** A zero divisor in one of the divisions of Python floats of
    [__init__]: [N_eff/N_nu], [H0/h/const.c], the divisions by
    [const.Msun], [const.rhoch2] and [h**2] in [Omega_gamma], and
    [Omega_b/Omega_m]. *)
Definition init_divides_by_zero (const : Cosmology.constants)
  (Omega_m_ : R) (N_nu_ : nat) (h_ : R) : Prop :=
  N_nu_ = 0%nat \/ h_ = 0 \/ Cosmology.c const = 0 \/
  Cosmology.Msun const = 0 \/ Cosmology.rhoch2 const = 0 \/ Omega_m_ = 0.

(* ================================================================== *)
(** ** Sample inputs and collaborators *)
(* ================================================================== *)

Module Sample.

(** The array of shape [(len(z), len(k))] filled with [v]. *)
Definition full (z_ k_ : list R) (v : R) : array2 :=
  Array2 (map (fun _ => map (fun _ => v) k_) z_) (length k_)
    ltac:(apply Forall_forall; intros r Hr; apply in_map_iff in Hr;
          destruct Hr as [x [<- _]]; apply length_map).

Definition lib0 : library := {|
  extrapolate_log := fun x y _ _ => (x, y);
  TopHat_window := fun _ => 1;
  interp1d := fun _ _ _ => Some 1;
  optimize_root := fun f x0 =>
    match f x0 with
    | Some v => if Req_dec_T v 0 then Some x0 else None
    | None => None
    end;
  spline_derivative := fun _ _ _ => 0;
  Si := fun x => if Rlt_dec x 1 then 0 else PI / 2;
  Ci := fun x => if Rlt_dec x 1 then ln x else 0;
  gamma := fun _ => 1
|}.

(** An interpolant with a range: inside the range of the nodes, the
    straight line through the first and the last node (what a cubic
    interpolant gives on data that lie on a line); outside, the
    [ValueError] of [interp1d]. *)
Definition in_range (xs : list R) (x : R) : bool :=
  match amin xs, amax xs with
  | Return lo, Return hi => Rleb lo x && Rleb x hi
  | _, _ => false
  end.

Definition chord (xs ys : list R) (x : R) : R :=
  let n := length xs in
  let x0 := nth 0 xs 0 in
  let x1 := nth (n - 1) xs 0 in
  let y0 := nth 0 ys 0 in
  let y1 := nth (n - 1) ys 0 in
  y0 + (y1 - y0) * (x - x0) / (x1 - x0).

(** A library with that interpolant, an extrapolation that adds the two
    end points [xmin] and [xmax] to the grid, a root finder that
    evaluates the function at the seed and then takes one secant step,
    and a spline derivative that returns its abscissa, so that the index
    shows where the derivative was taken. *)
Definition lib1 : library := {|
  extrapolate_log := fun x y xmin xmax =>
    (xmin :: x ++ [xmax], nth 0 y 0 :: y ++ [last y 0]);
  TopHat_window := fun _ => 1;
  interp1d := fun xs ys x =>
    if in_range xs x then Some (chord xs ys x) else None;
  optimize_root := fun f x0 =>
    match f x0 with
    | None => None
    | Some v0 =>
        if Req_dec_T v0 0 then Some x0
        else match f (x0 + 1) with
             | None => None
             | Some v1 =>
                 if Req_dec_T v1 v0 then Some x0
                 else Some (x0 - v0 / (v1 - v0))
             end
    end;
  spline_derivative := fun _ _ x => x;
  Si := fun x => if Rlt_dec x 1 then 0 else PI / 2;
  Ci := fun x => if Rlt_dec x 1 then ln x else 0;
  gamma := fun _ => 1
|}.

Definition spectra0 (k_ z_ : list R) : dict :=
  [("cb-cb"%string, full z_ k_ 1); ("cb-nu"%string, full z_ k_ 1);
   ("nu-cb"%string, full z_ k_ 1); ("nu-nu"%string, full z_ k_ 1)].

Definition cosmo0 : cosmo := {|
  Omega_m := 0.3089;
  Omega_cb := 0.3075;
  f_nu_tot := 0.0045;
  f_cb := 0.9955;
  log10_As := Some (log10 2.14e-9);
  rho_crit := fun _ => 2.775e11;
  Omega_m_z := fun _ => 0.3089;
  D_1 := fun z_ => 1 / (1 + z_);
  compute_sigma_8 := fun _ _ => 0.8;
  remove_bao := fun k_ p =>
    if (length k_ =? length p)%nat then Return p else Raise ValueError;
  camb_XPk := fun k_ z_ _ => Return (spectra0 k_ z_);
  class_XPk := fun k_ z_ _ => Return (spectra0 k_ z_);
  EisensteinHu_Pk := fun k_ z_ _ => Return (full z_ k_ 1)
|}.

(** [z = 0.] and the default [k = np.logspace(-4., 2., 1001)]. *)
Definition z0 : list R := [0].
Definition k0 : list R := logspace (-4) 2 1001.
Definition pk0 : array2 := full z0 k0 1.

(** The redshift [z = 40.], where the seed [13 - 1.75*(1+z)] of the
    search of [M_1] is [-58.75], below the tabulated [log10 M >= 0]. *)
Definition z40 : list R := [40].
Definition pk40 : array2 := full z40 k0 1.

(** One wavenumber only, and a spectrum of shape [(1, 2)]. *)
Definition k1 : list R := [1].
Definition pk12 : array2 :=
  Array2 [[1; 2]] 2 ltac:(repeat constructor).

(** A spectrum of shape [(2, len(k0))]: one row more than redshifts. *)
Definition pk2 : array2 := full [0; 0] k0 1.

(** The mass grid of the class, and tables on it: a mass function equal
    to [1] at every mass and a profile equal to [1] at every mass, for one
    wavenumber. *)
Definition mass0 : list R := logspace 0 18 512.
Definition hmf1 : list R := tabulate 512 (fun _ => 1).
Definition u1 : list (list R) := tabulate 512 (fun _ => [1]).

(** A table of [sig2] on the mass grid that decreases with the mass and
    crosses [deltac**2 = 4] at [M = 10**9]:
    [sig2 - 4 = (9 - log10 M) / 10]. *)
Definition sig2_line : list R :=
  map (fun m => 4 + (9 - log10 m) / 10) mass0.

End Sample.

(** Sample constants and integrators for the class [cosmo], and the
    arguments of [cosmo()]: the defaults of [__init__].  The sample
    [quad] returns the integrand at the lower limit, the sample [simps]
    the first sample of the integrand. *)
Module SampleCosmology.

Definition const0 : Cosmology.constants := {|
  Cosmology.c := 299792.458;
  Cosmology.kB := 8.617e-5;
  Cosmology.G := 4.302e-9;
  Cosmology.alpha_BB := 7.566e-16;
  Cosmology.Msun := 1.989e30;
  Cosmology.Mpc_to_m := 3.086e22;
  Cosmology.rhoch2 := 2.775e11
|}.

Definition sp0 : Cosmology.scipy := {|
  Cosmology.quad_vec := fun f a _ => f a;
  Cosmology.quad_inf := fun f a => f a;
  Cosmology.simps := fun y _ => nth 0 y 0
|}.

Definition default : result Cosmology.cosmo :=
  Cosmology.init const0 sp0 0.3089 0.0486 0 3 [0] 3.046 (Some 2.14e-9)
    0.9667 None 0.6774 (-1) 0 0.06 2.7255.

(** A [k] array of 100 points that [compute_sigma_8] accepts, and a
    spectrum equal to [1] on it. *)
Definition k8 : list R := PI / 8 :: 0.001 :: repeat 1 98.
Definition pk8 : list R := repeat 1 100.

End SampleCosmology.

(* ================================================================== *)
(** ** Lists, tables and exceptions: basic facts *)
(* ================================================================== *)

Section ListFacts.

Context {A B C : Type}.

Lemma tabulate_length (n : nat) (f : nat -> A) : length (tabulate n f) = n.
Proof. unfold tabulate. now rewrite length_map, length_seq. Qed.

Lemma tabulate_nth (n : nat) (f : nat -> A) (d : A) (i : nat) :
  (i < n)%nat -> nth i (tabulate n f) d = f i.
Proof.
  intros Hi. unfold tabulate.
  rewrite (nth_indep _ d (f 0%nat)) by now rewrite length_map, length_seq.
  rewrite map_nth. now rewrite seq_nth.
Qed.

Lemma zipWith_length (f : A -> B -> C) (a : list A) (b : list B) :
  length (zipWith f a b) = Nat.min (length a) (length b).
Proof.
  revert b. induction a as [|x a IH]; intros [|y b]; simpl; auto.
Qed.

Lemma zipWith_nth (f : A -> B -> C) (a : list A) (b : list B)
  (da : A) (db : B) (dc : C) (i : nat) :
  (i < length a)%nat -> (i < length b)%nat ->
  nth i (zipWith f a b) dc = f (nth i a da) (nth i b db).
Proof.
  revert b i. induction a as [|x a IH]; intros [|y b] [|i]; simpl;
    intros Ha Hb; try lia; auto.
  apply IH; lia.
Qed.

Lemma map_nth_in (f : A -> B) (l : list A) (da : A) (db : B) (i : nat) :
  (i < length l)%nat -> nth i (map f l) db = f (nth i l da).
Proof.
  intros Hi. rewrite (nth_indep _ db (f da)) by now rewrite length_map.
  apply map_nth.
Qed.

Lemma Return_inj (a b : A) : Return a = Return b -> a = b.
Proof. intros H. congruence. Qed.

Lemma bind_Return (m : result A) (f : A -> result B) (b : B) :
  bind m f = Return b -> exists a, m = Return a /\ f a = Return b.
Proof. destruct m as [a|]; simpl; intros H; [eauto | discriminate]. Qed.

Lemma mapM_length (f : A -> result B) (l : list A) (r : list B) :
  mapM f l = Return r -> length r = length l.
Proof.
  revert r. induction l as [|a l IH]; simpl; intros r H.
  - now inversion H.
  - destruct (f a); simpl in H; [|discriminate].
    destruct (mapM f l); simpl in H; [|discriminate].
    inversion H; subst; simpl. f_equal. now apply IH.
Qed.

Lemma mapM_nth (f : A -> result B) (l : list A) (r : list B)
  (da : A) (db : B) (i : nat) :
  mapM f l = Return r -> (i < length l)%nat ->
  f (nth i l da) = Return (nth i r db).
Proof.
  revert r i. induction l as [|a l IH]; simpl; intros r i H Hi; [lia|].
  destruct (f a) eqn:Hfa; simpl in H; [|discriminate].
  destruct (mapM f l) eqn:Hl; simpl in H; [|discriminate].
  inversion H; subst. destruct i; simpl; auto.
  apply IH; auto; lia.
Qed.

Lemma mapM_ext_in (f g : A -> result B) (l : list A) :
  (forall a, In a l -> f a = g a) -> mapM f l = mapM g l.
Proof.
  induction l as [|a l IH]; simpl; intros H; [reflexivity|].
  rewrite (H a) by auto. rewrite IH by auto. reflexivity.
Qed.

Lemma mapM_returns (f : A -> result B) (l : list A) :
  (forall a, In a l -> exists b, f a = Return b) ->
  exists r, mapM f l = Return r.
Proof.
  induction l as [|a l IH]; simpl; intros H.
  - now eexists.
  - destruct (H a) as [b Hb]; auto. rewrite Hb; simpl.
    destruct IH as [r Hr]; auto. rewrite Hr; simpl. now eexists.
Qed.

Lemma mapM_raises (f : A -> result B) (l : list A) (e : exn) :
  mapM f l = Raise e -> exists a, In a l /\ f a = Raise e.
Proof.
  induction l as [|a l IH]; simpl; intros H; [discriminate|].
  destruct (f a) eqn:Hfa; simpl in H.
  - destruct (mapM f l) eqn:Hl; simpl in H; [discriminate|].
    inversion H; subst. destruct IH as [x [Hx Hfx]]; eauto.
  - inversion H; subst; eauto.
Qed.

End ListFacts.

(* ================================================================== *)
(** ** The assertions on [k] *)
(* ================================================================== *)

Lemma fold_left_Rmax_ge (l : list R) (x : R) :
  x <= fold_left Rmax l x /\
  forall y, In y l -> y <= fold_left Rmax l x.
Proof.
  revert x. induction l as [|a l IH]; simpl; intros x.
  - split; [lra | tauto].
  - destruct (IH (Rmax x a)) as [H1 H2]. split.
    + pose proof (Rmax_l x a). lra.
    + intros y [<- | Hy]; auto. pose proof (Rmax_r x a). lra.
Qed.

Lemma fold_left_Rmax_in (l : list R) (x : R) :
  fold_left Rmax l x = x \/ In (fold_left Rmax l x) l.
Proof.
  revert x. induction l as [|a l IH]; simpl; intros x; auto.
  destruct (IH (Rmax x a)) as [H | H]; auto.
  rewrite H. unfold Rmax. destruct (Rle_dec x a); auto.
Qed.

Lemma fold_left_Rmin_le (l : list R) (x : R) :
  fold_left Rmin l x <= x /\
  forall y, In y l -> fold_left Rmin l x <= y.
Proof.
  revert x. induction l as [|a l IH]; simpl; intros x.
  - split; [lra | tauto].
  - destruct (IH (Rmin x a)) as [H1 H2]. split.
    + pose proof (Rmin_l x a). lra.
    + intros y [<- | Hy]; auto. pose proof (Rmin_r x a). lra.
Qed.

Lemma fold_left_Rmin_in (l : list R) (x : R) :
  fold_left Rmin l x = x \/ In (fold_left Rmin l x) l.
Proof.
  revert x. induction l as [|a l IH]; simpl; intros x; auto.
  destruct (IH (Rmin x a)) as [H | H]; auto.
  rewrite H. unfold Rmin. destruct (Rle_dec x a); auto.
Qed.

(** [k.max()] is a point of [k] and bounds every point. *)
Lemma amax_spec (a : list R) (m : R) :
  amax a = Return m -> In m a /\ forall y, In y a -> y <= m.
Proof.
  destruct a as [|x a]; simpl; intros H; [discriminate|].
  inversion H; subst; clear H.
  destruct (fold_left_Rmax_ge a x) as [H1 H2].
  split.
  - destruct (fold_left_Rmax_in a x) as [-> | H]; auto.
  - intros y [<- | Hy]; auto.
Qed.

Lemma amin_spec (a : list R) (m : R) :
  amin a = Return m -> In m a /\ forall y, In y a -> m <= y.
Proof.
  destruct a as [|x a]; simpl; intros H; [discriminate|].
  inversion H; subst; clear H.
  destruct (fold_left_Rmin_le a x) as [H1 H2].
  split.
  - destruct (fold_left_Rmin_in a x) as [-> | H]; auto.
  - intros y [<- | Hy]; auto.
Qed.

Lemma Rleb_true (a b : R) : a <= b -> Rleb a b = true.
Proof. intros H. unfold Rleb. destruct (Rle_dec a b); auto; lra. Qed.

Lemma Rleb_false (a b : R) : b < a -> Rleb a b = false.
Proof. intros H. unfold Rleb. destruct (Rle_dec a b); auto; lra. Qed.

(** The assertions pass on a sufficient [k]. *)
Lemma assert_k_sufficient (ks : list R) :
  sufficient ks -> assert_k ks = Return tt.
Proof.
  intros (Hlen & (x & Hx & Hx10) & (y & Hy & Hy1)).
  unfold assert_k.
  apply Nat.ltb_lt in Hlen. rewrite Hlen. simpl.
  destruct ks as [|k0 ks]; [contradiction|].
  destruct (amax (k0 :: ks)) as [m|] eqn:Hm; [|discriminate].
  destruct (amin (k0 :: ks)) as [n|] eqn:Hn; [|discriminate].
  apply amax_spec in Hm. apply amin_spec in Hn.
  destruct Hm as [_ Hm]. destruct Hn as [_ Hn].
  cbn [bind]. rewrite Rleb_true by (specialize (Hm x Hx); lra).
  cbn [assert bind]. rewrite Rleb_true by (specialize (Hn y Hy); lra).
  reflexivity.
Qed.

(** They fail, with [AssertionError], on an insufficient one. *)
Lemma assert_k_insufficient (ks : list R) :
  insufficient ks -> assert_k ks = Raise AssertionError.
Proof.
  intros H. unfold assert_k.
  destruct (100 <? length ks)%nat eqn:Hlen; [|reflexivity].
  apply Nat.ltb_lt in Hlen. simpl.
  destruct ks as [|k0 ks]; [simpl in Hlen; lia|].
  destruct (amax (k0 :: ks)) as [m|] eqn:Hm; [|discriminate].
  destruct (amin (k0 :: ks)) as [n|] eqn:Hn; [|discriminate].
  apply amax_spec in Hm. apply amin_spec in Hn.
  destruct Hm as [Hm _]. destruct Hn as [Hn _].
  cbn [bind]. unfold Rleb.
  destruct (Rle_dec 10 m) as [H10|H10]; [|reflexivity].
  cbn [assert bind].
  destruct (Rle_dec n 0.001) as [H1|H1]; [|reflexivity].
  exfalso. destruct H as [H | [H | H]].
  - lia.
  - specialize (H m Hm). lra.
  - specialize (H n Hn). lra.
Qed.

(** Nothing else can come out of them. *)
Lemma assert_k_cases (ks : list R) :
  (assert_k ks = Return tt /\ sufficient ks) \/
  (assert_k ks = Raise AssertionError /\ insufficient ks).
Proof.
  destruct (le_lt_dec (length ks) 100) as [Hlen | Hlen].
  { right. split; [apply assert_k_insufficient|]; left; auto. }
  destruct ks as [|k0 ks]; [simpl in Hlen; lia|].
  destruct (amax (k0 :: ks)) as [m|] eqn:Hm; [|discriminate].
  destruct (amin (k0 :: ks)) as [n|] eqn:Hn; [|discriminate].
  apply amax_spec in Hm. apply amin_spec in Hn.
  destruct (Rle_dec 10 m) as [H10|H10].
  - destruct (Rle_dec n 0.001) as [H1|H1].
    + left. assert (Hs : sufficient (k0 :: ks)).
      { split; [auto|]. split; [exists m | exists n]; tauto. }
      split; [now apply assert_k_sufficient | exact Hs].
    + right. assert (Hi : insufficient (k0 :: ks)).
      { right; right. intros x Hx. destruct Hn as [_ Hn].
        specialize (Hn x Hx). lra. }
      split; [now apply assert_k_insufficient | exact Hi].
  - right. assert (Hi : insufficient (k0 :: ks)).
    { right; left. intros x Hx. destruct Hm as [_ Hm].
      specialize (Hm x Hx). lra. }
    split; [now apply assert_k_insufficient | exact Hi].
Qed.

(* ================================================================== *)
(** ** The constructor and [compute_nonlinear_pk], step by step *)
(* ================================================================== *)

Section Steps.

Variable lib : library.
Variable cosmology : cosmo.

(** What [compute_nonlinear_pk] returns, attribute by attribute. *)
Lemma compute_nonlinear_pk_Return (self : grids) (e : halofit_operator) :
  compute_nonlinear_pk lib cosmology self = Return e ->
  z e = g_z self /\ k e = g_k self /\ nz e = g_nz self /\
  nk e = g_nk self /\ pk e = g_pk self /\ pk_nw e = g_pk_nw self /\
  pk_dw e = g_pk_dw self /\ rho_field e = g_rho_field self /\
  mass e = g_mass self /\ lnmass e = g_lnmass self /\
  dlnm e = g_dlnm self /\ nm e = g_nm self /\ rr e = g_rr self /\
  sig2 e = tabulate (nz e) (fun i => sigma2 lib (rr e) (k e) (nth i (pk e) []))
  /\
  nu e = tabulate (nz e) (fun i =>
           map (fun s2 => at1 (deltac e) i / sqrt s2) (nth i (sig2 e) []))
  /\
  z_form lib cosmology (nz e) (z e) (mass e) (sig2 e) (deltac e)
  = Return (zf e) /\
  n_eff e = tabulate (nz e) (fun i =>
              n_eff_of lib (mass e) (lnmass e) (nth i (sig2 e) [])
                       (at1 (deltac e) i) (at1 (z e) i)) /\
  conc e = tabulate (nz e) (fun i =>
             map (fun zf_ij => c_bull zf_ij (at1 (z e) i)) (nth i (zf e) []))
  /\
  rv e = tabulate (nz e) (fun i =>
           map (fun M =>
                  power (3 * M / (4 * PI * rho_field e * at1 (Deltav e) i))
                        (1 / 3))
               (mass e)) /\
  alpha e = map (alp) (n_eff e) /\
  rs e = zipWith (zipWith Rdiv) (rv e) (conc e) /\
  k_star e = map k_s (sigd e) /\
  pk_1h e =
    tabulate (nz e) (fun iz =>
      pk_1h_row (mass e) (rho_field e)
        (nth iz (dndM lib (nz e) (rho_field e) (mass e) (dlnm e) (nu e)) [])
        (nth iz (u_table lib (nz e) (nm e) (conc e)
                   (R_bloat_table (nz e) (nu e) (eta e) (rs e)) (k e)) [])
        (k e) (at1 (k_star e) iz)) /\
  pk_2h e =
    tabulate (nz e) (fun iz =>
      pk_2h_row (nth iz (pk_dw e) []) (k e) (at1 (sigd e) iz)
                (at1 (fdamp e) iz)) /\
  pk_nl e =
    tabulate (nz e) (fun iz =>
      pk_nl_row (nth iz (pk_1h e) []) (nth iz (pk_2h e) [])
                (at1 (alpha e) iz)).
Proof.
  unfold compute_nonlinear_pk. intros H.
  destruct (z_form _ _ _ _ _ _ _) as [zf_|] eqn:Hzf; [|discriminate].
  cbn [bind] in H. injection H as <-. cbn [z k nz nk pk pk_nw pk_dw
    rho_field mass lnmass dlnm nm rr sig2 nu zf n_eff conc rv alpha rs
    k_star pk_1h pk_2h pk_nl deltac Deltav sigd fdamp eta].
  repeat split; try reflexivity; try exact Hzf.
Qed.

Lemma shape_test (zs ks : list R) (pk_in : array2) :
  negb ((fst (shape pk_in) =? length zs)%nat
        && (snd (shape pk_in) =? length ks)%nat) = false
  <-> well_shaped zs ks pk_in.
Proof.
  unfold well_shaped. destruct (shape pk_in) as [a b]. simpl.
  rewrite negb_false_iff, andb_true_iff, !Nat.eqb_eq.
  split; [intros [-> ->]; reflexivity | intros H; inversion H; auto].
Qed.

(** The path of a construction that returns. *)
Lemma halofit_init_Return (zs ks : list R) (pk_in : array2)
  (field : string) (bao : bool) (e : halofit_operator) :
  halofit_init lib cosmology zs ks pk_in field bao = Return e ->
  sufficient ks /\ well_shaped zs ks pk_in /\
  exists smear rho,
    (if bao then bao_smearing cosmology ks pk_in (length zs)
     else Return (rows pk_in, rows pk_in)) = Return smear /\
    ((field = "cb"%string /\
      rho = rho_crit cosmology 0 * Omega_cb cosmology) \/
     (field = "tot"%string /\
      rho = rho_crit cosmology 0 * Omega_m cosmology)) /\
    compute_nonlinear_pk lib cosmology
      (init_grids zs ks (rows pk_in) (fst smear) (snd smear) rho)
    = Return e.
Proof.
  unfold halofit_init. intros H.
  destruct (assert_k_cases ks) as [[Hk Hs] | [Hk _]]; rewrite Hk in H;
    [|discriminate].
  cbn [bind] in H. split; [exact Hs|].
  destruct (log10_As cosmology) as [lAs|]; [|discriminate].
  cbn [getattr bind] in H.
  destruct (if bao then _ else _) as [smear|] eqn:Hsm; [|discriminate].
  cbn [bind] in H.
  destruct (negb _) eqn:Hshape; [discriminate|].
  apply shape_test in Hshape. split; [exact Hshape|].
  exists smear.
  destruct (String.eqb field "cb") eqn:Hcb.
  - apply String.eqb_eq in Hcb. cbn [bind] in H. eexists. split; [reflexivity|].
    split; [left; split; [exact Hcb | reflexivity] | exact H].
  - destruct (String.eqb field "tot") eqn:Htot; [|discriminate].
    apply String.eqb_eq in Htot. cbn [bind] in H. eexists.
    split; [reflexivity|].
    split; [right; split; [exact Htot | reflexivity] | exact H].
Qed.

(** A construction that returns has read [cosmology.log10_As]. *)
Lemma halofit_init_attribute (zs ks : list R) (pk_in : array2)
  (field : string) (bao : bool) (e : halofit_operator) :
  halofit_init lib cosmology zs ks pk_in field bao = Return e ->
  log10_As cosmology <> None.
Proof.
  unfold halofit_init. intros H.
  destruct (assert_k ks) as [[]|]; [|discriminate]. cbn [bind] in H.
  destruct (log10_As cosmology); [discriminate 1 | discriminate H].
Qed.

(** Past the assertions on [k] and the attribute copies, on a cosmology
    that has [log10_As]. *)
Lemma halofit_init_past_copies (zs ks : list R) (pk_in : array2)
  (field : string) (bao : bool) :
  sufficient ks -> log10_As cosmology <> None ->
  halofit_init lib cosmology zs ks pk_in field bao
  = (smear <- (if bao then bao_smearing cosmology ks pk_in (length zs)
               else Return (rows pk_in, rows pk_in)) ;;
     if negb ((fst (shape pk_in) =? length zs)%nat
              && (snd (shape pk_in) =? length ks)%nat)
     then Raise IndexError
     else
       rho <- (if String.eqb field "cb"
               then Return (rho_crit cosmology 0 * Omega_cb cosmology)
               else if String.eqb field "tot"
               then Return (rho_crit cosmology 0 * Omega_m cosmology)
               else Raise ValueError) ;;
       compute_nonlinear_pk lib cosmology
         (init_grids zs ks (rows pk_in) (fst smear) (snd smear) rho)).
Proof.
  intros Hs HA. unfold halofit_init.
  rewrite (assert_k_sufficient _ Hs). cbn [bind].
  destruct (log10_As cosmology) as [lAs|]; [reflexivity | contradiction].
Qed.

Lemma logspace_length (a b : R) (n : nat) : length (logspace a b n) = n.
Proof. unfold logspace, linspace. now rewrite !length_map, length_seq. Qed.

(** The grids of an instance are the arguments of its constructor and
    the fixed mass grid of 512 points. *)
Lemma halofit_init_grids (zs ks : list R) (pk_in : array2)
  (field : string) (bao : bool) (e : halofit_operator) :
  halofit_init lib cosmology zs ks pk_in field bao = Return e ->
  z e = zs /\ k e = ks /\ nz e = length zs /\ nk e = length ks /\
  pk e = rows pk_in /\ mass e = logspace 0 18 512 /\ nm e = 512%nat /\
  lnmass e = map ln (mass e) /\
  rr e = map (radius_of_mass (rho_field e)) (mass e).
Proof.
  intros H. apply halofit_init_Return in H.
  destruct H as (_ & _ & smear & rho & _ & _ & H).
  apply compute_nonlinear_pk_Return in H.
  destruct H as (Hz & Hk & Hnz & Hnk & Hpk & _ & _ & Hrho & Hmass & Hln
                 & _ & Hnm & Hrr & _).
  cbn [init_grids g_z g_k g_nz g_nk g_pk g_mass g_lnmass g_nm g_rr
       g_rho_field] in *.
  rewrite Hmass, Hrho, Hrr, Hln.
  repeat split; auto.
Qed.

(** *** Which exceptions the array operations can raise *)

Lemma only_ValueError_Return {A} (a : A) : only_ValueError (Return a).
Proof. intros e H. discriminate. Qed.

Lemma only_ValueError_bind {A B} (m : result A) (f : A -> result B) :
  only_ValueError m -> (forall a, m = Return a -> only_ValueError (f a)) ->
  only_ValueError (bind m f).
Proof.
  intros Hm Hf e. destruct m as [a|e']; simpl.
  - apply (Hf a eq_refl).
  - intros H. inversion H; subst. exact (Hm e eq_refl).
Qed.

Lemma only_ValueError_mapM {A B} (f : A -> result B) (l : list A) :
  (forall a, In a l -> only_ValueError (f a)) -> only_ValueError (mapM f l).
Proof.
  intros H e He. apply mapM_raises in He. destruct He as (a & Ha & Hfa).
  now apply (H a Ha).
Qed.

Lemma only_ValueError_zipM {A B C} (f : A -> B -> result C)
  (a : list A) (b : list B) :
  (forall x y, only_ValueError (f x y)) -> only_ValueError (zipM f a b).
Proof.
  intros H. revert b. induction a as [|x a IH]; intros [|y b]; simpl;
    try apply only_ValueError_Return.
  apply only_ValueError_bind; [apply H|]. intros c _.
  apply only_ValueError_bind; [apply IH|]. intros cs _.
  apply only_ValueError_Return.
Qed.

Lemma only_ValueError_broadcast {A} (f : A -> A -> result A) (a b : list A) :
  (forall x y, only_ValueError (f x y)) -> only_ValueError (broadcast f a b).
Proof.
  intros H. unfold broadcast.
  destruct (length a =? length b)%nat.
  - now apply only_ValueError_zipM.
  - destruct a as [|x [|x' a]]; destruct b as [|y [|y' b]];
      try (intros e He; now inversion He);
      try (apply only_ValueError_mapM; intros; apply H).
Qed.

Lemma only_ValueError_lift2 (f : R -> R -> R) (x y : R) :
  only_ValueError (lift2 f x y).
Proof. apply only_ValueError_Return. Qed.

Lemma only_ValueError_vop (f : R -> R -> R) (a b : list R) :
  only_ValueError (broadcast (lift2 f) a b).
Proof. apply only_ValueError_broadcast. apply only_ValueError_lift2. Qed.

Lemma only_ValueError_trapz_x (y x : list R) : only_ValueError (trapz_x y x).
Proof.
  unfold trapz_x.
  apply only_ValueError_bind; [apply only_ValueError_vop|]. intros s _.
  apply only_ValueError_bind; [apply only_ValueError_vop|]. intros p _.
  apply only_ValueError_Return.
Qed.

Lemma only_ValueError_z_form (nz_ : nat) (zs ms : list R)
  (s2 : list (list R)) (dc : list R) :
  only_ValueError (z_form lib cosmology nz_ zs ms s2 dc).
Proof.
  unfold z_form. apply only_ValueError_mapM. intros iz _.
  destruct (extrapolate_log _ _ _ _ _) as [m_ext sig_ext].
  apply only_ValueError_bind.
  - apply only_ValueError_mapM. intros m _ e.
    destruct (interp1d _ _ _ _); simpl; intros H; now inversion H.
  - intros s _. apply only_ValueError_Return.
Qed.

Lemma only_ValueError_compute (self : grids) :
  only_ValueError (compute_nonlinear_pk lib cosmology self).
Proof.
  unfold compute_nonlinear_pk.
  apply only_ValueError_bind; [apply only_ValueError_z_form|].
  intros zf_ _. apply only_ValueError_Return.
Qed.

(** On a spectrum with a row for every redshift, the smearing raises
    [IndexError] only if [remove_bao] does. *)
Lemma bao_smearing_no_IndexError (ks : list R) (pk_in : array2) (n : nat) :
  length (rows pk_in) = n ->
  (forall k' r, remove_bao cosmology k' r <> Raise IndexError) ->
  bao_smearing cosmology ks pk_in n <> Raise IndexError.
Proof.
  intros Hn Hrb.
  assert (Hrow : forall i, In i (seq 0 n) ->
                           exists r, getrow pk_in i = Return r).
  { intros i Hi. apply in_seq in Hi. unfold getrow.
    destruct (nth_error (rows pk_in) i) as [r|] eqn:Hr; [now eexists|].
    apply nth_error_None in Hr. lia. }
  unfold bao_smearing. intros H.
  destruct (mapM _ (seq 0 n)) as [nw|e1] eqn:H1.
  2:{ cbn [bind] in H. inversion H; subst.
      apply mapM_raises in H1. destruct H1 as (i & Hi & Hf).
      destruct (Hrow i Hi) as [r Hr]. rewrite Hr in Hf. cbn [bind] in Hf.
      now apply (Hrb ks r). }
  cbn [bind] in H.
  assert (Hv : only_ValueError
                 (mapM (fun i : nat =>
                          r <- getrow pk_in i ;;
                          kp <- vmul ks r ;;
                          t <- trapz_x kp (map ln ks) ;;
                          Return (1 / (6 * PI ^ 2) * t)) (seq 0 n))).
  { apply only_ValueError_mapM. intros i Hi.
    destruct (Hrow i Hi) as [r ->]. cbn [bind].
    apply only_ValueError_bind; [apply only_ValueError_vop|]. intros kp _.
    apply only_ValueError_bind; [apply only_ValueError_trapz_x|].
    intros t _. apply only_ValueError_Return. }
  destruct (mapM _ (seq 0 n)) as [sv2|e2] eqn:H2 in H.
  2:{ cbn [bind] in H. inversion H; subst.
      rewrite H2 in Hv. specialize (Hv IndexError eq_refl). discriminate. }
  cbn [bind] in H.
  destruct (mapM _ (seq 0 n)) as [dw|e3] eqn:H3 in H.
  { cbn [bind] in H. discriminate. }
  cbn [bind] in H. inversion H; subst.
  apply mapM_raises in H3. destruct H3 as (i & Hi & Hf).
  destruct (Hrow i Hi) as [r Hr]. rewrite Hr in Hf. cbn [bind] in Hf.
  revert Hf.
  assert (Hv3 : only_ValueError
                  (d <- vsub r (nth i nw []) ;;
                   m <- vmul d (map (fun kk => exp (- kk ^ 2 * at1 sv2 i))
                                    ks) ;;
                   vadd m (nth i nw []))).
  { apply only_ValueError_bind; [apply only_ValueError_vop|]. intros d _.
    apply only_ValueError_bind; [apply only_ValueError_vop|]. intros m _.
    apply only_ValueError_vop. }
  intros Hf. specialize (Hv3 IndexError Hf). discriminate.
Qed.

(* ================================================================== *)
(** ** The constructor: validation of the arguments *)
(* ================================================================== *)

(** The linear spectra come out of [linear_spectra] before the operator
    is applied, and the operator is applied to [pk_cbcb] with
    [field = 'cb']. *)
Lemma nonlinear_pk_init_Return (zs ks : list R) (code : string)
  (kw : kwargs) (bao : bool) (t : nonlinear_pk) :
  nonlinear_pk_init lib cosmology zs ks code kw bao = Return t ->
  linear_spectra cosmology zs ks code kw
  = Return (t_pk_cbcb t, t_pk_cbnu t, t_pk_nunu t) /\
  halofit_init lib cosmology zs ks (t_pk_cbcb t) "cb" bao
  = Return (t_HO t) /\
  (if bao then bao_smearing cosmology ks (t_pk_cbcb t) (length zs)
   else Return (rows (t_pk_cbcb t), rows (t_pk_cbcb t)))
  = Return (t_pk_nw t, t_pk_dw t) /\
  t_pk_nl_cbcb t = pk_nl (t_HO t) /\
  t_pk_nw_cbcb t = pk_nw (t_HO t) /\
  t_pk_dw_cbcb t = pk_dw (t_HO t) /\
  total_matter_pk cosmology (t_pk_nl_cbcb t) (rows (t_pk_cbnu t))
                  (rows (t_pk_nunu t))
  = Return (t_pk_nl t).
Proof.
  unfold nonlinear_pk_init. intros H.
  destruct (assert_k ks) as [[]|]; [|discriminate]. cbn [bind] in H.
  destruct (linear_spectra _ _ _ _ _) as [[[cbcb cbnu] nunu]|] eqn:Hl;
    [|discriminate].
  cbn [bind] in H.
  destruct (if bao then _ else _) as [[nw dw]|] eqn:Hsm; [|discriminate].
  cbn [bind] in H.
  destruct (halofit_init lib cosmology zs ks cbcb "cb" bao) as [HO|] eqn:HHO;
    [|discriminate].
  cbn [bind] in H.
  destruct (total_matter_pk _ _ _ _) as [nl|] eqn:Hnl; [|discriminate].
  cbn [bind] in H. injection H as <-. cbn.
  repeat split; auto.
Qed.

(** C2 (amended).  A [k] array that is insufficient for convergence (at
    most 100 points, or a maximum below 10 h/Mpc, or a minimum above
    0.001 h/Mpc) makes both constructors fail: the assertions that open
    [halofit_operator.__init__] and [nonlinear_pk.__init__] raise
    [AssertionError], whatever the other arguments, and no result is
    produced. *)
Theorem insufficient_k_raises (zs ks : list R) (pk_in : array2)
  (field code : string) (kw : kwargs) (bao : bool) :
  insufficient ks ->
  halofit_init lib cosmology zs ks pk_in field bao = Raise AssertionError /\
  nonlinear_pk_init lib cosmology zs ks code kw bao = Raise AssertionError.
Proof.
  intros H. apply assert_k_insufficient in H.
  unfold halofit_init, nonlinear_pk_init. rewrite H. split; reflexivity.
Qed.

(** C6.  With [BAO_smearing = False] an instance that is constructed has
    [pk_dw] equal to the input [pk] (and so has [pk_nw]): entry by entry
    the de-wiggled spectrum is the linear one, and it is the linear
    spectrum itself that the two-halo term damps. *)
Theorem no_smearing_identity (zs ks : list R) (pk_in : array2)
  (field : string) (e : halofit_operator) :
  halofit_init lib cosmology zs ks pk_in field false = Return e ->
  pk_dw e = rows pk_in /\ pk_nw e = rows pk_in /\ pk e = rows pk_in /\
  (forall iz ik, at2 (pk_dw e) iz ik = at2 (pk e) iz ik) /\
  (forall iz ik, (iz < length zs)%nat -> (ik < length ks)%nat ->
     at2 (pk_2h e) iz ik
     = at2 (rows pk_in) iz ik
       * (1 - at1 (fdamp e) iz
              * tanh (at1 ks ik * at1 (sigd e) iz / sqrt (at1 (fdamp e) iz))
                ^ 2)).
Proof.
  intros H. pose proof (halofit_init_grids _ _ _ _ _ _ H) as G.
  destruct G as (Hz & Hk & Hnz & Hnk & Hpk & _).
  apply halofit_init_Return in H.
  destruct H as (_ & Hshape & smear & rho & Hsm & _ & H).
  injection Hsm as <-.
  apply compute_nonlinear_pk_Return in H.
  destruct H as (_ & _ & _ & _ & _ & Hnw & Hdw & H).
  cbn [init_grids g_pk_nw g_pk_dw fst snd] in Hnw, Hdw.
  assert (H2h : pk_2h e =
    tabulate (nz e) (fun iz =>
      pk_2h_row (nth iz (pk_dw e) []) (k e) (at1 (sigd e) iz)
                (at1 (fdamp e) iz))) by (decompose [and] H; assumption).
  split; [exact Hdw|]. split; [exact Hnw|]. split; [exact Hpk|].
  split; [intros; now rewrite Hdw, Hpk|].
  intros iz ik Hiz Hik. unfold at2 at 1. rewrite H2h, Hnz.
  rewrite tabulate_nth by exact Hiz. unfold pk_2h_row.
  rewrite Hdw, Hk.
  assert (Hrow : length (nth iz (rows pk_in) []) = length ks).
  { unfold well_shaped, shape in Hshape. injection Hshape as Hr Hc.
    pose proof (rect pk_in) as Hrect. rewrite Forall_forall in Hrect.
    rewrite <- Hc. apply Hrect. apply nth_In. lia. }
  rewrite (zipWith_nth _ _ _ 0 0) by (rewrite ?length_map; lia).
  rewrite (map_nth_in _ _ 0 0) by lia. reflexivity.
Qed.

(** C7 (amended).  When [k] passes the three assertions, the cosmology
    has the attribute [log10_As] (it was built with [As] given) and the
    BAO smearing is disabled or returns, a [pk] whose shape differs from
    [(len(z), len(k))] makes the constructor raise [IndexError], whatever
    the field and the library are: the check comes after the assertions,
    the attribute copies and the smearing, and before the density of the
    field is chosen, the mass grid is built and [compute_nonlinear_pk]
    runs.  A [pk] of shape [(len(z), len(k))] never makes the
    constructor raise [IndexError], as long as [remove_bao] itself raises
    none. *)
Theorem shape_error (zs ks : list R) (pk_in : array2) (field : string)
  (bao : bool) :
  (sufficient ks -> log10_As cosmology <> None ->
   (bao = false \/
    exists s, bao_smearing cosmology ks pk_in (length zs) = Return s) ->
   ~ well_shaped zs ks pk_in ->
   halofit_init lib cosmology zs ks pk_in field bao = Raise IndexError) /\
  (well_shaped zs ks pk_in ->
   (forall k' r, remove_bao cosmology k' r <> Raise IndexError) ->
   halofit_init lib cosmology zs ks pk_in field bao <> Raise IndexError).
Proof.
  split.
  - intros Hs HA Hsm Hshape.
    rewrite (halofit_init_past_copies _ _ _ _ _ Hs HA).
    assert (Ht : negb ((fst (shape pk_in) =? length zs)%nat
                       && (snd (shape pk_in) =? length ks)%nat) = true).
    { destruct (negb _) eqn:Ht; [reflexivity|].
      apply shape_test in Ht. contradiction. }
    destruct Hsm as [-> | [s Hs']].
    + cbn [bind]. rewrite Ht. reflexivity.
    + destruct bao; [rewrite Hs'|]; cbn [bind]; rewrite Ht; reflexivity.
  - intros Hshape Hrb. unfold halofit_init.
    destruct (assert_k_cases ks) as [[Hk _] | [Hk _]]; rewrite Hk;
      [|discriminate].
    cbn [bind].
    destruct (log10_As cosmology) as [lAs|]; [|discriminate].
    cbn [getattr bind].
    destruct (if bao then _ else _) as [smear|ex] eqn:Hsm.
    + cbn [bind]. apply shape_test in Hshape. rewrite Hshape.
      intros H.
      assert (Hv : only_ValueError
        (rho <- (if String.eqb field "cb"
                 then Return (rho_crit cosmology 0 * Omega_cb cosmology)
                 else if String.eqb field "tot"
                 then Return (rho_crit cosmology 0 * Omega_m cosmology)
                 else Raise ValueError) ;;
         compute_nonlinear_pk lib cosmology
           (init_grids zs ks (rows pk_in) (fst smear) (snd smear) rho))).
      { apply only_ValueError_bind.
        - intros ex. destruct (String.eqb field "cb"); [discriminate|].
          destruct (String.eqb field "tot"); [discriminate|].
          intros Hex; now inversion Hex.
        - intros rho _. apply only_ValueError_compute. }
      specialize (Hv IndexError H). discriminate.
    + cbn [bind]. destruct bao; [|discriminate].
      intros H. inversion H; subst.
      revert Hsm. apply bao_smearing_no_IndexError; [|exact Hrb].
      unfold well_shaped, shape in Hshape. now inversion Hshape.
Qed.

(** C8.  A [field] other than ['cb'] and ['tot'] makes the constructor
    fail on every input: it never returns an instance.  The exception is
    the [ValueError] of the field selection once the earlier statements
    have passed: [k] sufficient, the attribute [log10_As] present on the
    cosmology (it was built with [As] given), the smearing disabled or
    returned, and [pk] of shape [(len(z), len(k))].  An instance
    constructed with [field = 'cb'] has
    [rho_field = rho_crit(0) * Omega_cb], one constructed with
    [field = 'tot'] has [rho_field = rho_crit(0) * Omega_m]. *)
Theorem field_selection (zs ks : list R) (pk_in : array2) (field : string)
  (bao : bool) :
  (field <> "cb"%string -> field <> "tot"%string ->
   (exists ex, halofit_init lib cosmology zs ks pk_in field bao = Raise ex)
   /\
   (sufficient ks -> log10_As cosmology <> None ->
    well_shaped zs ks pk_in ->
    (bao = false \/
     exists s, bao_smearing cosmology ks pk_in (length zs) = Return s) ->
    halofit_init lib cosmology zs ks pk_in field bao = Raise ValueError)) /\
  (forall e, halofit_init lib cosmology zs ks pk_in "cb" bao = Return e ->
             rho_field e = rho_crit cosmology 0 * Omega_cb cosmology) /\
  (forall e, halofit_init lib cosmology zs ks pk_in "tot" bao = Return e ->
             rho_field e = rho_crit cosmology 0 * Omega_m cosmology).
Proof.
  split; [|split].
  - intros Hcb Htot. split.
    + destruct (halofit_init lib cosmology zs ks pk_in field bao)
        as [e|ex] eqn:H; [|now eexists].
      apply halofit_init_Return in H.
      destruct H as (_ & _ & _ & _ & _ & [[H _] | [H _]] & _);
        contradiction.
    + intros Hs HA Hshape Hsm.
      rewrite (halofit_init_past_copies _ _ _ _ _ Hs HA).
      apply shape_test in Hshape.
      apply String.eqb_neq in Hcb, Htot.
      destruct Hsm as [-> | [s Hs']].
      * cbn [bind]. rewrite Hshape, Hcb, Htot. reflexivity.
      * destruct bao; [rewrite Hs'|]; cbn [bind];
          rewrite Hshape, Hcb, Htot; reflexivity.
  - intros e H. apply halofit_init_Return in H.
    destruct H as (_ & _ & smear & rho & _ & [[_ Hr] | [Hf _]] & H);
      [|discriminate].
    apply compute_nonlinear_pk_Return in H.
    destruct H as (_ & _ & _ & _ & _ & _ & _ & Hrho & _).
    rewrite Hrho. exact Hr.
  - intros e H. apply halofit_init_Return in H.
    destruct H as (_ & _ & smear & rho & _ & [[Hf _] | [_ Hr]] & H);
      [discriminate|].
    apply compute_nonlinear_pk_Return in H.
    destruct H as (_ & _ & _ & _ & _ & _ & _ & Hrho & _).
    rewrite Hrho. exact Hr.
Qed.

(* ================================================================== *)
(** ** Redshift of formation *)
(* ================================================================== *)

Lemma z_form_clamp_spec (zf_D : R -> option R) (rhs z0 : R) :
  z0 <= z_form_clamp zf_D rhs z0 /\
  (zf_D rhs = None -> z_form_clamp zf_D rhs z0 = z0) /\
  (forall v, zf_D rhs = Some v -> v < z0 -> z_form_clamp zf_D rhs z0 = z0) /\
  (forall v, zf_D rhs = Some v -> z0 <= v -> z_form_clamp zf_D rhs z0 = v).
Proof.
  unfold z_form_clamp. destruct (zf_D rhs) as [v|].
  - destruct (Rlt_dec v z0) as [Hlt | Hge].
    + split; [lra|]. split; [discriminate|]. split.
      * intros v' _ _. reflexivity.
      * intros v' Hv' Hle. injection Hv' as <-. lra.
    + split; [lra|]. split; [discriminate|]. split.
      * intros v' Hv' Hlt. injection Hv' as <-. lra.
      * intros v' Hv' _. now injection Hv'.
  - split; [lra|]. split; [reflexivity|]. split; discriminate.
Qed.

(** Every entry of the table that [z_form] returns is the clamped
    inversion of the growth factor at the target
    [D_1(z) * deltac / sigma(0.01 * M)]. *)
Lemma z_form_Return (n : nat) (zs ms : list R) (s2 : list (list R))
  (dc : list R) (res : list (list R)) :
  z_form lib cosmology n zs ms s2 dc = Return res ->
  forall iz im, (iz < n)%nat -> (im < length ms)%nat ->
  let z_tmp := linspace 0 30 1001 in
  let zf_D := interp1d lib (map (D_1 cosmology) z_tmp) z_tmp in
  let ext := extrapolate_log lib ms (map sqrt (nth iz s2 []))
               (1e-1 * 0.01 * at1 ms 0) (1e1 * last ms 0) in
  exists s,
    interp1d lib (fst ext) (snd ext) (0.01 * at1 ms im) = Some s /\
    at2 res iz im
    = z_form_clamp zf_D (D_1 cosmology (at1 zs iz) * at1 dc iz / s)
                   (at1 zs iz).
Proof.
  unfold z_form. intros H iz im Hiz Him. cbv zeta.
  pose proof (mapM_length _ _ _ H) as Hlen. rewrite length_seq in Hlen.
  apply (mapM_nth _ _ _ 0%nat [] iz) in H; [|now rewrite length_seq].
  rewrite seq_nth in H by exact Hiz. cbn [Nat.add] in H.
  destruct (extrapolate_log lib ms (map sqrt (nth iz s2 []))
              (1e-1 * 0.01 * at1 ms 0) (1e1 * last ms 0))
    as [m_ext sig_ext].
  cbn [fst snd].
  apply bind_Return in H. destruct H as (s_fmz & Hs & H).
  apply Return_inj in H.
  pose proof (mapM_length _ _ _ Hs) as Hls. rewrite length_map in Hls.
  apply (mapM_nth _ _ _ 0 0 im) in Hs; [|now rewrite length_map].
  rewrite (map_nth_in _ _ 0 0) in Hs by exact Him.
  exists (nth im s_fmz 0). split.
  - unfold at1.
    destruct (interp1d lib m_ext sig_ext (0.01 * nth im ms 0)) as [v|];
      cbn [of_option] in Hs; [|discriminate].
    apply Return_inj in Hs. now rewrite Hs.
  - unfold at2. rewrite <- H.
    rewrite (map_nth_in _ _ 0 0) by (rewrite length_map, Hls; exact Him).
    rewrite (map_nth_in _ _ 0 0) by (rewrite Hls; exact Him).
    reflexivity.
Qed.

(** C5.  In an instance that is constructed, for every redshift [z] of
    the grid and every mass [M] of the 512-point mass grid the formation
    redshift is at least [z].  It is the growth factor inverted at the
    target [D_1(z) * deltac(z) / sigma(0.01 * M)]: the value of the
    interpolant [zf_D] over [z_tmp = np.linspace(0., 30., 1001)] there,
    replaced by [z] itself when the target is outside the tabulated range
    (the interpolant raises [ValueError], [None] here) or when the
    inverted value is below [z]. *)
Theorem formation_redshift_clamped (zs ks : list R) (pk_in : array2)
  (field : string) (bao : bool) (e : halofit_operator) :
  halofit_init lib cosmology zs ks pk_in field bao = Return e ->
  forall iz im, (iz < length zs)%nat -> (im < 512)%nat ->
  let z_tmp := linspace 0 30 1001 in
  let zf_D := interp1d lib (map (D_1 cosmology) z_tmp) z_tmp in
  let ext := extrapolate_log lib (mass e) (map sqrt (nth iz (sig2 e) []))
               (1e-1 * 0.01 * at1 (mass e) 0) (1e1 * last (mass e) 0) in
  at1 zs iz <= at2 (zf e) iz im /\
  exists sigma_fM,
    interp1d lib (fst ext) (snd ext) (0.01 * at1 (mass e) im)
    = Some sigma_fM /\
    let target :=
      D_1 cosmology (at1 zs iz) * at1 (deltac e) iz / sigma_fM in
    (zf_D target = None -> at2 (zf e) iz im = at1 zs iz) /\
    (forall v, zf_D target = Some v -> v < at1 zs iz ->
               at2 (zf e) iz im = at1 zs iz) /\
    (forall v, zf_D target = Some v -> at1 zs iz <= v ->
               at2 (zf e) iz im = v).
Proof.
  intros H iz im Hiz Him z_tmp zf_D ext.
  pose proof (halofit_init_grids _ _ _ _ _ _ H) as G.
  destruct G as (Hz & _ & Hnz & _ & _ & Hmass & _).
  apply halofit_init_Return in H.
  destruct H as (_ & _ & smear & rho & _ & _ & H).
  apply compute_nonlinear_pk_Return in H.
  assert (Hzf : z_form lib cosmology (nz e) (z e) (mass e) (sig2 e)
                       (deltac e) = Return (zf e))
    by (decompose [and] H; assumption).
  rewrite Hnz, Hz in Hzf.
  destruct (z_form_Return _ _ _ _ _ _ Hzf iz im Hiz) as (s & Hs & Hres).
  { rewrite Hmass, logspace_length. exact Him. }
  rewrite Hres.
  destruct (z_form_clamp_spec zf_D
              (D_1 cosmology (at1 zs iz) * at1 (deltac e) iz / s)
              (at1 zs iz)) as (H1 & H2 & H3 & H4).
  split; [exact H1|].
  exists s. split; [exact Hs|]. cbv zeta.
  split; [exact H2|]. split; [exact H3 | exact H4].
Qed.

(* ================================================================== *)
(** ** Effective spectral index *)
(* ================================================================== *)

Lemma power_pos_base (x y : R) : 0 < x -> power x y = Rpower x y.
Proof.
  intros H. unfold power. destruct (Req_dec_T x 0); [lra | reflexivity].
Qed.

Lemma ln_10_pos : 0 < ln 10.
Proof. rewrite <- ln_1. apply ln_increasing; lra. Qed.

Lemma log10_power_10 (x : R) : log10 (power 10 x) = x.
Proof.
  rewrite power_pos_base by lra. unfold log10, Rpower.
  rewrite ln_exp. field. pose proof ln_10_pos. lra.
Qed.

Lemma power_10_pos (x : R) : 0 < power 10 x.
Proof. rewrite power_pos_base by lra. unfold Rpower. apply exp_pos. Qed.

(* ================================================================== *)
(** ** Shapes of the tables *)
(* ================================================================== *)

Lemma zipM_length {A B C} (f : A -> B -> result C) (a : list A)
  (b : list B) (c : list C) :
  zipM f a b = Return c -> length c = Nat.min (length a) (length b).
Proof.
  revert b c. induction a as [|x a IH]; intros [|y b] c; simpl; intros H;
    try (apply Return_inj in H; subst; reflexivity).
  apply bind_Return in H. destruct H as (v & _ & H).
  apply bind_Return in H. destruct H as (vs & Hvs & H).
  apply Return_inj in H. subst c. simpl. f_equal. now apply IH.
Qed.

Lemma zipM_nth {A B C} (f : A -> B -> result C) (a : list A) (b : list B)
  (c : list C) (da : A) (db : B) (dc : C) (i : nat) :
  zipM f a b = Return c -> (i < length a)%nat -> (i < length b)%nat ->
  f (nth i a da) (nth i b db) = Return (nth i c dc).
Proof.
  revert b c i. induction a as [|x a IH]; intros [|y b] c i; simpl;
    intros H Ha Hb; try lia.
  apply bind_Return in H. destruct H as (v & Hv & H).
  apply bind_Return in H. destruct H as (vs & Hvs & H).
  apply Return_inj in H. subst c. destruct i as [|i]; simpl; [exact Hv|].
  apply (IH b vs i Hvs); lia.
Qed.

Lemma broadcast_length {A} (f : A -> A -> result A) (a b c : list A) :
  broadcast f a b = Return c ->
  (length a = length b /\ length c = length a) \/
  (length a = 1%nat /\ length c = length b) \/
  (length b = 1%nat /\ length c = length a).
Proof.
  unfold broadcast. destruct (length a =? length b)%nat eqn:Hab.
  - apply Nat.eqb_eq in Hab. intros H. apply zipM_length in H. lia.
  - apply Nat.eqb_neq in Hab.
    destruct a as [|x [|x' a]]; destruct b as [|y [|y' b]];
      intros H; try discriminate; try (simpl in Hab; lia);
      apply mapM_length in H; simpl in *; lia.
Qed.

(** Entry by entry, on two arrays of one length. *)
Lemma broadcast_nth {A} (f : A -> A -> result A) (a b c : list A)
  (d : A) (i : nat) :
  broadcast f a b = Return c -> length a = length b ->
  (i < length a)%nat ->
  f (nth i a d) (nth i b d) = Return (nth i c d).
Proof.
  unfold broadcast. intros H Hab Hi.
  apply Nat.eqb_eq in Hab as Hab'. rewrite Hab' in H.
  apply (zipM_nth _ _ _ _ d d d i H); lia.
Qed.

Lemma vop_nth (f : R -> R -> R) (a b c : list R) (i : nat) :
  broadcast (lift2 f) a b = Return c -> length a = length b ->
  (i < length a)%nat ->
  at1 c i = f (at1 a i) (at1 b i).
Proof.
  intros H Hab Hi. apply (broadcast_nth _ _ _ _ 0 i) in H; auto.
  unfold lift2 in H. apply Return_inj in H. unfold at1. now rewrite H.
Qed.

Lemma table_shape_nth (n m : nat) (t : list (list R)) (i : nat) :
  table_shape n m t -> (i < n)%nat -> length (nth i t []) = m.
Proof.
  intros [Hn Hm] Hi. rewrite Forall_forall in Hm. apply Hm.
  apply nth_In. lia.
Qed.

Lemma table_shape_tabulate (n m : nat) (f : nat -> list R) :
  (forall i, (i < n)%nat -> length (f i) = m) ->
  table_shape n m (tabulate n f).
Proof.
  intros H. split; [apply tabulate_length|].
  apply Forall_forall. intros r Hr. unfold tabulate in Hr.
  apply in_map_iff in Hr. destruct Hr as (i & <- & Hi).
  apply in_seq in Hi. apply H. lia.
Qed.

Lemma array2_table_shape (zs ks : list R) (a : array2) :
  well_shaped zs ks a -> table_shape (length zs) (length ks) (rows a).
Proof.
  unfold well_shaped, shape. intros H. injection H as Hr Hc.
  split; [exact Hr|]. rewrite <- Hc. apply rect.
Qed.

(** The de-wiggled spectra that the smearing returns have the shape of
    the input spectrum. *)
Lemma bao_smearing_shape (zs ks : list R) (pk_in : array2)
  (nw dw : list (list R)) :
  bao_smearing cosmology ks pk_in (length zs) = Return (nw, dw) ->
  well_shaped zs ks pk_in -> (1 < length ks)%nat ->
  table_shape (length zs) (length ks) dw.
Proof.
  unfold bao_smearing. intros H Hshape Hk.
  apply array2_table_shape in Hshape.
  apply bind_Return in H. destruct H as (nw' & _ & H).
  apply bind_Return in H. destruct H as (sv2 & _ & H).
  apply bind_Return in H. destruct H as (dw' & Hdw & H).
  apply Return_inj in H. injection H as -> ->.
  pose proof (mapM_length _ _ _ Hdw) as Hlen. rewrite length_seq in Hlen.
  split; [exact Hlen|].
  apply Forall_forall. intros r Hr.
  apply (In_nth _ _ []) in Hr. destruct Hr as (i & Hi & <-).
  rewrite Hlen in Hi.
  apply (mapM_nth _ _ _ 0%nat [] i) in Hdw; [|now rewrite length_seq].
  rewrite seq_nth in Hdw by exact Hi. cbn [Nat.add] in Hdw.
  apply bind_Return in Hdw. destruct Hdw as (row & Hrow & Hdw).
  assert (Hlrow : length row = length ks).
  { unfold getrow in Hrow.
    destruct (nth_error (rows pk_in) i) as [r'|] eqn:Hn; [|discriminate].
    apply Return_inj in Hrow. subst r'.
    apply nth_error_In in Hn. destruct Hshape as [_ Hf].
    rewrite Forall_forall in Hf. now apply Hf. }
  apply bind_Return in Hdw. destruct Hdw as (d & Hd & Hdw).
  apply bind_Return in Hdw. destruct Hdw as (m & Hm & Hdw).
  apply broadcast_length in Hd. apply broadcast_length in Hm.
  apply broadcast_length in Hdw. rewrite length_map in Hm. lia.
Qed.

Lemma sufficient_length (ks : list R) : sufficient ks -> (1 < length ks)%nat.
Proof. intros [H _]. lia. Qed.

(** The spectra of an instance have the shape [(len(z), len(k))]. *)
Lemma halofit_init_shapes (zs ks : list R) (pk_in : array2)
  (field : string) (bao : bool) (e : halofit_operator) :
  halofit_init lib cosmology zs ks pk_in field bao = Return e ->
  table_shape (length zs) (length ks) (pk_dw e) /\
  table_shape (length zs) (length ks) (pk_1h e) /\
  table_shape (length zs) (length ks) (pk_2h e) /\
  table_shape (length zs) (length ks) (pk_nl e).
Proof.
  intros H. pose proof (halofit_init_grids _ _ _ _ _ _ H) as G.
  destruct G as (_ & Hk & Hnz & _).
  apply halofit_init_Return in H.
  destruct H as (Hs & Hshape & [nw dw] & rho & Hsm & _ & H).
  apply compute_nonlinear_pk_Return in H.
  assert (Hdw : pk_dw e = dw) by (decompose [and] H; assumption).
  assert (H1h : pk_1h e =
    tabulate (nz e) (fun iz =>
      pk_1h_row (mass e) (rho_field e)
        (nth iz (dndM lib (nz e) (rho_field e) (mass e) (dlnm e) (nu e)) [])
        (nth iz (u_table lib (nz e) (nm e) (conc e)
                   (R_bloat_table (nz e) (nu e) (eta e) (rs e)) (k e)) [])
        (k e) (at1 (k_star e) iz)))
    by (decompose [and] H; assumption).
  assert (H2h : pk_2h e =
    tabulate (nz e) (fun iz =>
      pk_2h_row (nth iz (pk_dw e) []) (k e) (at1 (sigd e) iz)
                (at1 (fdamp e) iz)))
    by (decompose [and] H; assumption).
  assert (Hnl : pk_nl e =
    tabulate (nz e) (fun iz =>
      pk_nl_row (nth iz (pk_1h e) []) (nth iz (pk_2h e) [])
                (at1 (alpha e) iz)))
    by (decompose [and] H; assumption).
  clear H.
  assert (Sdw : table_shape (length zs) (length ks) (pk_dw e)).
  { rewrite Hdw. destruct bao.
    - apply (bao_smearing_shape _ _ _ _ _ Hsm Hshape).
      now apply sufficient_length.
    - apply Return_inj in Hsm. injection Hsm as _ <-.
      now apply array2_table_shape. }
  assert (S1h : table_shape (length zs) (length ks) (pk_1h e)).
  { rewrite H1h, Hnz. apply table_shape_tabulate. intros i _.
    unfold pk_1h_row. rewrite zipWith_length, tabulate_length, Hk. lia. }
  assert (S2h : table_shape (length zs) (length ks) (pk_2h e)).
  { rewrite H2h, Hnz. apply table_shape_tabulate. intros i Hi.
    unfold pk_2h_row. rewrite zipWith_length, length_map, Hk.
    rewrite (table_shape_nth _ _ _ _ Sdw Hi). lia. }
  repeat split; try apply Sdw; try apply S1h; try apply S2h.
  - rewrite Hnl, Hnz. apply tabulate_length.
  - rewrite Hnl, Hnz. apply table_shape_tabulate. intros i Hi.
    unfold pk_nl_row. rewrite zipWith_length.
    rewrite (table_shape_nth _ _ _ _ S1h Hi).
    rewrite (table_shape_nth _ _ _ _ S2h Hi). lia.
Qed.

(* ================================================================== *)
(** ** The power spectrum *)
(* ================================================================== *)

Lemma alp_pos (neff : R) : 0 < alp neff.
Proof.
  unfold alp. rewrite power_pos_base by lra.
  apply Rmult_lt_0_compat; [lra|]. unfold Rpower. apply exp_pos.
Qed.

(** C9.  In an instance that is constructed, for every redshift and
    wavenumber of the grid
    [pk_nl = (pk_1h**alpha + pk_2h**alpha)**(1/alpha)] with
    [alpha = 3.24 * 1.85**n_eff] of that redshift; and [alp] is positive
    at every real [n_eff]. *)
Theorem smooth_blend (zs ks : list R) (pk_in : array2) (field : string)
  (bao : bool) (e : halofit_operator) :
  halofit_init lib cosmology zs ks pk_in field bao = Return e ->
  (forall iz ik, (iz < length zs)%nat -> (ik < length ks)%nat ->
     let a := at1 (alpha e) iz in
     a = 3.24 * Rpower 1.85 (at1 (n_eff e) iz) /\
     0 < a /\
     at2 (pk_nl e) iz ik
     = power (power (at2 (pk_1h e) iz ik) a + power (at2 (pk_2h e) iz ik) a)
             (1 / a)) /\
  (forall neff : R, 0 < alp neff).
Proof.
  intros H. split; [|exact alp_pos].
  intros iz ik Hiz Hik a.
  pose proof (halofit_init_grids _ _ _ _ _ _ H) as G.
  destruct G as (_ & _ & Hnz & _).
  destruct (halofit_init_shapes _ _ _ _ _ _ H) as (_ & S1h & S2h & _).
  apply halofit_init_Return in H.
  destruct H as (_ & _ & smear & rho & _ & _ & H).
  apply compute_nonlinear_pk_Return in H.
  assert (Ha : alpha e = map alp (n_eff e))
    by (decompose [and] H; assumption).
  assert (Hn : n_eff e = tabulate (nz e) (fun i =>
              n_eff_of lib (mass e) (lnmass e) (nth i (sig2 e) [])
                       (at1 (deltac e) i) (at1 (z e) i)))
    by (decompose [and] H; assumption).
  assert (Hnl : pk_nl e =
    tabulate (nz e) (fun iz =>
      pk_nl_row (nth iz (pk_1h e) []) (nth iz (pk_2h e) [])
                (at1 (alpha e) iz)))
    by (decompose [and] H; assumption).
  clear H.
  assert (Halp : a = alp (at1 (n_eff e) iz)).
  { unfold a, at1. rewrite Ha. apply map_nth_in.
    rewrite Hn, tabulate_length, Hnz. exact Hiz. }
  split; [|split].
  - rewrite Halp. unfold alp. now rewrite power_pos_base by lra.
  - rewrite Halp. apply alp_pos.
  - unfold at2 at 1. rewrite Hnl, Hnz, tabulate_nth by exact Hiz.
    unfold pk_nl_row. fold a.
    rewrite (zipWith_nth _ _ _ 0 0).
    + reflexivity.
    + now rewrite (table_shape_nth _ _ _ _ S1h Hiz).
    + now rewrite (table_shape_nth _ _ _ _ S2h Hiz).
Qed.

(** The damping of the one-halo term, [(1 - exp(-x)**2)**3], is
    [(1 - exp(-2x))**3]; at [x > 0] it is not [(1 - exp(-x))**6]. *)
Lemma damping_exp (x : R) :
  (1 - exp (- x) ^ 2) ^ 3 = (1 - exp (- (2 * x))) ^ 3.
Proof.
  replace (- (2 * x)) with (- x + - x) by ring.
  rewrite exp_plus. ring.
Qed.

Lemma damping_not_sixth_power (x : R) :
  0 < x -> (1 - exp (- x) ^ 2) ^ 3 <> (1 - exp (- x)) ^ 6.
Proof.
  intros Hx.
  assert (Ht0 : 0 < exp (- x)) by apply exp_pos.
  assert (Ht1 : exp (- x) < 1).
  { rewrite <- exp_0. apply exp_increasing. lra. }
  set (t := exp (- x)) in *.
  assert (Hd : (1 - t ^ 2) ^ 3 - (1 - t) ^ 6
               = (1 - t) ^ 3 * (6 * t + 2 * t ^ 3)) by ring.
  assert (Hp : 0 < (1 - t) ^ 3 * (6 * t + 2 * t ^ 3)).
  { apply Rmult_lt_0_compat.
    - apply pow_lt. lra.
    - assert (0 < t ^ 3) by (apply pow_lt; lra). lra. }
  lra.
Qed.

(** C1 (amended).  In an instance that is constructed, for every redshift
    and wavenumber of the grid the one-halo term is the trapezoidal
    integral over [ln M], on the 512-point mass grid, of
    [M * (M/rho_field)**2 * hmf(z,M) * u(z,M,k)**2], multiplied by the
    damping factor [(1 - exp(-k/k_star(z))**2)**3], that is
    [(1 - exp(-2k/k_star(z)))**3]: the cube of one minus the square of the
    exponential.  Where [k/k_star > 0] and the integral is not zero this
    is not the integral times [(1 - exp(-k/k_star))**6]. *)
Theorem one_halo_term (zs ks : list R) (pk_in : array2) (field : string)
  (bao : bool) (e : halofit_operator) :
  halofit_init lib cosmology zs ks pk_in field bao = Return e ->
  forall iz ik, (iz < length zs)%nat -> (ik < length ks)%nat ->
  let hmf := dndM lib (nz e) (rho_field e) (mass e) (dlnm e) (nu e) in
  let u := u_table lib (nz e) (nm e) (conc e)
             (R_bloat_table (nz e) (nu e) (eta e) (rs e)) ks in
  let integral :=
    trapz (tabulate 512 (fun j =>
             at1 (mass e) j * (at1 (mass e) j / rho_field e) ^ 2
             * at2 hmf iz j * at3 u iz j ik ^ 2))
          (map ln (mass e)) in
  let x := at1 ks ik / at1 (k_star e) iz in
  at2 (pk_1h e) iz ik = integral * (1 - exp (- x) ^ 2) ^ 3 /\
  at2 (pk_1h e) iz ik = integral * (1 - exp (- (2 * x))) ^ 3 /\
  (0 < x -> integral <> 0 ->
   at2 (pk_1h e) iz ik <> integral * (1 - exp (- x)) ^ 6).
Proof.
  intros H iz ik Hiz Hik hmf u integral x.
  pose proof (halofit_init_grids _ _ _ _ _ _ H) as G.
  destruct G as (_ & Hk & Hnz & _ & _ & Hmass & _).
  apply halofit_init_Return in H.
  destruct H as (_ & _ & smear & rho & _ & _ & H).
  apply compute_nonlinear_pk_Return in H.
  assert (H1h : pk_1h e =
    tabulate (nz e) (fun iz =>
      pk_1h_row (mass e) (rho_field e)
        (nth iz (dndM lib (nz e) (rho_field e) (mass e) (dlnm e) (nu e)) [])
        (nth iz (u_table lib (nz e) (nm e) (conc e)
                   (R_bloat_table (nz e) (nu e) (eta e) (rs e)) (k e)) [])
        (k e) (at1 (k_star e) iz)))
    by (decompose [and] H; assumption).
  clear H.
  assert (E : at2 (pk_1h e) iz ik = integral * (1 - exp (- x) ^ 2) ^ 3).
  { unfold at2 at 1. rewrite H1h, Hnz, tabulate_nth by exact Hiz.
    unfold pk_1h_row. rewrite Hk.
    rewrite (zipWith_nth _ _ _ 0 0) by (rewrite ?tabulate_length; lia).
    rewrite tabulate_nth by exact Hik.
    replace (- nth ik ks 0 / at1 (k_star e) iz) with (- x)
      by (unfold x, at1, Rdiv; ring).
    f_equal. unfold integral.
    replace (length (mass e)) with 512%nat
      by (now rewrite Hmass, logspace_length).
    f_equal. unfold tabulate. apply map_ext. intros j.
    unfold hmf, u, at3, at2, at1. rewrite ?Hnz. ring. }
  split; [exact E|]. split.
  - rewrite E. now rewrite damping_exp.
  - intros Hx Hint. rewrite E. intros Heq.
    apply Rmult_eq_reg_l in Heq; [|exact Hint].
    revert Heq. now apply damping_not_sixth_power.
Qed.

(* ================================================================== *)
(** ** The class [nonlinear_pk]: total matter *)
(* ================================================================== *)

Lemma mscale_nth (s : R) (a : list (list R)) (i j : nat) :
  at2 (mscale s a) i j = s * at2 a i j.
Proof.
  unfold at2, mscale.
  change (@nil R) with (scale s []) at 1. rewrite map_nth.
  unfold scale.
  destruct (Nat.lt_ge_cases j (length (nth i a []))) as [Hj | Hj].
  - now rewrite (map_nth_in _ _ 0 0).
  - rewrite !nth_overflow by (rewrite ?length_map; exact Hj). ring.
Qed.

Lemma mscale_shape (n m : nat) (s : R) (a : list (list R)) :
  table_shape n m a -> table_shape n m (mscale s a).
Proof.
  intros [Hn Hm]. unfold mscale. split; [now rewrite length_map|].
  apply Forall_forall. intros r Hr. apply in_map_iff in Hr.
  destruct Hr as (r' & <- & Hr'). unfold scale. rewrite length_map.
  rewrite Forall_forall in Hm. now apply Hm.
Qed.

(** The sum of two tables of one shape, entry by entry. *)
Lemma madd_nth (n m : nat) (a b c : list (list R)) :
  madd a b = Return c -> table_shape n m a -> table_shape n m b ->
  table_shape n m c /\
  forall i j, (i < n)%nat -> (j < m)%nat ->
              at2 c i j = at2 a i j + at2 b i j.
Proof.
  unfold madd. intros H Sa Sb.
  pose proof Sa as [La _]. pose proof Sb as [Lb _].
  assert (Hab : length a = length b) by lia.
  assert (Hrow : forall i, (i < n)%nat ->
            vadd (nth i a []) (nth i b []) = Return (nth i c [])).
  { intros i Hi. apply (broadcast_nth _ _ _ _ [] i H Hab). lia. }
  assert (Hc : length c = n).
  { apply broadcast_length in H.
    destruct H as [[_ H] | [[H1 H] | [H1 H]]]; lia. }
  assert (Hlen : forall i, (i < n)%nat -> length (nth i c []) = m).
  { intros i Hi. specialize (Hrow i Hi). apply broadcast_length in Hrow.
    pose proof (table_shape_nth _ _ _ _ Sa Hi).
    pose proof (table_shape_nth _ _ _ _ Sb Hi). lia. }
  split.
  - split; [exact Hc|]. apply Forall_forall. intros r Hr.
    apply (In_nth _ _ []) in Hr. destruct Hr as (i & Hi & <-).
    apply Hlen. lia.
  - intros i j Hi Hj. unfold at2.
    apply (vop_nth Rplus _ _ _ j (Hrow i Hi)).
    + rewrite (table_shape_nth _ _ _ _ Sa Hi).
      now rewrite (table_shape_nth _ _ _ _ Sb Hi).
    + now rewrite (table_shape_nth _ _ _ _ Sa Hi).
Qed.

(** C10.  In an instance of [nonlinear_pk] that is constructed, the
    halofit operator has been applied to the linear cb-cb spectrum of the
    Boltzmann solver, with [field = 'cb'], and [pk_nl_cbcb] is its
    [pk_nl]; the cb-nu and nu-nu spectra are those the solver returned.
    When these two have the shape [(len(z), len(k))], for every redshift
    and wavenumber of the grid
    [pk_nl = f_cb**2 * pk_nl_cbcb + 2 * f_nu_tot * f_cb * pk_cbnu
             + f_nu_tot**2 * pk_nunu]. *)
Theorem cdm_prescription (zs ks : list R) (code : string) (kw : kwargs)
  (bao : bool) (t : nonlinear_pk) :
  nonlinear_pk_init lib cosmology zs ks code kw bao = Return t ->
  linear_spectra cosmology zs ks code kw
  = Return (t_pk_cbcb t, t_pk_cbnu t, t_pk_nunu t) /\
  halofit_init lib cosmology zs ks (t_pk_cbcb t) "cb" bao
  = Return (t_HO t) /\
  t_pk_nl_cbcb t = pk_nl (t_HO t) /\
  (well_shaped zs ks (t_pk_cbnu t) -> well_shaped zs ks (t_pk_nunu t) ->
   forall iz ik, (iz < length zs)%nat -> (ik < length ks)%nat ->
     at2 (t_pk_nl t) iz ik
     = f_cb cosmology ^ 2 * at2 (t_pk_nl_cbcb t) iz ik
       + 2 * f_nu_tot cosmology * f_cb cosmology
         * at2 (rows (t_pk_cbnu t)) iz ik
       + f_nu_tot cosmology ^ 2 * at2 (rows (t_pk_nunu t)) iz ik).
Proof.
  intros H. apply nonlinear_pk_init_Return in H.
  destruct H as (Hl & HHO & _ & Hnl & _ & _ & Htot).
  split; [exact Hl|]. split; [exact HHO|]. split; [exact Hnl|].
  intros Scbnu Snunu iz ik Hiz Hik.
  destruct (halofit_init_shapes _ _ _ _ _ _ HHO) as (_ & _ & _ & Snl).
  rewrite <- Hnl in Snl.
  apply array2_table_shape in Scbnu, Snunu.
  unfold total_matter_pk in Htot.
  apply bind_Return in Htot. destruct Htot as (s & Hs & Htot).
  destruct (madd_nth (length zs) (length ks) _ _ _ Hs) as [Ss Es];
    try (apply mscale_shape; assumption).
  destruct (madd_nth (length zs) (length ks) _ _ _ Htot) as [_ Et];
    try (apply mscale_shape; assumption); try exact Ss.
  rewrite (Et iz ik Hiz Hik), (Es iz ik Hiz Hik), !mscale_nth.
  reflexivity.
Qed.

End Steps.

(* ================================================================== *)
(** ** Limits *)
(* ================================================================== *)

Section Limits.

Variable ev : (R -> Prop) -> Prop.
Hypothesis ev_mono :
  forall P Q : R -> Prop, (forall x, P x -> Q x) -> ev P -> ev Q.
Hypothesis ev_and :
  forall P Q : R -> Prop, ev P -> ev Q -> ev (fun x => P x /\ Q x).
Hypothesis ev_True : ev (fun _ => True).

Lemma tends_const (l : R) : tends ev (fun _ => l) l.
Proof.
  intros eps Heps. apply (ev_mono (fun _ => True)); [|exact ev_True].
  intros x _. replace (l - l) with 0 by ring. now rewrite Rabs_R0.
Qed.

Lemma tends_ext (f g : R -> R) (l : R) :
  ev (fun x => f x = g x) -> tends ev f l -> tends ev g l.
Proof.
  intros Hfg Hf eps Heps.
  apply (ev_mono (fun x => f x = g x /\ Rabs (f x - l) < eps)).
  - intros x [<- H]. exact H.
  - apply ev_and; [exact Hfg | now apply Hf].
Qed.

Lemma tends_plus (f g : R -> R) (l m : R) :
  tends ev f l -> tends ev g m -> tends ev (fun x => f x + g x) (l + m).
Proof.
  intros Hf Hg eps Heps.
  apply (ev_mono (fun x => Rabs (f x - l) < eps / 2
                           /\ Rabs (g x - m) < eps / 2)).
  - intros x [H1 H2].
    replace (f x + g x - (l + m)) with ((f x - l) + (g x - m)) by ring.
    pose proof (Rabs_triang (f x - l) (g x - m)). lra.
  - apply ev_and; [apply Hf | apply Hg]; lra.
Qed.

Lemma tends_scal (f : R -> R) (a l : R) :
  tends ev f l -> tends ev (fun x => a * f x) (a * l).
Proof.
  intros Hf eps Heps.
  apply (ev_mono (fun x => Rabs (f x - l) < eps / (1 + Rabs a))).
  - intros x H.
    replace (a * f x - a * l) with (a * (f x - l)) by ring.
    rewrite Rabs_mult.
    pose proof (Rabs_pos a). pose proof (Rabs_pos (f x - l)).
    assert (Hq : eps / (1 + Rabs a) * (1 + Rabs a) = eps)
      by (field; lra).
    nra.
  - apply Hf. apply Rdiv_lt_0_compat; [lra|].
    pose proof (Rabs_pos a). lra.
Qed.

Lemma tends_minus (f g : R -> R) (l m : R) :
  tends ev f l -> tends ev g m -> tends ev (fun x => f x - g x) (l - m).
Proof.
  intros Hf Hg.
  apply (tends_ext (fun x => f x + -1 * g x)).
  - apply (ev_mono (fun _ => True)); [|exact ev_True]. intros; ring.
  - replace (l - m) with (l + -1 * m) by ring.
    apply tends_plus; [exact Hf | now apply tends_scal].
Qed.

(** A bounded function times one that tends to zero. *)
Lemma tends_bounded_0 (b f : R -> R) (M : R) :
  (forall x, Rabs (b x) <= M) -> tends ev f 0 ->
  tends ev (fun x => b x * f x) 0.
Proof.
  intros Hb Hf eps Heps.
  assert (HM : 0 <= M) by (pose proof (Rabs_pos (b 0)); specialize (Hb 0); lra).
  apply (ev_mono (fun x => Rabs (f x - 0) < eps / (1 + M))).
  - intros x H. rewrite Rminus_0_r in *. rewrite Rabs_mult.
    pose proof (Rabs_pos (b x)). pose proof (Rabs_pos (f x)).
    specialize (Hb x).
    assert (Hq : eps / (1 + M) * (1 + M) = eps) by (field; lra).
    nra.
  - apply Hf. apply Rdiv_lt_0_compat; lra.
Qed.

Lemma tends_mult (f g : R -> R) (l m : R) :
  tends ev f l -> tends ev g m -> tends ev (fun x => f x * g x) (l * m).
Proof.
  intros Hf Hg eps Heps.
  set (eta := Rmin 1 (eps / (2 + Rabs l + Rabs m))).
  pose proof (Rabs_pos l) as Hl. pose proof (Rabs_pos m) as Hm.
  assert (Hq : 0 < eps / (2 + Rabs l + Rabs m))
    by (apply Rdiv_lt_0_compat; lra).
  assert (Heta : 0 < eta) by (unfold eta; apply Rmin_pos; lra).
  assert (Heta1 : eta <= 1) by apply Rmin_l.
  assert (Heta2 : eta * (2 + Rabs l + Rabs m) <= eps).
  { assert (eta <= eps / (2 + Rabs l + Rabs m)) by apply Rmin_r.
    assert (eps / (2 + Rabs l + Rabs m) * (2 + Rabs l + Rabs m) = eps)
      by (field; lra).
    nra. }
  apply (ev_mono (fun x => Rabs (f x - l) < eta /\ Rabs (g x - m) < eta)).
  - intros x [H1 H2].
    replace (f x * g x - l * m)
      with ((f x - l) * (g x - m) + l * (g x - m) + m * (f x - l)) by ring.
    pose proof (Rabs_triang ((f x - l) * (g x - m) + l * (g x - m))
                            (m * (f x - l))) as T1.
    pose proof (Rabs_triang ((f x - l) * (g x - m)) (l * (g x - m))) as T2.
    rewrite !Rabs_mult in *.
    pose proof (Rabs_pos (f x - l)). pose proof (Rabs_pos (g x - m)).
    assert (Rabs (f x - l) * Rabs (g x - m) <= eta) by nra.
    assert (Rabs l * Rabs (g x - m) <= Rabs l * eta) by nra.
    assert (Rabs m * Rabs (f x - l) <= Rabs m * eta) by nra.
    nra.
  - apply ev_and; [apply Hf | apply Hg]; exact Heta.
Qed.

End Limits.

Lemma tends_limit_eq (ev : (R -> Prop) -> Prop) (f : R -> R) (l l' : R) :
  l = l' -> tends ev f l -> tends ev f l'.
Proof. now intros ->. Qed.

Lemma near_0_mono (P Q : R -> Prop) :
  (forall x, P x -> Q x) -> near_0 P -> near_0 Q.
Proof. intros H (d & Hd & HP). exists d. split; auto. Qed.

Lemma near_0_and (P Q : R -> Prop) :
  near_0 P -> near_0 Q -> near_0 (fun x => P x /\ Q x).
Proof.
  intros (d1 & Hd1 & H1) (d2 & Hd2 & H2). exists (Rmin d1 d2).
  split; [now apply Rmin_pos|]. intros x Hx.
  pose proof (Rmin_l d1 d2). pose proof (Rmin_r d1 d2).
  split; [apply H1 | apply H2]; lra.
Qed.

Lemma near_0_True : near_0 (fun _ => True).
Proof. exists 1. split; [lra | auto]. Qed.

Lemma near_0_pos : near_0 (fun x => 0 < x).
Proof. exists 1. split; [lra | intros x Hx; lra]. Qed.

Lemma near_infinity_mono (P Q : R -> Prop) :
  (forall x, P x -> Q x) -> near_infinity P -> near_infinity Q.
Proof. intros H (d & Hd & HP). exists d. split; auto. Qed.

Lemma near_infinity_and (P Q : R -> Prop) :
  near_infinity P -> near_infinity Q -> near_infinity (fun x => P x /\ Q x).
Proof.
  intros (d1 & Hd1 & H1) (d2 & Hd2 & H2). exists (Rmax d1 d2).
  split; [pose proof (Rmax_l d1 d2); lra|]. intros x Hx.
  pose proof (Rmax_l d1 d2). pose proof (Rmax_r d1 d2).
  split; [apply H1 | apply H2]; lra.
Qed.

Lemma near_infinity_True : near_infinity (fun _ => True).
Proof. exists 1. split; [lra | auto]. Qed.

Lemma near_infinity_pos : near_infinity (fun x => 0 < x).
Proof. exists 1. split; [lra | intros x Hx; lra]. Qed.

(** Rescaling the abscissa by a factor [a >= 1] at infinity, by any
    factor [a > 0] at zero. *)
Lemma tends_near_0_scale (f : R -> R) (a l : R) :
  0 < a -> tends near_0 f l -> tends near_0 (fun x => f (a * x)) l.
Proof.
  intros Ha Hf eps Heps. destruct (Hf eps Heps) as (d & Hd & H).
  exists (d / a). split; [now apply Rdiv_lt_0_compat|].
  intros x [Hx0 Hx]. apply H. split; [nra|].
  assert (d / a * a = d) by (field; lra). nra.
Qed.

Lemma tends_near_infinity_scale (f : R -> R) (a l : R) :
  1 <= a -> tends near_infinity f l ->
  tends near_infinity (fun x => f (a * x)) l.
Proof.
  intros Ha Hf eps Heps. destruct (Hf eps Heps) as (X & HX & H).
  exists X. split; [exact HX|]. intros x Hx. apply H. nra.
Qed.

(** A function continuous at [0] tends to its value there. *)
Lemma tends_near_0_continuous (f : R -> R) :
  continuity_pt f 0 -> tends near_0 f (f 0).
Proof.
  intros Hc eps Heps. destruct (Hc eps Heps) as (d & Hd & H).
  exists d. split; [exact Hd|]. intros x [Hx0 Hx]. apply H.
  split.
  - split; [exact I | lra].
  - simpl. unfold R_dist. rewrite Rminus_0_r, Rabs_right; lra.
Qed.

(** [sin y / y] tends to [1] at [0]. *)
Lemma tends_sinc : tends near_0 (fun y => sin y / y) 1.
Proof.
  intros eps Heps.
  destruct (derivable_pt_lim_sin_0 eps Heps) as (d & H).
  exists d. split; [apply cond_pos|]. intros y [Hy0 Hy].
  specialize (H y). rewrite Rplus_0_l, sin_0, Rminus_0_r in H.
  apply H; [lra|]. rewrite Rabs_right; lra.
Qed.

(** [1 / (a * x)] tends to [0] at infinity. *)
Lemma tends_inv_linear (a : R) :
  0 < a -> tends near_infinity (fun x => 1 / (a * x)) 0.
Proof.
  intros Ha eps Heps. exists (1 / (a * eps)).
  split; [apply Rdiv_lt_0_compat; nra|].
  intros x Hx. rewrite Rminus_0_r.
  assert (Hx0 : 0 < x).
  { assert (0 < 1 / (a * eps)) by (apply Rdiv_lt_0_compat; nra). lra. }
  rewrite Rabs_right
    by (apply Rle_ge, Rlt_le, Rdiv_lt_0_compat; nra).
  assert (Hq : 1 / (a * eps) * (a * eps) = 1) by (field; lra).
  apply (Rmult_lt_reg_r (a * x)); [nra|].
  replace (1 / (a * x) * (a * x)) with 1 by (field; lra).
  assert (Hae : 0 < a * eps) by nra.
  assert (0 < (x - 1 / (a * eps)) * (a * eps))
    by (apply Rmult_lt_0_compat; lra).
  nra.
Qed.

(** The normalisation of the profile is positive:
    [ln(1+c) > c/(1+c)] at [c > 0]. *)
Lemma nfw_den_pos (c : R) : 0 < c -> 0 < ln (1 + c) - c * 1 / (1 + c).
Proof.
  intros Hc.
  assert (H : 1 + - (c / (1 + c)) < exp (- (c / (1 + c)))).
  { apply exp_ineq1. assert (0 < c / (1 + c)) by (apply Rdiv_lt_0_compat; lra).
    lra. }
  replace (1 + - (c / (1 + c))) with (/ (1 + c)) in H by (field; lra).
  apply ln_increasing in H; [|apply Rinv_0_lt_compat; lra].
  rewrite ln_Rinv, ln_exp in H by lra.
  replace (c * 1 / (1 + c)) with (c / (1 + c)) by (field; lra). lra.
Qed.

(* ================================================================== *)
(** ** The NFW profile in Fourier space *)
(* ================================================================== *)

Lemma Rabs_sin_le_1 (x : R) : Rabs (sin x) <= 1.
Proof. apply Rabs_le. apply SIN_bound. Qed.

Lemma Rabs_cos_le_1 (x : R) : Rabs (cos x) <= 1.
Proof. apply Rabs_le. apply COS_bound. Qed.

Section Normalisation.

Variable lib : library.
Variable c : R.
Hypothesis c_pos : 0 < c.
Hypothesis sici_ok : sici_asymptotics lib.

Lemma u_NFW_unfold (x : R) :
  u_NFW lib c x
  = 1 / (ln (1 + c) - c * 1 / (1 + c))
    * (sin x * (Si lib ((1 + c) * x) - Si lib x)
       + cos x * (Ci lib ((1 + c) * x) - Ci lib x)
       - sin (c * x) * 1 / ((1 + c) * x)).
Proof. reflexivity. Qed.

Lemma Ci_difference_near_0 :
  tends near_0 (fun x => Ci lib ((1 + c) * x) - Ci lib x) (ln (1 + c)).
Proof.
  destruct sici_ok as (_ & (g & HCi) & _).
  apply (tends_ext near_0 near_0_mono near_0_and
           (fun x => (Ci lib ((1 + c) * x) - ln ((1 + c) * x))
                     - (Ci lib x - ln x) + ln (1 + c))).
  - apply (near_0_mono (fun x => 0 < x)); [|exact near_0_pos].
    intros x Hx. rewrite ln_mult by lra. ring.
  - apply (tends_limit_eq near_0 _ (g - g + ln (1 + c))); [ring|].
    apply (tends_plus near_0 near_0_mono near_0_and).
    + apply (tends_minus near_0 near_0_mono near_0_and near_0_True).
      * apply (tends_near_0_scale (fun x => Ci lib x - ln x)); [lra|].
        exact HCi.
      * exact HCi.
    + apply (tends_const near_0 near_0_mono near_0_True).
Qed.

Lemma sin_ratio_near_0 :
  tends near_0 (fun x => sin (c * x) * 1 / ((1 + c) * x)) (c / (1 + c)).
Proof.
  apply (tends_ext near_0 near_0_mono near_0_and
           (fun x => c / (1 + c) * (sin (c * x) / (c * x)))).
  - apply (near_0_mono (fun x => 0 < x)); [|exact near_0_pos].
    intros x Hx. field. lra.
  - apply (tends_limit_eq near_0 _ (c / (1 + c) * 1)); [ring|].
    apply (tends_scal near_0 near_0_mono).
    apply (tends_near_0_scale (fun y => sin y / y)); [exact c_pos|].
    exact tends_sinc.
Qed.

Lemma u_NFW_near_0 : tends near_0 (u_NFW lib c) 1.
Proof.
  pose proof (nfw_den_pos c c_pos) as Hden.
  destruct sici_ok as (HSi & _).
  apply (tends_ext near_0 near_0_mono near_0_and
           (fun x => 1 / (ln (1 + c) - c * 1 / (1 + c))
              * (sin x * (Si lib ((1 + c) * x) - Si lib x)
                 + cos x * (Ci lib ((1 + c) * x) - Ci lib x)
                 - sin (c * x) * 1 / ((1 + c) * x)))).
  { apply (near_0_mono (fun _ => True)); [|exact near_0_True].
    intros x _. now rewrite u_NFW_unfold. }
  apply (tends_limit_eq near_0 _
           (1 / (ln (1 + c) - c * 1 / (1 + c)) * (sin 0 * (0 - 0) + cos 0 * ln (1 + c) - c / (1 + c)))).
  { rewrite sin_0, cos_0.
    replace (0 * (0 - 0) + 1 * ln (1 + c) - c / (1 + c))
      with (ln (1 + c) - c * 1 / (1 + c)) by (unfold Rdiv; ring).
    set (den := ln (1 + c) - c * 1 / (1 + c)) in *. field. lra. }
  apply (tends_scal near_0 near_0_mono).
  apply (tends_minus near_0 near_0_mono near_0_and near_0_True);
    [|exact sin_ratio_near_0].
  apply (tends_plus near_0 near_0_mono near_0_and).
  - apply (tends_mult near_0 near_0_mono near_0_and).
    + apply tends_near_0_continuous. apply continuity_sin.
    + apply (tends_minus near_0 near_0_mono near_0_and near_0_True).
      * apply (tends_near_0_scale (Si lib)); [lra | exact HSi].
      * exact HSi.
  - apply (tends_mult near_0 near_0_mono near_0_and).
    + apply tends_near_0_continuous. apply continuity_cos.
    + exact Ci_difference_near_0.
Qed.

Lemma u_NFW_near_infinity : tends near_infinity (u_NFW lib c) 0.
Proof.
  pose proof (nfw_den_pos c c_pos) as Hden.
  destruct sici_ok as (_ & _ & HSi & HCi).
  apply (tends_ext near_infinity near_infinity_mono near_infinity_and
           (fun x => 1 / (ln (1 + c) - c * 1 / (1 + c))
              * (sin x * (Si lib ((1 + c) * x) - Si lib x)
                 + cos x * (Ci lib ((1 + c) * x) - Ci lib x)
                 - sin (c * x) * (1 / ((1 + c) * x))))).
  { apply (near_infinity_mono (fun _ => True)); [|exact near_infinity_True].
    intros x _. rewrite u_NFW_unfold. unfold Rdiv. ring. }
  apply (tends_limit_eq near_infinity _ (1 / (ln (1 + c) - c * 1 / (1 + c)) * (0 + 0 - 0))); [ring|].
  apply (tends_scal near_infinity near_infinity_mono).
  apply (tends_minus near_infinity near_infinity_mono near_infinity_and
           near_infinity_True).
  - apply (tends_plus near_infinity near_infinity_mono near_infinity_and).
    + apply (tends_bounded_0 near_infinity near_infinity_mono _ _ 1
               Rabs_sin_le_1).
      apply (tends_limit_eq near_infinity _ (PI / 2 - PI / 2)); [ring|].
      apply (tends_minus near_infinity near_infinity_mono
               near_infinity_and near_infinity_True).
      * apply (tends_near_infinity_scale (Si lib)); [lra | exact HSi].
      * exact HSi.
    + apply (tends_bounded_0 near_infinity near_infinity_mono _ _ 1
               Rabs_cos_le_1).
      apply (tends_limit_eq near_infinity _ (0 - 0)); [ring|].
      apply (tends_minus near_infinity near_infinity_mono
               near_infinity_and near_infinity_True).
      * apply (tends_near_infinity_scale (Ci lib)); [lra | exact HCi].
      * exact HCi.
  - apply (tends_bounded_0 near_infinity near_infinity_mono
             (fun x => sin (c * x)) _ 1).
    + intros x. apply Rabs_sin_le_1.
    + apply tends_inv_linear. lra.
Qed.

End Normalisation.

(** C3 (amended).  For every concentration [c > 0], with the sine and
    cosine integrals behaving at [0] and at infinity as [sici] does,
    [u_NFW(c, x)] tends to [1] as [x] tends to [0] from the right and to
    [0] as [x] tends to infinity.  (At [x = 0] itself the quotient is
    [0/0], see [IEEE.u_NFW].) *)
Theorem u_NFW_limits (lib : library) (c : R) :
  0 < c -> sici_asymptotics lib ->
  tends near_0 (u_NFW lib c) 1 /\ tends near_infinity (u_NFW lib c) 0.
Proof.
  intros Hc Hs. split.
  - now apply u_NFW_near_0.
  - now apply u_NFW_near_infinity.
Qed.

(* ================================================================== *)
(** ** [u_NFW] on floats *)
(* ================================================================== *)

Lemma sgn_zero (r : R) : r = 0 -> IEEE.sgn r = IEEE.Zero.
Proof.
  intros ->. unfold IEEE.sgn.
  destruct (total_order_T 0 0) as [[H | H] | H]; try reflexivity; lra.
Qed.

Lemma sgn_pos (r : R) : 0 < r -> IEEE.sgn r = IEEE.Pos.
Proof.
  intros Hr. unfold IEEE.sgn.
  destruct (total_order_T r 0) as [[H | H] | H]; try reflexivity; lra.
Qed.

Lemma mul_NaN_r (a : IEEE.float) : IEEE.mul a IEEE.NaN = IEEE.NaN.
Proof. destruct a; reflexivity. Qed.

(** At [x = 0] the float computation gives [nan]: [Ci] is [-inf] at both
    abscissas and [num3] is [cos(0) * (-inf - -inf)]. *)
Lemma u_NFW_float_at_0 (lib : library) (c : R) :
  IEEE.u_NFW lib (IEEE.Fin c) (IEEE.Fin 0) = IEEE.NaN.
Proof.
  unfold IEEE.u_NFW.
  cbn [IEEE.add IEEE.mul IEEE.sici].
  rewrite (sgn_zero 0) by reflexivity.
  rewrite (sgn_zero ((1 + c) * 0)) by ring.
  cbn [IEEE.sub IEEE.neg IEEE.add IEEE.fcos IEEE.fsin IEEE.mul].
  apply mul_NaN_r.
Qed.

(** Away from [0] the float computation and the real-valued one agree. *)
Lemma u_NFW_float_real (lib : library) (c x : R) :
  0 < c -> 0 < x ->
  IEEE.u_NFW lib (IEEE.Fin c) (IEEE.Fin x) = IEEE.Fin (u_NFW lib c x).
Proof.
  intros Hc Hx. pose proof (nfw_den_pos c Hc) as Hden.
  unfold IEEE.u_NFW, u_NFW.
  cbn [IEEE.add IEEE.mul IEEE.sici IEEE.flog IEEE.div].
  rewrite (sgn_pos x) by exact Hx.
  rewrite !(sgn_pos ((1 + c) * x)) by nra.
  rewrite !(sgn_pos (1 + c)) by lra.
  cbn [IEEE.sub IEEE.neg IEEE.add IEEE.fcos IEEE.fsin IEEE.mul IEEE.div].
  rewrite !(sgn_pos ((1 + c) * x)) by nra.
  replace (ln (1 + c) + - (c * 1 / (1 + c)))
    with (ln (1 + c) - c * 1 / (1 + c)) by ring.
  rewrite (sgn_pos _ Hden).
  cbn [IEEE.mul IEEE.add IEEE.neg].
  reflexivity.
Qed.

(* ================================================================== *)
(** ** The constructors return *)
(* ================================================================== *)

Lemma z_form_returns (lib : library) (cosmology : cosmo) (n : nat)
  (zs ms : list R) (s2 : list (list R)) (dc : list R) :
  sig_int_defined lib ms ->
  exists res, z_form lib cosmology n zs ms s2 dc = Return res.
Proof.
  intros Hi. unfold z_form. apply mapM_returns. intros iz _.
  specialize (Hi (map sqrt (nth iz s2 []))). cbv zeta in Hi.
  destruct (extrapolate_log lib ms (map sqrt (nth iz s2 []))
              (1e-1 * 0.01 * at1 ms 0) (1e1 * last ms 0))
    as [m_ext sig_ext].
  cbn [fst snd] in Hi.
  destruct (mapM_returns (fun m => of_option (interp1d lib m_ext sig_ext m))
              (map (Rmult 0.01) ms)) as [s Hs].
  { intros m Hm. apply in_map_iff in Hm. destruct Hm as (m' & <- & Hm').
    destruct (Hi m' Hm') as [v ->]. now eexists. }
  rewrite Hs. cbn [bind]. now eexists.
Qed.

(** With a sufficient [k], a spectrum of the right shape, a known field,
    no smearing, the interpolant of [sigma] evaluated inside its range
    and a cosmology that has [log10_As], the constructor returns an
    instance. *)
Lemma halofit_init_returns (lib : library) (cosmology : cosmo)
  (zs ks : list R) (pk_in : array2) (field : string) :
  sufficient ks -> well_shaped zs ks pk_in ->
  field = "cb"%string \/ field = "tot"%string ->
  sig_int_defined lib (logspace 0 18 512) ->
  log10_As cosmology <> None ->
  exists e, halofit_init lib cosmology zs ks pk_in field false = Return e.
Proof.
  intros Hs Hshape Hf Hi HA.
  rewrite (halofit_init_past_copies _ _ _ _ _ _ _ Hs HA).
  cbn [bind fst snd].
  apply shape_test in Hshape. rewrite Hshape.
  assert (Hc : forall rho, exists e,
             compute_nonlinear_pk lib cosmology
               (init_grids zs ks (rows pk_in) (rows pk_in) (rows pk_in) rho)
             = Return e).
  { intros rho. unfold compute_nonlinear_pk.
    match goal with
    | |- context [bind (z_form ?a ?b ?c ?d ?e ?f ?h) _] =>
        destruct (z_form_returns a b c d e f h Hi) as [zf_ Hzf]
    end.
    rewrite Hzf. cbn [bind]. now eexists. }
  destruct Hf as [-> | ->]; cbn [String.eqb Ascii.eqb Bool.eqb bind];
    apply Hc.
Qed.

Lemma zipM_returns {A B C} (f : A -> B -> result C) (a : list A)
  (b : list B) :
  (forall x y, In x a -> In y b -> exists v, f x y = Return v) ->
  exists c, zipM f a b = Return c.
Proof.
  revert b. induction a as [|x a IH]; intros [|y b] H; simpl;
    try (now eexists).
  destruct (H x y) as [v ->]; simpl; auto.
  destruct (IH b) as [vs ->]; [intros; apply H; simpl; auto|].
  simpl. now eexists.
Qed.

Lemma madd_returns (n m : nat) (a b : list (list R)) :
  table_shape n m a -> table_shape n m b -> exists c, madd a b = Return c.
Proof.
  intros [La Fa] [Lb Fb]. unfold madd, broadcast.
  assert (Hab : (length a =? length b)%nat = true)
    by (apply Nat.eqb_eq; lia).
  rewrite Hab. apply zipM_returns. intros x y Hx Hy.
  rewrite Forall_forall in Fa, Fb.
  unfold vadd, broadcast.
  assert (Hxy : (length x =? length y)%nat = true).
  { apply Nat.eqb_eq. rewrite (Fa x Hx), (Fb y Hy). reflexivity. }
  rewrite Hxy. apply zipM_returns. intros; unfold lift2; now eexists.
Qed.

(* ================================================================== *)
(** ** The sample inputs *)
(* ================================================================== *)

Lemma logspace_nth (a b : R) (n i : nat) :
  (i < n)%nat ->
  at1 (logspace a b n) i = Rpower 10 (a + INR i * ((b - a) / INR (n - 1))).
Proof.
  intros Hi. unfold at1, logspace, linspace.
  rewrite (map_nth_in _ _ 0 0) by now rewrite length_map, length_seq.
  rewrite (map_nth_in _ _ 0%nat 0) by now rewrite length_seq.
  now rewrite seq_nth.
Qed.

Lemma logspace_pos (a b : R) (n i : nat) :
  (i < n)%nat -> 0 < at1 (logspace a b n) i.
Proof. intros Hi. rewrite logspace_nth by exact Hi. apply exp_pos. Qed.

(** [ln] of the grid is the linear grid times [ln 10]. *)
Lemma ln_logspace (a b : R) (n : nat) :
  map ln (logspace a b n)
  = map (fun i => (a + INR i * ((b - a) / INR (n - 1))) * ln 10) (seq 0 n).
Proof.
  unfold logspace, linspace. rewrite !map_map. apply map_ext.
  intros i. unfold Rpower. now rewrite ln_exp.
Qed.

Lemma k0_sufficient : sufficient Sample.k0.
Proof.
  unfold Sample.k0. split; [|split].
  - rewrite logspace_length. lia.
  - exists (at1 (logspace (-4) 2 1001) 1000). split.
    + apply nth_In. rewrite logspace_length. lia.
    + rewrite logspace_nth by lia.
      change (1001 - 1)%nat with 1000%nat.
      assert (HI : INR 1000 <> 0) by (apply not_0_INR; lia).
      replace (-4 + INR 1000 * ((2 - -4) / INR 1000)) with (1 + 1)
        by (field; exact HI).
      rewrite Rpower_plus, Rpower_1 by lra. lra.
  - exists (at1 (logspace (-4) 2 1001) 0). split.
    + apply nth_In. rewrite logspace_length. lia.
    + rewrite logspace_nth by lia.
      replace (-4 + INR 0 * ((2 - -4) / INR (1001 - 1))) with (- INR 4)
        by (simpl; lra).
      rewrite Rpower_Ropp, Rpower_pow by lra.
      simpl. lra.
Qed.

Lemma full_well_shaped (zs ks : list R) (v : R) :
  well_shaped zs ks (Sample.full zs ks v).
Proof.
  unfold well_shaped, shape, Sample.full. cbn [rows ncols].
  now rewrite length_map.
Qed.

Lemma lib0_sig_int (ms : list R) : sig_int_defined Sample.lib0 ms.
Proof. intros sig m _ ext. now eexists. Qed.

(** The constructor returns on the sample inputs. *)
Lemma sample_halofit :
  exists e,
    halofit_init Sample.lib0 Sample.cosmo0 Sample.z0 Sample.k0 Sample.pk0
                 "cb" false = Return e.
Proof.
  apply halofit_init_returns.
  - exact k0_sufficient.
  - apply full_well_shaped.
  - now left.
  - apply lib0_sig_int.
  - discriminate.
Qed.

Lemma sample_linear_spectra :
  linear_spectra Sample.cosmo0 Sample.z0 Sample.k0 "camb" []
  = Return (Sample.pk0, Sample.pk0, Sample.pk0).
Proof. reflexivity. Qed.

Lemma sample_nonlinear_pk :
  exists t,
    nonlinear_pk_init Sample.lib0 Sample.cosmo0 Sample.z0 Sample.k0
                      "camb" [] false = Return t.
Proof.
  unfold nonlinear_pk_init.
  rewrite (assert_k_sufficient _ k0_sufficient). cbn [bind].
  rewrite sample_linear_spectra. cbn [bind].
  destruct sample_halofit as [e He]. rewrite He. cbn [bind].
  destruct (halofit_init_shapes _ _ _ _ _ _ _ _ He) as (_ & _ & _ & Snl).
  pose proof (array2_table_shape _ _ _
                (full_well_shaped Sample.z0 Sample.k0 1)) as Spk.
  unfold total_matter_pk.
  destruct (madd_returns (length Sample.z0) (length Sample.k0)
              (mscale (f_cb Sample.cosmo0 ^ 2) (pk_nl e))
              (mscale (2 * f_nu_tot Sample.cosmo0 * f_cb Sample.cosmo0)
                      (rows Sample.pk0))) as [s Hs];
    try (apply mscale_shape; assumption).
  rewrite Hs. cbn [bind].
  destruct (madd_nth (length Sample.z0) (length Sample.k0) _ _ _ Hs)
    as [Ss _]; try (apply mscale_shape; assumption).
  destruct (madd_returns (length Sample.z0) (length Sample.k0) s
              (mscale (f_nu_tot Sample.cosmo0 ^ 2) (rows Sample.pk0)))
    as [nl Hnl]; try (apply mscale_shape; assumption); try exact Ss.
  rewrite Hnl. cbn [bind]. now eexists.
Qed.

Lemma lib0_sici : sici_asymptotics Sample.lib0.
Proof.
  unfold sici_asymptotics. cbn [Si Ci Sample.lib0].
  split; [|split; [exists 0|split]].
  - intros eps Heps. exists 1. split; [lra|]. intros x Hx.
    destruct (Rlt_dec x 1); [|lra].
    rewrite Rminus_0_r, Rabs_R0. exact Heps.
  - intros eps Heps. exists 1. split; [lra|]. intros x Hx.
    destruct (Rlt_dec x 1); [|lra].
    replace (ln x - ln x - 0) with 0 by ring. rewrite Rabs_R0. exact Heps.
  - intros eps Heps. exists 1. split; [lra|]. intros x Hx.
    destruct (Rlt_dec x 1); [lra|].
    replace (PI / 2 - PI / 2) with 0 by ring. rewrite Rabs_R0. exact Heps.
  - intros eps Heps. exists 1. split; [lra|]. intros x Hx.
    destruct (Rlt_dec x 1); [lra|].
    rewrite Rminus_0_r, Rabs_R0. exact Heps.
Qed.

(* ================================================================== *)
(** ** The trapezoidal rule on a positive integrand *)
(* ================================================================== *)

Lemma trapz_cons2 (y0 y1 : R) (ys : list R) (x0 x1 : R) (xs : list R) :
  trapz (y0 :: y1 :: ys) (x0 :: x1 :: xs)
  = (x1 - x0) * (y1 + y0) / 2 + trapz (y1 :: ys) (x1 :: xs).
Proof. reflexivity. Qed.

Lemma trapz_seq_nonneg (f g : nat -> R) (n s : nat) :
  (forall i, (s <= i < s + n)%nat -> 0 < f i) ->
  (forall i, (s <= i)%nat -> (S i < s + n)%nat -> g i < g (S i)) ->
  0 <= trapz (map f (seq s n)) (map g (seq s n)).
Proof.
  revert s. induction n as [|n IH]; intros s Hf Hg; [simpl; lra|].
  destruct n as [|n]; [simpl; lra|].
  replace (seq s (S (S n))) with (s :: S s :: seq (S (S s)) n)
    by reflexivity.
  cbn [map]. rewrite trapz_cons2.
  change (f (S s) :: map f (seq (S (S s)) n))
    with (map f (seq (S s) (S n))).
  change (g (S s) :: map g (seq (S (S s)) n))
    with (map g (seq (S s) (S n))).
  assert (H1 : 0 < f s) by (apply Hf; lia).
  assert (H2 : 0 < f (S s)) by (apply Hf; lia).
  assert (H3 : g s < g (S s)) by (apply Hg; lia).
  assert (H4 : 0 <= trapz (map f (seq (S s) (S n)))
                          (map g (seq (S s) (S n)))).
  { apply IH; intros i Hi; [apply Hf | intros Hi'; apply Hg]; lia. }
  assert (0 < (g (S s) - g s) * (f (S s) + f s)) by
    (apply Rmult_lt_0_compat; lra).
  lra.
Qed.

Lemma trapz_seq_pos (f g : nat -> R) (n s : nat) :
  (2 <= n)%nat ->
  (forall i, (s <= i < s + n)%nat -> 0 < f i) ->
  (forall i, (s <= i)%nat -> (S i < s + n)%nat -> g i < g (S i)) ->
  0 < trapz (map f (seq s n)) (map g (seq s n)).
Proof.
  intros Hn Hf Hg. destruct n as [|[|n]]; try lia.
  replace (seq s (S (S n))) with (s :: S s :: seq (S (S s)) n)
    by reflexivity.
  cbn [map]. rewrite trapz_cons2.
  change (f (S s) :: map f (seq (S (S s)) n))
    with (map f (seq (S s) (S n))).
  change (g (S s) :: map g (seq (S (S s)) n))
    with (map g (seq (S s) (S n))).
  assert (H1 : 0 < f s) by (apply Hf; lia).
  assert (H2 : 0 < f (S s)) by (apply Hf; lia).
  assert (H3 : g s < g (S s)) by (apply Hg; lia).
  assert (H4 : 0 <= trapz (map f (seq (S s) (S n)))
                          (map g (seq (S s) (S n)))).
  { apply trapz_seq_nonneg; intros i Hi; [apply Hf | intros Hi'; apply Hg];
      lia. }
  assert (0 < (g (S s) - g s) * (f (S s) + f s)) by
    (apply Rmult_lt_0_compat; lra).
  lra.
Qed.

(** On arrays of one length the elementwise operations are [zipWith], and
    NumPy's [trapz] with its broadcast products is the sum [trapz]. *)
Lemma vop_zipWith (f : R -> R -> R) (a b : list R) :
  length a = length b ->
  broadcast (lift2 f) a b = Return (zipWith f a b).
Proof.
  intros Hab. unfold broadcast.
  apply Nat.eqb_eq in Hab as Hab'. rewrite Hab'. clear Hab'.
  revert b Hab. induction a as [|x a IH]; intros [|y b] Hab;
    try discriminate; [reflexivity|].
  simpl. rewrite IH by (simpl in Hab; lia). reflexivity.
Qed.

Lemma removelast_length {A} (l : list A) :
  length (removelast l) = (length l - 1)%nat.
Proof.
  induction l as [|a [|b l] IH]; [reflexivity | reflexivity |].
  change (removelast (a :: b :: l)) with (a :: removelast (b :: l)).
  cbn [length] in *. rewrite IH. lia.
Qed.

Lemma diff_length (x : list R) : length (diff x) = (length x - 1)%nat.
Proof.
  induction x as [|a [|b l] IH]; [reflexivity | reflexivity |].
  change (diff (a :: b :: l)) with ((b - a) :: diff (b :: l)).
  cbn [length] in *. rewrite IH. lia.
Qed.

Lemma trapz_x_trapz (y x : list R) :
  length y = length x -> trapz_x y x = Return (trapz y x).
Proof.
  intros Hyx. unfold trapz_x, vadd, vmul.
  rewrite vop_zipWith
    by (rewrite removelast_length; destruct y; simpl; lia).
  cbn [bind].
  rewrite vop_zipWith
    by (rewrite diff_length, zipWith_length, removelast_length;
        destruct y; simpl in *; lia).
  cbn [bind]. f_equal.
  revert x Hyx. induction y as [|y0 [|y1 l] IH]; intros [|x0 [|x1 xs]] Hyx;
    try discriminate; try reflexivity.
  rewrite trapz_cons2.
  change (diff (x0 :: x1 :: xs)) with ((x1 - x0) :: diff (x1 :: xs)).
  change (removelast (y0 :: y1 :: l)) with (y0 :: removelast (y1 :: l)).
  cbn [tl zipWith map sum fold_right].
  specialize (IH (x1 :: xs)). cbn [tl] in IH. unfold sum in IH.
  rewrite IH by (simpl in *; lia). field.
Qed.

(** The integral of a positive integrand over the mass grid is positive. *)
Lemma trapz_mass_grid_pos (f : nat -> R) :
  (forall j, (j < 512)%nat -> 0 < f j) ->
  0 < trapz (tabulate 512 f) (map ln (logspace 0 18 512)).
Proof.
  intros Hf. rewrite ln_logspace. unfold tabulate.
  apply trapz_seq_pos.
  - lia.
  - intros j Hj. apply Hf. lia.
  - intros i _ Hi. rewrite S_INR.
    assert (H511 : 0 < INR (512 - 1)) by (apply lt_0_INR; lia).
    assert (Hstep : 0 < (18 - 0) / INR (512 - 1))
      by (apply Rdiv_lt_0_compat; lra).
    pose proof ln_10_pos as Hln.
    apply Rmult_lt_compat_r; [exact Hln|]. nra.
Qed.

(* ================================================================== *)
(** ** The properties on the sample inputs *)
(* ================================================================== *)

Lemma z0_length : (0 < length Sample.z0)%nat.
Proof. simpl. lia. Qed.

Lemma k0_length : (0 < length Sample.k0)%nat.
Proof. unfold Sample.k0. rewrite logspace_length. lia. Qed.

Lemma k1_insufficient : insufficient Sample.k1.
Proof. left. simpl. lia. Qed.

Lemma pk12_not_well_shaped (ks : list R) :
  length ks <> 2%nat -> ~ well_shaped Sample.z0 ks Sample.pk12.
Proof.
  intros Hk H. unfold well_shaped, shape in H. cbn in H.
  injection H as H. congruence.
Qed.

(** C1, on the sample inputs. *)
Lemma one_halo_term_witness :
  exists e,
    halofit_init Sample.lib0 Sample.cosmo0 Sample.z0 Sample.k0 Sample.pk0
                 "cb" false = Return e /\
    exists integral x,
      at2 (pk_1h e) 0 0 = integral * (1 - exp (- (2 * x))) ^ 3.
Proof.
  destruct sample_halofit as [e He]. exists e. split; [exact He|].
  destruct (one_halo_term _ _ _ _ _ _ _ _ He 0%nat 0%nat z0_length k0_length)
    as (_ & E & _).
  eexists. eexists. exact E.
Defined.

(** C1 as stated fails: with a mass function and a profile equal to [1]
    on the mass grid, [rho_field = 1], [k = 1] and [k_star = 1], the
    one-halo term is the mass integral times [(1 - exp(-1)**2)**3], which
    is not the mass integral times [(1 - exp(-1))**6]. *)
Lemma one_halo_not_sixth_power :
  let integral :=
    trapz (tabulate 512 (fun j =>
             at1 Sample.mass0 j * (at1 Sample.mass0 j / 1) ^ 2
             * at1 Sample.hmf1 j * at2 Sample.u1 j 0 ^ 2))
          (map ln Sample.mass0) in
  at1 (pk_1h_row Sample.mass0 1 Sample.hmf1 Sample.u1 [1] 1) 0
  <> integral * (1 - exp (- (1 / 1))) ^ 6.
Proof.
  intros integral.
  assert (Hval : forall j, (j < 512)%nat ->
            at1 Sample.mass0 j * (at1 Sample.mass0 j / 1) ^ 2
            * at1 Sample.hmf1 j * at2 Sample.u1 j 0 ^ 2
            = at1 Sample.mass0 j ^ 3).
  { intros j Hj. unfold at2, at1 at 3, Sample.hmf1, Sample.u1.
    rewrite !tabulate_nth by exact Hj. simpl. field. }
  assert (Hpos : 0 < integral).
  { unfold integral, Sample.mass0. apply trapz_mass_grid_pos.
    intros j Hj. fold Sample.mass0. rewrite (Hval j Hj).
    apply pow_lt. unfold Sample.mass0. now apply logspace_pos. }
  assert (E : at1 (pk_1h_row Sample.mass0 1 Sample.hmf1 Sample.u1 [1] 1) 0
              = integral * (1 - exp (- (1 / 1)) ^ 2) ^ 3).
  { unfold pk_1h_row. cbn [length tabulate seq map zipWith at1 nth].
    replace (- (1) / 1) with (- (1 / 1)) by field.
    f_equal. unfold integral. f_equal.
    unfold Sample.mass0 at 1. rewrite logspace_length.
    unfold tabulate. apply map_ext. intros j. ring. }
  rewrite E. intros Heq.
  apply Rmult_eq_reg_l in Heq; [|lra].
  revert Heq. apply damping_not_sixth_power. lra.
Qed.

(** C2, on an array of one wavenumber. *)
Lemma insufficient_k_raises_witness :
  insufficient Sample.k1 /\
  halofit_init Sample.lib0 Sample.cosmo0 Sample.z0 Sample.k1 Sample.pk12
               "cb" true = Raise AssertionError /\
  nonlinear_pk_init Sample.lib0 Sample.cosmo0 Sample.z0 Sample.k1
                    "camb" [] true = Raise AssertionError.
Proof.
  split; [exact k1_insufficient|].
  exact (insufficient_k_raises Sample.lib0 Sample.cosmo0 Sample.z0
           Sample.k1 Sample.pk12 "cb" "camb" [] true k1_insufficient).
Defined.

(** C2 as stated fails: the array [k = [1.]] is insufficient and the
    constructor raises [AssertionError] on it; no instance is returned. *)
Lemma insufficient_k_is_fatal :
  insufficient Sample.k1 /\
  halofit_init Sample.lib0 Sample.cosmo0 Sample.z0 Sample.k1 Sample.pk12
               "cb" true = Raise AssertionError /\
  ~ (exists e,
       halofit_init Sample.lib0 Sample.cosmo0 Sample.z0 Sample.k1
                    Sample.pk12 "cb" true = Return e).
Proof.
  split; [exact k1_insufficient|].
  assert (H : halofit_init Sample.lib0 Sample.cosmo0 Sample.z0 Sample.k1
                Sample.pk12 "cb" true = Raise AssertionError).
  { unfold halofit_init.
    now rewrite (assert_k_insufficient _ k1_insufficient). }
  split; [exact H|]. intros [e He]. rewrite H in He. discriminate.
Qed.

(** C3, at concentration [1]. *)
Lemma u_NFW_limits_witness :
  0 < 1 /\ sici_asymptotics Sample.lib0 /\
  tends near_0 (u_NFW Sample.lib0 1) 1 /\
  tends near_infinity (u_NFW Sample.lib0 1) 0.
Proof.
  split; [lra|]. split; [exact lib0_sici|].
  exact (u_NFW_limits Sample.lib0 1 Rlt_0_1 lib0_sici).
Defined.

(** C3 as stated fails at [x = 0]: the float computation of
    [u_NFW(1, 0)] gives [nan], not [1]. *)
Lemma u_NFW_at_zero_not_one :
  IEEE.u_NFW Sample.lib0 (IEEE.Fin 1) (IEEE.Fin 0) = IEEE.NaN /\
  IEEE.u_NFW Sample.lib0 (IEEE.Fin 1) (IEEE.Fin 0) <> IEEE.Fin 1.
Proof.
  rewrite u_NFW_float_at_0. split; [reflexivity | discriminate].
Qed.

(** C5, on the sample inputs. *)
Lemma formation_redshift_clamped_witness :
  exists e,
    halofit_init Sample.lib0 Sample.cosmo0 Sample.z0 Sample.k0 Sample.pk0
                 "cb" false = Return e /\
    at1 Sample.z0 0 <= at2 (zf e) 0 0.
Proof.
  destruct sample_halofit as [e He]. exists e. split; [exact He|].
  assert (H512 : (0 < 512)%nat) by lia.
  exact (proj1 (formation_redshift_clamped _ _ _ _ _ _ _ _ He 0%nat 0%nat
                  z0_length H512)).
Defined.

(** C6, on the sample inputs. *)
Lemma no_smearing_identity_witness :
  exists e,
    halofit_init Sample.lib0 Sample.cosmo0 Sample.z0 Sample.k0 Sample.pk0
                 "cb" false = Return e /\
    pk_dw e = rows Sample.pk0.
Proof.
  destruct sample_halofit as [e He]. exists e. split; [exact He|].
  exact (proj1 (no_smearing_identity _ _ _ _ _ _ _ He)).
Defined.

Lemma cosmo0_remove_bao (k' r : list R) :
  remove_bao Sample.cosmo0 k' r <> Raise IndexError.
Proof.
  cbn [remove_bao Sample.cosmo0].
  destruct (length k' =? length r)%nat; discriminate.
Qed.

Lemma cosmo0_log10_As : log10_As Sample.cosmo0 <> None.
Proof. discriminate. Qed.

(** C7 as stated fails: with [k = [1.]] and a spectrum of shape [(1, 2)],
    which is not [(len(z), len(k)) = (1, 1)], the constructor raises
    [AssertionError] and not the shape error. *)
Lemma shape_error_not_first :
  ~ well_shaped Sample.z0 Sample.k1 Sample.pk12 /\
  halofit_init Sample.lib0 Sample.cosmo0 Sample.z0 Sample.k1 Sample.pk12
               "cb" false = Raise AssertionError /\
  halofit_init Sample.lib0 Sample.cosmo0 Sample.z0 Sample.k1 Sample.pk12
               "cb" false <> Raise IndexError.
Proof.
  assert (H : halofit_init Sample.lib0 Sample.cosmo0 Sample.z0 Sample.k1
                Sample.pk12 "cb" false = Raise AssertionError).
  { unfold halofit_init.
    now rewrite (assert_k_insufficient _ k1_insufficient). }
  split; [|split].
  - apply pk12_not_well_shaped. simpl. lia.
  - exact H.
  - rewrite H. discriminate.
Qed.

(** With BAO smearing enabled the smearing runs before the shape is
    checked: on the default [k] grid and a spectrum of shape [(1, 2)] the
    constructor fails inside [remove_bao], here with the [ValueError] of
    an interpolation over arrays of two lengths. *)
Lemma smearing_precedes_shape_check :
  sufficient Sample.k0 /\
  ~ well_shaped Sample.z0 Sample.k0 Sample.pk12 /\
  halofit_init Sample.lib0 Sample.cosmo0 Sample.z0 Sample.k0 Sample.pk12
               "cb" true = Raise ValueError.
Proof.
  split; [exact k0_sufficient|]. split.
  - apply pk12_not_well_shaped. unfold Sample.k0.
    rewrite logspace_length. lia.
  - rewrite (halofit_init_past_copies _ _ _ _ _ _ _ k0_sufficient
               cosmo0_log10_As).
    unfold bao_smearing.
    cbn [length Sample.z0 seq mapM getrow nth_error rows Sample.pk12 bind
         remove_bao Sample.cosmo0].
    unfold Sample.k0. rewrite logspace_length. reflexivity.
Qed.

(** C8, on the sample inputs with [field = 'xx'] and [field = 'cb']. *)
Lemma field_selection_witness :
  halofit_init Sample.lib0 Sample.cosmo0 Sample.z0 Sample.k0 Sample.pk0
               "xx" false = Raise ValueError /\
  exists e,
    halofit_init Sample.lib0 Sample.cosmo0 Sample.z0 Sample.k0 Sample.pk0
                 "cb" false = Return e /\
    rho_field e = rho_crit Sample.cosmo0 0 * Omega_cb Sample.cosmo0.
Proof.
  split.
  - assert (H1 : "xx"%string <> "cb"%string) by discriminate.
    assert (H2 : "xx"%string <> "tot"%string) by discriminate.
    exact (proj2 (proj1 (field_selection Sample.lib0 Sample.cosmo0
                           Sample.z0 Sample.k0 Sample.pk0 "xx" false)
                        H1 H2)
                 k0_sufficient cosmo0_log10_As (full_well_shaped _ _ _)
                 (or_introl eq_refl)).
  - destruct sample_halofit as [e He]. exists e. split; [exact He|].
    exact (proj1 (proj2 (field_selection Sample.lib0 Sample.cosmo0
                           Sample.z0 Sample.k0 Sample.pk0 "cb" false))
                 e He).
Defined.

(** C9, on the sample inputs. *)
Lemma smooth_blend_witness :
  exists e,
    halofit_init Sample.lib0 Sample.cosmo0 Sample.z0 Sample.k0 Sample.pk0
                 "cb" false = Return e /\
    0 < at1 (alpha e) 0 /\
    at2 (pk_nl e) 0 0
    = power (power (at2 (pk_1h e) 0 0) (at1 (alpha e) 0)
             + power (at2 (pk_2h e) 0 0) (at1 (alpha e) 0))
            (1 / at1 (alpha e) 0).
Proof.
  destruct sample_halofit as [e He]. exists e. split; [exact He|].
  destruct (proj1 (smooth_blend _ _ _ _ _ _ _ _ He) 0%nat 0%nat
              z0_length k0_length) as (_ & Hpos & E).
  split; [exact Hpos | exact E].
Defined.

(** C10, on the sample inputs with [code = 'camb']. *)
Lemma cdm_prescription_witness :
  exists t,
    nonlinear_pk_init Sample.lib0 Sample.cosmo0 Sample.z0 Sample.k0
                      "camb" [] false = Return t /\
    t_pk_nl_cbcb t = pk_nl (t_HO t) /\
    at2 (t_pk_nl t) 0 0
    = f_cb Sample.cosmo0 ^ 2 * at2 (t_pk_nl_cbcb t) 0 0
      + 2 * f_nu_tot Sample.cosmo0 * f_cb Sample.cosmo0
        * at2 (rows (t_pk_cbnu t)) 0 0
      + f_nu_tot Sample.cosmo0 ^ 2 * at2 (rows (t_pk_nunu t)) 0 0.
Proof.
  destruct sample_nonlinear_pk as [t Ht]. exists t. split; [exact Ht|].
  destruct (cdm_prescription _ _ _ _ _ _ _ _ Ht) as (Hl & _ & Hnl & E).
  split; [exact Hnl|].
  rewrite sample_linear_spectra in Hl. apply Return_inj in Hl.
  injection Hl as _ Hcbnu Hnunu.
  apply E.
  - rewrite <- Hcbnu. apply full_well_shaped.
  - rewrite <- Hnunu. apply full_well_shaped.
  - exact z0_length.
  - exact k0_length.
Defined.

(* ================================================================== *)
(** ** Further properties of [halofit_operator] *)
(* ================================================================== *)

Lemma sufficient_not_insufficient (ks : list R) :
  sufficient ks -> ~ insufficient ks.
Proof.
  intros (Hlen & (x & Hx & Hx10) & (y & Hy & Hy1)) [H | [H | H]].
  - lia.
  - specialize (H x Hx). lra.
  - specialize (H y Hy). lra.
Qed.

(** X1.  The three assertions on [k] either pass, exactly when [k] has
    more than 100 points, a maximum of at least 10 and a minimum of at
    most 0.001, or raise [AssertionError]; nothing else comes out of
    them.  The length is tested first, so an empty [k] raises
    [AssertionError] and never the [ValueError] of [k.max()] on an empty
    array. *)
Theorem assert_k_exact (ks : list R) :
  (assert_k ks = Return tt <-> sufficient ks) /\
  (assert_k ks = Raise AssertionError <-> insufficient ks) /\
  (forall e, assert_k ks = Raise e -> e = AssertionError) /\
  assert_k [] = Raise AssertionError.
Proof.
  split; [|split; [|split]].
  - split; [|apply assert_k_sufficient].
    intros H. destruct (assert_k_cases ks) as [[_ Hs] | [Hk _]];
      [exact Hs | rewrite Hk in H; discriminate].
  - split; [|apply assert_k_insufficient].
    intros H. destruct (assert_k_cases ks) as [[Hk _] | [_ Hi]];
      [rewrite Hk in H; discriminate | exact Hi].
  - intros e H. destruct (assert_k_cases ks) as [[Hk _] | [Hk _]];
      rewrite Hk in H; [discriminate | now injection H].
  - reflexivity.
Qed.

Section Instance.

Variable lib : library.
Variable cosmology : cosmo.

(** The attributes that [compute_nonlinear_pk] derives from the linear
    spectrum and from the cosmology alone. *)
Lemma compute_nonlinear_pk_params (self : grids) (e : halofit_operator) :
  compute_nonlinear_pk lib cosmology self = Return e ->
  sig8 e = tabulate (nz e) (fun i =>
             compute_sigma_8 cosmology (k e) (nth i (pk e) [])) /\
  sigd100 e = sigma_d lib (nz e) (k e) (pk e) 100 /\
  sigd e = sigma_d lib (nz e) (k e) (pk e) 1e-3 /\
  omz e = map (Omega_m_z cosmology) (z e) /\
  ocz e = map (fun zi => Omega_m_z cosmology zi * Omega_cb cosmology
                         / Omega_m cosmology) (z e) /\
  Deltav e = map (Delta_v cosmology) (ocz e) /\
  deltac e = zipWith (delta_c cosmology) (sig8 e) (ocz e) /\
  fdamp e = map fd (sigd100 e) /\
  eta e = map eta_bloat (sig8 e).
Proof.
  unfold compute_nonlinear_pk. intros H.
  destruct (z_form _ _ _ _ _ _ _) as [zf_|] eqn:Hzf; [|discriminate].
  cbn [bind] in H. injection H as <-. cbn [z k nz nk pk sig8 sigd100 sigd
    omz ocz Deltav deltac fdamp eta].
  repeat split; reflexivity.
Qed.

(** The density of the field in an instance. *)
Lemma halofit_init_rho_field (zs ks : list R) (pk_in : array2)
  (field : string) (bao : bool) (e : halofit_operator) :
  halofit_init lib cosmology zs ks pk_in field bao = Return e ->
  (field = "cb"%string /\
   rho_field e = rho_crit cosmology 0 * Omega_cb cosmology) \/
  (field = "tot"%string /\
   rho_field e = rho_crit cosmology 0 * Omega_m cosmology).
Proof.
  intros H. apply halofit_init_Return in H.
  destruct H as (_ & _ & smear & rho & _ & Hf & H).
  apply compute_nonlinear_pk_Return in H.
  assert (Hrho : rho_field e = rho) by (decompose [and] H; assumption).
  rewrite Hrho. exact Hf.
Qed.

(** X2.  With [BAO_smearing = False] the constructor of
    [halofit_operator] fails with [AssertionError] exactly on an
    insufficient [k]; on a sufficient [k] it fails with [AttributeError]
    exactly when the cosmology lacks [log10_As] (it was built with
    [sigma_8] and no [As]), whatever the other arguments; on a cosmology
    that has it, with [IndexError] exactly on a spectrum whose shape is
    not [(len(z), len(k))], and otherwise only with [ValueError] (an
    unknown field, or an interpolation out of range).  It raises no other
    exception. *)
Theorem halofit_init_errors (zs ks : list R) (pk_in : array2)
  (field : string) :
  let r := halofit_init lib cosmology zs ks pk_in field false in
  (r = Raise AssertionError <-> insufficient ks) /\
  (r = Raise AttributeError
   <-> sufficient ks /\ log10_As cosmology = None) /\
  (r = Raise IndexError
   <-> sufficient ks /\ log10_As cosmology <> None /\
       ~ well_shaped zs ks pk_in) /\
  (r = Raise ValueError ->
   sufficient ks /\ log10_As cosmology <> None /\
   well_shaped zs ks pk_in) /\
  (forall e, r = Raise e ->
             e = AssertionError \/ e = AttributeError \/ e = IndexError \/
             e = ValueError).
Proof.
  intros r. subst r. unfold halofit_init.
  destruct (assert_k_cases ks) as [[Hk Hs] | [Hk Hi]]; rewrite Hk;
    cbn [bind fst snd].
  - pose proof (sufficient_not_insufficient _ Hs) as Hni.
    destruct (log10_As cosmology) as [lAs|] eqn:HA; cbn [getattr bind].
    + assert (HA' : Some lAs <> None) by discriminate.
      assert (HA'' : Some lAs = None -> False) by discriminate.
      destruct (negb _) eqn:Hshape.
      * assert (Hbad : ~ well_shaped zs ks pk_in).
        { intros Hw. apply shape_test in Hw. congruence. }
        split; [split; [discriminate | tauto]|].
        split; [split; [discriminate | tauto]|].
        split; [tauto|]. split; [discriminate|].
        intros e He. injection He as <-. tauto.
      * apply shape_test in Hshape.
        assert (Hv : only_ValueError
                  (rho <- (if String.eqb field "cb"
                           then Return (rho_crit cosmology 0
                                        * Omega_cb cosmology)
                           else if String.eqb field "tot"
                           then Return (rho_crit cosmology 0
                                        * Omega_m cosmology)
                           else Raise ValueError) ;;
                   compute_nonlinear_pk lib cosmology
                     (init_grids zs ks (rows pk_in) (rows pk_in)
                                 (rows pk_in) rho))).
        { apply only_ValueError_bind.
          - destruct (String.eqb field "cb");
              [apply only_ValueError_Return|].
            destruct (String.eqb field "tot");
              [apply only_ValueError_Return|].
            intros e He. now injection He.
          - intros rho _. apply only_ValueError_compute. }
        split; [split; [intros H; apply Hv in H; discriminate | tauto]|].
        split; [split; [intros H; apply Hv in H; discriminate | tauto]|].
        split; [split; [intros H; apply Hv in H; discriminate | tauto]|].
        split; [tauto|].
        intros e He. apply Hv in He. tauto.
    + split; [split; [discriminate | tauto]|].
      split; [tauto|].
      split; [split; [discriminate | intros (_ & H & _); now elim H]|].
      split; [discriminate|].
      intros e He. injection He as <-. tauto.
  - split; [tauto|].
    split; [split; [discriminate|]|].
    { intros [Hs _]. now apply sufficient_not_insufficient in Hs. }
    split; [split; [discriminate|]|].
    { intros [Hs _]. now apply sufficient_not_insufficient in Hs. }
    split; [discriminate|].
    intros e He. injection He as <-. tauto.
Qed.

End Instance.

(* ================================================================== *)
(** ** The mass grid and the tables over it *)
(* ================================================================== *)

Lemma ln_Rpower (x y : R) : ln (Rpower x y) = y * ln x.
Proof. unfold Rpower. apply ln_exp. Qed.

Lemma INR_511 : INR (512 - 1) = 511.
Proof. change (512 - 1)%nat with 511%nat. rewrite INR_IZR_INZ. reflexivity. Qed.

(** The exponent of the [i]-th mass of [np.logspace(0., 18., 512)]. *)
Lemma mass_grid_nth (i : nat) :
  (i < 512)%nat ->
  at1 (logspace 0 18 512) i = Rpower 10 (INR i * (18 / 511)).
Proof.
  intros Hi. rewrite logspace_nth by exact Hi. rewrite INR_511.
  f_equal. lra.
Qed.

Lemma mass_grid_ratio (i : nat) :
  (i < 511)%nat ->
  ln (at1 (logspace 0 18 512) (S i) / at1 (logspace 0 18 512) i)
  = 18 / 511 * ln 10.
Proof.
  intros Hi. rewrite !mass_grid_nth by lia.
  unfold Rdiv at 1. rewrite <- Rpower_Ropp, <- Rpower_plus, ln_Rpower.
  rewrite S_INR. ring.
Qed.

(** The cube of the cube root. *)
Lemma power_third_cube (x : R) : 0 < x -> power x (1 / 3) ^ 3 = x.
Proof.
  intros Hx. rewrite power_pos_base by exact Hx.
  rewrite <- (Rpower_pow 3) by (unfold Rpower; apply exp_pos).
  rewrite Rpower_mult.
  replace (1 / 3 * INR 3) with 1 by (simpl; field).
  now apply Rpower_1.
Qed.

Section Tables.

Variable lib : library.
Variable cosmology : cosmo.

Lemma halofit_init_dlnm (zs ks : list R) (pk_in : array2)
  (field : string) (bao : bool) (e : halofit_operator) :
  halofit_init lib cosmology zs ks pk_in field bao = Return e ->
  dlnm e = ln (at1 (logspace 0 18 512) 1 / at1 (logspace 0 18 512) 0).
Proof.
  intros H. apply halofit_init_Return in H.
  destruct H as (_ & _ & smear & rho & _ & _ & H).
  apply compute_nonlinear_pk_Return in H.
  assert (Hd : dlnm e = g_dlnm (init_grids zs ks (rows pk_in) (fst smear)
                                 (snd smear) rho))
    by (decompose [and] H; assumption).
  exact Hd.
Qed.

(** X3.  In an instance that is constructed the mass grid has 512
    points, runs from 1 to 10**18, is strictly increasing, and is uniform
    in [ln M]: the logarithm of the ratio of two consecutive masses is
    [dlnm] everywhere, [dlnm = 18/511 * ln 10 > 0], and [lnmass[i]] is
    [i * dlnm].  This is the step that [np.gradient(nu, dlnm)] assumes in
    [dndM]. *)
Theorem mass_grid_uniform (zs ks : list R) (pk_in : array2)
  (field : string) (bao : bool) (e : halofit_operator) :
  halofit_init lib cosmology zs ks pk_in field bao = Return e ->
  length (mass e) = 512%nat /\
  at1 (mass e) 0 = 1 /\
  at1 (mass e) 511 = 10 ^ 18 /\
  dlnm e = 18 / 511 * ln 10 /\
  0 < dlnm e /\
  (forall i, (i < 511)%nat -> at1 (mass e) i < at1 (mass e) (S i)) /\
  (forall i, (i < 511)%nat ->
             ln (at1 (mass e) (S i) / at1 (mass e) i) = dlnm e) /\
  (forall i, (i < 512)%nat -> at1 (lnmass e) i = INR i * dlnm e).
Proof.
  intros H.
  pose proof (halofit_init_dlnm _ _ _ _ _ _ H) as Hd.
  rewrite (mass_grid_ratio 0) in Hd by lia.
  pose proof (halofit_init_grids _ _ _ _ _ _ _ _ H) as G.
  destruct G as (_ & _ & _ & _ & _ & Hmass & _ & Hln & _).
  rewrite Hln, Hmass. clear Hln Hmass H.
  pose proof ln_10_pos as H10.
  split; [apply logspace_length|].
  split; [|split; [|split; [exact Hd|split; [|split; [|split]]]]].
  - rewrite mass_grid_nth by lia. simpl. rewrite Rmult_0_l.
    apply Rpower_O. lra.
  - rewrite mass_grid_nth by lia.
    replace (INR 511 * (18 / 511)) with (INR 18).
    + apply Rpower_pow. lra.
    + rewrite !INR_IZR_INZ. simpl. field.
  - rewrite Hd. apply Rmult_lt_0_compat; lra.
  - intros i Hi. rewrite !mass_grid_nth by lia.
    apply Rpower_lt; [lra|]. rewrite S_INR. lra.
  - intros i Hi. rewrite Hd. now apply mass_grid_ratio.
  - intros i Hi. unfold at1.
    rewrite (map_nth_in _ _ 0 0) by (rewrite logspace_length; exact Hi).
    fold (at1 (logspace 0 18 512) i). rewrite mass_grid_nth by exact Hi.
    rewrite ln_Rpower, Hd. ring.
Qed.

(** X4.  In an instance that is constructed with a positive density of
    the field, the Lagrangian radius [rr] of every mass of the grid is the
    radius of the sphere that holds that mass at the density of the field,
    [4/3 pi rho_field rr**3 = M]; and where the virial overdensity
    [Deltav] of a redshift is positive, the virial radius [rv] is the
    radius of the sphere that holds the mass at [Deltav] times that
    density, so that [rv**3 * Deltav = rr**3]. *)
Theorem radii_enclose_mass (zs ks : list R) (pk_in : array2)
  (field : string) (bao : bool) (e : halofit_operator) :
  halofit_init lib cosmology zs ks pk_in field bao = Return e ->
  0 < rho_field e ->
  forall im, (im < 512)%nat ->
  4 / 3 * PI * rho_field e * at1 (rr e) im ^ 3 = at1 (mass e) im /\
  forall iz, (iz < length zs)%nat -> 0 < at1 (Deltav e) iz ->
    4 / 3 * PI * (rho_field e * at1 (Deltav e) iz) * at2 (rv e) iz im ^ 3
    = at1 (mass e) im /\
    at2 (rv e) iz im ^ 3 * at1 (Deltav e) iz = at1 (rr e) im ^ 3.
Proof.
  intros H Hrho im Him.
  pose proof (halofit_init_grids _ _ _ _ _ _ _ _ H) as G.
  destruct G as (_ & _ & Hnz & _ & _ & Hmass & _ & _ & Hrr).
  apply halofit_init_Return in H.
  destruct H as (_ & _ & smear & rho & _ & _ & H).
  apply compute_nonlinear_pk_Return in H.
  assert (Hrv : rv e = tabulate (nz e) (fun i =>
           map (fun M =>
                  power (3 * M / (4 * PI * rho_field e * at1 (Deltav e) i))
                        (1 / 3))
               (mass e))) by (decompose [and] H; assumption).
  clear H.
  assert (HM : 0 < at1 (mass e) im)
    by (rewrite Hmass; now apply logspace_pos).
  assert (Hlen : (im < length (mass e))%nat)
    by (rewrite Hmass, logspace_length; exact Him).
  pose proof PI_RGT_0 as Hpi.
  assert (E1 : at1 (rr e) im ^ 3
               = 3 * at1 (mass e) im / (4 * PI * rho_field e)).
  { unfold at1 at 1. rewrite Hrr.
    rewrite (map_nth_in _ _ 0 0) by exact Hlen.
    unfold radius_of_mass. fold (at1 (mass e) im).
    apply power_third_cube.
    apply Rdiv_lt_0_compat; [lra|].
    apply Rmult_lt_0_compat; lra. }
  split; [rewrite E1; field; lra|].
  intros iz Hiz HD.
  assert (E2 : at2 (rv e) iz im ^ 3
               = 3 * at1 (mass e) im
                 / (4 * PI * rho_field e * at1 (Deltav e) iz)).
  { unfold at2. rewrite Hrv, Hnz, tabulate_nth by exact Hiz.
    rewrite (map_nth_in _ _ 0 0) by exact Hlen.
    fold (at1 (mass e) im). apply power_third_cube.
    apply Rdiv_lt_0_compat; [lra|].
    apply Rmult_lt_0_compat; [apply Rmult_lt_0_compat; lra | lra]. }
  split; rewrite E2, ?E1; field; lra.
Qed.

(** The table of [z_form] has a row for every redshift and an entry for
    every mass. *)
Lemma z_form_shape (n : nat) (zs ms : list R) (s2 : list (list R))
  (dc : list R) (res : list (list R)) :
  z_form lib cosmology n zs ms s2 dc = Return res ->
  table_shape n (length ms) res.
Proof.
  unfold z_form. intros H.
  pose proof (mapM_length _ _ _ H) as Hlen. rewrite length_seq in Hlen.
  split; [exact Hlen|].
  apply Forall_forall. intros r Hr.
  apply (In_nth _ _ []) in Hr. destruct Hr as (i & Hi & <-).
  rewrite Hlen in Hi.
  apply (mapM_nth _ _ _ 0%nat [] i) in H; [|now rewrite length_seq].
  rewrite seq_nth in H by exact Hi. cbn [Nat.add] in H.
  destruct (extrapolate_log lib ms (map sqrt (nth i s2 []))
              (1e-1 * 0.01 * at1 ms 0) (1e1 * last ms 0))
    as [m_ext sig_ext].
  apply bind_Return in H. destruct H as (s_fmz & Hs & H).
  apply Return_inj in H. rewrite <- H.
  apply mapM_length in Hs. rewrite !length_map in *. lia.
Qed.

End Tables.

(* ================================================================== *)
(** ** Concentration and shapes *)
(* ================================================================== *)

Lemma c_bull_floor (zf_ z_ : R) : -1 < z_ -> z_ <= zf_ -> A_bar <= c_bull zf_ z_.
Proof.
  intros Hz Hzf. unfold c_bull, A_bar.
  apply Rmult_le_reg_r with (1 + z_); [lra|].
  replace (3.13 * (1 + zf_) / (1 + z_) * (1 + z_)) with (3.13 * (1 + zf_))
    by (field; lra).
  nra.
Qed.

Section Halo.

Variable lib : library.
Variable cosmology : cosmo.

(** In an instance the formation redshifts come out of [z_form], one row
    per redshift and one entry per mass, each at least the redshift. *)
Lemma halofit_init_zf (zs ks : list R) (pk_in : array2)
  (field : string) (bao : bool) (e : halofit_operator) :
  halofit_init lib cosmology zs ks pk_in field bao = Return e ->
  table_shape (length zs) 512 (zf e) /\
  forall iz im, (iz < length zs)%nat -> (im < 512)%nat ->
                at1 zs iz <= at2 (zf e) iz im.
Proof.
  intros H.
  pose proof (halofit_init_grids _ _ _ _ _ _ _ _ H) as G.
  destruct G as (Hz & _ & Hnz & _ & _ & Hmass & _).
  apply halofit_init_Return in H.
  destruct H as (_ & _ & smear & rho & _ & _ & H).
  apply compute_nonlinear_pk_Return in H.
  assert (Hzf : z_form lib cosmology (nz e) (z e) (mass e) (sig2 e)
                       (deltac e) = Return (zf e))
    by (decompose [and] H; assumption).
  clear H. rewrite Hnz, Hz in Hzf. split.
  - apply z_form_shape in Hzf.
    now rewrite Hmass, logspace_length in Hzf.
  - intros iz im Hiz Him.
    destruct (z_form_Return _ _ _ _ _ _ _ _ Hzf iz im Hiz) as (s & _ & ->).
    { rewrite Hmass, logspace_length. exact Him. }
    apply z_form_clamp_spec.
Qed.

(** X5.  In an instance that is constructed, at every redshift [z > -1]
    of the grid and every mass of the mass grid the concentration is
    [A_bar * (1 + zf) / (1 + z)] and is at least [A_bar = 3.13], the
    minimum halo concentration; it is [A_bar] where the formation
    redshift has been clamped to [z]. *)
Theorem concentration_floor (zs ks : list R) (pk_in : array2)
  (field : string) (bao : bool) (e : halofit_operator) :
  halofit_init lib cosmology zs ks pk_in field bao = Return e ->
  forall iz im, (iz < length zs)%nat -> (im < 512)%nat ->
  -1 < at1 zs iz ->
  at2 (conc e) iz im = A_bar * (1 + at2 (zf e) iz im) / (1 + at1 zs iz) /\
  A_bar <= at2 (conc e) iz im /\
  (at2 (zf e) iz im = at1 zs iz -> at2 (conc e) iz im = A_bar).
Proof.
  intros H iz im Hiz Him Hz1.
  destruct (halofit_init_zf _ _ _ _ _ _ H) as [Szf Hge].
  specialize (Hge iz im Hiz Him).
  pose proof (halofit_init_grids _ _ _ _ _ _ _ _ H) as G.
  destruct G as (Hz & _ & Hnz & _).
  apply halofit_init_Return in H.
  destruct H as (_ & _ & smear & rho & _ & _ & H).
  apply compute_nonlinear_pk_Return in H.
  assert (Hc : conc e = tabulate (nz e) (fun i =>
             map (fun zf_ij => c_bull zf_ij (at1 (z e) i)) (nth i (zf e) [])))
    by (decompose [and] H; assumption).
  clear H.
  assert (E : at2 (conc e) iz im = c_bull (at2 (zf e) iz im) (at1 zs iz)).
  { unfold at2 at 1. rewrite Hc, Hnz, Hz, tabulate_nth by exact Hiz.
    rewrite (map_nth_in _ _ 0 0)
      by (rewrite (table_shape_nth _ _ _ _ Szf Hiz); exact Him).
    reflexivity. }
  rewrite E. split; [reflexivity|]. split.
  - now apply c_bull_floor.
  - intros ->. unfold c_bull. field. lra.
Qed.

(** X6.  In an instance that is constructed every per-redshift attribute
    has one entry per redshift, every table over redshift and mass has
    the shape [(len(z), 512)], and the linear, one-halo, two-halo and
    non-linear spectra have the shape [(len(z), len(k))]. *)
Theorem instance_shapes (zs ks : list R) (pk_in : array2)
  (field : string) (bao : bool) (e : halofit_operator) :
  halofit_init lib cosmology zs ks pk_in field bao = Return e ->
  let n := length zs in
  (length (sig8 e) = n /\ length (sigd100 e) = n /\ length (sigd e) = n /\
   length (omz e) = n /\ length (ocz e) = n /\ length (Deltav e) = n /\
   length (deltac e) = n /\ length (fdamp e) = n /\ length (eta e) = n /\
   length (k_star e) = n /\ length (n_eff e) = n /\ length (alpha e) = n) /\
  (table_shape n 512 (sig2 e) /\ table_shape n 512 (nu e) /\
   table_shape n 512 (zf e) /\ table_shape n 512 (conc e) /\
   table_shape n 512 (rv e) /\ table_shape n 512 (rs e)) /\
  (table_shape n (length ks) (pk e) /\ table_shape n (length ks) (pk_dw e) /\
   table_shape n (length ks) (pk_1h e) /\
   table_shape n (length ks) (pk_2h e) /\
   table_shape n (length ks) (pk_nl e)).
Proof.
  intros H n.
  destruct (halofit_init_zf _ _ _ _ _ _ H) as [Szf _].
  destruct (halofit_init_shapes _ _ _ _ _ _ _ _ H) as (Sdw & S1 & S2 & Snl).
  pose proof (halofit_init_grids _ _ _ _ _ _ _ _ H) as G.
  destruct G as (Hz & Hk & Hnz & _ & Hpk & Hmass & _ & _ & Hrr).
  apply halofit_init_Return in H.
  destruct H as (_ & Hshape & smear & rho & _ & _ & H).
  pose proof (compute_nonlinear_pk_params _ _ _ _ H)
    as (P8 & P100 & Pd & Pomz & Pocz & PDv & Pdc & Pfd & Peta).
  apply compute_nonlinear_pk_Return in H.
  assert (Hs2 : sig2 e = tabulate (nz e) (fun i =>
             sigma2 lib (rr e) (k e) (nth i (pk e) [])))
    by (decompose [and] H; assumption).
  assert (Hnu : nu e = tabulate (nz e) (fun i =>
           map (fun s2 => at1 (deltac e) i / sqrt s2) (nth i (sig2 e) [])))
    by (decompose [and] H; assumption).
  assert (Hn : n_eff e = tabulate (nz e) (fun i =>
              n_eff_of lib (mass e) (lnmass e) (nth i (sig2 e) [])
                       (at1 (deltac e) i) (at1 (z e) i)))
    by (decompose [and] H; assumption).
  assert (Hc : conc e = tabulate (nz e) (fun i =>
             map (fun zf_ij => c_bull zf_ij (at1 (z e) i)) (nth i (zf e) [])))
    by (decompose [and] H; assumption).
  assert (Hrv : rv e = tabulate (nz e) (fun i =>
           map (fun M =>
                  power (3 * M / (4 * PI * rho_field e * at1 (Deltav e) i))
                        (1 / 3))
               (mass e))) by (decompose [and] H; assumption).
  assert (Ha : alpha e = map alp (n_eff e))
    by (decompose [and] H; assumption).
  assert (Hrs : rs e = zipWith (zipWith Rdiv) (rv e) (conc e))
    by (decompose [and] H; assumption).
  assert (Hks : k_star e = map k_s (sigd e))
    by (decompose [and] H; assumption).
  clear H. rewrite Hnz in *. fold n in Szf, Sdw, S1, S2, Snl |- *.
  assert (L8 : length (sig8 e) = n) by (rewrite P8; apply tabulate_length).
  assert (L100 : length (sigd100 e) = n)
    by (rewrite P100; apply tabulate_length).
  assert (Ld : length (sigd e) = n) by (rewrite Pd; apply tabulate_length).
  assert (Lomz : length (omz e) = n)
    by (rewrite Pomz, length_map, Hz; reflexivity).
  assert (Locz : length (ocz e) = n)
    by (rewrite Pocz, length_map, Hz; reflexivity).
  assert (Lneff : length (n_eff e) = n)
    by (rewrite Hn; apply tabulate_length).
  assert (Lmass : length (mass e) = 512%nat)
    by (rewrite Hmass; apply logspace_length).
  assert (Ss2 : table_shape n 512 (sig2 e)).
  { rewrite Hs2. apply table_shape_tabulate. intros i _.
    unfold sigma2. destruct (extrapolate_log _ _ _ _ _) as [k_ext pk_ext].
    now rewrite length_map, Hrr, length_map. }
  assert (Snu : table_shape n 512 (nu e)).
  { rewrite Hnu. apply table_shape_tabulate. intros i Hi.
    now rewrite length_map, (table_shape_nth _ _ _ _ Ss2 Hi). }
  assert (Sc : table_shape n 512 (conc e)).
  { rewrite Hc. apply table_shape_tabulate. intros i Hi.
    now rewrite length_map, (table_shape_nth _ _ _ _ Szf Hi). }
  assert (Srv : table_shape n 512 (rv e)).
  { rewrite Hrv. apply table_shape_tabulate. intros i Hi.
    now rewrite length_map. }
  assert (Srs : table_shape n 512 (rs e)).
  { rewrite Hrs. destruct Srv as [Lrv Frv]. destruct Sc as [Lc Fc]. split.
    - rewrite zipWith_length. lia.
    - apply Forall_forall. intros r Hr.
      apply (In_nth _ _ []) in Hr. destruct Hr as (i & Hi & <-).
      rewrite zipWith_length in Hi.
      rewrite (zipWith_nth _ _ _ [] []) by lia.
      rewrite zipWith_length.
      rewrite (table_shape_nth n 512 (rv e) i (conj Lrv Frv)) by lia.
      rewrite (table_shape_nth n 512 (conc e) i (conj Lc Fc)) by lia.
      reflexivity. }
  split; [|split].
  - repeat split; try assumption.
    + now rewrite PDv, length_map.
    + rewrite Pdc, zipWith_length. lia.
    + now rewrite Pfd, length_map.
    + now rewrite Peta, length_map.
    + now rewrite Hks, length_map.
    + now rewrite Ha, length_map.
  - repeat split; try apply Ss2; try apply Snu; try apply Szf;
      try apply Sc; try apply Srv; try apply Srs.
  - assert (Spk : table_shape n (length ks) (pk e))
      by (rewrite Hpk; now apply array2_table_shape).
    repeat split; try apply Spk; try apply Sdw; try apply S1;
      try apply S2; try apply Snl.
Qed.

End Halo.

(* ================================================================== *)
(** ** When the constructor returns *)
(* ================================================================== *)

(** X7.  The constructor of [halofit_operator] returns an instance only
    for a sufficient [k], a cosmology that has the attribute [log10_As]
    (it was built with [As] given), a spectrum of shape
    [(len(z), len(k))] and a field that is ['cb'] or ['tot']; with
    [BAO_smearing = False] and the interpolant of [sigma(M)] evaluated
    inside its range these conditions are enough, and the instance holds
    the arguments, with the linear spectrum as its de-wiggled spectrum. *)
Theorem halofit_init_succeeds (lib : library) (cosmology : cosmo)
  (zs ks : list R) (pk_in : array2) (field : string) :
  (forall bao e,
     halofit_init lib cosmology zs ks pk_in field bao = Return e ->
     sufficient ks /\ log10_As cosmology <> None /\
     well_shaped zs ks pk_in /\
     (field = "cb"%string \/ field = "tot"%string)) /\
  (sufficient ks -> log10_As cosmology <> None ->
   well_shaped zs ks pk_in ->
   field = "cb"%string \/ field = "tot"%string ->
   sig_int_defined lib (logspace 0 18 512) ->
   exists e,
     halofit_init lib cosmology zs ks pk_in field false = Return e /\
     z e = zs /\ k e = ks /\ pk e = rows pk_in /\ pk_dw e = rows pk_in).
Proof.
  split.
  - intros bao e H.
    pose proof (halofit_init_rho_field _ _ _ _ _ _ _ _ H) as Hf.
    pose proof (halofit_init_attribute _ _ _ _ _ _ _ _ H) as HA.
    apply halofit_init_Return in H. destruct H as (Hs & Hw & _).
    split; [exact Hs|]. split; [exact HA|]. split; [exact Hw | tauto].
  - intros Hs HA Hw Hf Hi.
    destruct (halofit_init_returns lib cosmology zs ks pk_in field
                Hs Hw Hf Hi HA) as [e He].
    exists e. split; [exact He|].
    pose proof (halofit_init_grids _ _ _ _ _ _ _ _ He) as G.
    destruct G as (Hz & Hk & _ & _ & Hpk & _).
    split; [exact Hz|]. split; [exact Hk|]. split; [exact Hpk|].
    apply halofit_init_Return in He.
    destruct He as (_ & _ & smear & rho & Hsm & _ & H).
    apply Return_inj in Hsm. subst smear.
    apply compute_nonlinear_pk_Return in H.
    assert (Hdw : pk_dw e
                  = g_pk_dw (init_grids zs ks (rows pk_in)
                               (fst (rows pk_in, rows pk_in))
                               (snd (rows pk_in, rows pk_in)) rho))
      by (decompose [and] H; assumption).
    exact Hdw.
Qed.

(* ================================================================== *)
(** ** Bounds on the two-halo term *)
(* ================================================================== *)

Lemma tanh_sqr_bounds (x : R) : 0 <= tanh x ^ 2 < 1.
Proof.
  unfold tanh, sinh, cosh.
  pose proof (exp_pos x) as Ha. pose proof (exp_pos (- x)) as Hb.
  set (a := exp x) in *. set (b := exp (- x)) in *.
  replace ((a - b) / 2 / ((a + b) / 2)) with ((a - b) / (a + b))
    by (field; lra).
  set (t := (a - b) / (a + b)).
  assert (H1 : t - 1 = - (2 * b) / (a + b)) by (unfold t; field; lra).
  assert (H2 : t + 1 = 2 * a / (a + b)) by (unfold t; field; lra).
  assert (H3 : 0 < 2 * b / (a + b)) by (apply Rdiv_lt_0_compat; lra).
  assert (H4 : 0 < 2 * a / (a + b)) by (apply Rdiv_lt_0_compat; lra).
  assert (H5 : - (2 * b) / (a + b) = - (2 * b / (a + b)))
    by (field; lra).
  assert (Hlo : 0 < 1 + t) by lra.
  assert (Hhi : 0 < 1 - t) by lra.
  pose proof (Rmult_lt_0_compat _ _ Hlo Hhi) as Hprod.
  clearbody t. clear H1 H2 H3 H4 H5.
  split; [apply pow2_ge_0 | nra].
Qed.

Section TwoHalo.

Variable lib : library.
Variable cosmology : cosmo.

(** X8.  In an instance that is constructed, at a redshift whose damping
    [fdamp] is positive and a wavenumber where the de-wiggled spectrum is
    not negative, the two-halo term is the de-wiggled spectrum times
    [1 - fdamp * tanh(k * sigd / sqrt(fdamp))**2]; it is at most the
    de-wiggled spectrum and at least [1 - fdamp] times it. *)
Theorem two_halo_bounds (zs ks : list R) (pk_in : array2)
  (field : string) (bao : bool) (e : halofit_operator) :
  halofit_init lib cosmology zs ks pk_in field bao = Return e ->
  forall iz ik, (iz < length zs)%nat -> (ik < length ks)%nat ->
  0 < at1 (fdamp e) iz -> 0 <= at2 (pk_dw e) iz ik ->
  let f := at1 (fdamp e) iz in
  at2 (pk_2h e) iz ik
  = at2 (pk_dw e) iz ik
    * (1 - f * tanh (at1 ks ik * at1 (sigd e) iz / sqrt f) ^ 2) /\
  at2 (pk_dw e) iz ik * (1 - f) <= at2 (pk_2h e) iz ik /\
  at2 (pk_2h e) iz ik <= at2 (pk_dw e) iz ik.
Proof.
  intros H iz ik Hiz Hik Hf Hp f.
  destruct (halofit_init_shapes _ _ _ _ _ _ _ _ H) as (Sdw & _).
  pose proof (halofit_init_grids _ _ _ _ _ _ _ _ H) as G.
  destruct G as (_ & Hk & Hnz & _).
  apply halofit_init_Return in H.
  destruct H as (_ & _ & smear & rho & _ & _ & H).
  apply compute_nonlinear_pk_Return in H.
  assert (H2h : pk_2h e =
    tabulate (nz e) (fun iz =>
      pk_2h_row (nth iz (pk_dw e) []) (k e) (at1 (sigd e) iz)
                (at1 (fdamp e) iz)))
    by (decompose [and] H; assumption).
  clear H.
  assert (E : at2 (pk_2h e) iz ik
              = at2 (pk_dw e) iz ik
                * (1 - f * tanh (at1 ks ik * at1 (sigd e) iz / sqrt f) ^ 2)).
  { unfold at2 at 1. rewrite H2h, Hnz, Hk, tabulate_nth by exact Hiz.
    unfold pk_2h_row.
    rewrite (zipWith_nth _ _ _ 0 0)
      by (rewrite ?length_map, ?(table_shape_nth _ _ _ _ Sdw Hiz); lia).
    rewrite (map_nth_in _ _ 0 0) by exact Hik.
    reflexivity. }
  rewrite E. split; [reflexivity|].
  pose proof (tanh_sqr_bounds (at1 ks ik * at1 (sigd e) iz / sqrt f))
    as [Ht0 Ht1].
  fold f in Hf.
  set (t := tanh (at1 ks ik * at1 (sigd e) iz / sqrt f) ^ 2) in *.
  assert (Hft0 : 0 <= f * t) by (apply Rmult_le_pos; lra).
  assert (Hft1 : f * t <= f) by nra.
  split.
  - apply Rmult_le_compat_l; [exact Hp | lra].
  - rewrite <- (Rmult_1_r (at2 (pk_dw e) iz ik)) at 2.
    apply Rmult_le_compat_l; [exact Hp | lra].
Qed.

End TwoHalo.

(* ================================================================== *)
(** ** Signs and bounds of the one-halo term and of the blend *)
(* ================================================================== *)

Lemma trapz_seq_ge0 (f g : nat -> R) (n s : nat) :
  (forall i, (s <= i < s + n)%nat -> 0 <= f i) ->
  (forall i, (s <= i)%nat -> (S i < s + n)%nat -> g i <= g (S i)) ->
  0 <= trapz (map f (seq s n)) (map g (seq s n)).
Proof.
  revert s. induction n as [|n IH]; intros s Hf Hg; [simpl; lra|].
  destruct n as [|n]; [simpl; lra|].
  replace (seq s (S (S n))) with (s :: S s :: seq (S (S s)) n)
    by reflexivity.
  cbn [map]. rewrite trapz_cons2.
  change (f (S s) :: map f (seq (S (S s)) n))
    with (map f (seq (S s) (S n))).
  change (g (S s) :: map g (seq (S (S s)) n))
    with (map g (seq (S s) (S n))).
  assert (H1 : 0 <= f s) by (apply Hf; lia).
  assert (H2 : 0 <= f (S s)) by (apply Hf; lia).
  assert (H3 : g s <= g (S s)) by (apply Hg; lia).
  assert (H4 : 0 <= trapz (map f (seq (S s) (S n)))
                          (map g (seq (S s) (S n)))).
  { apply IH; intros i Hi; [apply Hf | intros Hi'; apply Hg]; lia. }
  assert (0 <= (g (S s) - g s) * (f (S s) + f s)) by
    (apply Rmult_le_pos; lra).
  lra.
Qed.

(** The damping of the one-halo term is in [[0, 1)] where [k/k_star] is
    not negative. *)
Lemma one_halo_damping_bounds (x : R) :
  0 <= x -> 0 <= (1 - exp (- x) ^ 2) ^ 3 < 1.
Proof.
  intros Hx.
  assert (Ht0 : 0 < exp (- x)) by apply exp_pos.
  assert (Ht1 : exp (- x) <= 1).
  { rewrite <- exp_0. destruct Hx as [Hx | <-].
    - left. apply exp_increasing. lra.
    - rewrite Ropp_0. lra. }
  set (t := exp (- x)) in *.
  assert (Hs0 : 0 < t ^ 2) by (apply pow_lt; lra).
  assert (Hs1 : t ^ 2 <= 1) by nra.
  set (s := 1 - t ^ 2).
  assert (Hs : 0 <= s < 1) by (unfold s; lra).
  split.
  - apply pow_le. lra.
  - assert (s ^ 2 <= 1) by nra.
    assert (0 <= s ^ 2) by apply pow2_ge_0.
    replace (s ^ 3) with (s * s ^ 2) by ring. nra.
Qed.

(** X9.  A row of the one-halo term on the mass grid of the class: where
    the density of the field is not zero, the mass function is not
    negative at any mass, [k_star] is positive and the wavenumber is not
    negative, the mass integral is not
    negative, and the one-halo term is not negative and at most the mass
    integral: the damping [(1 - exp(-k/k_star)**2)**3] only removes
    power. *)
Theorem one_halo_nonnegative (rho : R) (hmf : list R) (u : list (list R))
  (ks : list R) (k_star_iz : R) (ik : nat) :
  let mass_ := logspace 0 18 512 in
  let integral :=
    trapz (tabulate 512 (fun j =>
             ((at1 mass_ j / rho) ^ 2 * at1 hmf j * at2 u j ik ^ 2)
             * at1 mass_ j))
          (map ln mass_) in
  rho <> 0 -> (forall j, (j < 512)%nat -> 0 <= at1 hmf j) ->
  0 < k_star_iz -> (ik < length ks)%nat -> 0 <= at1 ks ik ->
  0 <= integral /\
  0 <= at1 (pk_1h_row mass_ rho hmf u ks k_star_iz) ik <= integral.
Proof.
  intros mass_ integral _ Hh Hks Hik Hk.
  assert (Hint : 0 <= integral).
  { unfold integral, mass_. rewrite ln_logspace. unfold tabulate.
    apply trapz_seq_ge0.
    - intros j Hj.
      assert (HM : 0 < at1 (logspace 0 18 512) j)
        by (apply logspace_pos; lia).
      assert (H1 : 0 <= at1 hmf j) by (apply Hh; lia).
      apply Rmult_le_pos; [|lra].
      apply Rmult_le_pos; [|apply pow2_ge_0].
      apply Rmult_le_pos; [apply pow2_ge_0 | exact H1].
    - intros i _ Hi. rewrite S_INR.
      assert (H511 : 0 < INR (512 - 1)) by (apply lt_0_INR; lia).
      assert (Hstep : 0 < (18 - 0) / INR (512 - 1))
        by (apply Rdiv_lt_0_compat; lra).
      pose proof ln_10_pos as Hln.
      apply Rmult_le_compat_r; [lra|]. nra. }
  split; [exact Hint|].
  assert (E : at1 (pk_1h_row mass_ rho hmf u ks k_star_iz) ik
              = integral * (1 - exp (- (at1 ks ik / k_star_iz)) ^ 2) ^ 3).
  { unfold pk_1h_row, at1 at 1.
    rewrite (zipWith_nth _ _ _ 0 0) by (rewrite ?tabulate_length; lia).
    rewrite tabulate_nth by exact Hik.
    replace (- nth ik ks 0 / k_star_iz) with (- (at1 ks ik / k_star_iz))
      by (unfold at1, Rdiv; ring).
    unfold integral, mass_. rewrite logspace_length. reflexivity. }
  rewrite E.
  assert (Hx : 0 <= at1 ks ik / k_star_iz).
  { unfold Rdiv. apply Rmult_le_pos; [exact Hk|].
    left. now apply Rinv_0_lt_compat. }
  pose proof (one_halo_damping_bounds _ Hx) as [Hd0 Hd1].
  split.
  - now apply Rmult_le_pos.
  - rewrite <- (Rmult_1_r integral) at 2.
    apply Rmult_le_compat_l; [exact Hint | lra].
Qed.

Lemma Rpower_inv_exponent (x a : R) :
  0 < x -> a <> 0 -> Rpower (Rpower x a) (1 / a) = x.
Proof.
  intros Hx Ha. rewrite Rpower_mult.
  replace (a * (1 / a)) with 1 by (field; exact Ha).
  now apply Rpower_1.
Qed.

(** The blend of two positive terms lies between the larger one and
    [2**(1/a)] times it. *)
Lemma blend_pos_bounds (x y a : R) :
  0 < a -> 0 < x -> 0 < y ->
  x <= Rpower (Rpower x a + Rpower y a) (1 / a) /\
  Rpower (Rpower x a + Rpower y a) (1 / a) <= Rpower 2 (1 / a) * Rmax x y.
Proof.
  intros Ha Hx Hy.
  assert (Hxa : 0 < Rpower x a) by (unfold Rpower; apply exp_pos).
  assert (Hya : 0 < Rpower y a) by (unfold Rpower; apply exp_pos).
  assert (Hia : 0 < 1 / a) by (apply Rdiv_lt_0_compat; lra).
  split.
  - rewrite <- (Rpower_inv_exponent x a) at 1 by lra.
    apply Rle_Rpower_l; lra.
  - assert (Hm : 0 < Rmax x y)
      by (apply Rlt_le_trans with x; [exact Hx | apply Rmax_l]).
    assert (Hxm : Rpower x a <= Rpower (Rmax x y) a)
      by (apply Rle_Rpower_l; [lra | split; [exact Hx | apply Rmax_l]]).
    assert (Hym : Rpower y a <= Rpower (Rmax x y) a)
      by (apply Rle_Rpower_l; [lra | split; [exact Hy | apply Rmax_r]]).
    rewrite <- (Rpower_inv_exponent (Rmax x y) a) at 1 by lra.
    rewrite Rpower_mult_distr
      by (unfold Rpower; apply exp_pos || lra).
    apply Rle_Rpower_l; [lra|]. split; lra.
Qed.

(** X10.  A row of the non-linear spectrum,
    [(pk_1h**alpha + pk_2h**alpha)**(1/alpha)] with [alpha > 0]: where
    the one-halo and the two-halo terms are not negative, the blend is
    at least the larger of the two and at most [2**(1/alpha)] times it;
    where one of them is zero it is the other one. *)
Theorem blend_bounds (pk_1h_iz pk_2h_iz : list R) (alpha_iz : R)
  (ik : nat) :
  0 < alpha_iz ->
  (ik < length pk_1h_iz)%nat -> (ik < length pk_2h_iz)%nat ->
  0 <= at1 pk_1h_iz ik -> 0 <= at1 pk_2h_iz ik ->
  let p1 := at1 pk_1h_iz ik in
  let p2 := at1 pk_2h_iz ik in
  let nl := at1 (pk_nl_row pk_1h_iz pk_2h_iz alpha_iz) ik in
  Rmax p1 p2 <= nl /\
  nl <= power 2 (1 / alpha_iz) * Rmax p1 p2 /\
  (p1 = 0 -> nl = p2) /\ (p2 = 0 -> nl = p1).
Proof.
  intros Ha H1 H2 Hp1 Hp2 p1 p2 nl.
  assert (E : nl = power (power p1 alpha_iz + power p2 alpha_iz)
                         (1 / alpha_iz)).
  { unfold nl, pk_nl_row, at1 at 1.
    now rewrite (zipWith_nth _ _ _ 0 0) by lia. }
  fold p1 in Hp1. fold p2 in Hp2. clearbody p1 p2 nl. subst nl.
  assert (Hia : 1 / alpha_iz <> 0).
  { apply Rgt_not_eq. apply Rdiv_lt_0_compat; lra. }
  assert (Hia' : 0 < 1 / alpha_iz) by (apply Rdiv_lt_0_compat; lra).
  assert (H0 : forall y, power 0 y = if Req_dec_T y 0 then 1 else 0).
  { intros y. unfold power. destruct (Req_dec_T 0 0); [reflexivity | lra]. }
  assert (Hz : power 0 alpha_iz = 0).
  { rewrite H0. destruct (Req_dec_T alpha_iz 0); [lra | reflexivity]. }
  assert (Hz' : power 0 (1 / alpha_iz) = 0).
  { rewrite H0. destruct (Req_dec_T (1 / alpha_iz) 0); [lra | reflexivity]. }
  assert (Hone : forall x, 0 < x ->
            power (power x alpha_iz) (1 / alpha_iz) = x).
  { intros x Hx. rewrite (power_pos_base x) by exact Hx.
    rewrite power_pos_base by (unfold Rpower; apply exp_pos).
    apply Rpower_inv_exponent; lra. }
  assert (H2pos : 0 < power 2 (1 / alpha_iz)).
  { rewrite power_pos_base by lra. unfold Rpower. apply exp_pos. }
  assert (H2ge : 1 <= power 2 (1 / alpha_iz)).
  { rewrite power_pos_base by lra.
    apply Rle_trans with (Rpower 2 0);
      [rewrite Rpower_O; lra | apply Rle_Rpower; lra]. }
  destruct Hp1 as [Hp1 | <-]; destruct Hp2 as [Hp2 | <-].
  - rewrite (power_pos_base p1), (power_pos_base p2) by assumption.
    rewrite (power_pos_base (_ + _))
      by (apply Rplus_lt_0_compat; unfold Rpower; apply exp_pos).
    rewrite (power_pos_base 2) by lra.
    destruct (blend_pos_bounds p1 p2 alpha_iz Ha Hp1 Hp2) as [B1 B2].
    destruct (blend_pos_bounds p2 p1 alpha_iz Ha Hp2 Hp1) as [B3 _].
    rewrite (Rplus_comm (Rpower p2 alpha_iz)) in B3.
    split; [apply Rmax_lub; assumption|].
    split; [exact B2|]. split; intros; lra.
  - rewrite Hz, Rplus_0_r, (Hone p1 Hp1).
    rewrite Rmax_left by lra.
    split; [lra|]. split; [nra|]. split; intros; lra.
  - rewrite Hz, Rplus_0_l, (Hone p2 Hp2).
    rewrite Rmax_right by lra.
    split; [lra|]. split; [nra|]. split; intros; lra.
  - rewrite Hz, Rplus_0_l, Hz'. rewrite Rmax_left by lra.
    split; [lra|]. split; [lra|]. split; reflexivity.
Qed.

(* ================================================================== *)
(** ** The displacement with and without a window *)
(* ================================================================== *)

Lemma trapz_dx_cons2 (y0 y1 : R) (ys : list R) (dx : R) :
  trapz_dx (y0 :: y1 :: ys) dx
  = dx * (y1 + y0) / 2 + trapz_dx (y1 :: ys) dx.
Proof. reflexivity. Qed.

(** [np.trapz(y, dx = dx)] is monotone in the integrand for [dx >= 0]. *)
Lemma trapz_dx_zipWith_le (f g : R -> R -> R) (a b : list R) (dx : R) :
  0 <= dx ->
  (forall x y, In x a -> In y b -> f x y <= g x y) ->
  trapz_dx (zipWith f a b) dx <= trapz_dx (zipWith g a b) dx.
Proof.
  intros Hdx. revert b.
  induction a as [|x0 a IH]; intros b Hfg; [simpl; lra|].
  destruct b as [|y0 b]; [simpl; lra|].
  destruct a as [|x1 a]; [simpl; lra|].
  destruct b as [|y1 b]; [simpl; lra|].
  change (zipWith f (x0 :: x1 :: a) (y0 :: y1 :: b))
    with (f x0 y0 :: zipWith f (x1 :: a) (y1 :: b)).
  change (zipWith g (x0 :: x1 :: a) (y0 :: y1 :: b))
    with (g x0 y0 :: zipWith g (x1 :: a) (y1 :: b)).
  assert (IH' : trapz_dx (zipWith f (x1 :: a) (y1 :: b)) dx
                <= trapz_dx (zipWith g (x1 :: a) (y1 :: b)) dx).
  { apply IH. intros x y Hx Hy. apply Hfg; now right. }
  change (zipWith f (x1 :: a) (y1 :: b))
    with (f x1 y1 :: zipWith f a b) in *.
  change (zipWith g (x1 :: a) (y1 :: b))
    with (g x1 y1 :: zipWith g a b) in *.
  rewrite !trapz_dx_cons2.
  assert (H0 : f x0 y0 <= g x0 y0) by (apply Hfg; now left).
  assert (H1 : f x1 y1 <= g x1 y1)
    by (apply Hfg; right; now left).
  assert (dx * (f x1 y1 + f x0 y0) <= dx * (g x1 y1 + g x0 y0))
    by (apply Rmult_le_compat_l; lra).
  lra.
Qed.

Lemma trapz_dx_zipWith_ge0 (f : R -> R -> R) (a b : list R) (dx : R) :
  0 <= dx ->
  (forall x y, In x a -> In y b -> 0 <= f x y) ->
  0 <= trapz_dx (zipWith f a b) dx.
Proof.
  intros Hdx Hf.
  pose proof (trapz_dx_zipWith_le (fun _ _ => 0) f a b dx Hdx Hf) as H.
  assert (Hz : forall l1 l2 : list R,
            trapz_dx (zipWith (fun _ _ => 0) l1 l2) dx = 0).
  { induction l1 as [|x0 l1 IHl]; intros l2; [reflexivity|].
    destruct l2 as [|y0 l2]; [reflexivity|].
    destruct l1 as [|x1 l1]; [reflexivity|].
    destruct l2 as [|y1 l2]; [reflexivity|].
    change (zipWith (fun _ _ : R => 0) (x0 :: x1 :: l1) (y0 :: y1 :: l2))
      with (0 :: 0 :: zipWith (fun _ _ : R => 0) l1 l2).
    rewrite trapz_dx_cons2.
    change (0 :: zipWith (fun _ _ : R => 0) l1 l2)
      with (zipWith (fun _ _ : R => 0) (x1 :: l1) (y1 :: l2)).
    rewrite IHl. lra. }
  rewrite Hz in H. exact H.
Qed.

(** The logarithmic step of a positive grid whose first two points are in
    order; on a grid of fewer than two points the integral is [0]
    whatever the step. *)
Lemma dlnk_nonneg (k_ext : list R) :
  Forall (fun kp => 0 < kp) k_ext -> at1 k_ext 0 <= at1 k_ext 1 ->
  (2 <= length k_ext)%nat -> 0 <= ln (at1 k_ext 1 / at1 k_ext 0).
Proof.
  intros Hpos Hord Hlen.
  destruct k_ext as [|x0 [|x1 l]]; simpl in Hlen; try lia.
  unfold at1 in *. cbn [nth] in *.
  inversion Hpos as [|? ? Hx0 Hrest]; subst.
  inversion Hrest as [|? ? Hx1 _]; subst.
  assert (Hr : 1 <= x1 / x0).
  { apply Rmult_le_reg_r with x0; [exact Hx0|].
    replace (x1 / x0 * x0) with x1 by (field; lra). lra. }
  destruct Hr as [Hr | <-]; [|rewrite ln_1; lra].
  left. rewrite <- ln_1. apply ln_increasing; lra.
Qed.

Lemma trapz_dx_short (l : list R) (dx : R) :
  (length l < 2)%nat -> trapz_dx l dx = 0.
Proof. destruct l as [|a [|b l]]; simpl; intros; try reflexivity; lia. Qed.

(** X11.  At every redshift, on a spectrum that is not negative and an
    extrapolated grid of positive wavenumbers in increasing order, the
    displacement [sigma_d(R)] with the window of size [R] is not negative
    and at most the displacement [sigma_d0()] without a window, for every
    window function bounded by 1 in absolute value. *)
Theorem window_reduces_displacement (lib : library) (nz_ : nat)
  (ks : list R) (pk_ : list (list R)) (R_ : R) (i : nat) :
  (i < nz_)%nat ->
  (forall x, Rabs (TopHat_window lib x) <= 1) ->
  let ext := extrapolate_log lib ks (nth i pk_ []) 1e-6 1e8 in
  Forall (fun kp => 0 < kp) (fst ext) ->
  Forall (fun P => 0 <= P) (snd ext) ->
  at1 (fst ext) 0 <= at1 (fst ext) 1 ->
  0 <= at1 (sigma_d lib nz_ ks pk_ R_) i <= at1 (sigma_d0 lib nz_ ks pk_) i.
Proof.
  intros Hi HW. cbv zeta.
  assert (E1 : at1 (sigma_d lib nz_ ks pk_ R_) i
               = nth i (sigma_d lib nz_ ks pk_ R_) 0) by reflexivity.
  assert (E0 : at1 (sigma_d0 lib nz_ ks pk_) i
               = nth i (sigma_d0 lib nz_ ks pk_) 0) by reflexivity.
  rewrite E1, E0. clear E1 E0. unfold sigma_d, sigma_d0.
  rewrite !tabulate_nth by exact Hi.
  destruct (extrapolate_log lib ks (nth i pk_ []) 1e-6 1e8)
    as [k_ext pk_ext].
  cbn [fst snd]. intros Hk HP Hord.
  split; [apply sqrt_pos|]. apply sqrt_le_1_alt.
  destruct (Nat.lt_ge_cases (length k_ext) 2) as [Hshort | Hlong].
  { rewrite !trapz_dx_short by (rewrite zipWith_length; lia). lra. }
  apply trapz_dx_zipWith_le; [now apply dlnk_nonneg|].
  intros kp P Hkp HPin.
  rewrite Forall_forall in Hk, HP.
  specialize (Hk kp Hkp). specialize (HP P HPin).
  assert (Hbase : 0 <= 1 / 3 * kp ^ 3 * P / (2 * PI ^ 2) / kp ^ 2).
  { pose proof PI_RGT_0 as Hpi.
    assert (0 < kp ^ 3) by (apply pow_lt; lra).
    assert (0 < kp ^ 2) by (apply pow_lt; lra).
    assert (0 < PI ^ 2) by (apply pow_lt; lra).
    apply Rmult_le_pos; [|left; apply Rinv_0_lt_compat; lra].
    apply Rmult_le_pos; [|left; apply Rinv_0_lt_compat; lra].
    apply Rmult_le_pos; [|exact HP].
    apply Rmult_le_pos; lra. }
  assert (HW2 : TopHat_window lib (kp * R_) ^ 2 <= 1).
  { specialize (HW (kp * R_)).
    set (w := TopHat_window lib (kp * R_)) in *.
    unfold Rabs in HW. destruct (Rcase_abs w); nra. }
  rewrite <- (Rmult_1_r (1 / 3 * kp ^ 3 * P / (2 * PI ^ 2) / kp ^ 2)) at 2.
  apply Rmult_le_compat_l; [exact Hbase | exact HW2].
Qed.

(* ================================================================== *)
(** ** Further properties of [nonlinear_pk] *)
(* ================================================================== *)

Lemma zeros_like_shape (a : array2) : shape (zeros_like a) = shape a.
Proof. unfold shape, zeros_like. cbn [rows ncols]. now rewrite length_map. Qed.

Lemma zeros_like_at2 (a : array2) (i j : nat) :
  at2 (rows (zeros_like a)) i j = 0.
Proof.
  unfold at2, zeros_like. cbn [rows].
  destruct (Nat.lt_ge_cases i (length (rows a))) as [Hi | Hi].
  - rewrite (map_nth_in _ _ [] []) by exact Hi. apply nth_repeat.
  - rewrite (nth_overflow (map _ (rows a)) [])
      by (rewrite length_map; exact Hi).
    now destruct j.
Qed.

Lemma EH_code_cases (code : string) :
  str_in code ["EH"; "eh"; "EisensteinHu"; "Eisenstein-Hu"]%string = true ->
  code = "EH"%string \/ code = "eh"%string \/
  code = "EisensteinHu"%string \/ code = "Eisenstein-Hu"%string.
Proof.
  unfold str_in. cbn [existsb].
  rewrite !orb_true_iff, !String.eqb_eq.
  intros [H | [H | [H | [H | H]]]]; auto; discriminate.
Qed.

Section TotalMatter.

Variable lib : library.
Variable cosmology : cosmo.

(** With linear spectra of the right shape, a sufficient [k], no
    smearing, the interpolant of [sigma(M)] evaluated inside its range
    and a cosmology that has [log10_As], the constructor of
    [nonlinear_pk] returns. *)
Lemma nonlinear_pk_init_returns (zs ks : list R) (code : string)
  (kw : kwargs) (cbcb cbnu nunu : array2) :
  sufficient ks ->
  linear_spectra cosmology zs ks code kw = Return (cbcb, cbnu, nunu) ->
  well_shaped zs ks cbcb -> well_shaped zs ks cbnu ->
  well_shaped zs ks nunu ->
  sig_int_defined lib (logspace 0 18 512) ->
  log10_As cosmology <> None ->
  exists t, nonlinear_pk_init lib cosmology zs ks code kw false = Return t.
Proof.
  intros Hs Hl Wcc Wcn Wnn Hi HA. unfold nonlinear_pk_init.
  rewrite (assert_k_sufficient _ Hs). cbn [bind].
  rewrite Hl. cbn [bind].
  destruct (halofit_init_returns lib cosmology zs ks cbcb "cb" Hs Wcc
              (or_introl eq_refl) Hi HA) as [e He].
  rewrite He. cbn [bind].
  destruct (halofit_init_shapes _ _ _ _ _ _ _ _ He) as (_ & _ & _ & Snl).
  apply array2_table_shape in Wcn, Wnn.
  unfold total_matter_pk.
  destruct (madd_returns (length zs) (length ks)
              (mscale (f_cb cosmology ^ 2) (pk_nl e))
              (mscale (2 * f_nu_tot cosmology * f_cb cosmology)
                      (rows cbnu))) as [s Hsum];
    try (apply mscale_shape; assumption).
  rewrite Hsum. cbn [bind].
  destruct (madd_nth (length zs) (length ks) _ _ _ Hsum)
    as [Ss _]; try (apply mscale_shape; assumption).
  destruct (madd_returns (length zs) (length ks) s
              (mscale (f_nu_tot cosmology ^ 2) (rows nunu)))
    as [nl Hnl]; try (apply mscale_shape; assumption); try exact Ss.
  rewrite Hnl. cbn [bind]. now eexists.
Qed.

(** The total matter spectrum of an instance, entry by entry, for cb-nu
    and nu-nu spectra of the shape [(len(z), len(k))]. *)
Lemma nonlinear_pk_init_total (zs ks : list R) (code : string)
  (kw : kwargs) (bao : bool) (t : nonlinear_pk) :
  nonlinear_pk_init lib cosmology zs ks code kw bao = Return t ->
  well_shaped zs ks (t_pk_cbnu t) -> well_shaped zs ks (t_pk_nunu t) ->
  forall iz ik, (iz < length zs)%nat -> (ik < length ks)%nat ->
    at2 (t_pk_nl t) iz ik
    = f_cb cosmology ^ 2 * at2 (pk_nl (t_HO t)) iz ik
      + 2 * f_nu_tot cosmology * f_cb cosmology
        * at2 (rows (t_pk_cbnu t)) iz ik
      + f_nu_tot cosmology ^ 2 * at2 (rows (t_pk_nunu t)) iz ik.
Proof.
  intros H Scbnu Snunu iz ik Hiz Hik.
  apply nonlinear_pk_init_Return in H.
  destruct H as (_ & HHO & _ & Hnl & _ & _ & Htot).
  destruct (halofit_init_shapes _ _ _ _ _ _ _ _ HHO) as (_ & _ & _ & Snl).
  rewrite Hnl in Htot.
  apply array2_table_shape in Scbnu, Snunu.
  unfold total_matter_pk in Htot.
  apply bind_Return in Htot. destruct Htot as (s & Hs & Htot).
  destruct (madd_nth (length zs) (length ks) _ _ _ Hs) as [Ss Es];
    try (apply mscale_shape; assumption).
  destruct (madd_nth (length zs) (length ks) _ _ _ Htot) as [_ Et];
    try (apply mscale_shape; assumption); try exact Ss.
  rewrite (Et iz ik Hiz Hik), (Es iz ik Hiz Hik), !mscale_nth.
  reflexivity.
Qed.

(** X12.  With the Eisenstein-Hu code (['EH'], ['eh'], ['EisensteinHu']
    or ['Eisenstein-Hu']) an instance of [nonlinear_pk] that is
    constructed has the spectrum of [EisensteinHu_Pk] as its cb-cb
    spectrum and arrays of zeros of the same shape as its cb-nu and nu-nu
    spectra, so that the total non-linear spectrum is
    [f_cb**2 * pk_nl_cbcb] at every redshift and wavenumber. *)
Theorem eisenstein_hu_no_neutrino_terms (zs ks : list R) (code : string)
  (kw : kwargs) (bao : bool) (t : nonlinear_pk) :
  str_in code ["EH"; "eh"; "EisensteinHu"; "Eisenstein-Hu"]%string = true ->
  nonlinear_pk_init lib cosmology zs ks code kw bao = Return t ->
  EisensteinHu_Pk cosmology ks zs kw = Return (t_pk_cbcb t) /\
  t_pk_cbnu t = zeros_like (t_pk_cbcb t) /\
  t_pk_nunu t = zeros_like (t_pk_cbcb t) /\
  forall iz ik, (iz < length zs)%nat -> (ik < length ks)%nat ->
    at2 (t_pk_nl t) iz ik
    = f_cb cosmology ^ 2 * at2 (t_pk_nl_cbcb t) iz ik.
Proof.
  intros Hcode H.
  pose proof (nonlinear_pk_init_Return _ _ _ _ _ _ _ _ H)
    as (Hl & HHO & _ & Hnl & _).
  assert (HEH : (pk_l <- EisensteinHu_Pk cosmology ks zs kw ;;
                 Return (pk_l, zeros_like pk_l, zeros_like pk_l))
                = Return (t_pk_cbcb t, t_pk_cbnu t, t_pk_nunu t)).
  { rewrite <- Hl. unfold linear_spectra.
    apply EH_code_cases in Hcode.
    destruct Hcode as [-> | [-> | [-> | ->]]]; reflexivity. }
  apply bind_Return in HEH. destruct HEH as (pk_l & Hpk & HEH).
  apply Return_inj in HEH. injection HEH as E1 E2 E3. subst pk_l.
  split; [exact Hpk|]. split; [now symmetry|]. split; [now symmetry|].
  intros iz ik Hiz Hik.
  apply halofit_init_Return in HHO. destruct HHO as (_ & Hw & _).
  assert (Wz : well_shaped zs ks (zeros_like (t_pk_cbcb t)))
    by (unfold well_shaped; rewrite zeros_like_shape; exact Hw).
  rewrite (nonlinear_pk_init_total _ _ _ _ _ _ H) by
    (rewrite <- ?E2, <- ?E3; assumption).
  rewrite <- E2, <- E3, !zeros_like_at2, Hnl. ring.
Qed.

(** X13.  A [code] that is none of the ten accepted spellings (of CAMB,
    of CLASS and of Eisenstein-Hu; the test is case-sensitive) makes the
    selection of the linear spectra raise [NameError], and so does the
    constructor of [nonlinear_pk] once the assertions on [k] have
    passed, before any spectrum is computed. *)
Theorem unknown_code_raises (zs ks : list R) (code : string)
  (kw : kwargs) (bao : bool) :
  str_in code ["camb"; "Camb"; "CAMB"; "class"; "Class"; "CLASS";
               "EH"; "eh"; "EisensteinHu"; "Eisenstein-Hu"]%string = false ->
  linear_spectra cosmology zs ks code kw = Raise NameError /\
  (sufficient ks ->
   nonlinear_pk_init lib cosmology zs ks code kw bao = Raise NameError).
Proof.
  intros Hcode.
  assert (Hl : linear_spectra cosmology zs ks code kw = Raise NameError).
  { unfold linear_spectra, str_in in *. cbn [existsb] in *.
    rewrite !orb_false_iff in Hcode.
    destruct Hcode as (-> & -> & -> & -> & -> & -> & -> & -> & -> & -> & _).
    reflexivity. }
  split; [exact Hl|].
  intros Hs. unfold nonlinear_pk_init.
  rewrite (assert_k_sufficient _ Hs). cbn [bind].
  now rewrite Hl.
Qed.

(** X14.  If the cb-cb, cb-nu and nu-nu spectra coincide and the
    fractions of the cosmology add up, [f_cb + f_nu_tot = 1], the total
    matter spectrum that [nonlinear_pk] assembles,
    [f_cb**2 * P + 2 * f_nu_tot * f_cb * P + f_nu_tot**2 * P], is that
    spectrum. *)
Theorem total_matter_of_equal_spectra (n m : nat) (p : list (list R)) :
  table_shape n m p ->
  f_cb cosmology + f_nu_tot cosmology = 1 ->
  exists tot,
    total_matter_pk cosmology p p p = Return tot /\
    table_shape n m tot /\
    forall i j, (i < n)%nat -> (j < m)%nat -> at2 tot i j = at2 p i j.
Proof.
  intros Sp Hf. unfold total_matter_pk.
  destruct (madd_returns n m
              (mscale (f_cb cosmology ^ 2) p)
              (mscale (2 * f_nu_tot cosmology * f_cb cosmology) p))
    as [s Hs]; try (apply mscale_shape; assumption).
  rewrite Hs. cbn [bind].
  destruct (madd_nth n m _ _ _ Hs) as [Ss Es];
    try (apply mscale_shape; assumption).
  destruct (madd_returns n m s (mscale (f_nu_tot cosmology ^ 2) p))
    as [tot Htot]; try (apply mscale_shape; assumption); try exact Ss.
  exists tot. split; [exact Htot|].
  destruct (madd_nth n m _ _ _ Htot) as [St Et];
    try (apply mscale_shape; assumption); try exact Ss.
  split; [exact St|].
  intros i j Hi Hj.
  rewrite (Et i j Hi Hj), (Es i j Hi Hj), !mscale_nth.
  replace (f_cb cosmology) with (1 - f_nu_tot cosmology) by lra. ring.
Qed.

End TotalMatter.

(* ================================================================== *)
(** ** The smearing of the baryon acoustic oscillations *)
(* ================================================================== *)

Lemma getrow_nth (a : array2) (i : nat) :
  (i < length (rows a))%nat -> getrow a i = Return (nth i (rows a) []).
Proof.
  intros Hi. unfold getrow. now rewrite (nth_error_nth' _ [] Hi).
Qed.

Section Smearing.

Variable cosmology : cosmo.

(** The three list comprehensions of the smearing, row by row, on a
    spectrum with a row for every redshift. *)
Lemma bao_smearing_rows (ks : list R) (pk_in : array2) (n : nat)
  (nw dw : list (list R)) :
  bao_smearing cosmology ks pk_in n = Return (nw, dw) ->
  length (rows pk_in) = n ->
  length nw = n /\ length dw = n /\
  forall iz, (iz < n)%nat ->
    let row := nth iz (rows pk_in) [] in
    remove_bao cosmology ks row = Return (nth iz nw []) /\
    exists kp t d m,
      vmul ks row = Return kp /\ trapz_x kp (map ln ks) = Return t /\
      vsub row (nth iz nw []) = Return d /\
      vmul d (map (fun kk => exp (- kk ^ 2 * (1 / (6 * PI ^ 2) * t))) ks)
      = Return m /\
      vadd m (nth iz nw []) = Return (nth iz dw []).
Proof.
  unfold bao_smearing. intros H Hn.
  apply bind_Return in H. destruct H as (nw' & Hnw & H).
  apply bind_Return in H. destruct H as (sv2 & Hsv & H).
  apply bind_Return in H. destruct H as (dw' & Hdw & H).
  apply Return_inj in H. injection H as -> ->.
  pose proof (mapM_length _ _ _ Hnw) as Lnw. rewrite length_seq in Lnw.
  pose proof (mapM_length _ _ _ Hsv) as Lsv. rewrite length_seq in Lsv.
  pose proof (mapM_length _ _ _ Hdw) as Ldw. rewrite length_seq in Ldw.
  split; [exact Lnw|]. split; [exact Ldw|].
  intros iz Hiz. set (row := nth iz (rows pk_in) []).
  assert (Hrow : getrow pk_in iz = Return row)
    by (apply getrow_nth; lia).
  apply (mapM_nth _ _ _ 0%nat [] iz) in Hnw; [|now rewrite length_seq].
  apply (mapM_nth _ _ _ 0%nat 0 iz) in Hsv; [|now rewrite length_seq].
  apply (mapM_nth _ _ _ 0%nat [] iz) in Hdw; [|now rewrite length_seq].
  rewrite seq_nth in Hnw, Hsv, Hdw by exact Hiz.
  cbn [Nat.add] in Hnw, Hsv, Hdw.
  rewrite Hrow in Hnw, Hsv, Hdw. cbn [bind] in Hnw, Hsv, Hdw.
  split; [exact Hnw|].
  apply bind_Return in Hsv. destruct Hsv as (kp & Hkp & Hsv).
  apply bind_Return in Hsv. destruct Hsv as (t & Ht & Hsv).
  apply Return_inj in Hsv.
  apply bind_Return in Hdw. destruct Hdw as (d & Hd & Hdw).
  apply bind_Return in Hdw. destruct Hdw as (m & Hm & Hdw).
  exists kp, t, d, m.
  unfold at1 in Hm. rewrite <- Hsv in Hm.
  repeat split; assumption.
Qed.

(** X15.  With [BAO_smearing = True], on a spectrum of shape
    [(len(z), len(k))]: the no-wiggle spectrum of every redshift is what
    [remove_bao] returns on that row, and where it has the length of [k]
    the de-wiggled spectrum is, entry by entry,
    [(pk - pk_nw) * exp(-k**2 * sv2) + pk_nw] with
    [sv2 = 1/(6 pi**2) * trapz(k * pk, x = ln k)]; for [sv2 >= 0] it lies
    between the no-wiggle and the linear spectrum. *)
Theorem bao_smearing_blend (zs ks : list R) (pk_in : array2)
  (nw dw : list (list R)) :
  bao_smearing cosmology ks pk_in (length zs) = Return (nw, dw) ->
  well_shaped zs ks pk_in ->
  forall iz, (iz < length zs)%nat ->
  let row := nth iz (rows pk_in) [] in
  let sv2 := 1 / (6 * PI ^ 2) * trapz (zipWith Rmult ks row) (map ln ks) in
  remove_bao cosmology ks row = Return (nth iz nw []) /\
  (length (nth iz nw []) = length ks ->
   forall ik, (ik < length ks)%nat ->
     at2 dw iz ik
     = (at1 row ik - at2 nw iz ik) * exp (- at1 ks ik ^ 2 * sv2)
       + at2 nw iz ik /\
     (0 <= sv2 ->
      Rmin (at1 row ik) (at2 nw iz ik) <= at2 dw iz ik
      <= Rmax (at1 row ik) (at2 nw iz ik))).
Proof.
  intros H Hw iz Hiz row sv2.
  apply array2_table_shape in Hw. pose proof Hw as [Hn _].
  destruct (bao_smearing_rows _ _ _ _ _ H Hn) as (_ & _ & Hrows).
  destruct (Hrows iz Hiz) as (Hnw & kp & t & d & m & Hkp & Ht & Hd & Hm & Hdw).
  fold row in Hnw, Hkp, Hd.
  split; [exact Hnw|].
  intros Lnw ik Hik.
  assert (Lrow : length row = length ks)
    by (apply (table_shape_nth _ _ _ _ Hw Hiz)).
  unfold vmul in Hkp. rewrite vop_zipWith in Hkp by lia.
  apply Return_inj in Hkp. subst kp.
  rewrite trapz_x_trapz in Ht
    by (rewrite zipWith_length, length_map; lia).
  apply Return_inj in Ht. subst t. fold sv2 in Hm.
  unfold vsub in Hd. rewrite vop_zipWith in Hd by lia.
  apply Return_inj in Hd. subst d.
  unfold vmul in Hm. rewrite vop_zipWith in Hm
    by (rewrite zipWith_length, length_map; lia).
  apply Return_inj in Hm. subst m.
  unfold vadd in Hdw. rewrite vop_zipWith in Hdw
    by (rewrite !zipWith_length, length_map; lia).
  apply Return_inj in Hdw.
  assert (E : at2 dw iz ik
              = (at1 row ik - at2 nw iz ik) * exp (- at1 ks ik ^ 2 * sv2)
                + at2 nw iz ik).
  { unfold at2 at 1. rewrite <- Hdw.
    rewrite (zipWith_nth _ _ _ 0 0)
      by (rewrite ?zipWith_length, ?length_map; lia).
    rewrite (zipWith_nth _ _ _ 0 0)
      by (rewrite ?zipWith_length, ?length_map; lia).
    rewrite (zipWith_nth _ _ _ 0 0) by lia.
    rewrite (map_nth_in _ _ 0 0) by exact Hik.
    reflexivity. }
  split; [exact E|].
  intros Hsv. rewrite E.
  assert (Hg0 : 0 < exp (- at1 ks ik ^ 2 * sv2)) by apply exp_pos.
  assert (Hg1 : exp (- at1 ks ik ^ 2 * sv2) <= 1).
  { assert (Hx : - at1 ks ik ^ 2 * sv2 <= 0).
    { pose proof (pow2_ge_0 (at1 ks ik)). nra. }
    destruct Hx as [Hx | ->]; [|rewrite exp_0; lra].
    left. rewrite <- exp_0. now apply exp_increasing. }
  set (g := exp (- at1 ks ik ^ 2 * sv2)) in *.
  set (p := at1 row ik). set (q := at2 nw iz ik).
  unfold Rmin, Rmax. destruct (Rle_dec p q); split; nra.
Qed.

(** The smearing reads the rows of the redshifts only. *)
Lemma bao_smearing_rows_ext (ks : list R) (a b : array2) (n : nat) :
  (forall i, (i < n)%nat -> getrow a i = getrow b i) ->
  bao_smearing cosmology ks a n = bao_smearing cosmology ks b n.
Proof.
  intros H. unfold bao_smearing.
  assert (Hin : forall i, In i (seq 0 n) -> getrow a i = getrow b i)
    by (intros i Hi; apply in_seq in Hi; apply H; lia).
  rewrite (mapM_ext_in
             (fun i => r <- getrow a i ;; remove_bao cosmology ks r)
             (fun i => r <- getrow b i ;; remove_bao cosmology ks r))
    by (intros i Hi; now rewrite (Hin i Hi)).
  destruct (mapM _ (seq 0 n)) as [nw|]; [|reflexivity]. cbn [bind].
  rewrite (mapM_ext_in
             (fun i => r <- getrow a i ;;
                       kp <- vmul ks r ;;
                       t <- trapz_x kp (map ln ks) ;;
                       Return (1 / (6 * PI ^ 2) * t))
             (fun i => r <- getrow b i ;;
                       kp <- vmul ks r ;;
                       t <- trapz_x kp (map ln ks) ;;
                       Return (1 / (6 * PI ^ 2) * t)))
    by (intros i Hi; now rewrite (Hin i Hi)).
  destruct (mapM _ (seq 0 n)) as [sv2|]; [|reflexivity]. cbn [bind].
  rewrite (mapM_ext_in
             (fun i => r <- getrow a i ;;
                       d <- vsub r (nth i nw []) ;;
                       m <- vmul d (map (fun kk => exp (- kk ^ 2 * at1 sv2 i))
                                        ks) ;;
                       vadd m (nth i nw []))
             (fun i => r <- getrow b i ;;
                       d <- vsub r (nth i nw []) ;;
                       m <- vmul d (map (fun kk => exp (- kk ^ 2 * at1 sv2 i))
                                        ks) ;;
                       vadd m (nth i nw [])))
    by (intros i Hi; now rewrite (Hin i Hi)).
  reflexivity.
Qed.

(** The smearing returns when [remove_bao] returns, for every redshift,
    a row of the length of [k]. *)
Lemma bao_smearing_returns (zs ks : list R) (pk_in : array2) :
  well_shaped zs ks pk_in ->
  (forall r, length r = length ks ->
             exists r', remove_bao cosmology ks r = Return r' /\
                        length r' = length ks) ->
  exists nw dw,
    bao_smearing cosmology ks pk_in (length zs) = Return (nw, dw).
Proof.
  intros Hw Hrb. apply array2_table_shape in Hw. pose proof Hw as [Hn _].
  assert (Hrow : forall i, In i (seq 0 (length zs)) ->
            getrow pk_in i = Return (nth i (rows pk_in) []) /\
            length (nth i (rows pk_in) []) = length ks).
  { intros i Hi. apply in_seq in Hi. split.
    - apply getrow_nth. lia.
    - apply (table_shape_nth _ _ _ _ Hw). lia. }
  unfold bao_smearing.
  destruct (mapM_returns
              (fun i => r <- getrow pk_in i ;; remove_bao cosmology ks r)
              (seq 0 (length zs))) as [nw Hnw].
  { intros i Hi. destruct (Hrow i Hi) as [-> Hl]. cbn [bind].
    destruct (Hrb _ Hl) as (r' & -> & _). now eexists. }
  rewrite Hnw. cbn [bind].
  destruct (mapM_returns
              (fun i => r <- getrow pk_in i ;;
                        kp <- vmul ks r ;;
                        t <- trapz_x kp (map ln ks) ;;
                        Return (1 / (6 * PI ^ 2) * t))
              (seq 0 (length zs))) as [sv2 Hsv].
  { intros i Hi. destruct (Hrow i Hi) as [-> Hl]. cbn [bind].
    unfold vmul. rewrite vop_zipWith by lia. cbn [bind].
    rewrite trapz_x_trapz by (rewrite zipWith_length, length_map; lia).
    cbn [bind]. now eexists. }
  rewrite Hsv. cbn [bind].
  destruct (mapM_returns
              (fun i => r <- getrow pk_in i ;;
                        d <- vsub r (nth i nw []) ;;
                        m <- vmul d (map (fun kk => exp (- kk ^ 2 * at1 sv2 i))
                                         ks) ;;
                        vadd m (nth i nw []))
              (seq 0 (length zs))) as [dw Hdw].
  { intros i Hi. destruct (Hrow i Hi) as [Hg Hl]. rewrite Hg. cbn [bind].
    assert (Lnw : length (nth i nw []) = length ks).
    { apply in_seq in Hi.
      apply (mapM_nth _ _ _ 0%nat [] i) in Hnw; [|rewrite length_seq; lia].
      rewrite seq_nth in Hnw by lia. cbn [Nat.add] in Hnw.
      rewrite Hg in Hnw. cbn [bind] in Hnw.
      destruct (Hrb _ Hl) as (r' & Hr' & Lr').
      rewrite Hr' in Hnw. apply Return_inj in Hnw. now rewrite <- Hnw. }
    unfold vsub. rewrite vop_zipWith by lia. cbn [bind].
    unfold vmul. rewrite vop_zipWith
      by (rewrite zipWith_length, length_map; lia).
    cbn [bind].
    unfold vadd. rewrite vop_zipWith
      by (rewrite !zipWith_length, length_map; lia).
    now eexists. }
  rewrite Hdw. cbn [bind]. now eexists; eexists.
Qed.

End Smearing.

(* ================================================================== *)
(** ** The class [cosmo]: the constructor *)
(* ================================================================== *)

Lemma sum_app (a b : list R) : sum (a ++ b) = sum a + sum b.
Proof.
  unfold sum. induction a as [|x a IH]; simpl; [lra|]. rewrite IH. lra.
Qed.

Lemma sum_map_scale {A} (s : R) (f : A -> R) (l : list A) :
  sum (map (fun x => s * f x) l) = s * sum (map f l).
Proof.
  unfold sum. induction l as [|x l IH]; simpl; [lra|]. rewrite IH. lra.
Qed.

Lemma sum_map_div (m : R) (l : list R) :
  sum (map (fun o => o / m) l) = sum l / m.
Proof.
  unfold sum. induction l as [|x l IH]; simpl; [lra|].
  rewrite IH. unfold Rdiv. ring.
Qed.

Lemma sum_map_ext {A} (f g : A -> R) (l : list A) :
  (forall x, In x l -> f x = g x) -> sum (map f l) = sum (map g l).
Proof.
  intros H. f_equal. apply map_ext_in. exact H.
Qed.

Lemma count_nonzero_le (a : list R) :
  (Cosmology.count_nonzero a <= length a)%nat.
Proof. unfold Cosmology.count_nonzero. apply filter_length_le. Qed.

(** Padding with zeros adds no massive neutrino. *)
Lemma count_nonzero_pad (a : list R) (n : nat) :
  Cosmology.count_nonzero (Cosmology.pad a n) = Cosmology.count_nonzero a.
Proof.
  unfold Cosmology.count_nonzero, Cosmology.pad.
  rewrite filter_app, length_app.
  assert (Hz : forall m, filter (fun x : R => if Req_dec_T x 0 then false
                                              else true) (repeat 0 m) = []).
  { induction m as [|m IH]; [reflexivity|]. simpl.
    destruct (Req_dec_T 0 0); [exact IH | lra]. }
  rewrite Hz. simpl. lia.
Qed.

Lemma pad_length (a : list R) (n : nat) :
  (length a <= n)%nat -> length (Cosmology.pad a n) = n.
Proof.
  intros H. unfold Cosmology.pad. rewrite length_app, repeat_length. lia.
Qed.

Section Constructor.

Variable const : Cosmology.constants.
Variable sp : Cosmology.scipy.

Variables Omega_m_ Omega_b_ Omega_K_ : R.
Variable N_nu_ : nat.
Variable M_nu_ : list R.
Variable N_eff_ : R.
Variable As_ : option R.
Variable ns_ : R.
Variable sigma_8_ : option R.
Variables h_ w0_ wa_ tau_ T_cmb_ : R.

Lemma pydiv_Return (x y v : R) :
  pydiv x y = Return v -> y <> 0 /\ v = x / y.
Proof.
  unfold pydiv. destruct (Req_dec_T y 0); [discriminate|].
  intros H. apply Return_inj in H. now split.
Qed.

Lemma pydiv_nonzero (x y : R) : y <> 0 -> pydiv x y = Return (x / y).
Proof.
  intros H. unfold pydiv. destruct (Req_dec_T y 0); [contradiction|].
  reflexivity.
Qed.

Lemma pydiv_zero (x : R) : pydiv x 0 = Raise ZeroDivisionError.
Proof.
  unfold pydiv. destruct (Req_dec_T 0 0); [reflexivity | contradiction].
Qed.

(** The checks raise [AssertionError]; past them a zero divisor raises
    [ZeroDivisionError]; otherwise an instance is returned. *)
Lemma init_cases :
  (init_rejects N_nu_ M_nu_ N_eff_ As_ sigma_8_ /\
   Cosmology.init const sp Omega_m_ Omega_b_ Omega_K_ N_nu_ M_nu_ N_eff_
     As_ ns_ sigma_8_ h_ w0_ wa_ tau_ T_cmb_
   = Raise AssertionError)
  \/
  (INR N_nu_ <= N_eff_ /\ (length M_nu_ <= N_nu_)%nat /\
   ~ (As_ = None /\ sigma_8_ = None) /\
   ((init_divides_by_zero const Omega_m_ N_nu_ h_ /\
     Cosmology.init const sp Omega_m_ Omega_b_ Omega_K_ N_nu_ M_nu_ N_eff_
       As_ ns_ sigma_8_ h_ w0_ wa_ tau_ T_cmb_
     = Raise ZeroDivisionError)
    \/
    (~ init_divides_by_zero const Omega_m_ N_nu_ h_ /\
     exists self,
       Cosmology.init const sp Omega_m_ Omega_b_ Omega_K_ N_nu_ M_nu_
         N_eff_ As_ ns_ sigma_8_ h_ w0_ wa_ tau_ T_cmb_
       = Return self))).
Proof.
  unfold Cosmology.init, init_rejects.
  unfold Rleb. destruct (Rle_dec (INR N_nu_) N_eff_) as [H1 | H1].
  2:{ left. split; [left; lra | reflexivity]. }
  cbn [assert bind].
  destruct (length M_nu_ <=? N_nu_)%nat eqn:H2.
  2:{ left. apply Nat.leb_gt in H2. split; [right; left; lia | reflexivity]. }
  apply Nat.leb_le in H2. cbn [assert bind].
  assert (H3 : (As_ = None /\ sigma_8_ = None) \/
               (~ (As_ = None /\ sigma_8_ = None) /\
                match As_, sigma_8_ with
                | None, None => Raise AssertionError
                | _, _ => Return tt
                end = Return tt)).
  { destruct As_ as [a|]; [|destruct sigma_8_ as [s8|]].
    - right. split; [intros [H _]; discriminate | now destruct sigma_8_].
    - right. split; [intros [_ H]; discriminate | reflexivity].
    - left. now split. }
  destruct H3 as [[-> ->] | [H3 ->]].
  { left. split; [right; right; now split | reflexivity]. }
  right. split; [exact H1|]. split; [exact H2|]. split; [exact H3|].
  cbn [bind]. unfold init_divides_by_zero.
  destruct (Nat.eq_dec N_nu_ 0) as [HN | HN].
  { left. split; [now left|]. rewrite HN. cbn [INR].
    rewrite pydiv_zero. reflexivity. }
  rewrite (pydiv_nonzero N_eff_ (INR N_nu_)) by (now apply not_0_INR).
  cbn [bind].
  destruct (Req_dec_T h_ 0) as [Hh | Hh].
  { left. split; [right; now left|]. rewrite Hh at 2.
    rewrite pydiv_zero. reflexivity. }
  rewrite (pydiv_nonzero (100 * h_) h_) by exact Hh. cbn [bind].
  destruct (Req_dec_T (Cosmology.c const) 0) as [Hc | Hc].
  { left. split; [right; right; now left|]. rewrite Hc at 1.
    rewrite pydiv_zero. reflexivity. }
  rewrite (pydiv_nonzero _ (Cosmology.c const)) by exact Hc. cbn [bind].
  assert (Hc2 : (Cosmology.c const * 1e3) ^ 2 <> 0)
    by (apply pow_nonzero; lra).
  rewrite (pydiv_nonzero _ _ Hc2). cbn [bind].
  destruct (Req_dec_T (Cosmology.Msun const) 0) as [HM | HM].
  { left. split; [right; right; right; now left|]. rewrite HM.
    rewrite pydiv_zero. reflexivity. }
  rewrite (pydiv_nonzero _ _ HM). cbn [bind].
  destruct (Req_dec_T (Cosmology.rhoch2 const) 0) as [Hr | Hr].
  { left. split; [right; right; right; right; now left|]. rewrite Hr.
    rewrite pydiv_zero. reflexivity. }
  rewrite (pydiv_nonzero _ _ Hr). cbn [bind].
  assert (Hh2 : h_ ^ 2 <> 0) by (apply pow_nonzero; exact Hh).
  rewrite (pydiv_nonzero _ _ Hh2). cbn [bind].
  destruct (Req_dec_T Omega_m_ 0) as [Hm | Hm].
  { left. split; [repeat right; exact Hm|]. rewrite Hm at 1.
    rewrite pydiv_zero. reflexivity. }
  rewrite (pydiv_nonzero _ _ Hm). cbn [bind].
  right. split; [|now eexists].
  intros [H | [H | [H | [H | [H | H]]]]]; contradiction.
Qed.

(** The attributes of an instance, in terms of one another. *)
Lemma init_Return (self : Cosmology.cosmo) :
  Cosmology.init const sp Omega_m_ Omega_b_ Omega_K_ N_nu_ M_nu_ N_eff_
    As_ ns_ sigma_8_ h_ w0_ wa_ tau_ T_cmb_
  = Return self ->
  let FD := Cosmology.FermiDirac_integral sp in
  Cosmology.Omega_m self = Omega_m_ /\
  Cosmology.Omega_b self = Omega_b_ /\
  Cosmology.Omega_K self = Omega_K_ /\
  Cosmology.N_nu self = N_nu_ /\
  Cosmology.M_nu self = Cosmology.pad M_nu_ N_nu_ /\
  Cosmology.N_eff self = N_eff_ /\
  Cosmology.massive_nu self = Cosmology.count_nonzero (Cosmology.M_nu self) /\
  Cosmology.massless_nu self
  = Cosmology.N_eff self - INR (Cosmology.massive_nu self) /\
  Cosmology.T_nu self = Cosmology.T_cmb self * Cosmology.Gamma_nu self /\
  Cosmology.h self = h_ /\
  Cosmology.H0 self = 100 * Cosmology.h self /\
  Cosmology.Omega_nu self
  = map (fun x =>
           15 / PI ^ 4 * Cosmology.Gamma_nu self ^ 4
           * Cosmology.Omega_gamma self
           * FD (x / (Cosmology.kB const * Cosmology.T_nu self)))
        (Cosmology.M_nu self) /\
  Cosmology.Omega_cdm self
  = Cosmology.Omega_m self - Cosmology.Omega_b self
    - sum (Cosmology.Omega_nu self) /\
  Cosmology.Omega_cb self
  = Cosmology.Omega_cdm self + Cosmology.Omega_b self /\
  Cosmology.Omega_lambda self
  = 1 - Cosmology.Omega_cb self - sum (Cosmology.Omega_nu self)
    - Cosmology.Omega_K self - Cosmology.Omega_gamma self /\
  Cosmology.f_nu self
  = map (fun o => o / Cosmology.Omega_m self) (Cosmology.Omega_nu self) /\
  Cosmology.f_nu_tot self = sum (Cosmology.f_nu self) /\
  Cosmology.f_cb self = Cosmology.Omega_cb self / Cosmology.Omega_m self /\
  Cosmology.f_b self = Cosmology.Omega_b self / Cosmology.Omega_m self /\
  Cosmology.f_c self = Cosmology.Omega_cdm self / Cosmology.Omega_m self.
Proof.
  unfold Cosmology.init. intros H.
  apply bind_Return in H. destruct H as (_ & _ & H).
  apply bind_Return in H. destruct H as (_ & _ & H).
  apply bind_Return in H. destruct H as (_ & _ & H).
  apply bind_Return in H. destruct H as (ratio & _ & H).
  apply bind_Return in H. destruct H as (H0_h & _ & H).
  apply bind_Return in H. destruct H as (H0_h_c & _ & H).
  apply bind_Return in H. destruct H as (g1 & _ & H).
  apply bind_Return in H. destruct H as (g2 & _ & H).
  apply bind_Return in H. destruct H as (g3 & _ & H).
  apply bind_Return in H. destruct H as (Og & _ & H).
  apply bind_Return in H. destruct H as (fb & Hfb & H).
  apply pydiv_Return in Hfb. destruct Hfb as [_ ->].
  apply Return_inj in H. subst self. cbv zeta.
  cbn [Cosmology.Omega_m Cosmology.Omega_b Cosmology.Omega_K Cosmology.N_nu
       Cosmology.M_nu Cosmology.N_eff Cosmology.massive_nu
       Cosmology.massless_nu Cosmology.T_nu Cosmology.T_cmb
       Cosmology.Gamma_nu Cosmology.h Cosmology.H0 Cosmology.Omega_nu
       Cosmology.Omega_gamma Cosmology.Omega_cdm Cosmology.Omega_cb
       Cosmology.Omega_lambda Cosmology.f_nu Cosmology.f_nu_tot
       Cosmology.f_cb Cosmology.f_b Cosmology.f_c].
  repeat split; reflexivity.
Qed.

(** X16.  The constructor of [cosmo] raises [AssertionError] exactly
    when there are more active neutrinos than [N_eff], or more neutrino
    masses than active neutrinos, or neither [As] nor [sigma_8] is given.
    Past these checks it raises [ZeroDivisionError] exactly when one of
    its divisions of Python floats meets a zero divisor: [N_nu = 0],
    [h = 0], [Omega_m = 0] or a constant [const.c], [const.Msun],
    [const.rhoch2] equal to zero.  It raises nothing else, and returns an
    instance exactly in the remaining case. *)
Theorem init_checks :
  (Cosmology.init const sp Omega_m_ Omega_b_ Omega_K_ N_nu_ M_nu_ N_eff_
     As_ ns_ sigma_8_ h_ w0_ wa_ tau_ T_cmb_
   = Raise AssertionError
   <-> init_rejects N_nu_ M_nu_ N_eff_ As_ sigma_8_) /\
  (Cosmology.init const sp Omega_m_ Omega_b_ Omega_K_ N_nu_ M_nu_ N_eff_
     As_ ns_ sigma_8_ h_ w0_ wa_ tau_ T_cmb_
   = Raise ZeroDivisionError
   <-> ~ init_rejects N_nu_ M_nu_ N_eff_ As_ sigma_8_ /\
       init_divides_by_zero const Omega_m_ N_nu_ h_) /\
  ((exists self,
      Cosmology.init const sp Omega_m_ Omega_b_ Omega_K_ N_nu_ M_nu_ N_eff_
        As_ ns_ sigma_8_ h_ w0_ wa_ tau_ T_cmb_
      = Return self)
   <-> ~ init_rejects N_nu_ M_nu_ N_eff_ As_ sigma_8_ /\
       ~ init_divides_by_zero const Omega_m_ N_nu_ h_) /\
  (forall self,
     Cosmology.init const sp Omega_m_ Omega_b_ Omega_K_ N_nu_ M_nu_ N_eff_
       As_ ns_ sigma_8_ h_ w0_ wa_ tau_ T_cmb_
     = Return self ->
     INR N_nu_ <= N_eff_ /\ (length M_nu_ <= N_nu_)%nat /\
     (As_ <> None \/ sigma_8_ <> None) /\
     (0 < N_nu_)%nat /\ h_ <> 0 /\ Omega_m_ <> 0) /\
  (forall e,
     Cosmology.init const sp Omega_m_ Omega_b_ Omega_K_ N_nu_ M_nu_ N_eff_
       As_ ns_ sigma_8_ h_ w0_ wa_ tau_ T_cmb_
     = Raise e ->
     e = AssertionError \/ e = ZeroDivisionError).
Proof.
  assert (Hnr : INR N_nu_ <= N_eff_ -> (length M_nu_ <= N_nu_)%nat ->
                ~ (As_ = None /\ sigma_8_ = None) ->
                ~ init_rejects N_nu_ M_nu_ N_eff_ As_ sigma_8_).
  { intros H1 H2 H3 [H | [H | H]]; [lra | lia | tauto]. }
  destruct init_cases
    as [[Hrej Hr] | (H1 & H2 & H3 & [[Hz Hr] | [Hz [self Hr]]])];
    rewrite Hr; specialize (Hnr H1 H2 H3) || idtac.
  - split; [tauto|].
    split; [split; [discriminate | tauto]|].
    split; [split; [intros [s Hs]; discriminate | tauto]|].
    split; [discriminate|].
    intros e He. injection He as <-. now left.
  - split; [split; [discriminate | tauto]|].
    split; [tauto|].
    split; [split; [intros [s Hs]; discriminate | tauto]|].
    split; [discriminate|].
    intros e He. injection He as <-. now right.
  - split; [split; [discriminate | tauto]|].
    split; [split; [discriminate | tauto]|].
    split; [split; [tauto | intros _; now exists self]|].
    split; [|discriminate].
    intros _ _. split; [exact H1|]. split; [exact H2|].
    split.
    { destruct As_; [left; discriminate|].
      destruct sigma_8_; [right; discriminate|]. exfalso. now apply H3. }
    unfold init_divides_by_zero in Hz.
    split; [destruct N_nu_; [tauto | lia]|]. split; tauto.
Qed.

(** X17.  In an instance of [cosmo] the array of neutrino masses is the
    given one padded with zeros to [N_nu] entries; [massive_nu] counts
    the non-zero masses that were given, and is at most their number and
    at most [N_nu]; [massless_nu = N_eff - massive_nu] is not negative;
    there is one density parameter and one fraction per neutrino. *)
Theorem init_neutrinos (self : Cosmology.cosmo) :
  Cosmology.init const sp Omega_m_ Omega_b_ Omega_K_ N_nu_ M_nu_ N_eff_
    As_ ns_ sigma_8_ h_ w0_ wa_ tau_ T_cmb_
  = Return self ->
  Cosmology.M_nu self = M_nu_ ++ repeat 0 (N_nu_ - length M_nu_) /\
  length (Cosmology.M_nu self) = Cosmology.N_nu self /\
  Cosmology.massive_nu self = Cosmology.count_nonzero M_nu_ /\
  (Cosmology.massive_nu self <= length M_nu_)%nat /\
  (Cosmology.massive_nu self <= Cosmology.N_nu self)%nat /\
  Cosmology.massless_nu self = N_eff_ - INR (Cosmology.massive_nu self) /\
  0 <= Cosmology.massless_nu self /\
  length (Cosmology.Omega_nu self) = Cosmology.N_nu self /\
  length (Cosmology.f_nu self) = Cosmology.N_nu self.
Proof.
  intros H.
  destruct init_cases as [[_ Hr] | (H1 & H2 & _)];
    [rewrite Hr in H; discriminate|].
  pose proof (init_Return _ H) as I. cbv zeta in I.
  destruct I as (_ & _ & _ & HN & HM & HNe & Hmass & Hless & _ & _ & _
                 & Hnu & _ & _ & _ & Hf & _).
  assert (Hm : Cosmology.massive_nu self = Cosmology.count_nonzero M_nu_)
    by (rewrite Hmass, HM; apply count_nonzero_pad).
  assert (Hle : (Cosmology.massive_nu self <= length M_nu_)%nat)
    by (rewrite Hm; apply count_nonzero_le).
  assert (HL : length (Cosmology.M_nu self) = Cosmology.N_nu self)
    by (rewrite HM, HN; now apply pad_length).
  split; [rewrite HM; reflexivity|]. split; [exact HL|].
  split; [exact Hm|]. split; [exact Hle|].
  split; [rewrite HN; lia|].
  split; [rewrite Hless, HNe; reflexivity|].
  split.
  - rewrite Hless, HNe.
    assert (INR (Cosmology.massive_nu self) <= INR N_nu_)
      by (apply le_INR; lia).
    lra.
  - split; [now rewrite Hnu, length_map|].
    now rewrite Hf, length_map, Hnu, length_map.
Qed.

(** X18.  In an instance of [cosmo] the density parameters add up: cold
    dark matter and baryons to [Omega_cb], these and the neutrinos to
    [Omega_m], and matter, dark energy, curvature and photons to 1; for
    [Omega_m <> 0] the fractions satisfy [f_b + f_c = f_cb] and
    [f_cb + f_nu_tot = 1]; and [H0 = 100 h]. *)
Theorem init_densities (self : Cosmology.cosmo) :
  Cosmology.init const sp Omega_m_ Omega_b_ Omega_K_ N_nu_ M_nu_ N_eff_
    As_ ns_ sigma_8_ h_ w0_ wa_ tau_ T_cmb_
  = Return self ->
  Cosmology.Omega_cdm self + Cosmology.Omega_b self = Cosmology.Omega_cb self
  /\
  Cosmology.Omega_cb self + sum (Cosmology.Omega_nu self)
  = Cosmology.Omega_m self /\
  Cosmology.Omega_m self + Cosmology.Omega_lambda self
  + Cosmology.Omega_K self + Cosmology.Omega_gamma self = 1 /\
  Cosmology.H0 self = 100 * h_ /\
  (Cosmology.Omega_m self <> 0 ->
   Cosmology.f_b self + Cosmology.f_c self = Cosmology.f_cb self /\
   Cosmology.f_cb self + Cosmology.f_nu_tot self = 1).
Proof.
  intros H. pose proof (init_Return _ H) as I. cbv zeta in I.
  destruct I as (_ & _ & _ & _ & _ & _ & _ & _ & _ & Hh & HH0 & _ & Hcdm
                 & Hcb & HL & Hf & Hft & Hfcb & Hfb & Hfc).
  split; [lra|]. split; [lra|]. split; [lra|].
  split; [rewrite HH0, Hh; reflexivity|].
  intros Hm. rewrite Hft, Hf, sum_map_div, Hfcb, Hfb, Hfc.
  split; field_simplify_eq; try exact Hm; lra.
Qed.

End Constructor.

(* ================================================================== *)
(** ** The class [cosmo]: Hubble function and density parameters *)
(* ================================================================== *)

Lemma power_1_l (y : R) : power 1 y = 1.
Proof.
  unfold power. destruct (Req_dec_T 1 0); [lra|].
  unfold Rpower. rewrite ln_1, Rmult_0_r. apply exp_0.
Qed.

Lemma H_radicand (const : Cosmology.constants) (sp : Cosmology.scipy)
  (self : Cosmology.cosmo) (z_ : R) :
  Cosmology.H const sp self z_
  = Cosmology.H0 self * sqrt (hubble_radicand const sp self z_).
Proof.
  unfold Cosmology.H, hubble_radicand. now rewrite !map_map.
Qed.

Section BackgroundFacts.

Variable const : Cosmology.constants.
Variable sp : Cosmology.scipy.

Variables Omega_m_ Omega_b_ Omega_K_ : R.
Variable N_nu_ : nat.
Variable M_nu_ : list R.
Variable N_eff_ : R.
Variable As_ : option R.
Variable ns_ : R.
Variable sigma_8_ : option R.
Variables h_ w0_ wa_ tau_ T_cmb_ : R.

Variable self : Cosmology.cosmo.

Hypothesis Hinit :
  Cosmology.init const sp Omega_m_ Omega_b_ Omega_K_ N_nu_ M_nu_ N_eff_
    As_ ns_ sigma_8_ h_ w0_ wa_ tau_ T_cmb_
  = Return self.

(** Today the neutrino term of [H] is the sum of [Omega_nu]. *)
Lemma radicand_today : hubble_radicand const sp self 0 = 1.
Proof.
  pose proof (init_Return _ _ _ _ _ _ _ _ _ _ _ _ _ _ _ _ _ Hinit) as I.
  cbv zeta in I.
  destruct I as (_ & _ & _ & _ & _ & _ & _ & _ & _ & _ & _ & Hnu & Hcdm
                 & Hcb & HL & _).
  unfold hubble_radicand.
  replace (1 + 0) with 1 by lra. rewrite power_1_l.
  assert (E : sum (map (fun m =>
                15 / PI ^ 4 * Cosmology.Gamma_nu self ^ 4
                * Cosmology.Omega_gamma self
                * Cosmology.FermiDirac_integral sp
                    (m / (Cosmology.kB const * Cosmology.T_nu self)
                     * (1 / 1))
                * 1 ^ 4)
             (Cosmology.M_nu self))
              = sum (Cosmology.Omega_nu self)).
  { rewrite Hnu. apply sum_map_ext. intros m _.
    replace (m / (Cosmology.kB const * Cosmology.T_nu self) * (1 / 1))
      with (m / (Cosmology.kB const * Cosmology.T_nu self))
      by (unfold Rdiv; rewrite Rinv_1; ring).
    ring. }
  rewrite E. lra.
Qed.

Lemma H_today : Cosmology.H const sp self 0 = Cosmology.H0 self.
Proof. rewrite H_radicand, radicand_today, sqrt_1. ring. Qed.

Lemma H_massive_today :
  Cosmology.H_massive self 0 = Cosmology.H0 self.
Proof.
  pose proof (init_Return _ _ _ _ _ _ _ _ _ _ _ _ _ _ _ _ _ Hinit) as I.
  cbv zeta in I.
  destruct I as (_ & _ & _ & _ & _ & _ & _ & _ & _ & _ & _ & _ & Hcdm
                 & Hcb & HL & _).
  unfold Cosmology.H_massive.
  replace (1 + 0) with 1 by lra. rewrite power_1_l.
  replace (Cosmology.Omega_cb self * 1 ^ 3
           + sum (Cosmology.Omega_nu self) * 1 ^ 3
           + Cosmology.Omega_lambda self * 1
           + Cosmology.Omega_gamma self * 1 ^ 4
           + Cosmology.Omega_K self * 1 ^ 2) with 1 by lra.
  rewrite sqrt_1. ring.
Qed.

(** Where [H(z)] is positive, [H0] is not zero, the radicand is
    positive, and [(H0/H(z))**2] is its inverse. *)
Lemma H_positive (z_ : R) :
  0 < Cosmology.H const sp self z_ ->
  Cosmology.H0 self <> 0 /\ 0 < hubble_radicand const sp self z_ /\
  (Cosmology.H0 self / Cosmology.H const sp self z_) ^ 2
  = / hubble_radicand const sp self z_ /\
  Cosmology.H0 self ^ 2 / Cosmology.H const sp self z_ ^ 2
  = / hubble_radicand const sp self z_.
Proof.
  rewrite H_radicand. intros HH.
  set (E := hubble_radicand const sp self z_) in *.
  assert (H0n : Cosmology.H0 self <> 0) by (intros Hz; rewrite Hz in HH; lra).
  assert (HE : 0 < E).
  { destruct (Rle_lt_dec E 0) as [Hle | Hlt]; [|exact Hlt].
    rewrite (sqrt_neg_0 _ Hle) in HH. lra. }
  assert (Hs : sqrt E ^ 2 = E) by (apply pow2_sqrt; lra).
  assert (Hsn : sqrt E <> 0).
  { intros Hz. rewrite Hz in Hs. lra. }
  split; [exact H0n|]. split; [exact HE|].
  split.
  - replace ((Cosmology.H0 self / (Cosmology.H0 self * sqrt E)) ^ 2)
      with (/ (sqrt E ^ 2)) by (field; split; assumption).
    now rewrite Hs.
  - replace (Cosmology.H0 self ^ 2 / (Cosmology.H0 self * sqrt E) ^ 2)
      with (/ (sqrt E ^ 2)) by (field; split; assumption).
    now rewrite Hs.
Qed.

(** X19.  For an instance of [cosmo], today the Hubble function is
    [H0], with the neutrinos as radiation or as matter, and where
    [H0 <> 0] every density parameter taken at [z = 0] is the parameter of
    the instance; the critical density today is
    [3 H0**2 / (8 pi G) / h**2]. *)
Theorem background_today :
  Cosmology.H const sp self 0 = Cosmology.H0 self /\
  Cosmology.H_massive self 0 = Cosmology.H0 self /\
  Cosmology.rho_crit const sp self 0
  = 3 * Cosmology.H0 self ^ 2 / (8 * PI * Cosmology.G const)
    / Cosmology.h self ^ 2 /\
  (Cosmology.H0 self <> 0 ->
   Cosmology.Omega_cdm_z const sp self 0 = Cosmology.Omega_cdm self /\
   Cosmology.Omega_b_z const sp self 0 = Cosmology.Omega_b self /\
   Cosmology.Omega_cb_z const sp self 0 = Cosmology.Omega_cb self /\
   Cosmology.Omega_nu_z const sp self 0 = Cosmology.Omega_nu self /\
   Cosmology.Omega_m_z const sp self 0 = Cosmology.Omega_m self /\
   Cosmology.Omega_lambda_z const sp self 0 = Cosmology.Omega_lambda self /\
   Cosmology.Omega_K_z const sp self 0 = Cosmology.Omega_K self /\
   Cosmology.Omega_gamma_z const sp self 0 = Cosmology.Omega_gamma self).
Proof.
  pose proof (init_Return _ _ _ _ _ _ _ _ _ _ _ _ _ _ _ _ _ Hinit) as I.
  cbv zeta in I.
  destruct I as (_ & _ & _ & _ & _ & _ & _ & _ & _ & _ & _ & Hnu & Hcdm
                 & Hcb & HL & _).
  split; [exact H_today|]. split; [exact H_massive_today|].
  split; [unfold Cosmology.rho_crit; now rewrite H_today|].
  intros H0n.
  assert (Hnu0 : Cosmology.Omega_nu_z const sp self 0
                 = Cosmology.Omega_nu self).
  { unfold Cosmology.Omega_nu_z. rewrite H_today, Hnu.
    apply map_ext. intros m.
    replace (m / ((1 + 0) * Cosmology.kB const * Cosmology.T_nu self))
      with (m / (Cosmology.kB const * Cosmology.T_nu self))
      by (f_equal; ring).
    field. split; [apply PI_neq0 | exact H0n]. }
  unfold Cosmology.Omega_m_z.
  unfold Cosmology.Omega_cdm_z, Cosmology.Omega_b_z, Cosmology.Omega_cb_z,
    Cosmology.Omega_lambda_z, Cosmology.Omega_K_z, Cosmology.Omega_gamma_z.
  rewrite Hnu0, H_today.
  replace (1 + 0) with 1 by lra. rewrite power_1_l.
  repeat split; try reflexivity; try (field; exact H0n).
  rewrite Hcdm. field. exact H0n.
Qed.

(** X20.  For an instance of [cosmo], at every redshift [z > -1] where
    the Hubble function is positive, the density parameters of matter
    (cold dark matter, baryons and neutrinos), dark energy, curvature and
    photons add up to 1. *)
Theorem densities_sum_to_one (z_ : R) :
  -1 < z_ -> 0 < Cosmology.H const sp self z_ ->
  Cosmology.Omega_m_z const sp self z_
  + Cosmology.Omega_lambda_z const sp self z_
  + Cosmology.Omega_K_z const sp self z_
  + Cosmology.Omega_gamma_z const sp self z_ = 1.
Proof.
  intros Hz HH.
  pose proof (init_Return _ _ _ _ _ _ _ _ _ _ _ _ _ _ _ _ _ Hinit) as I.
  cbv zeta in I.
  destruct I as (_ & _ & _ & _ & _ & _ & _ & _ & _ & _ & _ & _ & _
                 & Hcb & _).
  destruct (H_positive z_ HH) as (H0n & HE & Hq & Hq2).
  assert (Hnu : sum (Cosmology.Omega_nu_z const sp self z_)
                = / hubble_radicand const sp self z_
                  * sum (map (fun m =>
                      15 / PI ^ 4 * Cosmology.Gamma_nu self ^ 4
                      * Cosmology.Omega_gamma self
                      * Cosmology.FermiDirac_integral sp
                          (m / (Cosmology.kB const * Cosmology.T_nu self)
                           * (1 / (1 + z_)))
                      * (1 + z_) ^ 4)
                    (Cosmology.M_nu self))).
  { unfold Cosmology.Omega_nu_z. rewrite <- sum_map_scale.
    apply sum_map_ext. intros m _. cbv zeta.
    replace (m / ((1 + z_) * Cosmology.kB const * Cosmology.T_nu self))
      with (m / (Cosmology.kB const * Cosmology.T_nu self) * (1 / (1 + z_)))
      by (unfold Rdiv; rewrite !Rinv_mult; ring).
    rewrite <- Hq2.
    set (F := Cosmology.FermiDirac_integral sp _).
    field. split; [apply PI_neq0 | lra]. }
  unfold Cosmology.Omega_m_z.
  unfold Cosmology.Omega_cdm_z, Cosmology.Omega_b_z,
    Cosmology.Omega_lambda_z, Cosmology.Omega_K_z, Cosmology.Omega_gamma_z.
  rewrite Hnu, Hq.
  replace (Cosmology.wa self * z_ / (1 + z_))
    with (Cosmology.wa self * (z_ / (1 + z_))) by (unfold Rdiv; ring).
  assert (HEdef : hubble_radicand const sp self z_
            = Cosmology.Omega_cb self * (1 + z_) ^ 3
              + Cosmology.Omega_gamma self * (1 + z_) ^ 4
              + Cosmology.Omega_lambda self
                * power (1 + z_)
                    (3 * (1 + (Cosmology.w0 self
                               + Cosmology.wa self * (z_ / (1 + z_)))))
              + Cosmology.Omega_K self * (1 + z_) ^ 2
              + sum (map (fun m =>
                      15 / PI ^ 4 * Cosmology.Gamma_nu self ^ 4
                      * Cosmology.Omega_gamma self
                      * Cosmology.FermiDirac_integral sp
                          (m / (Cosmology.kB const * Cosmology.T_nu self)
                           * (1 / (1 + z_)))
                      * (1 + z_) ^ 4)
                    (Cosmology.M_nu self))) by reflexivity.
  set (E := hubble_radicand const sp self z_) in *.
  set (S := sum (map _ (Cosmology.M_nu self))) in *.
  set (P := power (1 + z_) _) in *.
  match goal with
  | |- ?L = 1 =>
      assert (G1 : L = (Cosmology.Omega_cb self * (1 + z_) ^ 3
                        + Cosmology.Omega_gamma self * (1 + z_) ^ 4
                        + Cosmology.Omega_lambda self * P
                        + Cosmology.Omega_K self * (1 + z_) ^ 2 + S) * / E)
        by (rewrite Hcb; ring);
      rewrite G1
  end.
  rewrite <- HEdef. apply Rinv_r. lra.
Qed.

End BackgroundFacts.

(* ================================================================== *)
(** ** The class [cosmo]: growth factor, scale factor, windows *)
(* ================================================================== *)

Section Growth.

Variable const : Cosmology.constants.
Variable sp : Cosmology.scipy.

Variables Omega_m_ Omega_b_ Omega_K_ : R.
Variable N_nu_ : nat.
Variable M_nu_ : list R.
Variable N_eff_ : R.
Variable As_ : option R.
Variable ns_ : R.
Variable sigma_8_ : option R.
Variables h_ w0_ wa_ tau_ T_cmb_ : R.

Variable self : Cosmology.cosmo.

Hypothesis Hinit :
  Cosmology.init const sp Omega_m_ Omega_b_ Omega_K_ N_nu_ M_nu_ N_eff_
    As_ ns_ sigma_8_ h_ w0_ wa_ tau_ T_cmb_
  = Return self.

(** X21.  For an instance of [cosmo] with [H0 <> 0], where the integral
    of [(1+x) * (H0/H_massive(x))**3] from 0 to infinity is not zero, the
    growth factor is normalized to 1 today: [D_1(0) = 1]; on an array of
    redshifts [D_1] returns one value per redshift, the integral from
    that redshift times [H_massive(z)/H0], divided by the integral from
    0. *)
Theorem growth_factor_normalized :
  let integrand :=
    fun x => (1 + x) * (Cosmology.H0 self / Cosmology.H_massive self x) ^ 3 in
  let LCDM0 := Cosmology.quad_inf sp integrand 0 in
  Cosmology.H0 self <> 0 -> LCDM0 <> 0 ->
  Cosmology.D_1 sp self [0] = [1] /\
  forall zs,
    length (Cosmology.D_1 sp self zs) = length zs /\
    forall i, (i < length zs)%nat ->
      at1 (Cosmology.D_1 sp self zs) i
      = Cosmology.quad_inf sp integrand (at1 zs i)
        * Cosmology.H_massive self (at1 zs i) / Cosmology.H0 self / LCDM0.
Proof.
  intros integrand LCDM0 H0n HL. split.
  - unfold Cosmology.D_1. cbn [map]. fold integrand. fold LCDM0.
    rewrite (H_massive_today _ _ _ _ _ _ _ _ _ _ _ _ _ _ _ _ _ Hinit).
    f_equal. field. split; assumption.
  - intros zs. split.
    + unfold Cosmology.D_1. now rewrite !length_map.
    + intros i Hi. unfold Cosmology.D_1, at1.
      rewrite map_map. rewrite (map_nth_in _ _ 0 0) by exact Hi.
      fold integrand. fold LCDM0. field. split; assumption.
Qed.

End Growth.

(** X22.  The scale factor and the redshift are inverse to one another:
    [redshift(scale_factor(z)) = z] for [z <> -1] and
    [scale_factor(redshift(a)) = a] for [a <> 0]; today [a = 1] and
    [z = 0]; for [z > -1] the scale factor is positive and decreases as
    the redshift grows. *)
Theorem scale_factor_redshift :
  (forall z_, z_ <> -1 ->
     Cosmology.redshift (Cosmology.scale_factor z_) = z_) /\
  (forall a, a <> 0 ->
     Cosmology.scale_factor (Cosmology.redshift a) = a) /\
  Cosmology.scale_factor 0 = 1 /\ Cosmology.redshift 1 = 0 /\
  (forall z1 z2, -1 < z1 -> z1 < z2 ->
     0 < Cosmology.scale_factor z2 < Cosmology.scale_factor z1).
Proof.
  unfold Cosmology.redshift, Cosmology.scale_factor.
  split; [|split; [|split; [|split]]].
  - intros z_ Hz. field. lra.
  - intros a Ha. field. split; [exact Ha | lra].
  - field.
  - field.
  - intros z1 z2 H1 H2. split.
    + apply Rdiv_lt_0_compat; lra.
    + unfold Rdiv. rewrite !Rmult_1_l.
      apply Rinv_lt_contravar; [|lra].
      apply Rmult_lt_0_compat; lra.
Qed.

(** X23.  The window functions: the Gaussian window is even, equal to 1
    at 0 and in [(0, 1]]; the sharp-k window, for a step that is not
    zero, is in [(0, 1)] and equal to 1/2 at [x = 1]; the smooth-k window
    is in [(0, 1)] at every [x > 0] and equal to 1/2 at [x = 1]; the
    top-hat window is even. *)
Theorem window_functions :
  (forall x, Cosmology.Gaussian_window (- x) = Cosmology.Gaussian_window x) /\
  Cosmology.Gaussian_window 0 = 1 /\
  (forall x, 0 < Cosmology.Gaussian_window x <= 1) /\
  (forall x step, step <> 0 -> 0 < Cosmology.Sharp_k_window x step < 1) /\
  (forall step, step <> 0 -> Cosmology.Sharp_k_window 1 step = 0.5) /\
  (forall x beta, 0 < x -> 0 < Cosmology.Smooth_k_window x beta < 1) /\
  (forall beta, Cosmology.Smooth_k_window 1 beta = 1 / 2) /\
  (forall x, x <> 0 ->
     Cosmology.TopHat_window (- x) = Cosmology.TopHat_window x).
Proof.
  split; [|split; [|split; [|split; [|split; [|split; [|split]]]]]].
  - intros x. unfold Cosmology.Gaussian_window.
    now replace (- (- x) ^ 2 / 2) with (- x ^ 2 / 2) by field.
  - unfold Cosmology.Gaussian_window.
    replace (- 0 ^ 2 / 2) with 0 by field. apply exp_0.
  - intros x. unfold Cosmology.Gaussian_window. split; [apply exp_pos|].
    assert (Hx : - x ^ 2 / 2 <= 0) by (pose proof (pow2_ge_0 x); lra).
    destruct Hx as [Hx | ->]; [|rewrite exp_0; lra].
    left. rewrite <- exp_0. now apply exp_increasing.
  - intros x step _. unfold Cosmology.Sharp_k_window.
    pose proof (atan_bound ((1 - x) / step)) as [Hlo Hhi].
    pose proof PI_RGT_0 as Hpi.
    set (t := atan ((1 - x) / step)) in *.
    assert (H1 : -1 < 2 / PI * t).
    { apply Rmult_lt_reg_r with PI; [lra|].
      replace (2 / PI * t * PI) with (2 * t) by (field; lra). lra. }
    assert (H2 : 2 / PI * t < 1).
    { apply Rmult_lt_reg_r with PI; [lra|].
      replace (2 / PI * t * PI) with (2 * t) by (field; lra). lra. }
    lra.
  - intros step Hs. unfold Cosmology.Sharp_k_window.
    replace ((1 - 1) / step) with 0 by (field; exact Hs).
    rewrite atan_0. lra.
  - intros x beta Hx. unfold Cosmology.Smooth_k_window.
    rewrite power_pos_base by exact Hx.
    assert (Hp : 0 < Rpower x beta) by (unfold Rpower; apply exp_pos).
    split.
    + apply Rdiv_lt_0_compat; lra.
    + apply Rmult_lt_reg_r with (1 + Rpower x beta); [lra|].
      replace (1 / (1 + Rpower x beta) * (1 + Rpower x beta)) with 1
        by (field; lra).
      lra.
  - intros beta. unfold Cosmology.Smooth_k_window.
    now rewrite power_1_l.
  - intros x Hx. unfold Cosmology.TopHat_window.
    rewrite sin_neg, cos_neg. field. exact Hx.
Qed.

(* ================================================================== *)
(** ** The class [cosmo]: masses, radii and volumes *)
(* ================================================================== *)

Lemma power_pos (x y : R) : 0 < x -> 0 < power x y.
Proof.
  intros Hx. rewrite power_pos_base by exact Hx. unfold Rpower. apply exp_pos.
Qed.

(** The cube root of the cube. *)
Lemma power_cube_third (x : R) : 0 < x -> power (x ^ 3) (1 / 3) = x.
Proof.
  intros Hx. rewrite power_pos_base by (apply pow_lt; exact Hx).
  rewrite <- (Rpower_pow 3) by exact Hx.
  rewrite Rpower_mult.
  replace (INR 3 * (1 / 3)) with 1 by (simpl; field).
  now apply Rpower_1.
Qed.

Lemma sqrt_2PI_pos : 0 < sqrt (2 * PI).
Proof. apply sqrt_lt_R0. pose proof PI_RGT_0. lra. Qed.

(** The Gaussian window: the radius of a mass, and back. *)
Lemma gaussian_radius (x : R) :
  0 < x ->
  let r := power x (1 / 3) / sqrt (2 * PI) in
  0 < r /\ power (2 * PI * r ^ 2) (3 / 2) = x.
Proof.
  intros Hx r. pose proof sqrt_2PI_pos as Hs. pose proof PI_RGT_0 as Hpi.
  assert (Hp : 0 < power x (1 / 3)) by now apply power_pos.
  split; [apply Rdiv_lt_0_compat; assumption|].
  assert (Hsq : sqrt (2 * PI) ^ 2 = 2 * PI) by (apply pow2_sqrt; lra).
  assert (E : 2 * PI * r ^ 2 = Rpower x (2 / 3)).
  { unfold r.
    replace (2 * PI * (power x (1 / 3) / sqrt (2 * PI)) ^ 2)
      with (2 * PI * power x (1 / 3) ^ 2 / sqrt (2 * PI) ^ 2)
      by (field; lra).
    rewrite Hsq, power_pos_base by exact Hx.
    rewrite <- (Rpower_pow 2) by (unfold Rpower; apply exp_pos).
    rewrite Rpower_mult.
    replace (1 / 3 * INR 2) with (2 / 3) by (simpl; field).
    field. lra. }
  rewrite E. rewrite power_pos_base by (unfold Rpower; apply exp_pos).
  rewrite Rpower_mult.
  replace (2 / 3 * (3 / 2)) with 1 by field.
  now apply Rpower_1.
Qed.

Lemma gaussian_mass (x : R) :
  0 < x ->
  let v := power (2 * PI * x ^ 2) (3 / 2) in
  0 < v /\ power v (1 / 3) / sqrt (2 * PI) = x.
Proof.
  intros Hx v. pose proof sqrt_2PI_pos as Hs. pose proof PI_RGT_0 as Hpi.
  assert (Hb : 0 < 2 * PI * x ^ 2).
  { apply Rmult_lt_0_compat; [lra | apply pow_lt; exact Hx]. }
  assert (Hv : 0 < v) by (unfold v; now apply power_pos).
  split; [exact Hv|].
  rewrite power_pos_base by exact Hv.
  unfold v. rewrite power_pos_base by exact Hb.
  rewrite Rpower_mult.
  replace (3 / 2 * (1 / 3)) with (/ 2) by field.
  rewrite Rpower_sqrt by exact Hb.
  rewrite sqrt_mult by (try apply pow2_ge_0; lra).
  rewrite sqrt_pow2 by lra. field. lra.
Qed.

Lemma str_in_app (x : string) (a b : list string) :
  str_in x (a ++ b) = str_in x a || str_in x b.
Proof. unfold str_in. apply existsb_app. Qed.

Section MassRadius.

Variable const : Cosmology.constants.
Variable sp : Cosmology.scipy.
Variable self : Cosmology.cosmo.

(** X24.  For a known component and a known window, a positive
    background density and a positive [prop_const], the radius of a mass
    and the mass in a radius are inverse to one another: the mass in the
    radius of [M > 0] is [M], and the radius of the mass in [R > 0] is
    [R], with the top-hat, the Gaussian and the sharp-k windows. *)
Theorem mass_radius_round_trip (var window : string) (prop_const omega : R) :
  Cosmology.omega_of self var = Return omega ->
  str_in window (Cosmology.tophat_names ++ Cosmology.gaussian_names
                 ++ Cosmology.sharp_names) = true ->
  0 < Cosmology.rho_crit const sp self 0 * omega -> 0 < prop_const ->
  (forall M, 0 < M ->
     exists r,
       Cosmology.radius_of_mass const sp self M var window prop_const
       = Return r /\ 0 < r /\
       Cosmology.mass_in_radius const sp self r var window prop_const
       = Return M) /\
  (forall r, 0 < r ->
     exists M,
       Cosmology.mass_in_radius const sp self r var window prop_const
       = Return M /\ 0 < M /\
       Cosmology.radius_of_mass const sp self M var window prop_const
       = Return r).
Proof.
  intros Hom Hwin Hrho Hpc.
  unfold Cosmology.radius_of_mass, Cosmology.mass_in_radius.
  rewrite Hom. cbn [bind].
  set (rho := Cosmology.rho_crit const sp self 0 * omega) in *.
  pose proof PI_RGT_0 as Hpi.
  rewrite !str_in_app, !orb_true_iff in Hwin.
  destruct (str_in window Cosmology.tophat_names) eqn:Hth;
    [|destruct (str_in window Cosmology.gaussian_names) eqn:Hg;
      [|destruct (str_in window Cosmology.sharp_names) eqn:Hs;
        [|exfalso; destruct Hwin as [H | [H | H]]; discriminate]]].
  - (* top-hat *)
    split.
    + intros M HM.
      assert (Hx : 0 < 3 * M / (4 * PI * rho)).
      { apply Rdiv_lt_0_compat; [lra|].
        apply Rmult_lt_0_compat; lra. }
      eexists. split; [reflexivity|]. split; [now apply power_pos|].
      f_equal. rewrite power_third_cube by exact Hx. field. lra.
    + intros r Hr.
      assert (Hr3 : 0 < r ^ 3) by (apply pow_lt; exact Hr).
      eexists. split; [reflexivity|]. split.
      * apply Rmult_lt_0_compat; [|exact Hr3].
        apply Rmult_lt_0_compat; lra.
      * f_equal.
        replace (3 * (4 / 3 * PI * rho * r ^ 3) / (4 * PI * rho))
          with (r ^ 3) by (field; lra).
        now apply power_cube_third.
  - (* Gaussian *)
    split.
    + intros M HM.
      assert (Hx : 0 < M / rho) by (apply Rdiv_lt_0_compat; lra).
      destruct (gaussian_radius _ Hx) as [Hr E].
      eexists. split; [reflexivity|]. split; [exact Hr|].
      f_equal. rewrite E. field. lra.
    + intros r Hr.
      destruct (gaussian_mass _ Hr) as [Hv E].
      eexists. split; [reflexivity|]. split.
      * apply Rmult_lt_0_compat; assumption.
      * f_equal.
        replace (rho * power (2 * PI * r ^ 2) (3 / 2) / rho)
          with (power (2 * PI * r ^ 2) (3 / 2)) by (field; lra).
        exact E.
  - (* sharp-k *)
    split.
    + intros M HM.
      assert (Hx : 0 < 3 * M / (4 * PI * rho)).
      { apply Rdiv_lt_0_compat; [lra|].
        apply Rmult_lt_0_compat; lra. }
      eexists. split; [reflexivity|].
      split; [apply Rdiv_lt_0_compat; [now apply power_pos | exact Hpc]|].
      f_equal.
      replace (prop_const
               * (power (3 * M / (4 * PI * rho)) (1 / 3) / prop_const))
        with (power (3 * M / (4 * PI * rho)) (1 / 3)) by (field; lra).
      rewrite power_third_cube by exact Hx. field. lra.
    + intros r Hr.
      assert (Hpr : 0 < prop_const * r) by (apply Rmult_lt_0_compat; lra).
      assert (Hr3 : 0 < (prop_const * r) ^ 3) by (apply pow_lt; exact Hpr).
      eexists. split; [reflexivity|]. split.
      * apply Rmult_lt_0_compat; [|exact Hr3].
        apply Rmult_lt_0_compat; lra.
      * f_equal.
        replace (3 * (4 / 3 * PI * rho * (prop_const * r) ^ 3)
                 / (4 * PI * rho))
          with ((prop_const * r) ^ 3) by (field; lra).
        rewrite power_cube_third by exact Hpr. field. lra.
Qed.

(** X25.  For a known component and a known window, a positive
    background density and a positive [prop_const], the volume of a mass
    [M > 0] times the background density is [M]. *)
Theorem volume_of_mass_density (var window : string)
  (prop_const omega M : R) :
  Cosmology.omega_of self var = Return omega ->
  str_in window (Cosmology.tophat_names ++ Cosmology.gaussian_names
                 ++ Cosmology.sharp_names) = true ->
  0 < Cosmology.rho_crit const sp self 0 * omega -> 0 < prop_const ->
  0 < M ->
  exists V,
    Cosmology.volume_of_mass const sp self M var window prop_const
    = Return V /\
    V * (Cosmology.rho_crit const sp self 0 * omega) = M.
Proof.
  intros Hom Hwin Hrho Hpc HM.
  unfold Cosmology.volume_of_mass, Cosmology.radius_of_mass,
    Cosmology.volume_of_radius.
  rewrite Hom. cbn [bind].
  set (rho := Cosmology.rho_crit const sp self 0 * omega) in *.
  pose proof PI_RGT_0 as Hpi.
  rewrite !str_in_app, !orb_true_iff in Hwin.
  assert (Hx : 0 < 3 * M / (4 * PI * rho)).
  { apply Rdiv_lt_0_compat; [lra|]. apply Rmult_lt_0_compat; lra. }
  destruct (str_in window Cosmology.tophat_names) eqn:Hth;
    [|destruct (str_in window Cosmology.gaussian_names) eqn:Hg;
      [|destruct (str_in window Cosmology.sharp_names) eqn:Hs;
        [|exfalso; destruct Hwin as [H | [H | H]]; discriminate]]];
    cbn [bind]; rewrite ?Hth, ?Hg, ?Hs;
    eexists; (split; [reflexivity|]).
  - rewrite power_third_cube by exact Hx. field. lra.
  - assert (Hy : 0 < M / rho) by (apply Rdiv_lt_0_compat; lra).
    destruct (gaussian_radius _ Hy) as [_ E].
    replace 1.5 with (3 / 2) by lra.
    rewrite E. field. lra.
  - replace (prop_const
             * (power (3 * M / (4 * PI * rho)) (1 / 3) / prop_const))
      with (power (3 * M / (4 * PI * rho)) (1 / 3)) by (field; lra).
    rewrite power_third_cube by exact Hx. field. lra.
Qed.

(** X26.  [mass_in_radius] and [radius_of_mass] raise [NameError], and
    nothing else, exactly for a component that is not ['cb'], ['cdm'],
    ['b'], ['nu'] or ['tot'] or a window that is none of the fifteen
    spellings; [volume_of_radius] does for an unknown window.  The
    component is looked at first. *)
Theorem unknown_component_or_window (x : R) (var window : string)
  (prop_const : R) :
  let known_var := str_in var ["cb"; "cdm"; "b"; "nu"; "tot"]%string in
  let known_window :=
    str_in window (Cosmology.tophat_names ++ Cosmology.gaussian_names
                   ++ Cosmology.sharp_names) in
  (Cosmology.omega_of self var = Raise NameError <-> known_var = false) /\
  (Cosmology.mass_in_radius const sp self x var window prop_const
   = Raise NameError <-> known_var = false \/ known_window = false) /\
  (Cosmology.radius_of_mass const sp self x var window prop_const
   = Raise NameError <-> known_var = false \/ known_window = false) /\
  (Cosmology.volume_of_radius x window prop_const = Raise NameError
   <-> known_window = false) /\
  (forall e,
     Cosmology.mass_in_radius const sp self x var window prop_const
     = Raise e \/
     Cosmology.radius_of_mass const sp self x var window prop_const
     = Raise e \/
     Cosmology.volume_of_radius x window prop_const = Raise e ->
     e = NameError).
Proof.
  intros known_var known_window.
  assert (Hvar : (exists omega, Cosmology.omega_of self var = Return omega
                                /\ known_var = true) \/
                 (Cosmology.omega_of self var = Raise NameError
                  /\ known_var = false)).
  { unfold known_var, Cosmology.omega_of, str_in. cbn [existsb].
    destruct (String.eqb var "cb"); [left; now eexists|].
    destruct (String.eqb var "cdm"); [left; now eexists|].
    destruct (String.eqb var "b"); [left; now eexists|].
    destruct (String.eqb var "nu"); [left; now eexists|].
    destruct (String.eqb var "tot"); [left; now eexists|].
    right. split; reflexivity. }
  assert (Hwin : known_window
                 = str_in window Cosmology.tophat_names
                   || (str_in window Cosmology.gaussian_names
                       || str_in window Cosmology.sharp_names))
    by (unfold known_window; now rewrite !str_in_app).
  unfold Cosmology.mass_in_radius, Cosmology.radius_of_mass,
    Cosmology.volume_of_radius.
  destruct Hvar as [(omega & Hom & Hk) | [Hom Hk]]; rewrite Hom, Hk;
    cbn [bind]; rewrite Hwin;
    destruct (str_in window Cosmology.tophat_names);
    destruct (str_in window Cosmology.gaussian_names);
    destruct (str_in window Cosmology.sharp_names);
    cbn [orb];
    repeat split;
    try discriminate; try reflexivity; try tauto;
    try (intros [H | H]; discriminate);
    try (intros e [H | [H | H]]; try discriminate; now injection H).
Qed.

End MassRadius.

(* ================================================================== *)
(** ** The class [cosmo]: [sigma_8] *)
(* ================================================================== *)

Lemma Rleb_spec (a b : R) : (Rleb a b = true <-> a <= b).
Proof. unfold Rleb. destruct (Rle_dec a b); split; auto; discriminate. Qed.

(** The integrand of [compute_sigma_8], entry by entry. *)
Lemma sigma_8_integrand (k_ pk_ : list R) :
  zipWith Rmult
    (map (fun v => v / (2 * PI ^ 2))
         (zipWith Rmult (map (fun kk => kk ^ 3) k_) pk_))
    (map (fun w => w ^ 2)
         (map (fun kk => Cosmology.TopHat_window (kk * 8)) k_))
  = zipWith (fun kk p => kk ^ 3 * p / (2 * PI ^ 2)
                         * Cosmology.TopHat_window (kk * 8) ^ 2) k_ pk_.
Proof.
  revert pk_. induction k_ as [|kk k_ IH]; intros [|p pk_]; simpl;
    try reflexivity.
  now rewrite IH.
Qed.

Lemma zipWith_map_r_scale (f : R -> R -> R) (s : R) (a b : list R) :
  (forall x y, f x (y * s) = s * f x y) ->
  zipWith f a (map (fun p => p * s) b) = map (Rmult s) (zipWith f a b).
Proof.
  intros Hf. revert b. induction a as [|x a IH]; intros [|y b]; simpl;
    try reflexivity.
  now rewrite IH, Hf.
Qed.

Section Sigma8.

Variable sp : Cosmology.scipy.

(** The three outcomes of the assertions. *)
Lemma compute_sigma_8_cases (k_ pk_ : list R) :
  (k_ = [] /\ Cosmology.compute_sigma_8 sp k_ pk_ = Raise ValueError) \/
  (k_ <> [] /\ ~ sigma_8_accepts k_ /\
   Cosmology.compute_sigma_8 sp k_ pk_ = Raise AssertionError) \/
  (sigma_8_accepts k_ /\
   Cosmology.compute_sigma_8 sp k_ pk_
   = (a <- vmul (map (fun kk => kk ^ 3) k_) pk_ ;;
      b <- vmul (map (fun v => v / (2 * PI ^ 2)) a)
                (map (fun w => w ^ 2)
                     (map (fun kk => Cosmology.TopHat_window (kk * 8)) k_)) ;;
      Return (sqrt (Cosmology.simps sp b (map ln k_))))).
Proof.
  destruct k_ as [|k0 ks]; [left; split; reflexivity|]. right.
  unfold Cosmology.compute_sigma_8.
  destruct (amax (k0 :: ks)) as [m|] eqn:Hm; [|discriminate].
  destruct (amin (k0 :: ks)) as [n|] eqn:Hn; [|discriminate].
  apply amax_spec in Hm. apply amin_spec in Hn.
  destruct Hm as [Hm1 Hm2]. destruct Hn as [Hn1 Hn2].
  cbn [bind]. unfold Rleb.
  destruct (Rle_dec (PI / 8 * 2) m) as [H1 | H1].
  2:{ left. split; [discriminate|]. split; [|reflexivity].
      intros ((x & Hx & Hx1) & _). specialize (Hm2 x Hx). lra. }
  cbn [assert bind].
  destruct (Rle_dec n 0.001) as [H2 | H2].
  2:{ left. split; [discriminate|]. split; [|reflexivity].
      intros (_ & (x & Hx & Hx1) & _). specialize (Hn2 x Hx). lra. }
  cbn [assert bind].
  destruct (100 <=? length (k0 :: ks))%nat eqn:H3.
  2:{ left. apply Nat.leb_gt in H3. split; [discriminate|].
      split; [|reflexivity]. intros (_ & _ & H). lia. }
  apply Nat.leb_le in H3. cbn [assert bind]. right.
  split; [|reflexivity].
  split; [exists m; tauto|]. split; [exists n; tauto | exact H3].
Qed.

Lemma compute_sigma_8_value (k_ pk_ : list R) :
  sigma_8_accepts k_ -> length pk_ = length k_ ->
  Cosmology.compute_sigma_8 sp k_ pk_
  = Return (sqrt (Cosmology.simps sp
              (zipWith (fun kk p => kk ^ 3 * p / (2 * PI ^ 2)
                                    * Cosmology.TopHat_window (kk * 8) ^ 2)
                       k_ pk_)
              (map ln k_))).
Proof.
  intros Hacc Hlen.
  destruct (compute_sigma_8_cases k_ pk_)
    as [[-> _] | [(_ & Hn & _) | [_ ->]]].
  - destruct Hacc as (_ & _ & H). simpl in H. lia.
  - contradiction.
  - unfold vmul. rewrite vop_zipWith by (rewrite length_map; lia).
    cbn [bind].
    rewrite vop_zipWith
      by (rewrite !length_map, zipWith_length, length_map; lia).
    cbn [bind]. now rewrite sigma_8_integrand.
Qed.

(** X27.  [compute_sigma_8] on an empty [k] raises the [ValueError] of
    [np.max]; on a [k] that is not empty it raises [AssertionError]
    exactly when the maximum is below [pi/4], the minimum above 0.001 or
    there are fewer than 100 points; on an accepted [k] and a spectrum of
    the same length it returns the square root of the integral of
    [k**3 * pk / (2 pi**2) * W(8k)**2] over [ln k].  Every [k] that the
    constructor of [halofit_operator] accepts is accepted. *)
Theorem compute_sigma_8_checks (k_ pk_ : list R) :
  Cosmology.compute_sigma_8 sp [] pk_ = Raise ValueError /\
  (k_ <> [] ->
   (Cosmology.compute_sigma_8 sp k_ pk_ = Raise AssertionError
    <-> ~ sigma_8_accepts k_)) /\
  (sigma_8_accepts k_ -> length pk_ = length k_ ->
   Cosmology.compute_sigma_8 sp k_ pk_
   = Return (sqrt (Cosmology.simps sp
               (zipWith (fun kk p => kk ^ 3 * p / (2 * PI ^ 2)
                                     * Cosmology.TopHat_window (kk * 8) ^ 2)
                        k_ pk_)
               (map ln k_)))) /\
  (sufficient k_ -> sigma_8_accepts k_).
Proof.
  split; [reflexivity|]. split; [|split; [apply compute_sigma_8_value|]].
  - intros Hne.
    destruct (compute_sigma_8_cases k_ pk_)
      as [[-> _] | [(_ & Hn & Hr) | [Hacc Hr]]].
    + contradiction.
    + rewrite Hr. tauto.
    + split; [|intros Hn; contradiction].
      intros H. rewrite Hr in H.
      destruct (Nat.eq_dec (length pk_) (length k_)) as [Hl | Hl].
      * rewrite <- Hr, (compute_sigma_8_value _ _ Hacc Hl) in H.
        discriminate.
      * exfalso.
        assert (Hv : only_ValueError
                  (a <- vmul (map (fun kk => kk ^ 3) k_) pk_ ;;
                   b <- vmul (map (fun v => v / (2 * PI ^ 2)) a)
                          (map (fun w => w ^ 2)
                             (map (fun kk =>
                                     Cosmology.TopHat_window (kk * 8)) k_)) ;;
                   Return (sqrt (Cosmology.simps sp b (map ln k_))))).
        { apply only_ValueError_bind; [apply only_ValueError_vop|].
          intros a _.
          apply only_ValueError_bind; [apply only_ValueError_vop|].
          intros b _. apply only_ValueError_Return. }
        specialize (Hv _ H). discriminate.
  - intros (Hlen & (x & Hx & Hx10) & Hmin).
    split; [|split; [exact Hmin | lia]].
    exists x. split; [exact Hx|]. pose proof PI_4. lra.
Qed.

(** X28.  If Simpson's rule is homogeneous in the integrand, the
    spectrum that [normalize_Pk] returns has the required [sigma_8]:
    for a spectrum of the length of [k] whose [sigma_8] is positive and a
    required value that is not negative, [compute_sigma_8] on the
    normalized spectrum returns that value. *)
Theorem normalize_Pk_sigma_8 (k_ pk_ : list R) (s8 new_sigma8 : R) :
  (forall a y x,
     Cosmology.simps sp (map (Rmult a) y) x = a * Cosmology.simps sp y x) ->
  length pk_ = length k_ ->
  Cosmology.compute_sigma_8 sp k_ pk_ = Return s8 ->
  0 < s8 -> 0 <= new_sigma8 ->
  exists pk',
    Cosmology.normalize_Pk sp k_ pk_ new_sigma8 = Return pk' /\
    pk' = map (fun p => p * (new_sigma8 / s8) ^ 2) pk_ /\
    Cosmology.compute_sigma_8 sp k_ pk' = Return new_sigma8.
Proof.
  intros Hhom Hlen Hs8 Hpos Hnew.
  unfold Cosmology.normalize_Pk. rewrite Hs8. cbn [bind].
  eexists. split; [reflexivity|]. split; [reflexivity|].
  assert (Hacc : sigma_8_accepts k_).
  { destruct (compute_sigma_8_cases k_ pk_)
      as [[_ Hr] | [(_ & _ & Hr) | [Hacc _]]];
      [rewrite Hr in Hs8; discriminate
      |rewrite Hr in Hs8; discriminate | exact Hacc]. }
  rewrite (compute_sigma_8_value _ _ Hacc Hlen) in Hs8.
  apply Return_inj in Hs8.
  rewrite compute_sigma_8_value
    by (try exact Hacc; rewrite length_map; exact Hlen).
  f_equal.
  rewrite (zipWith_map_r_scale _ ((new_sigma8 / s8) ^ 2))
    by (intros x y; unfold Rdiv; ring).
  rewrite Hhom.
  set (I := Cosmology.simps sp _ _) in *.
  assert (HI : I = s8 ^ 2).
  { destruct (Rle_lt_dec I 0) as [Hle | Hlt].
    - rewrite (sqrt_neg_0 _ Hle) in Hs8. lra.
    - rewrite <- Hs8. symmetry. apply pow2_sqrt. lra. }
  rewrite HI.
  replace ((new_sigma8 / s8) ^ 2 * s8 ^ 2) with (new_sigma8 ^ 2)
    by (field; lra).
  now apply sqrt_pow2.
Qed.

End Sigma8.

(* ================================================================== *)
(** ** The sample instance of [halofit_operator] *)
(* ================================================================== *)

Lemma logspace_ratio (a b : R) (n i : nat) :
  (S i < n)%nat ->
  ln (at1 (logspace a b n) (S i) / at1 (logspace a b n) i)
  = (b - a) / INR (n - 1) * ln 10.
Proof.
  intros Hi. rewrite !logspace_nth by lia.
  unfold Rdiv at 1. rewrite <- Rpower_Ropp, <- Rpower_plus, ln_Rpower.
  rewrite S_INR. ring.
Qed.

Lemma logspace_In_pos (a b : R) (n : nat) (x : R) :
  In x (logspace a b n) -> 0 < x.
Proof.
  intros Hx. apply (In_nth _ _ 0) in Hx. destruct Hx as (i & Hi & <-).
  rewrite logspace_length in Hi. now apply (logspace_pos a b n i).
Qed.

Lemma trapz_dx_zipWith_pos (f : R -> R -> R) (a b : list R) (dx : R) :
  0 < dx ->
  (forall x y, In x a -> In y b -> 0 < f x y) ->
  (2 <= length a)%nat -> (2 <= length b)%nat ->
  0 < trapz_dx (zipWith f a b) dx.
Proof.
  intros Hdx Hf Ha Hb.
  destruct a as [|x0 [|x1 a]]; simpl in Ha; try lia.
  destruct b as [|y0 [|y1 b]]; simpl in Hb; try lia.
  change (zipWith f (x0 :: x1 :: a) (y0 :: y1 :: b))
    with (f x0 y0 :: f x1 y1 :: zipWith f a b).
  rewrite trapz_dx_cons2.
  change (f x1 y1 :: zipWith f a b)
    with (zipWith f (x1 :: a) (y1 :: b)).
  assert (H0 : 0 < f x0 y0) by (apply Hf; now left).
  assert (H1 : 0 < f x1 y1) by (apply Hf; right; now left).
  assert (Ht : 0 <= trapz_dx (zipWith f (x1 :: a) (y1 :: b)) dx).
  { apply trapz_dx_zipWith_ge0; [lra|].
    intros x y Hx Hy. left. apply Hf; now right. }
  assert (0 < dx * (f x1 y1 + f x0 y0)) by (apply Rmult_lt_0_compat; lra).
  lra.
Qed.

Lemma k0_dlnk_pos : 0 < ln (at1 Sample.k0 1 / at1 Sample.k0 0).
Proof.
  unfold Sample.k0. rewrite logspace_ratio by lia.
  pose proof ln_10_pos as H10.
  assert (HI : 0 < INR (1001 - 1)) by (apply lt_0_INR; simpl; lia).
  apply Rmult_lt_0_compat; [|exact H10].
  apply Rdiv_lt_0_compat; lra.
Qed.

Lemma pk0_row : nth 0 (rows Sample.pk0) [] = map (fun _ => 1) Sample.k0.
Proof. reflexivity. Qed.

Lemma pk0_entry (ik : nat) :
  (ik < length Sample.k0)%nat -> at2 (rows Sample.pk0) 0 ik = 1.
Proof.
  intros Hik. unfold at2. rewrite pk0_row.
  now rewrite (map_nth_in _ _ 0 0) by exact Hik.
Qed.

(** The sample instance: the density of the field, the virial
    overdensity and the damping of the two-halo term are positive, and
    the de-wiggled spectrum is the linear one. *)
Lemma sample_instance (e : halofit_operator) :
  halofit_init Sample.lib0 Sample.cosmo0 Sample.z0 Sample.k0 Sample.pk0
               "cb" false = Return e ->
  0 < rho_field e /\ 0 < at1 (Deltav e) 0 /\ 0 < at1 (fdamp e) 0 /\
  pk_dw e = rows Sample.pk0.
Proof.
  intros H.
  pose proof (halofit_init_rho_field _ _ _ _ _ _ _ _ H) as Hrho.
  pose proof (halofit_init_grids _ _ _ _ _ _ _ _ H) as G.
  destruct G as (Hz & Hk & Hnz & _ & Hpk & _).
  apply halofit_init_Return in H.
  destruct H as (_ & _ & smear & rho & Hsm & _ & H).
  apply Return_inj in Hsm. subst smear.
  pose proof (compute_nonlinear_pk_params _ _ _ _ H)
    as (_ & P100 & _ & _ & Pocz & PDv & _ & Pfd & _).
  apply compute_nonlinear_pk_Return in H.
  assert (Hdw : pk_dw e
                = g_pk_dw (init_grids Sample.z0 Sample.k0 (rows Sample.pk0)
                             (fst (rows Sample.pk0, rows Sample.pk0))
                             (snd (rows Sample.pk0, rows Sample.pk0)) rho))
    by (decompose [and] H; assumption).
  clear H.
  split; [|split; [|split; [|exact Hdw]]].
  - destruct Hrho as [[_ ->] | [Hf _]]; [|discriminate].
    cbn [rho_crit Omega_cb Sample.cosmo0]. lra.
  - unfold at1. rewrite PDv, Pocz, Hz. cbn [Sample.z0 map nth].
    unfold Delta_v. cbn [Omega_m_z Omega_cb Omega_m f_nu_tot Sample.cosmo0].
    apply Rmult_lt_0_compat; [|lra].
    apply Rmult_lt_0_compat; [lra|].
    apply power_pos. lra.
  - unfold at1. rewrite Pfd, P100, Hnz, Hk, Hpk.
    cbn [Sample.z0 length]. unfold sigma_d.
    cbn [tabulate seq map nth]. rewrite pk0_row.
    cbn [extrapolate_log Sample.lib0]. unfold fd.
    apply Rmult_lt_0_compat; [lra|]. apply power_pos.
    apply sqrt_lt_R0.
    apply trapz_dx_zipWith_pos.
    + exact k0_dlnk_pos.
    + intros x y Hx Hy. apply logspace_In_pos in Hx.
      apply in_map_iff in Hy. destruct Hy as (x' & <- & _).
      cbn [TopHat_window Sample.lib0].
      pose proof PI_RGT_0 as Hpi.
      assert (0 < x ^ 3) by (apply pow_lt; lra).
      assert (0 < x ^ 2) by (apply pow_lt; lra).
      assert (0 < PI ^ 2) by (apply pow_lt; lra).
      apply Rmult_lt_0_compat; [|lra].
      apply Rdiv_lt_0_compat; [|lra].
      apply Rdiv_lt_0_compat; [|lra]. lra.
    + unfold Sample.k0. rewrite logspace_length. lia.
    + rewrite length_map. unfold Sample.k0. rewrite logspace_length. lia.
Qed.

Lemma lt_0_512 : (0 < 512)%nat.
Proof. lia. Qed.

(** X3, on the sample inputs. *)
Lemma mass_grid_uniform_witness :
  exists e,
    halofit_init Sample.lib0 Sample.cosmo0 Sample.z0 Sample.k0 Sample.pk0
                 "cb" false = Return e /\
    length (mass e) = 512%nat /\ at1 (mass e) 0 = 1 /\
    at1 (mass e) 511 = 10 ^ 18 /\ 0 < dlnm e.
Proof.
  destruct sample_halofit as [e He]. exists e. split; [exact He|].
  destruct (mass_grid_uniform _ _ _ _ _ _ _ _ He)
    as (H1 & H2 & H3 & _ & H5 & _).
  repeat split; assumption.
Defined.

(** X4, on the sample inputs. *)
Lemma radii_enclose_mass_witness :
  exists e,
    halofit_init Sample.lib0 Sample.cosmo0 Sample.z0 Sample.k0 Sample.pk0
                 "cb" false = Return e /\
    0 < rho_field e /\ 0 < at1 (Deltav e) 0 /\
    4 / 3 * PI * rho_field e * at1 (rr e) 0 ^ 3 = at1 (mass e) 0 /\
    at2 (rv e) 0 0 ^ 3 * at1 (Deltav e) 0 = at1 (rr e) 0 ^ 3.
Proof.
  destruct sample_halofit as [e He]. exists e. split; [exact He|].
  destruct (sample_instance e He) as (Hrho & HD & _).
  split; [exact Hrho|]. split; [exact HD|].
  destruct (radii_enclose_mass _ _ _ _ _ _ _ _ He Hrho 0%nat lt_0_512)
    as [E1 E2].
  split; [exact E1|].
  exact (proj2 (E2 0%nat z0_length HD)).
Defined.

Lemma z0_above_minus_1 : -1 < at1 Sample.z0 0.
Proof. cbn. lra. Qed.

(** X5, on the sample inputs. *)
Lemma concentration_floor_witness :
  exists e,
    halofit_init Sample.lib0 Sample.cosmo0 Sample.z0 Sample.k0 Sample.pk0
                 "cb" false = Return e /\
    A_bar <= at2 (conc e) 0 0.
Proof.
  destruct sample_halofit as [e He]. exists e. split; [exact He|].
  exact (proj1 (proj2 (concentration_floor _ _ _ _ _ _ _ _ He 0%nat 0%nat
                         z0_length lt_0_512 z0_above_minus_1))).
Defined.

(** X6, on the sample inputs. *)
Lemma instance_shapes_witness :
  exists e,
    halofit_init Sample.lib0 Sample.cosmo0 Sample.z0 Sample.k0 Sample.pk0
                 "cb" false = Return e /\
    table_shape 1 512 (conc e) /\ table_shape 1 1001 (pk_nl e).
Proof.
  destruct sample_halofit as [e He]. exists e. split; [exact He|].
  destruct (instance_shapes _ _ _ _ _ _ _ _ He)
    as (_ & (_ & _ & _ & Sc & _) & (_ & _ & _ & _ & Snl)).
  cbv zeta in Sc, Snl. unfold Sample.k0 in Snl.
  rewrite logspace_length in Snl.
  split; [exact Sc | exact Snl].
Defined.

(** X7, on the sample inputs. *)
Lemma halofit_init_succeeds_witness :
  exists e,
    halofit_init Sample.lib0 Sample.cosmo0 Sample.z0 Sample.k0 Sample.pk0
                 "cb" false = Return e /\
    z e = Sample.z0 /\ k e = Sample.k0 /\ pk e = rows Sample.pk0 /\
    pk_dw e = rows Sample.pk0.
Proof.
  exact (proj2 (halofit_init_succeeds Sample.lib0 Sample.cosmo0 Sample.z0
                  Sample.k0 Sample.pk0 "cb")
               k0_sufficient cosmo0_log10_As (full_well_shaped _ _ _)
               (or_introl eq_refl) (lib0_sig_int _)).
Defined.

(** X8, on the sample inputs. *)
Lemma two_halo_bounds_witness :
  exists e,
    halofit_init Sample.lib0 Sample.cosmo0 Sample.z0 Sample.k0 Sample.pk0
                 "cb" false = Return e /\
    0 < at1 (fdamp e) 0 /\ 0 <= at2 (pk_dw e) 0 0 /\
    at2 (pk_dw e) 0 0 * (1 - at1 (fdamp e) 0) <= at2 (pk_2h e) 0 0 /\
    at2 (pk_2h e) 0 0 <= at2 (pk_dw e) 0 0.
Proof.
  destruct sample_halofit as [e He]. exists e. split; [exact He|].
  destruct (sample_instance e He) as (_ & _ & Hf & Hdw).
  assert (Hp : 0 <= at2 (pk_dw e) 0 0).
  { rewrite Hdw, pk0_entry by exact k0_length. lra. }
  split; [exact Hf|]. split; [exact Hp|].
  exact (proj2 (two_halo_bounds _ _ _ _ _ _ _ _ He 0%nat 0%nat
                  z0_length k0_length Hf Hp)).
Defined.

(** X9, with a mass function and a profile equal to [1] on the mass
    grid, [rho_field = 1], [k = 1] and [k_star = 1]. *)
Lemma one_halo_nonnegative_witness :
  0 <= at1 (pk_1h_row Sample.mass0 1 Sample.hmf1 Sample.u1 [1] 1) 0.
Proof.
  assert (Hh : forall j, (j < 512)%nat -> 0 <= at1 Sample.hmf1 j).
  { intros j Hj. unfold at1, Sample.hmf1. rewrite tabulate_nth by exact Hj.
    lra. }
  assert (Hk : (0 < length [1])%nat) by (simpl; lia).
  assert (H1 : 0 <= at1 [1] 0) by (cbn; lra).
  exact (proj1 (proj2 (one_halo_nonnegative 1 Sample.hmf1 Sample.u1 [1] 1
                         0%nat R1_neq_R0 Hh Rlt_0_1 Hk H1))).
Defined.

(** X10, on two rows of two entries with [alpha = 2]. *)
Lemma blend_bounds_witness :
  Rmax (at1 [1; 2] 0) (at1 [3; 4] 0) <= at1 (pk_nl_row [1; 2] [3; 4] 2) 0.
Proof.
  assert (Ha : 0 < 2) by lra.
  assert (L1 : (0 < length [1; 2])%nat) by (simpl; lia).
  assert (L2 : (0 < length [3; 4])%nat) by (simpl; lia).
  assert (P1 : 0 <= at1 [1; 2] 0) by (cbn; lra).
  assert (P2 : 0 <= at1 [3; 4] 0) by (cbn; lra).
  exact (proj1 (blend_bounds [1; 2] [3; 4] 2 0%nat Ha L1 L2 P1 P2)).
Defined.

Lemma k0_ordered : at1 Sample.k0 0 <= at1 Sample.k0 1.
Proof.
  pose proof k0_dlnk_pos as H.
  assert (H0 : 0 < at1 Sample.k0 0)
    by (unfold Sample.k0; apply logspace_pos; lia).
  assert (H1 : 0 < at1 Sample.k0 1)
    by (unfold Sample.k0; apply logspace_pos; lia).
  rewrite <- ln_1 in H. apply ln_lt_inv in H;
    [|lra | apply Rdiv_lt_0_compat; assumption].
  apply Rmult_lt_compat_r with (r := at1 Sample.k0 0) in H; [|exact H0].
  replace (at1 Sample.k0 1 / at1 Sample.k0 0 * at1 Sample.k0 0)
    with (at1 Sample.k0 1) in H by (field; lra).
  lra.
Qed.

(** X11, on the sample inputs with [R = 100]. *)
Lemma window_reduces_displacement_witness :
  at1 (sigma_d Sample.lib0 1 Sample.k0 (rows Sample.pk0) 100) 0
  <= at1 (sigma_d0 Sample.lib0 1 Sample.k0 (rows Sample.pk0)) 0.
Proof.
  assert (Hi : (0 < 1)%nat) by lia.
  assert (HW : forall x, Rabs (TopHat_window Sample.lib0 x) <= 1).
  { intros x. cbn [TopHat_window Sample.lib0]. rewrite Rabs_R1. lra. }
  assert (Hk : Forall (fun kp => 0 < kp)
                 (fst (extrapolate_log Sample.lib0 Sample.k0
                         (nth 0 (rows Sample.pk0) []) 1e-6 1e8))).
  { cbn [extrapolate_log Sample.lib0 fst]. apply Forall_forall.
    intros x Hx. unfold Sample.k0 in Hx. now apply logspace_In_pos in Hx. }
  assert (HP : Forall (fun P => 0 <= P)
                 (snd (extrapolate_log Sample.lib0 Sample.k0
                         (nth 0 (rows Sample.pk0) []) 1e-6 1e8))).
  { cbn [extrapolate_log Sample.lib0 snd]. rewrite pk0_row.
    apply Forall_forall. intros x Hx. apply in_map_iff in Hx.
    destruct Hx as (x' & <- & _). lra. }
  exact (proj2 (window_reduces_displacement Sample.lib0 1 Sample.k0
                  (rows Sample.pk0) 100 0%nat Hi HW Hk HP k0_ordered)).
Defined.

Lemma sample_linear_spectra_EH :
  linear_spectra Sample.cosmo0 Sample.z0 Sample.k0 "EH" []
  = Return (Sample.pk0, zeros_like Sample.pk0, zeros_like Sample.pk0).
Proof. reflexivity. Qed.

Lemma zeros_like_well_shaped (zs ks : list R) (a : array2) :
  well_shaped zs ks a -> well_shaped zs ks (zeros_like a).
Proof. unfold well_shaped. now rewrite zeros_like_shape. Qed.

Lemma sample_nonlinear_pk_EH :
  exists t,
    nonlinear_pk_init Sample.lib0 Sample.cosmo0 Sample.z0 Sample.k0
                      "EH" [] false = Return t.
Proof.
  apply (nonlinear_pk_init_returns _ _ _ _ _ _ _ _ _ k0_sufficient
           sample_linear_spectra_EH).
  - apply full_well_shaped.
  - apply zeros_like_well_shaped, full_well_shaped.
  - apply zeros_like_well_shaped, full_well_shaped.
  - apply lib0_sig_int.
  - exact cosmo0_log10_As.
Qed.

Lemma EH_is_EH :
  str_in "EH" ["EH"; "eh"; "EisensteinHu"; "Eisenstein-Hu"]%string = true.
Proof. reflexivity. Qed.

(** X12, on the sample inputs with [code = 'EH']. *)
Lemma eisenstein_hu_no_neutrino_terms_witness :
  exists t,
    nonlinear_pk_init Sample.lib0 Sample.cosmo0 Sample.z0 Sample.k0
                      "EH" [] false = Return t /\
    t_pk_cbnu t = zeros_like (t_pk_cbcb t) /\
    at2 (t_pk_nl t) 0 0
    = f_cb Sample.cosmo0 ^ 2 * at2 (t_pk_nl_cbcb t) 0 0.
Proof.
  destruct sample_nonlinear_pk_EH as [t Ht]. exists t. split; [exact Ht|].
  destruct (eisenstein_hu_no_neutrino_terms _ _ _ _ _ _ _ _ EH_is_EH Ht)
    as (_ & E1 & _ & E).
  split; [exact E1|]. exact (E 0%nat 0%nat z0_length k0_length).
Defined.

Lemma halofit_is_no_code :
  str_in "halofit" ["camb"; "Camb"; "CAMB"; "class"; "Class"; "CLASS";
                    "EH"; "eh"; "EisensteinHu"; "Eisenstein-Hu"]%string
  = false.
Proof. reflexivity. Qed.

(** X13, on the default [k] grid with [code = 'halofit']. *)
Lemma unknown_code_raises_witness :
  nonlinear_pk_init Sample.lib0 Sample.cosmo0 Sample.z0 Sample.k0
                    "halofit" [] true = Raise NameError.
Proof.
  exact (proj2 (unknown_code_raises Sample.lib0 Sample.cosmo0 Sample.z0
                  Sample.k0 "halofit" [] true halofit_is_no_code)
               k0_sufficient).
Defined.

Lemma cosmo0_fractions : f_cb Sample.cosmo0 + f_nu_tot Sample.cosmo0 = 1.
Proof. cbn [f_cb f_nu_tot Sample.cosmo0]. lra. Qed.

(** X14, on the sample spectrum and the sample cosmology. *)
Lemma total_matter_of_equal_spectra_witness :
  exists tot,
    total_matter_pk Sample.cosmo0 (rows Sample.pk0) (rows Sample.pk0)
                    (rows Sample.pk0) = Return tot /\
    at2 tot 0 0 = 1.
Proof.
  destruct (total_matter_of_equal_spectra Sample.cosmo0
              (length Sample.z0) (length Sample.k0) (rows Sample.pk0)
              (array2_table_shape _ _ _
                 (full_well_shaped Sample.z0 Sample.k0 1))
              cosmo0_fractions)
    as (tot & Ht & _ & E).
  exists tot. split; [exact Ht|].
  rewrite (E 0%nat 0%nat z0_length k0_length).
  apply pk0_entry. exact k0_length.
Defined.

Lemma sample_bao_smearing :
  exists nw dw,
    bao_smearing Sample.cosmo0 Sample.k0 Sample.pk0 (length Sample.z0)
    = Return (nw, dw).
Proof.
  apply bao_smearing_returns.
  - apply full_well_shaped.
  - intros r Hr. exists r. split; [|exact Hr].
    cbn [remove_bao Sample.cosmo0].
    rewrite Hr, Nat.eqb_refl. reflexivity.
Qed.

Lemma pk2_not_well_shaped :
  ~ well_shaped Sample.z0 Sample.k0 Sample.pk2.
Proof.
  unfold well_shaped, shape, Sample.pk2, Sample.full.
  cbn [rows ncols map length Sample.z0]. intros H. discriminate H.
Qed.

(** On a spectrum with one row more than redshifts the smearing reads the
    rows of the redshifts only, and returns. *)
Lemma sample_bao_smearing_pk2 :
  exists s,
    bao_smearing Sample.cosmo0 Sample.k0 Sample.pk2 (length Sample.z0)
    = Return s.
Proof.
  destruct sample_bao_smearing as (nw & dw & H).
  exists (nw, dw). rewrite <- H.
  apply bao_smearing_rows_ext. intros i Hi.
  cbn [length Sample.z0] in Hi.
  assert (i = 0%nat) as -> by lia.
  reflexivity.
Qed.

(** C7, on the default [k] grid: without smearing on a spectrum of shape
    [(1, 2)], with smearing on a spectrum of shape [(2, 1001)], and on
    the sample spectrum of shape [(1, 1001)]. *)
Lemma shape_error_witness :
  (sufficient Sample.k0 /\
   ~ well_shaped Sample.z0 Sample.k0 Sample.pk12 /\
   halofit_init Sample.lib0 Sample.cosmo0 Sample.z0 Sample.k0 Sample.pk12
                "cb" false = Raise IndexError) /\
  (~ well_shaped Sample.z0 Sample.k0 Sample.pk2 /\
   halofit_init Sample.lib0 Sample.cosmo0 Sample.z0 Sample.k0 Sample.pk2
                "cb" true = Raise IndexError) /\
  (well_shaped Sample.z0 Sample.k0 Sample.pk0 /\
   halofit_init Sample.lib0 Sample.cosmo0 Sample.z0 Sample.k0 Sample.pk0
                "cb" true <> Raise IndexError).
Proof.
  assert (Hbad : ~ well_shaped Sample.z0 Sample.k0 Sample.pk12).
  { apply pk12_not_well_shaped. unfold Sample.k0.
    rewrite logspace_length. lia. }
  split; [|split].
  - split; [exact k0_sufficient|]. split; [exact Hbad|].
    exact (proj1 (shape_error Sample.lib0 Sample.cosmo0 Sample.z0 Sample.k0
                    Sample.pk12 "cb" false)
                 k0_sufficient cosmo0_log10_As (or_introl eq_refl) Hbad).
  - split; [exact pk2_not_well_shaped|].
    exact (proj1 (shape_error Sample.lib0 Sample.cosmo0 Sample.z0 Sample.k0
                    Sample.pk2 "cb" true)
                 k0_sufficient cosmo0_log10_As
                 (or_intror sample_bao_smearing_pk2) pk2_not_well_shaped).
  - split; [apply full_well_shaped|].
    exact (proj2 (shape_error Sample.lib0 Sample.cosmo0 Sample.z0 Sample.k0
                    Sample.pk0 "cb" true)
                 (full_well_shaped _ _ _) cosmo0_remove_bao).
Defined.

(** X15, on the sample inputs, where [remove_bao] returns its input. *)
Lemma bao_smearing_blend_witness :
  exists nw dw,
    bao_smearing Sample.cosmo0 Sample.k0 Sample.pk0 (length Sample.z0)
    = Return (nw, dw) /\
    remove_bao Sample.cosmo0 Sample.k0 (nth 0 (rows Sample.pk0) [])
    = Return (nth 0 nw []).
Proof.
  destruct sample_bao_smearing as (nw & dw & H).
  exists nw, dw. split; [exact H|].
  exact (proj1 (bao_smearing_blend Sample.cosmo0 Sample.z0 Sample.k0
                  Sample.pk0 nw dw H (full_well_shaped _ _ _)
                  0%nat z0_length)).
Defined.

(* ================================================================== *)
(** ** The sample instance of [cosmo] *)
(* ================================================================== *)

Lemma sample_cosmo :
  exists self,
    Cosmology.init SampleCosmology.const0 SampleCosmology.sp0 0.3089 0.0486
      0 3 [0] 3.046 (Some 2.14e-9) 0.9667 None 0.6774 (-1) 0 0.06 2.7255
    = Return self.
Proof.
  destruct (init_cases SampleCosmology.const0 SampleCosmology.sp0 0.3089
              0.0486 0 3 [0] 3.046 (Some 2.14e-9) 0.9667 None 0.6774 (-1) 0
              0.06 2.7255)
    as [[Hrej _] | (_ & _ & _ & [[Hz _] | [_ H]])].
  - exfalso. destruct Hrej as [H | [H | [H _]]].
    + simpl in H. lra.
    + simpl in H. lia.
    + discriminate.
  - exfalso. unfold init_divides_by_zero in Hz.
    cbn [Cosmology.c Cosmology.Msun Cosmology.rhoch2
         SampleCosmology.const0] in Hz.
    destruct Hz as [H | [H | [H | [H | [H | H]]]]];
      try discriminate; lra.
  - exact H.
Qed.

Lemma sample_FermiDirac (y : R) :
  Cosmology.FermiDirac_integral SampleCosmology.sp0 y = 0.
Proof.
  unfold Cosmology.FermiDirac_integral.
  cbn [Cosmology.quad_vec SampleCosmology.sp0]. unfold Rdiv. ring.
Qed.

(** With the sample integrators the neutrinos carry no density, the
    instance has [Omega_cb = Omega_m = 0.3089], [h = 0.6774] and
    [H0 = 67.74], and the critical density today is positive. *)
Lemma sample_cosmo_facts (self : Cosmology.cosmo) :
  Cosmology.init SampleCosmology.const0 SampleCosmology.sp0 0.3089 0.0486
    0 3 [0] 3.046 (Some 2.14e-9) 0.9667 None 0.6774 (-1) 0 0.06 2.7255
  = Return self ->
  sum (Cosmology.Omega_nu self) = 0 /\
  Cosmology.Omega_cb self = 0.3089 /\
  Cosmology.Omega_m self = 0.3089 /\
  Cosmology.H0 self = 67.74 /\
  Cosmology.h self = 0.6774 /\
  0 < Cosmology.rho_crit SampleCosmology.const0 SampleCosmology.sp0 self 0.
Proof.
  intros Hs.
  pose proof (init_Return _ _ _ _ _ _ _ _ _ _ _ _ _ _ _ _ _ Hs) as I.
  cbv zeta in I.
  destruct I as (HOm & HOb & _ & _ & _ & _ & _ & _ & _ & Hh & HH0 & Hnu
                 & Hcdm & Hcb & _).
  assert (Hsum : sum (Cosmology.Omega_nu self) = 0).
  { rewrite Hnu.
    rewrite (sum_map_ext _ (fun x => 0 * (fun _ : R => 0) x)).
    - rewrite sum_map_scale. ring.
    - intros x _. rewrite sample_FermiDirac. ring. }
  assert (HH : Cosmology.H0 self = 67.74) by (rewrite HH0, Hh; lra).
  split; [exact Hsum|]. split; [lra|]. split; [exact HOm|].
  split; [exact HH|]. split; [exact Hh|].
  unfold Cosmology.rho_crit.
  rewrite (H_today _ _ _ _ _ _ _ _ _ _ _ _ _ _ _ _ _ Hs), HH, Hh.
  cbn [Cosmology.G SampleCosmology.const0].
  pose proof PI_RGT_0 as Hpi.
  apply Rdiv_lt_0_compat; [|lra].
  apply Rdiv_lt_0_compat; [lra|].
  apply Rmult_lt_0_compat; lra.
Qed.

(** X17, on the defaults of [cosmo()]. *)
Lemma init_neutrinos_witness :
  exists self,
    Cosmology.init SampleCosmology.const0 SampleCosmology.sp0 0.3089 0.0486
      0 3 [0] 3.046 (Some 2.14e-9) 0.9667 None 0.6774 (-1) 0 0.06 2.7255
    = Return self /\
    length (Cosmology.M_nu self) = Cosmology.N_nu self /\
    0 <= Cosmology.massless_nu self.
Proof.
  destruct sample_cosmo as [self Hs]. exists self. split; [exact Hs|].
  destruct (init_neutrinos _ _ _ _ _ _ _ _ _ _ _ _ _ _ _ _ _ Hs)
    as (_ & HL & _ & _ & _ & _ & Hm & _).
  split; [exact HL | exact Hm].
Defined.

(** X18, on the defaults of [cosmo()]. *)
Lemma init_densities_witness :
  exists self,
    Cosmology.init SampleCosmology.const0 SampleCosmology.sp0 0.3089 0.0486
      0 3 [0] 3.046 (Some 2.14e-9) 0.9667 None 0.6774 (-1) 0 0.06 2.7255
    = Return self /\
    Cosmology.Omega_m self + Cosmology.Omega_lambda self
    + Cosmology.Omega_K self + Cosmology.Omega_gamma self = 1.
Proof.
  destruct sample_cosmo as [self Hs]. exists self. split; [exact Hs|].
  exact (proj1 (proj2 (proj2
           (init_densities _ _ _ _ _ _ _ _ _ _ _ _ _ _ _ _ _ Hs)))).
Defined.

(** X19, on the defaults of [cosmo()]. *)
Lemma background_today_witness :
  exists self,
    Cosmology.init SampleCosmology.const0 SampleCosmology.sp0 0.3089 0.0486
      0 3 [0] 3.046 (Some 2.14e-9) 0.9667 None 0.6774 (-1) 0 0.06 2.7255
    = Return self /\
    Cosmology.H SampleCosmology.const0 SampleCosmology.sp0 self 0
    = Cosmology.H0 self.
Proof.
  destruct sample_cosmo as [self Hs]. exists self. split; [exact Hs|].
  exact (proj1 (background_today _ _ _ _ _ _ _ _ _ _ _ _ _ _ _ _ _ Hs)).
Defined.

Lemma minus_1_lt_0 : -1 < 0.
Proof. lra. Qed.

(** X20, on the defaults of [cosmo()], today. *)
Lemma densities_sum_to_one_witness :
  exists self,
    Cosmology.init SampleCosmology.const0 SampleCosmology.sp0 0.3089 0.0486
      0 3 [0] 3.046 (Some 2.14e-9) 0.9667 None 0.6774 (-1) 0 0.06 2.7255
    = Return self /\
    0 < Cosmology.H SampleCosmology.const0 SampleCosmology.sp0 self 0 /\
    Cosmology.Omega_m_z SampleCosmology.const0 SampleCosmology.sp0 self 0
    + Cosmology.Omega_lambda_z SampleCosmology.const0 SampleCosmology.sp0
        self 0
    + Cosmology.Omega_K_z SampleCosmology.const0 SampleCosmology.sp0 self 0
    + Cosmology.Omega_gamma_z SampleCosmology.const0 SampleCosmology.sp0
        self 0 = 1.
Proof.
  destruct sample_cosmo as [self Hs]. exists self. split; [exact Hs|].
  assert (HH : 0 < Cosmology.H SampleCosmology.const0 SampleCosmology.sp0
                     self 0).
  { rewrite (H_today _ _ _ _ _ _ _ _ _ _ _ _ _ _ _ _ _ Hs).
    destruct (sample_cosmo_facts self Hs) as (_ & _ & _ & -> & _). lra. }
  split; [exact HH|].
  exact (densities_sum_to_one _ _ _ _ _ _ _ _ _ _ _ _ _ _ _ _ _ Hs 0
           minus_1_lt_0 HH).
Defined.

(** X21, on the defaults of [cosmo()]. *)
Lemma growth_factor_normalized_witness :
  exists self,
    Cosmology.init SampleCosmology.const0 SampleCosmology.sp0 0.3089 0.0486
      0 3 [0] 3.046 (Some 2.14e-9) 0.9667 None 0.6774 (-1) 0 0.06 2.7255
    = Return self /\
    Cosmology.D_1 SampleCosmology.sp0 self [0] = [1].
Proof.
  destruct sample_cosmo as [self Hs]. exists self. split; [exact Hs|].
  destruct (sample_cosmo_facts self Hs) as (_ & _ & _ & HH & _).
  assert (H0n : Cosmology.H0 self <> 0) by (rewrite HH; lra).
  assert (HL : Cosmology.quad_inf SampleCosmology.sp0
                 (fun x => (1 + x) * (Cosmology.H0 self
                                      / Cosmology.H_massive self x) ^ 3) 0
               <> 0).
  { cbn [Cosmology.quad_inf SampleCosmology.sp0].
    rewrite (H_massive_today _ _ _ _ _ _ _ _ _ _ _ _ _ _ _ _ _ Hs).
    replace ((1 + 0) * (Cosmology.H0 self / Cosmology.H0 self) ^ 3)
      with 1 by (field; exact H0n).
    lra. }
  exact (proj1 (growth_factor_normalized _ _ _ _ _ _ _ _ _ _ _ _ _ _ _ _ _
                  Hs H0n HL)).
Defined.

Lemma th_is_known :
  str_in "th" (Cosmology.tophat_names ++ Cosmology.gaussian_names
               ++ Cosmology.sharp_names) = true.
Proof. reflexivity. Qed.

Lemma sample_background_density (self : Cosmology.cosmo) :
  Cosmology.init SampleCosmology.const0 SampleCosmology.sp0 0.3089 0.0486
    0 3 [0] 3.046 (Some 2.14e-9) 0.9667 None 0.6774 (-1) 0 0.06 2.7255
  = Return self ->
  0 < Cosmology.rho_crit SampleCosmology.const0 SampleCosmology.sp0 self 0
      * Cosmology.Omega_cb self.
Proof.
  intros Hs. destruct (sample_cosmo_facts self Hs) as (_ & -> & _ & _ & _ & Hr).
  apply Rmult_lt_0_compat; [exact Hr | lra].
Qed.

Lemma omega_of_cb (self : Cosmology.cosmo) :
  Cosmology.omega_of self "cb" = Return (Cosmology.Omega_cb self).
Proof. reflexivity. Qed.

(** X24, on the defaults of [cosmo()]: a mass of [1e12] with the
    defaults [var = 'cb'], [window = 'th'], [prop_const = 2.5]. *)
Lemma mass_radius_round_trip_witness :
  exists self r,
    Cosmology.init SampleCosmology.const0 SampleCosmology.sp0 0.3089 0.0486
      0 3 [0] 3.046 (Some 2.14e-9) 0.9667 None 0.6774 (-1) 0 0.06 2.7255
    = Return self /\
    Cosmology.radius_of_mass SampleCosmology.const0 SampleCosmology.sp0
      self 1e12 "cb" "th" 2.5 = Return r /\
    Cosmology.mass_in_radius SampleCosmology.const0 SampleCosmology.sp0
      self r "cb" "th" 2.5 = Return 1e12.
Proof.
  destruct sample_cosmo as [self Hs]. exists self.
  assert (Hpc : 0 < 2.5) by lra.
  assert (HM : 0 < 1e12) by lra.
  destruct (proj1 (mass_radius_round_trip SampleCosmology.const0
                     SampleCosmology.sp0 self "cb" "th" 2.5
                     (Cosmology.Omega_cb self) (omega_of_cb self)
                     th_is_known (sample_background_density self Hs) Hpc)
                  1e12 HM) as (r & Hr & _ & Hm).
  exists r. split; [exact Hs|]. split; [exact Hr | exact Hm].
Defined.

(** X25, on the defaults of [cosmo()]. *)
Lemma volume_of_mass_density_witness :
  exists self V,
    Cosmology.init SampleCosmology.const0 SampleCosmology.sp0 0.3089 0.0486
      0 3 [0] 3.046 (Some 2.14e-9) 0.9667 None 0.6774 (-1) 0 0.06 2.7255
    = Return self /\
    Cosmology.volume_of_mass SampleCosmology.const0 SampleCosmology.sp0
      self 1e12 "cb" "th" 2.5 = Return V /\
    V * (Cosmology.rho_crit SampleCosmology.const0 SampleCosmology.sp0
           self 0 * Cosmology.Omega_cb self) = 1e12.
Proof.
  destruct sample_cosmo as [self Hs]. exists self.
  assert (Hpc : 0 < 2.5) by lra.
  assert (HM : 0 < 1e12) by lra.
  destruct (volume_of_mass_density SampleCosmology.const0
              SampleCosmology.sp0 self "cb" "th" 2.5
              (Cosmology.Omega_cb self) 1e12 (omega_of_cb self)
              th_is_known (sample_background_density self Hs) Hpc HM)
    as (V & HV & E).
  exists V. split; [exact Hs|]. split; [exact HV | exact E].
Defined.

Lemma k8_accepted : sigma_8_accepts SampleCosmology.k8.
Proof.
  unfold sigma_8_accepts, SampleCosmology.k8. split; [|split].
  - exists 1. split.
    + right. right. change 98%nat with (S 97). cbn [repeat]. now left.
    + pose proof PI_4. lra.
  - exists 0.001. split; [right; now left | lra].
  - cbn [length]. rewrite repeat_length. lia.
Qed.

Lemma k8_pk8_length :
  length SampleCosmology.pk8 = length SampleCosmology.k8.
Proof.
  unfold SampleCosmology.pk8, SampleCosmology.k8.
  cbn [length]. now rewrite !repeat_length.
Qed.

Lemma sp0_homogeneous (a : R) (y x : list R) :
  Cosmology.simps SampleCosmology.sp0 (map (Rmult a) y) x
  = a * Cosmology.simps SampleCosmology.sp0 y x.
Proof.
  cbn [Cosmology.simps SampleCosmology.sp0].
  destruct y as [|y0 y]; cbn [map nth]; ring.
Qed.

Lemma TopHat_window_PI : Cosmology.TopHat_window PI = 3 / PI ^ 2.
Proof.
  unfold Cosmology.TopHat_window. rewrite sin_PI, cos_PI.
  field. apply PI_neq0.
Qed.

Lemma sample_sigma_8 :
  exists s8,
    Cosmology.compute_sigma_8 SampleCosmology.sp0 SampleCosmology.k8
      SampleCosmology.pk8 = Return s8 /\ 0 < s8.
Proof.
  rewrite (compute_sigma_8_value _ _ _ k8_accepted k8_pk8_length).
  eexists. split; [reflexivity|].
  apply sqrt_lt_R0.
  cbn [Cosmology.simps SampleCosmology.sp0].
  unfold SampleCosmology.k8, SampleCosmology.pk8.
  change 100%nat with (S 99). cbn [repeat zipWith nth].
  replace (PI / 8 * 8) with PI by field.
  rewrite TopHat_window_PI.
  pose proof PI_RGT_0 as Hpi.
  assert (0 < PI ^ 2) by (apply pow_lt; lra).
  assert (0 < (PI / 8) ^ 3) by (apply pow_lt; lra).
  apply Rmult_lt_0_compat.
  - apply Rdiv_lt_0_compat; lra.
  - apply pow_lt. apply Rdiv_lt_0_compat; lra.
Qed.

(** X28, on a [k] array of 100 points and a spectrum equal to 1, with
    the required value [sigma_8 = 0.8]. *)
Lemma normalize_Pk_sigma_8_witness :
  exists pk',
    Cosmology.normalize_Pk SampleCosmology.sp0 SampleCosmology.k8
      SampleCosmology.pk8 0.8 = Return pk' /\
    Cosmology.compute_sigma_8 SampleCosmology.sp0 SampleCosmology.k8 pk'
    = Return 0.8.
Proof.
  destruct sample_sigma_8 as (s8 & Hs8 & Hpos).
  assert (Hnew : 0 <= 0.8) by lra.
  destruct (normalize_Pk_sigma_8 SampleCosmology.sp0 SampleCosmology.k8
              SampleCosmology.pk8 s8 0.8 sp0_homogeneous k8_pk8_length
              Hs8 Hpos Hnew) as (pk' & Hn & _ & Hc).
  exists pk'. split; [exact Hn | exact Hc].
Defined.

(* ================================================================== *)
(** ** The class [cosmo]: the Eisenstein-Hu spectrum *)
(* ================================================================== *)

Section EisensteinHu.

Variable sp : Cosmology.scipy.
Variable self : Cosmology.cosmo.

Lemma mapM_pure {A B} (f : A -> result B) (g : A -> B) (l : list A) :
  (forall a, In a l -> f a = Return (g a)) -> mapM f l = Return (map g l).
Proof.
  induction l as [|a l IH]; intros H; [reflexivity|].
  cbn [mapM map]. rewrite (H a) by now left.
  rewrite IH by (intros x Hx; apply H; now right). reflexivity.
Qed.

(** With a positive [om_m*h*h] and a positive [om_b] the scalars raise
    nothing. *)
Lemma EisensteinHu_scalars_return :
  0 < Cosmology.EisensteinHu_om_m self * Cosmology.h self * Cosmology.h self
  -> 0 < Cosmology.Omega_b self ->
  Cosmology.EisensteinHu_scalars self = Return tt.
Proof.
  intros Hw Hb. unfold Cosmology.EisensteinHu_scalars.
  set (om_m := Cosmology.EisensteinHu_om_m self) in *.
  set (hh := Cosmology.h self) in *.
  destruct (Req_dec_T (sum (Cosmology.M_nu self)) 0); [|reflexivity].
  destruct (Req_dec_T (om_m * hh * hh) 0) as [H0 | _]; [lra|].
  cbn [bind].
  assert (Hh : 0 < hh * hh) by (destruct (Req_dec_T hh 0); nra).
  assert (Hom : 0 < om_m) by nra.
  assert (Ht : 0 < (2.728 / 2.7) ^ 4) by (apply pow_lt; lra).
  assert (Hze : 0 < 2.50e4 * om_m * hh * hh / (2.728 / 2.7) ^ 4).
  { apply Rdiv_lt_0_compat; [nra | exact Ht]. }
  assert (Hre : 0 < 31500 * Cosmology.Omega_b self * hh * hh
                    / (2.728 / 2.7) ^ 4
                    / (2.50e4 * om_m * hh * hh / (2.728 / 2.7) ^ 4)).
  { apply Rdiv_lt_0_compat; [|exact Hze].
    apply Rdiv_lt_0_compat; [|exact Ht].
    assert (0 < Cosmology.Omega_b self * (hh * hh))
      by (apply Rmult_lt_0_compat; assumption).
    lra. }
  rewrite pydiv_nonzero by lra. reflexivity.
Qed.

(** With massless neutrinos, a zero [om_m*h*h] or a zero [om_b] makes
    the scalars raise. *)
Lemma EisensteinHu_scalars_raise :
  sum (Cosmology.M_nu self) = 0 ->
  Cosmology.EisensteinHu_om_m self * Cosmology.h self * Cosmology.h self = 0
  \/ Cosmology.Omega_b self = 0 ->
  Cosmology.EisensteinHu_scalars self = Raise ZeroDivisionError.
Proof.
  intros Hnu Hz. unfold Cosmology.EisensteinHu_scalars.
  set (om_m := Cosmology.EisensteinHu_om_m self) in *.
  set (hh := Cosmology.h self) in *.
  destruct (Req_dec_T (sum (Cosmology.M_nu self)) 0); [|contradiction].
  destruct (Req_dec_T (om_m * hh * hh) 0) as [H0 | H0]; [reflexivity|].
  cbn [bind]. destruct Hz as [Hz | Hz]; [contradiction|].
  rewrite Hz.
  replace (31500 * 0 * hh * hh / (2.728 / 2.7) ^ 4
           / (2.50e4 * om_m * hh * hh / (2.728 / 2.7) ^ 4)) with 0
    by (unfold Rdiv; ring).
  rewrite pydiv_zero. reflexivity.
Qed.

(** X29.  In [EisensteinHu_Pk] the scalars come first: with massless
    neutrinos (Python floats) a zero [om_m*h*h] or, for a positive
    [om_m*h*h], a zero [om_b] raises [ZeroDivisionError] whatever [k] and
    [z] are.  For a positive [om_m*h*h] and [0 < om_b <= om_m] the
    function then fails as [compute_sigma_8] does on its [k], with
    [ValueError] on an empty array and with [AssertionError] exactly on a
    [k] that is not empty and not accepted; on an accepted [k] and a [z]
    that is not empty it raises [ZeroDivisionError] when the integral
    [LCDM0] of [D_1] is zero, and where [LCDM0] is not zero it returns an
    array of shape [(len(z), len(k))].  Where the [sigma_8] of the
    spectrum before normalization, [s8], and [D_1(0)] are not zero, its
    entry at [z_i] and [k_j] is [k_j**ns * 2 pi**2 * T(k_j)**2] times
    [(sigma_8/s8)**2] times [(D_1(z_i)/D_1(0))**2]: the rows differ by
    the square of the growth factor alone, whatever the wavenumber. *)
Theorem EisensteinHu_Pk_rows (zs ks : list R) (sigma_8_ : R) :
  let om_m := Cosmology.EisensteinHu_om_m self in
  let w := om_m * Cosmology.h self * Cosmology.h self in
  let LCDM0 :=
    Cosmology.quad_inf sp
      (fun x => (1 + x) * (Cosmology.H0 self / Cosmology.H_massive self x) ^ 3)
      0 in
  let tmp := fun kk =>
    power kk (Cosmology.ns self) * (2 * PI ^ 2)
    * Cosmology.EisensteinHu_T self kk ^ 2 in
  let D := fun zi => at1 (Cosmology.D_1 sp self [zi]) 0 in
  (sum (Cosmology.M_nu self) = 0 ->
   w = 0 \/ (0 < w /\ Cosmology.Omega_b self = 0) ->
   Cosmology.EisensteinHu_Pk sp self zs ks sigma_8_
   = Raise ZeroDivisionError) /\
  (0 < w -> 0 < Cosmology.Omega_b self -> Cosmology.Omega_b self <= om_m ->
   Cosmology.EisensteinHu_Pk sp self zs [] sigma_8_ = Raise ValueError /\
   (ks <> [] ->
    (Cosmology.EisensteinHu_Pk sp self zs ks sigma_8_ = Raise AssertionError
     <-> ~ sigma_8_accepts ks)) /\
   (sigma_8_accepts ks -> zs <> [] -> LCDM0 = 0 ->
    Cosmology.EisensteinHu_Pk sp self zs ks sigma_8_
    = Raise ZeroDivisionError) /\
   (sigma_8_accepts ks -> LCDM0 <> 0 ->
    exists s8 Pk,
      Cosmology.compute_sigma_8 sp ks (map tmp ks) = Return s8 /\
      Cosmology.EisensteinHu_Pk sp self zs ks sigma_8_ = Return Pk /\
      table_shape (length zs) (length ks) Pk /\
      (s8 <> 0 -> D 0 <> 0 ->
       (forall i j, (i < length zs)%nat -> (j < length ks)%nat ->
          at2 Pk i j
          = tmp (at1 ks j) * (sigma_8_ / s8) ^ 2
            * (D (at1 zs i) / D 0) ^ 2) /\
       (forall i l j, (i < length zs)%nat -> (l < length zs)%nat ->
          (j < length ks)%nat ->
          at2 Pk i j * D (at1 zs l) ^ 2 = at2 Pk l j * D (at1 zs i) ^ 2)))).
Proof.
  intros om_m w LCDM0 tmp D.
  split.
  { intros Hnu Hz. unfold Cosmology.EisensteinHu_Pk.
    rewrite EisensteinHu_scalars_raise; [reflexivity | exact Hnu |].
    fold om_m. fold w. tauto. }
  intros Hw Hb _.
  pose proof (EisensteinHu_scalars_return Hw Hb) as Hsc.
  (* the rows, once [compute_sigma_8] has returned *)
  assert (Hrows : forall s8,
            LCDM0 <> 0 ->
            mapM (fun zi =>
                    D_zi <- Cosmology.D_1_call sp self [zi] ;;
                    D_0 <- Cosmology.D_1_call sp self [0] ;;
                    Return (map (fun p => p * (at1 D_zi 0 / at1 D_0 0) ^ 2)
                                (map (fun p => p * (sigma_8_ / s8) ^ 2)
                                     (map tmp ks))))
                 zs
            = Return (map (fun zi =>
                        map (fun p => p * (D zi / D 0) ^ 2)
                            (map (fun p => p * (sigma_8_ / s8) ^ 2)
                                 (map tmp ks)))
                      zs)).
  { intros s8 HL. apply mapM_pure. intros zi _.
    unfold Cosmology.D_1_call. fold LCDM0.
    rewrite pydiv_nonzero by exact HL. reflexivity. }
  assert (Hraise : forall s8 z0 zs',
            LCDM0 = 0 ->
            mapM (fun zi =>
                    D_zi <- Cosmology.D_1_call sp self [zi] ;;
                    D_0 <- Cosmology.D_1_call sp self [0] ;;
                    Return (map (fun p => p * (at1 D_zi 0 / at1 D_0 0) ^ 2)
                                (map (fun p => p * (sigma_8_ / s8) ^ 2)
                                     (map tmp ks))))
                 (z0 :: zs')
            = Raise ZeroDivisionError).
  { intros s8 z0 zs' HL. cbn [mapM].
    unfold Cosmology.D_1_call at 1. fold LCDM0. rewrite HL, pydiv_zero.
    reflexivity. }
  split; [|split; [|split]].
  - unfold Cosmology.EisensteinHu_Pk. rewrite Hsc. reflexivity.
  - intros Hne. unfold Cosmology.EisensteinHu_Pk. rewrite Hsc.
    cbn [bind]. fold tmp.
    destruct (compute_sigma_8_cases sp ks (map tmp ks))
      as [[-> _] | [(_ & Hn & Hr) | [Hacc _]]].
    + contradiction.
    + rewrite Hr. cbn [bind]. tauto.
    + rewrite (compute_sigma_8_value sp _ _ Hacc)
        by (now rewrite length_map).
      cbn [bind]. split; [|intros Hn; contradiction].
      destruct (Req_dec_T LCDM0 0) as [HL | HL].
      * destruct zs as [|z0 zs']; [discriminate|].
        rewrite (Hraise _ _ _ HL). discriminate.
      * rewrite (Hrows _ HL). discriminate.
  - intros Hacc Hzs HL. unfold Cosmology.EisensteinHu_Pk. rewrite Hsc.
    cbn [bind]. fold tmp.
    rewrite (compute_sigma_8_value sp _ _ Hacc) by (now rewrite length_map).
    cbn [bind]. destruct zs as [|z0 zs']; [contradiction|].
    apply (Hraise _ _ _ HL).
  - intros Hacc HL.
    pose proof (compute_sigma_8_value sp ks (map tmp ks) Hacc
                  (length_map _ _)) as Hs8.
    set (s8 := sqrt _) in Hs8.
    set (Pk := map (fun zi =>
                 map (fun p => p * (D zi / D 0) ^ 2)
                     (map (fun p => p * (sigma_8_ / s8) ^ 2) (map tmp ks)))
               zs).
    exists s8, Pk. split; [exact Hs8|].
    split.
    { unfold Cosmology.EisensteinHu_Pk. rewrite Hsc. cbn [bind]. fold tmp.
      rewrite Hs8. cbn [bind]. apply (Hrows _ HL). }
    assert (E : forall i j, (i < length zs)%nat -> (j < length ks)%nat ->
              at2 Pk i j
              = tmp (at1 ks j) * (sigma_8_ / s8) ^ 2
                * (D (at1 zs i) / D 0) ^ 2).
    { intros i j Hi Hj. unfold at2, Pk.
      rewrite (map_nth_in _ _ 0 []) by exact Hi.
      rewrite (map_nth_in _ _ 0 0) by (now rewrite !length_map).
      rewrite (map_nth_in _ _ 0 0) by (now rewrite length_map).
      rewrite (map_nth_in _ _ 0 0) by exact Hj.
      reflexivity. }
    split; [|intros _ _; split].
    + split; [unfold Pk; now rewrite length_map|].
      apply Forall_forall. intros r Hr. apply in_map_iff in Hr.
      destruct Hr as (zi & <- & _). now rewrite !length_map.
    + exact E.
    + intros i l j Hi Hl Hj. rewrite (E i j Hi Hj), (E l j Hl Hj).
      unfold Rdiv. ring.
Qed.

End EisensteinHu.

(** The instance of the defaults has massless neutrinos and no
    curvature, so [om_m] is [Omega_m = 0.3089]; [Omega_b = 0.0486]; and
    with the sample integrator the integral [LCDM0] of [D_1] is 1. *)
Lemma sample_EisensteinHu (self : Cosmology.cosmo) :
  Cosmology.init SampleCosmology.const0 SampleCosmology.sp0 0.3089 0.0486
    0 3 [0] 3.046 (Some 2.14e-9) 0.9667 None 0.6774 (-1) 0 0.06 2.7255
  = Return self ->
  sum (Cosmology.M_nu self) = 0 /\
  Cosmology.EisensteinHu_om_m self = 0.3089 /\
  Cosmology.Omega_b self = 0.0486 /\
  Cosmology.h self = 0.6774 /\
  Cosmology.quad_inf SampleCosmology.sp0
    (fun x => (1 + x) * (Cosmology.H0 self / Cosmology.H_massive self x) ^ 3)
    0 = 1.
Proof.
  intros Hs.
  pose proof (init_Return _ _ _ _ _ _ _ _ _ _ _ _ _ _ _ _ _ Hs) as I.
  cbv zeta in I.
  destruct I as (HOm & HOb & HOK & _ & HM & _ & _ & _ & _ & Hh & HH0 & _).
  assert (Hsum : sum (Cosmology.M_nu self) = 0).
  { rewrite HM. cbn [Cosmology.pad length Nat.sub repeat app sum fold_right].
    lra. }
  split; [exact Hsum|]. split; [|split; [exact HOb|split; [exact Hh|]]].
  - unfold Cosmology.EisensteinHu_om_m.
    destruct (Req_dec_T (sum (Cosmology.M_nu self)) 0); [|contradiction].
    destruct (Req_dec_T (Cosmology.Omega_K self) 0); [exact HOm|].
    contradiction.
  - cbn [Cosmology.quad_inf SampleCosmology.sp0].
    rewrite (H_massive_today _ _ _ _ _ _ _ _ _ _ _ _ _ _ _ _ _ Hs).
    assert (H0n : Cosmology.H0 self <> 0) by (rewrite HH0, Hh; lra).
    field. exact H0n.
Qed.

(** X29, on the sample [k] array of 100 points, at [z = 0] and [z = 1],
    for the instance of the defaults of [cosmo()]. *)
Lemma EisensteinHu_Pk_rows_witness :
  exists self Pk,
    Cosmology.init SampleCosmology.const0 SampleCosmology.sp0 0.3089 0.0486
      0 3 [0] 3.046 (Some 2.14e-9) 0.9667 None 0.6774 (-1) 0 0.06 2.7255
    = Return self /\
    Cosmology.EisensteinHu_Pk SampleCosmology.sp0 self [0; 1]
      SampleCosmology.k8 0.83 = Return Pk /\
    table_shape 2 100 Pk.
Proof.
  destruct sample_cosmo as [self Hs]. exists self.
  destruct (sample_EisensteinHu self Hs) as (_ & Hom & Hb & Hh & HL).
  assert (Hw : 0 < Cosmology.EisensteinHu_om_m self * Cosmology.h self
                   * Cosmology.h self) by (rewrite Hom, Hh; lra).
  assert (Hb0 : 0 < Cosmology.Omega_b self) by (rewrite Hb; lra).
  assert (Hbm : Cosmology.Omega_b self <= Cosmology.EisensteinHu_om_m self)
    by (rewrite Hb, Hom; lra).
  assert (HL0 : Cosmology.quad_inf SampleCosmology.sp0
                  (fun x => (1 + x) * (Cosmology.H0 self
                                       / Cosmology.H_massive self x) ^ 3) 0
                <> 0) by (rewrite HL; lra).
  destruct (proj2 (proj2 (proj2
              (proj2 (EisensteinHu_Pk_rows SampleCosmology.sp0 self
                        [0; 1] SampleCosmology.k8 0.83) Hw Hb0 Hbm)))
              k8_accepted HL0) as (s8 & Pk & _ & HPk & Sh & _).
  exists Pk. split; [exact Hs|]. split; [exact HPk|].
  unfold SampleCosmology.k8 in Sh. cbn [length] in Sh.
  rewrite repeat_length in Sh. exact Sh.
Defined.

(* ================================================================== *)
(** ** The search of [M_1] and the effective spectral index *)
(* ================================================================== *)

Lemma log10_Rpower_10 (y : R) : log10 (Rpower 10 y) = y.
Proof.
  unfold log10, Rpower. rewrite ln_exp. field.
  pose proof ln_10_pos. lra.
Qed.

(** [log10] of the mass grid is the linear grid from 0 to 18. *)
Lemma log10_mass_grid_nth (i : nat) :
  (i < 512)%nat ->
  nth i (map log10 (logspace 0 18 512)) 0 = INR i * (18 / 511).
Proof.
  intros Hi.
  rewrite (map_nth_in _ _ 0 0) by (rewrite logspace_length; exact Hi).
  fold (at1 (logspace 0 18 512) i). rewrite mass_grid_nth by exact Hi.
  apply log10_Rpower_10.
Qed.

Lemma log10_mass_grid_bounds (a : R) :
  In a (map log10 (logspace 0 18 512)) -> 0 <= a <= 18.
Proof.
  intros Ha. apply (In_nth _ _ 0) in Ha. destruct Ha as (i & Hi & <-).
  rewrite length_map, logspace_length in Hi.
  rewrite log10_mass_grid_nth by exact Hi.
  assert (H0 : 0 <= INR i) by apply pos_INR.
  assert (H1 : INR i <= 511).
  { rewrite <- INR_511. apply le_INR. lia. }
  lra.
Qed.

(** An abscissa outside [[0, 18]] is outside the table of [log10 M]. *)
Lemma outside_mass_table (lib : library) (ys : list R) (x : R) :
  interp1d_bounds lib -> x < 0 \/ 18 < x ->
  interp1d lib (map log10 (logspace 0 18 512)) ys x = None.
Proof.
  intros Hb [Hx | Hx]; apply Hb; [left | right]; intros a Ha;
    apply log10_mass_grid_bounds in Ha; lra.
Qed.

(** C4 (amended).  In an instance that is constructed, for every
    redshift of the grid [n_eff = -3 - 3 * dln(sig2)/dln(M)], the
    derivative of the spline of [ln sig2] over [ln M] taken at [ln M_1].
    [log10 M_1] is what [scipy.optimize.root] returns for the cubic
    interpolant of [sig2 - deltac**2] over [log10 M], started from the
    seed [13 - 1.75*(1+z)]; whether the solver converged is not looked
    at.  [log10 M_1] is the seed itself when the search raises
    [ValueError] ([None] here), which is what happens whenever the seed
    is outside the tabulated [0 <= log10 M <= 18], that is for
    [z > 45/7] and for [z < -27/7]: the interpolant raises at the first
    evaluation. *)
Theorem effective_spectral_index (lib : library) (cosmology : cosmo)
  (zs ks : list R) (pk_in : array2) (field : string) (bao : bool)
  (e : halofit_operator) :
  halofit_init lib cosmology zs ks pk_in field bao = Return e ->
  forall iz, (iz < length zs)%nat ->
  let seed := 13 - 1.75 * (1 + at1 zs iz) in
  let sig_int_2 :=
    interp1d lib (map log10 (mass e))
             (map (fun s => s - at1 (deltac e) iz ^ 2)
                  (nth iz (sig2 e) [])) in
  let s2_spl' :=
    spline_derivative lib (map ln (mass e)) (map ln (nth iz (sig2 e) [])) in
  exists M_1,
    0 < M_1 /\
    at1 (n_eff e) iz = - 3 - 3 * s2_spl' (ln M_1) /\
    (forall x, optimize_root lib sig_int_2 seed = Some x -> log10 M_1 = x) /\
    (optimize_root lib sig_int_2 seed = None -> log10 M_1 = seed) /\
    (interp1d_bounds lib -> root_starts_at_seed lib ->
     seed < 0 \/ 18 < seed ->
     sig_int_2 seed = None /\ log10 M_1 = seed).
Proof.
  intros H iz Hiz seed sig_int_2 s2_spl'.
  pose proof (halofit_init_grids _ _ _ _ _ _ _ _ H) as G.
  destruct G as (Hz & _ & Hnz & _ & _ & Hmass & _ & Hln & _).
  apply halofit_init_Return in H.
  destruct H as (_ & _ & smear & rho & _ & _ & H).
  apply compute_nonlinear_pk_Return in H.
  assert (Hn : n_eff e = tabulate (nz e) (fun i =>
              n_eff_of lib (mass e) (lnmass e) (nth i (sig2 e) [])
                       (at1 (deltac e) i) (at1 (z e) i)))
    by (decompose [and] H; assumption).
  exists (M_1_of lib (mass e) (nth iz (sig2 e) []) (at1 (deltac e) iz)
                 (at1 zs iz)).
  assert (Hnone : optimize_root lib sig_int_2 seed = None ->
                  log10 (M_1_of lib (mass e) (nth iz (sig2 e) [])
                           (at1 (deltac e) iz) (at1 zs iz)) = seed).
  { intros Hx. unfold M_1_of. fold sig_int_2 seed. rewrite Hx.
    apply log10_power_10. }
  split; [|split; [|split; [|split]]].
  - unfold M_1_of. destruct (optimize_root _ _ _); apply power_10_pos.
  - unfold at1 at 1. rewrite Hn, Hnz, tabulate_nth by exact Hiz.
    rewrite Hz, Hln. reflexivity.
  - intros x Hx. unfold M_1_of. fold sig_int_2 seed. rewrite Hx.
    apply log10_power_10.
  - exact Hnone.
  - intros Hb Hr Hseed.
    assert (Hout : sig_int_2 seed = None).
    { unfold sig_int_2. rewrite Hmass.
      now apply outside_mass_table. }
    split; [exact Hout|]. apply Hnone. now apply Hr.
Qed.

(** *** A library whose interpolant has a range *)

Lemma lib1_interp1d_bounds : interp1d_bounds Sample.lib1.
Proof.
  intros xs ys x H. cbn [interp1d Sample.lib1]. unfold Sample.in_range.
  destruct (amin xs) as [lo|] eqn:Hlo; [|reflexivity].
  destruct (amax xs) as [hi|] eqn:Hhi; [|reflexivity].
  apply amin_spec in Hlo. apply amax_spec in Hhi.
  destruct Hlo as [Hlo _]. destruct Hhi as [Hhi _].
  destruct H as [H | H].
  - specialize (H lo Hlo). rewrite Rleb_false by lra. reflexivity.
  - specialize (H hi Hhi). rewrite (Rleb_false x hi) by lra.
    now rewrite andb_false_r.
Qed.

Lemma lib1_root_starts_at_seed : root_starts_at_seed Sample.lib1.
Proof. intros f x0 H. cbn [optimize_root Sample.lib1]. now rewrite H. Qed.

Lemma in_range_between (xs : list R) (a b x : R) :
  In a xs -> In b xs -> a <= x <= b -> Sample.in_range xs x = true.
Proof.
  intros Ha Hb Hx. unfold Sample.in_range.
  destruct xs as [|x0 l]; [contradiction|].
  destruct (amin (x0 :: l)) as [lo|] eqn:Hlo; [|discriminate].
  destruct (amax (x0 :: l)) as [hi|] eqn:Hhi; [|discriminate].
  apply amin_spec in Hlo. apply amax_spec in Hhi.
  destruct Hlo as [_ Hlo]. destruct Hhi as [_ Hhi].
  specialize (Hlo a Ha). specialize (Hhi b Hb).
  rewrite !Rleb_true by lra. reflexivity.
Qed.

Lemma last_nth {A} (l : list A) (d : A) :
  last l d = nth (length l - 1) l d.
Proof.
  induction l as [|a [|b l] IH]; [reflexivity | reflexivity |].
  change (last (a :: b :: l) d) with (last (b :: l) d). rewrite IH.
  cbn [length Nat.sub nth]. now rewrite Nat.sub_0_r.
Qed.

Lemma mass_grid_bounds (m : R) :
  In m (logspace 0 18 512) -> 1 <= m <= Rpower 10 18.
Proof.
  intros Hm. apply (In_nth _ _ 0) in Hm. destruct Hm as (i & Hi & <-).
  rewrite logspace_length in Hi. fold (at1 (logspace 0 18 512) i).
  rewrite mass_grid_nth by exact Hi.
  assert (H0 : 0 <= INR i) by apply pos_INR.
  assert (H1 : INR i <= 511).
  { rewrite <- INR_511. apply le_INR. lia. }
  split.
  - rewrite <- (Rpower_O 10) by lra. apply Rle_Rpower; lra.
  - apply Rle_Rpower; lra.
Qed.

(** With the extrapolation of [lib1] the interpolant of [sigma(M)] is
    evaluated inside its range. *)
Lemma lib1_sig_int : sig_int_defined Sample.lib1 (logspace 0 18 512).
Proof.
  intros sig m Hm ext. subst ext.
  cbn [extrapolate_log interp1d Sample.lib1 fst snd].
  pose proof (mass_grid_bounds m Hm) as [Hm1 Hm2].
  assert (H0 : at1 (logspace 0 18 512) 0 = 1).
  { rewrite mass_grid_nth by lia. cbn [INR]. rewrite Rmult_0_l.
    apply Rpower_O. lra. }
  assert (Hl : last (logspace 0 18 512) 0 = Rpower 10 18).
  { rewrite last_nth, logspace_length.
    change (512 - 1)%nat with 511%nat.
    fold (at1 (logspace 0 18 512) 511). rewrite mass_grid_nth by lia.
    f_equal. change (INR 511) with (INR (512 - 1)). rewrite INR_511.
    lra. }
  rewrite H0, Hl.
  rewrite (in_range_between _ (1e-1 * 0.01 * 1) (1e1 * Rpower 10 18)).
  - now eexists.
  - now left.
  - right. apply in_or_app. right. now left.
  - lra.
Qed.

(** The constructor returns at [z = 40.] with the library [lib1]. *)
Lemma sample_halofit_z40 :
  exists e,
    halofit_init Sample.lib1 Sample.cosmo0 Sample.z40 Sample.k0
                 Sample.pk40 "cb" false = Return e.
Proof.
  apply halofit_init_returns.
  - exact k0_sufficient.
  - apply full_well_shaped.
  - now left.
  - exact lib1_sig_int.
  - exact cosmo0_log10_As.
Qed.

(** C4, at [z = 40.]: the seed [-58.75] is below the table, the search
    raises at once and the index is taken at the seed. *)
Lemma effective_spectral_index_witness :
  exists e,
    halofit_init Sample.lib1 Sample.cosmo0 Sample.z40 Sample.k0
                 Sample.pk40 "cb" false = Return e /\
    exists M_1,
      0 < M_1 /\
      at1 (n_eff e) 0
      = - 3 - 3 * spline_derivative Sample.lib1 (map ln (mass e))
                    (map ln (nth 0 (sig2 e) [])) (ln M_1) /\
      log10 M_1 = 13 - 1.75 * (1 + 40).
Proof.
  destruct sample_halofit_z40 as [e He]. exists e. split; [exact He|].
  assert (H0 : (0 < length Sample.z40)%nat) by (simpl; lia).
  destruct (effective_spectral_index _ _ _ _ _ _ _ _ He 0%nat H0)
    as (M_1 & Hpos & E & _ & _ & Hseed).
  exists M_1. split; [exact Hpos|]. split; [exact E|].
  apply Hseed.
  - exact lib1_interp1d_bounds.
  - exact lib1_root_starts_at_seed.
  - left. cbn [at1 nth Sample.z40]. lra.
Defined.

(** The interpolant of [sig2_line - 2**2] over [log10 M]: the line
    [0.9 - x/10] on [[0, 18]]. *)
Lemma sig2_line_interpolant (x : R) :
  0 <= x <= 18 ->
  interp1d Sample.lib1 (map log10 Sample.mass0)
           (map (fun s => s - 2 ^ 2) Sample.sig2_line) x
  = Some (0.9 - x / 10).
Proof.
  intros Hx. cbn [interp1d Sample.lib1]. unfold Sample.mass0.
  assert (X0 : nth 0 (map log10 (logspace 0 18 512)) 0 = 0).
  { rewrite log10_mass_grid_nth by lia. cbn [INR]. lra. }
  assert (X1 : nth 511 (map log10 (logspace 0 18 512)) 0 = 18).
  { rewrite log10_mass_grid_nth by lia.
    change (INR 511) with (INR (512 - 1)). rewrite INR_511. lra. }
  assert (Y : forall i, (i < 512)%nat ->
            nth i (map (fun s => s - 2 ^ 2) Sample.sig2_line) 0
            = (9 - nth i (map log10 (logspace 0 18 512)) 0) / 10).
  { intros i Hi. unfold Sample.sig2_line, Sample.mass0.
    rewrite !map_map.
    rewrite (map_nth_in _ _ 0 0) by (rewrite logspace_length; exact Hi).
    rewrite (map_nth_in _ _ 0 0) by (rewrite logspace_length; exact Hi).
    field. }
  rewrite (in_range_between _ 0 18).
  - f_equal. unfold Sample.chord.
    rewrite length_map, logspace_length.
    change (512 - 1)%nat with 511%nat.
    rewrite !Y by lia. rewrite X0, X1. lra.
  - pose proof (nth_In (map log10 (logspace 0 18 512)) 0 (n := 0%nat)) as H.
    rewrite X0 in H. apply H. rewrite length_map, logspace_length. lia.
  - pose proof (nth_In (map log10 (logspace 0 18 512)) 0 (n := 511%nat)) as H.
    rewrite X1 in H. apply H. rewrite length_map, logspace_length. lia.
  - exact Hx.
Qed.

(** C4 as stated fails.  On the mass grid of the class, with
    [deltac = 2] and the table [sig2 = 4 + (9 - log10 M)/10], the
    equation [sig2(M) = deltac**2] has the root [M = 10**9], bracketed
    inside the table (the interpolant is positive at [log10 M = 0] and
    negative at [log10 M = 18]).  At [z = 40] the search starts at the
    seed [-58.75], outside the table, and raises: [M_1] is the seed,
    which is not the root, and the index is taken there. *)
Lemma seed_used_despite_bracketed_root :
  let sig_int_2 :=
    interp1d Sample.lib1 (map log10 Sample.mass0)
             (map (fun s => s - 2 ^ 2) Sample.sig2_line) in
  let seed := 13 - 1.75 * (1 + 40) in
  let M_1 := M_1_of Sample.lib1 Sample.mass0 Sample.sig2_line 2 40 in
  sig_int_2 0 = Some 0.9 /\ sig_int_2 18 = Some (- 0.9) /\
  sig_int_2 9 = Some 0 /\
  sig_int_2 seed = None /\
  M_1 = power 10 seed /\ log10 M_1 = seed /\ log10 M_1 <> 9 /\
  sig_int_2 (log10 M_1) <> Some 0 /\
  n_eff_of Sample.lib1 Sample.mass0 (map ln Sample.mass0) Sample.sig2_line
           2 40
  = - 3 - 3 * (seed * ln 10) /\
  n_eff_of Sample.lib1 Sample.mass0 (map ln Sample.mass0) Sample.sig2_line
           2 40
  <> - 3 - 3 * (9 * ln 10).
Proof.
  intros sig_int_2 seed M_1.
  assert (Hout : sig_int_2 seed = None).
  { unfold sig_int_2, Sample.mass0.
    apply outside_mass_table; [exact lib1_interp1d_bounds|].
    left. unfold seed. lra. }
  assert (HM : M_1 = power 10 seed).
  { unfold M_1, M_1_of. fold sig_int_2 seed.
    rewrite (lib1_root_starts_at_seed _ _ Hout). reflexivity. }
  assert (Hlog : log10 M_1 = seed) by (rewrite HM; apply log10_power_10).
  assert (Hn : n_eff_of Sample.lib1 Sample.mass0 (map ln Sample.mass0)
                          Sample.sig2_line 2 40
               = - 3 - 3 * (seed * ln 10)).
  { unfold n_eff_of. fold M_1. cbn [spline_derivative Sample.lib1].
    rewrite HM, power_pos_base by lra. rewrite ln_Rpower. reflexivity. }
  split; [|split; [|split; [|split; [|split; [|split; [|split; [|split;
    [|split]]]]]]]].
  - unfold sig_int_2. rewrite sig2_line_interpolant by lra.
    f_equal. lra.
  - unfold sig_int_2. rewrite sig2_line_interpolant by lra.
    f_equal. lra.
  - unfold sig_int_2. rewrite sig2_line_interpolant by lra.
    f_equal. lra.
  - exact Hout.
  - exact HM.
  - exact Hlog.
  - rewrite Hlog. unfold seed. lra.
  - rewrite Hlog, Hout. discriminate.
  - exact Hn.
  - rewrite Hn. pose proof ln_10_pos as H10. unfold seed. nra.
Qed.
